(** * A shallow embedding of the @mangosteen/rate-limiter token buckets and
      prioritized FIFO limiter, with the properties its specification states.

    Conventions of the embedding.

    - A JavaScript [number] is a rational extended with the IEEE special
      values [+Infinity], [-Infinity] and [NaN] (type [num]). The
      operations of module [Num] compute exactly. Module [F64] rounds
      them as binary64 does, and module [Bucket64] repeats the token
      accounting of [TokenBucket] with the rounded operations: the bounds
      of the content, which rounding and overflow decide, are proved
      there. The only zero is [+0]: every divisor the code uses is a sum
      started at the literal [0].
    - [performance.now()] is an explicit argument [now] of every operation;
      all readings taken during one synchronous call are the same instant.
    - An object that is compared by identity (a restorer, a resolve
      callback, an awaiter) carries a natural-number identity.
    - The ordered collections of functional-red-black-tree are kept as their
      in-order sequence: a list sorted by key, duplicates allowed. The
      sequence decides every result as long as the keys are numbers other
      than [NaN]. The comparator finds [NaN] equal to every key: a new
      [NaN] key descends to the left of every node and becomes the first
      entry, but once a [NaN] key is in the tree the descent of a later
      [insert], [get] or [find] depends on the shape of the tree, which
      the sequence does not record; there the embedding follows the code
      on a tree of one node only.
    - Calling a [resolve]/[reject] callback appends to a trace; timers are
      kept as the delay they were armed with.
    - The mutual recursion of [_checkListeners] and [_scheduleCheckListeners]
      is bounded by a fuel argument; running out of fuel is the separate
      outcome [None]/[OutOfFuel], and the theorems that say an operation
      returns give the fuel that is enough. *)

From Stdlib Require Import QArith Qcanon Qround Qpower Lqa Lia List Bool Sorted
  Permutation Arith ZArith.
Import ListNotations.

Set Implicit Arguments.

(* ================================================================== *)
(** ** JavaScript numbers *)

Module Num.

Inductive num : Type :=
| Fin (q : Qc)
| PInf
| NInf
| NaN.

Definition Qcleb (a b : Qc) : bool := Qle_bool a b.
Definition Qcltb (a b : Qc) : bool := negb (Qle_bool b a).
Definition Qceqb (a b : Qc) : bool := Qc_eq_bool a b.

Definition zero : num := Fin 0%Qc.
Definition of_Z (z : Z) : num := Fin (Q2Qc (inject_Z z)).
Definition of_Q (q : Q) : num := Fin (Q2Qc q).

(** [a < b] *)
Definition lt (a b : num) : bool :=
  match a, b with
  | NaN, _ | _, NaN => false
  | Fin x, Fin y => Qcltb x y
  | NInf, NInf => false
  | NInf, _ => true
  | _, NInf => false
  | PInf, _ => false
  | Fin _, PInf => true
  end.

(** [a <= b] *)
Definition le (a b : num) : bool :=
  match a, b with
  | NaN, _ | _, NaN => false
  | Fin x, Fin y => Qcleb x y
  | NInf, _ => true
  | _, NInf => false
  | _, PInf => true
  | PInf, Fin _ => false
  end.

(** [a > b] *)
Definition gt (a b : num) : bool := lt b a.

(** [a === b] on numbers *)
Definition eqb (a b : num) : bool :=
  match a, b with
  | Fin x, Fin y => Qceqb x y
  | PInf, PInf => true
  | NInf, NInf => true
  | _, _ => false
  end.

Definition isNaN (a : num) : bool :=
  match a with NaN => true | _ => false end.

(** [Number.isFinite] *)
Definition isFinite (a : num) : bool :=
  match a with Fin _ => true | _ => false end.

(** unary minus *)
Definition neg (a : num) : num :=
  match a with
  | Fin x => Fin (- x)%Qc
  | PInf => NInf
  | NInf => PInf
  | NaN => NaN
  end.

(** [a + b] *)
Definition add (a b : num) : num :=
  match a, b with
  | NaN, _ | _, NaN => NaN
  | Fin x, Fin y => Fin (x + y)%Qc
  | PInf, NInf | NInf, PInf => NaN
  | PInf, _ | _, PInf => PInf
  | NInf, _ | _, NInf => NInf
  end.

(** [a - b] *)
Definition sub (a b : num) : num := add a (neg b).

(** the sign of a rational: [Lt], [Eq] or [Gt] against zero *)
Definition sgn (x : Qc) : comparison :=
  if Qcltb x 0%Qc then Lt else if Qceqb x 0%Qc then Eq else Gt.

(** an infinity of the given sign; [NaN] for the sign of zero *)
Definition inf_of (c : comparison) : num :=
  match c with Gt => PInf | Lt => NInf | Eq => NaN end.

Definition flip (c : comparison) : comparison :=
  match c with Gt => Lt | Lt => Gt | Eq => Eq end.

(** [a * b] *)
Definition mul (a b : num) : num :=
  match a, b with
  | NaN, _ | _, NaN => NaN
  | Fin x, Fin y => Fin (x * y)%Qc
  | PInf, Fin y | Fin y, PInf => inf_of (sgn y)
  | NInf, Fin y | Fin y, NInf => inf_of (flip (sgn y))
  | PInf, PInf | NInf, NInf => PInf
  | PInf, NInf | NInf, PInf => NInf
  end.

(** [a / b]; the zero divisor is [+0] *)
Definition div (a b : num) : num :=
  match a, b with
  | NaN, _ | _, NaN => NaN
  | Fin x, Fin y =>
      if Qceqb y 0%Qc then inf_of (sgn x) else Fin (x / y)%Qc
  | Fin _, (PInf | NInf) => zero
  | (PInf | NInf), (PInf | NInf) => NaN
  | PInf, Fin y => if Qcltb y 0%Qc then NInf else PInf
  | NInf, Fin y => if Qcltb y 0%Qc then PInf else NInf
  end.

(** [Math.min(a, b)] *)
Definition min (a b : num) : num :=
  match a, b with
  | NaN, _ | _, NaN => NaN
  | _, _ => if le a b then a else b
  end.

(** [Math.max(a, b)] *)
Definition max (a b : num) : num :=
  match a, b with
  | NaN, _ | _, NaN => NaN
  | _, _ => if le a b then b else a
  end.

End Num.

Import Num.

Declare Scope num_scope.
Delimit Scope num_scope with num.
Bind Scope num_scope with num.
Infix "+" := Num.add : num_scope.
Infix "-" := Num.sub : num_scope.
Infix "*" := Num.mul : num_scope.
Infix "/" := Num.div : num_scope.
Infix "<?" := Num.lt : num_scope.
Infix "<=?" := Num.le : num_scope.
Infix ">?" := Num.gt : num_scope.

(* ================================================================== *)
(** ** Outcomes of a call *)

(** [InvalidArgument] is the plain [Error] the constructors and operations
    throw on a bad argument, [CanceledError] the class of models.ts, and
    [TypeError] what a call of a method the receiver does not have throws. *)
Inductive error : Type :=
| InvalidArgument
| CanceledError
| TypeError.

Inductive result (A : Type) : Type :=
| Ok (a : A)
| Throw (e : error)
| OutOfFuel.

Arguments Ok {A} a.
Arguments Throw {A} e.
Arguments OutOfFuel {A}.

Definition bind {A B : Type} (r : result A) (k : A -> result B) : result B :=
  match r with
  | Ok a => k a
  | Throw e => Throw e
  | OutOfFuel => OutOfFuel
  end.

Definition of_option {A : Type} (o : option A) : result A :=
  match o with Some a => Ok a | None => OutOfFuel end.

Notation "x <- c ;; k" := (bind c (fun x => k))
  (at level 61, c at next level, right associativity).

(* ================================================================== *)
(** ** The ordered collection (functional-red-black-tree), as its in-order
       sequence *)

Module Tree.

Section WithValue.
Variable V : Type.

Definition tree : Type := list (num * V).

(** [tree.insert(key, value)]: the descent goes left unless
    [key > node.key], so the new entry lands before the first entry
    whose key it does not exceed. *)
Fixpoint insert (k : num) (v : V) (t : tree) : tree :=
  match t with
  | [] => [(k, v)]
  | (k', v') :: rest =>
      if (k >? k')%num then (k', v') :: insert k v rest
      else (k, v) :: t
  end.

(** [tree.begin.key] ([undefined] on the empty tree) *)
Definition begin_key (t : tree) : option num :=
  match t with
  | [] => None
  | (k, _) :: _ => Some k
  end.

(** [tree.end]: the entry of the greatest key *)
Definition end_entry (t : tree) : option (num * V) :=
  match rev t with
  | [] => None
  | e :: _ => Some e
  end.

(** [tree.length] *)
Definition length (t : tree) : nat := List.length t.

(** The comparator finds [k] and [k'] equal: neither is below the
    other. *)
Definition same_key (k k' : num) : bool :=
  negb (k <? k')%num && negb (k >? k')%num.

(** [tree.get(key)] *)
Fixpoint get (k : num) (t : tree) : option V :=
  match t with
  | [] => None
  | (k', v) :: rest => if same_key k k' then Some v else get k rest
  end.

(** The value found under [k] replaced: what mutating the object held
    there amounts to. *)
Fixpoint replace (k : num) (v : V) (t : tree) : tree :=
  match t with
  | [] => []
  | (k', v') :: rest =>
      if same_key k k' then (k', v) :: rest
      else (k', v') :: replace k v rest
  end.

(** [tree.find(key).remove()] *)
Fixpoint remove (k : num) (t : tree) : tree :=
  match t with
  | [] => []
  | (k', v') :: rest =>
      if same_key k k' then rest else (k', v') :: remove k rest
  end.

(** [tree.forEach] with an accumulating visitor, in key order *)
Definition forEach {A : Type} (f : A -> num -> V -> A) (t : tree) (a : A) : A :=
  fold_left (fun acc e => f acc (fst e) (snd e)) t a.

End WithValue.

End Tree.

(* ================================================================== *)
(** ** Token restorers (token-restorers.ts) *)

Record Rate : Type := mkRate {
  amount : num;
  intervalMs : num
}.

Record ContinuousTokenRestorer : Type := mkContinuous {
  c_id : nat;
  c_rate : Rate
}.

(** The one concrete discrete restorer, [PeriodicTokenRestorer]. *)
Record DiscreteTokenRestorer : Type := mkDiscrete {
  d_id : nat;
  d_rate : Rate
}.

(** What [addTokenRestorer] can be handed at run time. *)
Inductive TokenRestorer : Type :=
| Continuous (r : ContinuousTokenRestorer)
| Discrete (r : DiscreteTokenRestorer)
| NotARestorer.

(** [ContinuousTokenRestorer.computeAggregateRatePerMs] *)
Definition computeAggregateRatePerMs (restorers : list ContinuousTokenRestorer) : num :=
  fold_left
    (fun amountPerMs r => (amountPerMs + amount (c_rate r) / intervalMs (c_rate r))%num)
    restorers zero.

(* ================================================================== *)
(** ** TokenBucket and RollingWindowTokenBucket *)

(** The fields RollingWindowTokenBucket adds to a TokenBucket. *)
Record Window : Type := mkWindow {
  _historyIntervalMs : num;
  _maxHistoryTokens : num;
  _history : Tree.tree num;          (* timestamp -> tokens spent *)
  _cleanUpHandle : option num        (* delay of the armed clean-up timer *)
}.

(** A bucket object. [window] is [None] for a plain [TokenBucket] and
    [Some] for a [RollingWindowTokenBucket]; the overridden methods
    dispatch on it. *)
Record Bucket : Type := mkBucket {
  _tokenContent : num;
  _maxTokens : num;
  _continuousTokenRestorers : list ContinuousTokenRestorer;
  _continuousRestoreRatePerMs : num;
  _continuousRestoreLastTimestamp : num;
  _discreteTokenRestorers : list nat;
  _tokenListeners : Tree.tree nat;   (* requested count -> resolve callback *)
  _checkListenersHandle : option num;(* delay of the armed recheck timer *)
  nextListener : nat;               (* identity of the next resolve callback *)
  resolved : list nat;              (* resolve callbacks called, oldest first *)
  rejected : list nat;              (* waits rejected with CanceledError *)
  window : option Window
}.

Definition set_tokenContent (v : num) (s : Bucket) : Bucket :=
  mkBucket v (_maxTokens s) (_continuousTokenRestorers s)
    (_continuousRestoreRatePerMs s) (_continuousRestoreLastTimestamp s)
    (_discreteTokenRestorers s) (_tokenListeners s) (_checkListenersHandle s)
    (nextListener s) (resolved s) (rejected s) (window s).

Definition set_continuousTokenRestorers (v : list ContinuousTokenRestorer)
    (s : Bucket) : Bucket :=
  mkBucket (_tokenContent s) (_maxTokens s) v
    (_continuousRestoreRatePerMs s) (_continuousRestoreLastTimestamp s)
    (_discreteTokenRestorers s) (_tokenListeners s) (_checkListenersHandle s)
    (nextListener s) (resolved s) (rejected s) (window s).

Definition set_continuousRestoreRatePerMs (v : num) (s : Bucket) : Bucket :=
  mkBucket (_tokenContent s) (_maxTokens s) (_continuousTokenRestorers s)
    v (_continuousRestoreLastTimestamp s)
    (_discreteTokenRestorers s) (_tokenListeners s) (_checkListenersHandle s)
    (nextListener s) (resolved s) (rejected s) (window s).

Definition set_continuousRestoreLastTimestamp (v : num) (s : Bucket) : Bucket :=
  mkBucket (_tokenContent s) (_maxTokens s) (_continuousTokenRestorers s)
    (_continuousRestoreRatePerMs s) v
    (_discreteTokenRestorers s) (_tokenListeners s) (_checkListenersHandle s)
    (nextListener s) (resolved s) (rejected s) (window s).

Definition set_discreteTokenRestorers (v : list nat) (s : Bucket) : Bucket :=
  mkBucket (_tokenContent s) (_maxTokens s) (_continuousTokenRestorers s)
    (_continuousRestoreRatePerMs s) (_continuousRestoreLastTimestamp s)
    v (_tokenListeners s) (_checkListenersHandle s)
    (nextListener s) (resolved s) (rejected s) (window s).

Definition set_tokenListeners (v : Tree.tree nat) (s : Bucket) : Bucket :=
  mkBucket (_tokenContent s) (_maxTokens s) (_continuousTokenRestorers s)
    (_continuousRestoreRatePerMs s) (_continuousRestoreLastTimestamp s)
    (_discreteTokenRestorers s) v (_checkListenersHandle s)
    (nextListener s) (resolved s) (rejected s) (window s).

Definition set_checkListenersHandle (v : option num) (s : Bucket) : Bucket :=
  mkBucket (_tokenContent s) (_maxTokens s) (_continuousTokenRestorers s)
    (_continuousRestoreRatePerMs s) (_continuousRestoreLastTimestamp s)
    (_discreteTokenRestorers s) (_tokenListeners s) v
    (nextListener s) (resolved s) (rejected s) (window s).

Definition set_nextListener (v : nat) (s : Bucket) : Bucket :=
  mkBucket (_tokenContent s) (_maxTokens s) (_continuousTokenRestorers s)
    (_continuousRestoreRatePerMs s) (_continuousRestoreLastTimestamp s)
    (_discreteTokenRestorers s) (_tokenListeners s) (_checkListenersHandle s)
    v (resolved s) (rejected s) (window s).

Definition set_resolved (v : list nat) (s : Bucket) : Bucket :=
  mkBucket (_tokenContent s) (_maxTokens s) (_continuousTokenRestorers s)
    (_continuousRestoreRatePerMs s) (_continuousRestoreLastTimestamp s)
    (_discreteTokenRestorers s) (_tokenListeners s) (_checkListenersHandle s)
    (nextListener s) v (rejected s) (window s).

Definition set_rejected (v : list nat) (s : Bucket) : Bucket :=
  mkBucket (_tokenContent s) (_maxTokens s) (_continuousTokenRestorers s)
    (_continuousRestoreRatePerMs s) (_continuousRestoreLastTimestamp s)
    (_discreteTokenRestorers s) (_tokenListeners s) (_checkListenersHandle s)
    (nextListener s) (resolved s) v (window s).

Definition set_window (v : option Window) (s : Bucket) : Bucket :=
  mkBucket (_tokenContent s) (_maxTokens s) (_continuousTokenRestorers s)
    (_continuousRestoreRatePerMs s) (_continuousRestoreLastTimestamp s)
    (_discreteTokenRestorers s) (_tokenListeners s) (_checkListenersHandle s)
    (nextListener s) (resolved s) (rejected s) v.

Definition set_history (v : Tree.tree num) (w : Window) : Window :=
  mkWindow (_historyIntervalMs w) (_maxHistoryTokens w) v (_cleanUpHandle w).

Definition set_cleanUpHandle (v : option num) (w : Window) : Window :=
  mkWindow (_historyIntervalMs w) (_maxHistoryTokens w) (_history w) v.

(** *** Construction *)

Record TokenBucketOptions : Type := mkOptions {
  initialTokens : num;
  maxTokens : option num        (* [maxTokens?]: absent is [None] *)
}.

Record RollingWindowTokenBucketOptions : Type := mkRollingOptions {
  base_options : TokenBucketOptions;
  historyIntervalMs : num;
  maxHistoryTokens : num
}.

(** [new TokenBucket(options)] *)
Definition new_TokenBucket (options : TokenBucketOptions) : result Bucket :=
  if negb (isFinite (initialTokens options)) || (initialTokens options <? zero)%num
  then Throw InvalidArgument
  else if match maxTokens options with
          | Some m => isNaN m || (m <? zero)%num
          | None => false
          end
  then Throw InvalidArgument
  else
    let capacity :=       (* [options.maxTokens ?? Number.POSITIVE_INFINITY] *)
      match maxTokens options with Some m => m | None => PInf end in
    Ok (mkBucket (Num.min (initialTokens options) capacity) capacity
          [] zero zero [] [] None 0 [] [] None).

(** [new RollingWindowTokenBucket(options)] *)
Definition new_RollingWindowTokenBucket
    (options : RollingWindowTokenBucketOptions) : result Bucket :=
  s <- new_TokenBucket (base_options options) ;;
  if negb (isFinite (historyIntervalMs options))
     || (historyIntervalMs options <? zero)%num
  then Throw InvalidArgument
  else if negb (isFinite (maxHistoryTokens options))
          || (maxHistoryTokens options <? zero)%num
  then Throw InvalidArgument
  else Ok (set_window
             (Some (mkWindow (historyIntervalMs options)
                      (maxHistoryTokens options) [] None)) s).

(** *** Token accounting *)

(** [_addTokensToBucket(tokenCount)] *)
Definition _addTokensToBucket (tokenCount : num) (s : Bucket) : Bucket :=
  let s1 := set_tokenContent (_tokenContent s + tokenCount)%num s in
  if (_tokenContent s1 >? _maxTokens s1)%num
  then set_tokenContent (_maxTokens s1) s1
  else s1.

(** [_restoreContinuousTokens()] *)
Definition _restoreContinuousTokens (now : num) (s : Bucket) : Bucket :=
  let tokenCount :=
    (_continuousRestoreRatePerMs s * (now - _continuousRestoreLastTimestamp s))%num in
  set_continuousRestoreLastTimestamp now (_addTokensToBucket tokenCount s).

(** [TokenBucket._getConsumableTokens()] *)
Definition TokenBucket_getConsumableTokens (now : num) (s : Bucket) : num * Bucket :=
  let s1 := _restoreContinuousTokens now s in
  (_tokenContent s1, s1).

(** *** The _history ledger of the rolling window *)

(** The loop of [_cleanupHistoricTokens]: drop the first entry while its key
    is below the expiry timestamp. *)
Fixpoint dropExpired (expiryTimestamp : num) (h : Tree.tree num) : Tree.tree num :=
  match h with
  | [] => []
  | (key, value) :: rest =>
      if (key <? expiryTimestamp)%num then dropExpired expiryTimestamp rest
      else h
  end.

(** [_cleanupHistoricTokens()] *)
Definition _cleanupHistoricTokens (now : num) (w : Window) : Window :=
  let expiryTimestamp := (now - _historyIntervalMs w)%num in
  set_history (dropExpired expiryTimestamp (_history w)) w.

(** [_countAndCleanupHistoricTokens()] *)
Definition _countAndCleanupHistoricTokens (now : num) (w : Window) : num * Window :=
  let w1 := _cleanupHistoricTokens now w in
  let total :=
    Tree.forEach (fun total _key value => (total + value)%num) (_history w1) zero in
  (total, w1).

(** [_scheduleCleanUpCall()] *)
Definition _scheduleCleanUpCall (w : Window) : Window :=
  let w1 := set_cleanUpHandle None w in
  if (0 <? Tree.length (_history w1))%nat
  then set_cleanUpHandle (Some (_historyIntervalMs w1 + of_Z 100)%num) w1
  else w1.

(** [_getConsumableTokens()], with the override of the rolling window *)
Definition _getConsumableTokens (now : num) (s : Bucket) : num * Bucket :=
  match window s with
  | None => TokenBucket_getConsumableTokens now s
  | Some w =>
      let '(spent, w1) := _countAndCleanupHistoricTokens now w in
      let '(consumable, s1) := TokenBucket_getConsumableTokens now (set_window (Some w1) s) in
      (Num.min (_maxHistoryTokens w1 - spent)%num consumable, s1)
  end.

(** *** Waiters *)

(** [TokenBucket._getWaitTimeForRecheck()] *)
Definition TokenBucket_getWaitTimeForRecheck (now : num) (s : Bucket) : num * Bucket :=
  let minTokenCount :=
    match Tree.begin_key (_tokenListeners s) with Some k => k | None => PInf end in
  let s1 := _restoreContinuousTokens now s in
  let missingTokenCount := Num.max zero (minTokenCount - _tokenContent s1)%num in
  ((missingTokenCount / _continuousRestoreRatePerMs s1)%num, s1).

(** [_getWaitTimeForRecheck()], with the override of the rolling window *)
Definition _getWaitTimeForRecheck (now : num) (s : Bucket) : num * Bucket :=
  match window s with
  | None => TokenBucket_getWaitTimeForRecheck now s
  | Some w =>
      let '(restoreWaitTime, s1) := TokenBucket_getWaitTimeForRecheck now s in
      let '(spentTokens, w1) := _countAndCleanupHistoricTokens now w in
      let s2 := set_window (Some w1) s1 in
      let expireWaitTime :=
        match Tree.begin_key (_history w1) with
        | Some oldestHistoryTimestamp =>
            Num.max zero (oldestHistoryTimestamp + _historyIntervalMs w1 - now)%num
        | None => PInf
        end in
      if Num.eqb restoreWaitTime zero then
        let availableTokenHistoryBudget := (_maxHistoryTokens w1 - spentTokens)%num in
        let minRequestedTokenCount :=
          match Tree.begin_key (_tokenListeners s2) with
          | Some k => k
          | None => PInf
          end in
        if (minRequestedTokenCount <=? availableTokenHistoryBudget)%num
        then (zero, s2)
        else (expireWaitTime, s2)
      else (Num.min restoreWaitTime expireWaitTime, s2)
  end.

(** The loop of [_checkListeners]: call and remove the first listener while
    its key is at most [consumableTokens]. Returns the callbacks called, in
    the order of the calls, and the listeners that remain. *)
Fixpoint resolveListeners (consumableTokens : num) (t : Tree.tree nat)
    : list nat * Tree.tree nat :=
  match t with
  | [] => ([], [])
  | (key, value) :: rest =>
      if (key <=? consumableTokens)%num then
        let '(called, remaining) := resolveListeners consumableTokens rest in
        (value :: called, remaining)
      else ([], t)
  end.

(** The body of [_scheduleCheckListeners()], given what the nested call of
    [_checkListeners] does. *)
Definition _scheduleCheckListeners_with
    (check : num -> Bucket -> option Bucket) (now : num) (s : Bucket)
    : option Bucket :=
  let s1 := set_checkListenersHandle None s in
  if (0 <? Tree.length (_tokenListeners s1))%nat then
    let '(waitTime, s2) := _getWaitTimeForRecheck now s1 in
    if isFinite waitTime then
      if (waitTime <=? zero)%num then check now s2
      else Some (set_checkListenersHandle (Some waitTime) s2)
    else Some s2
  else Some s1.

(** [_checkListeners()] *)
Fixpoint _checkListeners (fuel : nat) (now : num) (s : Bucket) : option Bucket :=
  match fuel with
  | O => None
  | S fuel' =>
      let s2 :=
        if (0 <? Tree.length (_tokenListeners s))%nat then
          let '(consumableTokens, s1) := _getConsumableTokens now s in
          let '(called, remaining) := resolveListeners consumableTokens (_tokenListeners s1) in
          set_tokenListeners remaining (set_resolved (resolved s1 ++ called) s1)
        else s in
      _scheduleCheckListeners_with (_checkListeners fuel') now s2
  end.

(** [_scheduleCheckListeners()] *)
Definition _scheduleCheckListeners (fuel : nat) (now : num) (s : Bucket)
    : option Bucket :=
  _scheduleCheckListeners_with (_checkListeners fuel) now s.

(** [_onTokensConsumed(count)], with the override of the rolling window *)
Definition _onTokensConsumed (fuel : nat) (now : num) (count : num) (s : Bucket)
    : option Bucket :=
  match window s with
  | None => _scheduleCheckListeners fuel now s
  | Some w =>
      let w1 := set_history (Tree.insert now count (_history w)) w in
      let w2 := _scheduleCleanUpCall w1 in
      _scheduleCheckListeners fuel now (set_window (Some w2) s)
  end.

(** [consumeTokens(count)] *)
Definition consumeTokens (fuel : nat) (now : num) (count : num) (s : Bucket)
    : result (bool * Bucket) :=
  if (count <? zero)%num then Throw InvalidArgument
  else
    let '(consumable, s1) := _getConsumableTokens now s in
    if (count <=? consumable)%num then
      let s2 := set_tokenContent (_tokenContent s1 - count)%num s1 in
      s3 <- of_option (_onTokensConsumed fuel now count s2) ;;
      Ok (true, s3)
    else Ok (false, s1).

(** [onceTokensAvailable(count)]: the synchronous part, which registers the
    listener and returns the identity of its resolve callback. *)
Definition onceTokensAvailable (fuel : nat) (now : num) (count : num) (s : Bucket)
    : result (nat * Bucket) :=
  if (count >? _maxTokens s)%num then Throw InvalidArgument
  else
    let resolve := nextListener s in
    let s1 := set_nextListener (S resolve) s in
    let s2 := set_tokenListeners (Tree.insert count resolve (_tokenListeners s1)) s1 in
    s3 <- of_option (_checkListeners fuel now s2) ;;
    Ok (resolve, s3).

(** The scan of the [cancel] callback of [onceTokensAvailable]: from the
    first entry whose key compares equal to [count], over the entries whose
    key [=== count], remove the one holding [resolve]. [find] is taken as
    the library documents it, an iterator at the first entry with the key;
    where several waiters share a demand the library may start the scan at a
    later one of them, which the in-order sequence does not tell. *)
Fixpoint removeListenerFrom (count : num) (resolve : nat) (t : Tree.tree nat)
    : option (Tree.tree nat) :=
  match t with
  | [] => None
  | (key, value) :: rest =>
      if Num.eqb key count then
        if Nat.eqb value resolve then Some rest
        else option_map (cons (key, value)) (removeListenerFrom count resolve rest)
      else None
  end.

Fixpoint removeListener (count : num) (resolve : nat) (t : Tree.tree nat)
    : option (Tree.tree nat) :=
  match t with
  | [] => None
  | (key, value) :: rest =>
      if Tree.same_key count key
      then removeListenerFrom count resolve t
      else option_map (cons (key, value)) (removeListener count resolve rest)
  end.

(** The [cancel] callback returned by [onceTokensAvailable(count)] *)
Definition cancelOnceTokensAvailable (fuel : nat) (now : num) (count : num)
    (resolve : nat) (s : Bucket) : option Bucket :=
  match removeListener count resolve (_tokenListeners s) with
  | Some t =>
      match _scheduleCheckListeners fuel now (set_tokenListeners t s) with
      | Some s1 => Some (set_rejected (rejected s1 ++ [resolve]) s1)
      | None => None
      end
  | None => Some s
  end.

(** *** Restorers *)

Definition hasContinuous (r : ContinuousTokenRestorer) (s : Bucket) : bool :=
  existsb (fun r' => Nat.eqb (c_id r') (c_id r)) (_continuousTokenRestorers s).

Definition hasDiscrete (r : DiscreteTokenRestorer) (s : Bucket) : bool :=
  existsb (Nat.eqb (d_id r)) (_discreteTokenRestorers s).

(** [_addOrRemoveContinuousRestorer(restorer, add)] *)
Definition _addOrRemoveContinuousRestorer (fuel : nat) (now : num)
    (restorer : ContinuousTokenRestorer) (add : bool) (s : Bucket)
    : option Bucket :=
  let s1 := _restoreContinuousTokens now s in
  let s2 :=
    if add
    then set_continuousTokenRestorers (_continuousTokenRestorers s1 ++ [restorer]) s1
    else set_continuousTokenRestorers
           (filter (fun r' => negb (Nat.eqb (c_id r') (c_id restorer)))
              (_continuousTokenRestorers s1)) s1 in
  let s3 :=
    set_continuousRestoreRatePerMs
      (computeAggregateRatePerMs (_continuousTokenRestorers s2)) s2 in
  _scheduleCheckListeners fuel now s3.

(** [addTokenRestorer(restorer)] *)
Definition addTokenRestorer (fuel : nat) (now : num) (restorer : TokenRestorer)
    (s : Bucket) : result (bool * Bucket) :=
  match restorer with
  | Continuous r =>
      if negb (hasContinuous r s) then
        s1 <- of_option (_addOrRemoveContinuousRestorer fuel now r true s) ;;
        Ok (true, s1)
      else Ok (false, s)
  | Discrete r =>
      if negb (hasDiscrete r s) then
        Ok (true, set_discreteTokenRestorers (_discreteTokenRestorers s ++ [d_id r]) s)
      else Ok (false, s)
  | NotARestorer => Throw InvalidArgument
  end.

(** [removeTokenRestorer(restorer)] *)
Definition removeTokenRestorer (fuel : nat) (now : num) (restorer : TokenRestorer)
    (s : Bucket) : result (bool * Bucket) :=
  match restorer with
  | Continuous r =>
      if hasContinuous r s then
        s1 <- of_option (_addOrRemoveContinuousRestorer fuel now r false s) ;;
        Ok (true, s1)
      else Ok (false, s)
  | Discrete r =>
      if hasDiscrete r s then
        Ok (true,
            set_discreteTokenRestorers
              (filter (fun i => negb (Nat.eqb i (d_id r))) (_discreteTokenRestorers s)) s)
      else Ok (false, s)
  | NotARestorer => Throw InvalidArgument
  end.

(** [disconnectRestorers()] *)
Definition disconnectRestorers (fuel : nat) (now : num) (s : Bucket)
    : option Bucket :=
  let s1 := _restoreContinuousTokens now s in
  let s2 := set_continuousTokenRestorers [] s1 in
  let s3 := set_continuousRestoreRatePerMs zero s2 in
  match _scheduleCheckListeners fuel now s3 with
  | Some s4 => Some (set_discreteTokenRestorers [] s4)
  | None => None
  end.

(** The callback a bucket subscribes to a discrete restorer; the restorer
    calls it with its [rate.amount] on every tick. *)
Definition onRestore (fuel : nat) (now : num) (count : num) (s : Bucket)
    : option Bucket :=
  _checkListeners fuel now (_addTokensToBucket count s).

(** A tick of the discrete restorer [r]: it reaches the bucket only while
    the bucket is subscribed. *)
Definition discreteTick (fuel : nat) (now : num) (r : DiscreteTokenRestorer)
    (s : Bucket) : option Bucket :=
  if hasDiscrete r s then onRestore fuel now (amount (d_rate r)) s
  else Some s.

(** The recheck timer firing: its callback is [_checkListeners()]. *)
Definition recheckTimerFires (fuel : nat) (now : num) (s : Bucket)
    : option Bucket :=
  _checkListeners fuel now s.

(* ================================================================== *)
(** ** PrioritizedFifoRateLimiter (rate-limiter.ts) *)

Record Awaiter : Type := mkAwaiter {
  a_id : nat;                 (* identity of the awaiter and of its callbacks *)
  tokenCount : num
}.

(** How the promise handed to a requester was settled. *)
Inductive outcome : Type :=
| Resolved
| Rejected (e : error).

(** Looking up, on a bucket object, a member that is called with a token
    count. A member the prototype chain does not define is [None]: reading
    it gives [undefined], and calling that throws a [TypeError]. *)
Record BucketClass : Type := mkBucketClass {
  cls_consumeTokens : option (nat -> num -> num -> Bucket -> result (bool * Bucket));
  cls_onceTokensAvailable : option (nat -> num -> num -> Bucket -> result (nat * Bucket));
  cls_restoreTokens : option (nat -> num -> num -> Bucket -> result Bucket)
}.

(** [TokenBucket] and [RollingWindowTokenBucket] declare
    [addTokenRestorer], [removeTokenRestorer], [disconnectRestorers],
    [consumeTokens], [onceTokensAvailable], [consumeTokensAsync] and the
    protected helpers; neither declares a member named [restoreTokens]. *)
Definition class_of (s : Bucket) : BucketClass :=
  mkBucketClass (Some consumeTokens) (Some onceTokensAvailable) None.

Record Limiter : Type := mkLimiter {
  _tokenBucket : Bucket;
  _minStaggerTime : num;
  _awaiters : Tree.tree (list Awaiter);    (* priority -> FIFO queue *)
  _lastConsumed : num;
  nextAwaiter : nat;                       (* identity of the next awaiter *)
  outcomes : list (nat * outcome)          (* settled requests, oldest first *)
}.

Definition set_tokenBucket (v : Bucket) (L : Limiter) : Limiter :=
  mkLimiter v (_minStaggerTime L) (_awaiters L) (_lastConsumed L)
    (nextAwaiter L) (outcomes L).

Definition set_awaiters (v : Tree.tree (list Awaiter)) (L : Limiter) : Limiter :=
  mkLimiter (_tokenBucket L) (_minStaggerTime L) v (_lastConsumed L)
    (nextAwaiter L) (outcomes L).

Definition set_lastConsumed (v : num) (L : Limiter) : Limiter :=
  mkLimiter (_tokenBucket L) (_minStaggerTime L) (_awaiters L) v
    (nextAwaiter L) (outcomes L).

Definition set_nextAwaiter (v : nat) (L : Limiter) : Limiter :=
  mkLimiter (_tokenBucket L) (_minStaggerTime L) (_awaiters L) (_lastConsumed L)
    v (outcomes L).

Definition set_outcomes (v : list (nat * outcome)) (L : Limiter) : Limiter :=
  mkLimiter (_tokenBucket L) (_minStaggerTime L) (_awaiters L) (_lastConsumed L)
    (nextAwaiter L) v.

(** [new PrioritizedFifoRateLimiter({ tokenBucket, minStaggerTime })] *)
Definition new_Limiter (tokenBucket : Bucket) (minStaggerTime : option num)
    : Limiter :=
  mkLimiter tokenBucket
    (match minStaggerTime with Some m => m | None => zero end)
    [] NInf 0 [].

(** Calling [resolve] or [reject] of an awaiter: a promise settles once,
    later calls do nothing. *)
Definition settle_awaiter (id : nat) (o : outcome) (L : Limiter) : Limiter :=
  if existsb (fun e => Nat.eqb (fst e) id) (outcomes L) then L
  else set_outcomes (outcomes L ++ [(id, o)]) L.

(** [restoreTokens(count)]: [this._tokenBucket.restoreTokens(count)] *)
Definition restoreTokens (fuel : nat) (now : num) (count : num)
    (L : Limiter) : result Limiter :=
  match cls_restoreTokens (class_of (_tokenBucket L)) with
  | Some method =>
      b <- method fuel now count (_tokenBucket L) ;;
      Ok (set_tokenBucket b L)
  | None => Throw TypeError
  end.

(** [_addAwaiter(priority, awaiter)] *)
Definition _addAwaiter (priority : num) (awaiter : Awaiter) (L : Limiter) : Limiter :=
  match Tree.get priority (_awaiters L) with
  | Some queue =>
      set_awaiters (Tree.replace priority (queue ++ [awaiter]) (_awaiters L)) L
  | None =>
      set_awaiters (Tree.insert priority [awaiter] (_awaiters L)) L
  end.

(** The scan of [_removeFirstAwaiter]: [queue.removeOne(i)] at the first
    index whose awaiter satisfies the predicate. *)
Fixpoint removeOne (predicate : Awaiter -> bool) (queue : list Awaiter)
    : option (list Awaiter) :=
  match queue with
  | [] => None
  | a :: rest =>
      if predicate a then Some rest
      else option_map (cons a) (removeOne predicate rest)
  end.

(** [_removeFirstAwaiter(priority, predicate)] *)
Definition _removeFirstAwaiter (priority : num) (predicate : Awaiter -> bool)
    (L : Limiter) : bool * Limiter :=
  match Tree.get priority (_awaiters L) with
  | Some queue =>
      let '(success, queue1) :=
        match removeOne predicate queue with
        | Some q => (true, q)
        | None => (false, queue)
        end in
      if (List.length queue1 <=? 0)%nat
      then (success, set_awaiters (Tree.remove priority (_awaiters L)) L)
      else (success, set_awaiters (Tree.replace priority queue1 (_awaiters L)) L)
  | None => (false, L)
  end.

(** What the watcher reads before it consumes:
    [this._awaiters.end] and [queue?.peekFront()]. *)
Definition peekAwaiter (L : Limiter) : option (num * Awaiter) :=
  match Tree.end_entry (_awaiters L) with
  | Some (priority, awaiter :: _) => Some (priority, awaiter)
  | _ => None
  end.

(** The synchronous part of [consumeTokensAsync(tokenCount, priority)]; the
    watcher it recreates is modelled with the watcher step below. *)
Definition submit (tokenCount priority : num) (L : Limiter) : nat * Limiter :=
  let awaiter := mkAwaiter (nextAwaiter L) tokenCount in
  (a_id awaiter,
   _addAwaiter priority awaiter (set_nextAwaiter (S (nextAwaiter L)) L)).

(** The [cancel] callback returned by [consumeTokensAsync]. *)
Definition cancelAwaiter (id : nat) (priority : num) (L : Limiter)
    : bool * Limiter :=
  let '(success, L1) :=
    _removeFirstAwaiter priority (fun a => Nat.eqb (a_id a) id) L in
  if success then (true, settle_awaiter id (Rejected CanceledError) L1)
  else (false, L1).

(** The end of a watcher step whose consumption succeeded: remove the
    awaiter, stamp [_lastConsumed], resolve it. *)
Definition serve (now : num) (priority : num) (awaiter : Awaiter) (L : Limiter)
    : Limiter :=
  let '(_, L1) :=
    _removeFirstAwaiter priority (fun a => Nat.eqb (a_id a) (a_id awaiter)) L in
  settle_awaiter (a_id awaiter) Resolved (set_lastConsumed now L1).

(** [_rejectAllAwaiters(error)] *)
Definition _rejectAllAwaiters (error : error) (L : Limiter) : Limiter :=
  let queued := _awaiters L in
  let L1 := set_awaiters [] L in
  Tree.forEach
    (fun acc _priority queue =>
       fold_left (fun acc' a => settle_awaiter (a_id a) (Rejected error) acc')
         queue acc)
    queued L1.

(** The stagger delay of a watcher: [_lastConsumed + _minStaggerTime - now] *)
Definition staggerDelay (now : num) (L : Limiter) : num :=
  (_lastConsumed L + _minStaggerTime L - now)%num.

(* ================================================================== *)
(** ** Predicates used by the statements *)

(** Keys in ascending order. *)
Definition sorted_keys {V : Type} (t : Tree.tree V) : Prop :=
  StronglySorted (fun x y => (fst x <=? fst y)%num = true) t.

(** *** Well-formed plain buckets *)

Definition finite_nonneg (a : num) : Prop :=
  exists q : Qc, a = Fin q /\ (0 <= q)%Qc.

(** A rate as the data model has it: a finite amount that is not negative
    over a finite interval that is positive. *)
Definition rate_ok (r : Rate) : Prop :=
  finite_nonneg (amount r) /\
  exists i : Qc, intervalMs r = Fin i /\ (0 < i)%Qc.

(** The state invariant of a plain [TokenBucket]. *)
Record wf (s : Bucket) : Prop := mk_wf {
  wf_plain : window s = None;
  wf_content : finite_nonneg (_tokenContent s);
  wf_cap : (_tokenContent s <=? _maxTokens s)%num = true;
  wf_rate : finite_nonneg (_continuousRestoreRatePerMs s);
  wf_last : finite_nonneg (_continuousRestoreLastTimestamp s);
  wf_restorers : Forall (fun r => rate_ok (c_rate r)) (_continuousTokenRestorers s)
}.

(** The clock reading [now] is not before the last fold. *)
Definition clock_ok (now : num) (s : Bucket) : Prop :=
  exists n t : Qc,
    now = Fin n /\ _continuousRestoreLastTimestamp s = Fin t /\ (t <= n)%Qc.

(** The state has its continuous accrual folded in up to [now]. *)
Definition folded (now : num) (s : Bucket) : Prop :=
  exists n : Qc, now = Fin n /\ _continuousRestoreLastTimestamp s = Fin n.

(** The fields that token accounting reads and writes agree. *)
Record same_core (s s' : Bucket) : Prop := mk_same_core {
  sc_window : window s' = window s;
  sc_content : _tokenContent s' = _tokenContent s;
  sc_max : _maxTokens s' = _maxTokens s;
  sc_rate : _continuousRestoreRatePerMs s' = _continuousRestoreRatePerMs s;
  sc_last : _continuousRestoreLastTimestamp s' = _continuousRestoreLastTimestamp s;
  sc_restorers : _continuousTokenRestorers s' = _continuousTokenRestorers s;
  sc_discrete : _discreteTokenRestorers s' = _discreteTokenRestorers s
}.

(** The delay [_scheduleCheckListeners] arms the recheck timer with on a
    folded plain bucket when no immediate check is due. *)
Definition recheckDelay (s : Bucket) : option num :=
  match Tree.begin_key (_tokenListeners s) with
  | None => None
  | Some k =>
      let waitTime :=
        (Num.max zero (k - _tokenContent s) / _continuousRestoreRatePerMs s)%num in
      if isFinite waitTime && negb (waitTime <=? zero)%num
      then Some waitTime else None
  end.

(** Whether [_scheduleCheckListeners] checks the listeners at once. *)
Definition recheckNow (s : Bucket) : bool :=
  match Tree.begin_key (_tokenListeners s) with
  | None => false
  | Some k =>
      let waitTime :=
        (Num.max zero (k - _tokenContent s) / _continuousRestoreRatePerMs s)%num in
      isFinite waitTime && (waitTime <=? zero)%num
  end.

(** One check pass over a folded plain bucket. *)
Definition settle (s : Bucket) : Bucket :=
  let '(called, remaining) :=
    resolveListeners (_tokenContent s) (_tokenListeners s) in
  let s1 := set_tokenListeners remaining (set_resolved (resolved s ++ called) s) in
  set_checkListenersHandle (recheckDelay s1) s1.

(** *** Histories of a bucket *)

(** What can happen to a bucket: the public operations, the timer and tick
    callbacks, and time passing. *)
Inductive op : Type :=
| OpConsume (count : num)
| OpOnce (count : num)
| OpCancelOnce (count : num) (resolve : nat)
| OpAddRestorer (r : TokenRestorer)
| OpRemoveRestorer (r : TokenRestorer)
| OpDisconnect
| OpTick (r : DiscreteTokenRestorer)
| OpTimer
| OpWait (dt : num).

Record World : Type := mkWorld {
  clock : num;
  bucket : Bucket
}.

(** The bucket a call leaves behind; a call that throws does so before it
    writes anything. *)
Definition after {A : Type} (s : Bucket) (r : result (A * Bucket)) : option Bucket :=
  match r with
  | Ok (_, s') => Some s'
  | Throw _ => Some s
  | OutOfFuel => None
  end.

Definition step (fuel : nat) (o : op) (w : World) : option World :=
  let now := clock w in
  let s := bucket w in
  match o with
  | OpWait dt => Some (mkWorld (now + dt)%num s)
  | _ =>
      option_map (mkWorld now)
        match o with
        | OpConsume count => after s (consumeTokens fuel now count s)
        | OpOnce count => after s (onceTokensAvailable fuel now count s)
        | OpCancelOnce count resolve =>
            cancelOnceTokensAvailable fuel now count resolve s
        | OpAddRestorer r => after s (addTokenRestorer fuel now r s)
        | OpRemoveRestorer r => after s (removeTokenRestorer fuel now r s)
        | OpDisconnect => disconnectRestorers fuel now s
        | OpTick r => discreteTick fuel now r s
        | OpTimer => recheckTimerFires fuel now s
        | OpWait _ => Some s
        end
  end.

Fixpoint run (fuel : nat) (ops : list op) (w : World) : option World :=
  match ops with
  | [] => Some w
  | o :: rest =>
      match step fuel o w with
      | Some w' => run fuel rest w'
      | None => None
      end
  end.

(** The inputs the data model allows: time does not run backwards, and the
    rates of the restorers are well formed. *)
Definition op_ok (o : op) : Prop :=
  match o with
  | OpWait dt => finite_nonneg dt
  | OpAddRestorer (Continuous r) => rate_ok (c_rate r)
  | OpTick r => rate_ok (d_rate r)
  | _ => True
  end.

(** The invariant of a history: the bucket is well formed and the clock
    is not before its last fold. *)
Definition Inv (w : World) : Prop :=
  wf (bucket w) /\ clock_ok (clock w) (bucket w).

(** Demands are numbers. *)
Definition op_numeric (o : op) : Prop :=
  match o with
  | OpOnce count => isNaN count = false
  | _ => True
  end.

(** The invariant of the waiter registry: demands in ascending order, and
    every listener a distinct resolve callback that has been handed out. *)
Definition listeners_ok (s : Bucket) : Prop :=
  sorted_keys (_tokenListeners s)
  /\ Forall (fun e => isNaN (fst e) = false /\ (snd e < nextListener s)%nat)
       (_tokenListeners s)
  /\ NoDup (map snd (_tokenListeners s)).

(** The registry of [s'] is what a check pass or a cancellation leaves of
    the registry of [s]: a part of it, in the same order. *)
Definition registry_shrinks (s s' : Bucket) : Prop :=
  nextListener s' = nextListener s
  /\ exists pre, _tokenListeners s = pre ++ _tokenListeners s'.

(** *** The rolling window, in the words of the specification *)

(** The ledger after purging every entry older than [_historyIntervalMs]. *)
Definition spec_purged (now : num) (w : Window) : Tree.tree num :=
  filter (fun e => negb (fst e <? now - _historyIntervalMs w)%num) (_history w).

(** The current window spend: the sum of the entries that remain. *)
Definition spec_windowSpend (now : num) (w : Window) : num :=
  fold_left (fun total e => (total + snd e)%num) (spec_purged now w) zero.

(** [min(baseConsumableTokens, _maxHistoryTokens - currentWindowSpend)] *)
Definition spec_consumable (now : num) (s : Bucket) (w : Window) : num :=
  Num.min (fst (TokenBucket_getConsumableTokens now s))
          (_maxHistoryTokens w - spec_windowSpend now w)%num.

(** *** Concrete buckets and histories used as examples *)

Definition example_options : TokenBucketOptions :=
  mkOptions (of_Z 0) (Some (of_Z 10)).

(** [new TokenBucket({ initialTokens: 0, _maxTokens: 10 })] *)
Definition example_bucket : Bucket :=
  mkBucket (of_Z 0) (of_Z 10) [] zero zero [] [] None 0 [] [] None.

(** One token per millisecond. *)
Definition example_restorer : ContinuousTokenRestorer :=
  mkContinuous 1 (mkRate (of_Z 1) (of_Z 1)).

(** Ten tokens every second. *)
Definition example_periodic : DiscreteTokenRestorer :=
  mkDiscrete 2 (mkRate (of_Z 10) (of_Z 1000)).

(** A waiter for five tokens is registered while tokens accrue; five
    milliseconds later, before the recheck timer has run, the restorer is
    removed. *)
Definition stuck_history : list op :=
  [ OpAddRestorer (Continuous example_restorer);
    OpOnce (of_Z 5);
    OpWait (of_Z 5);
    OpRemoveRestorer (Continuous example_restorer) ].

(** A rolling window of one second allowing two tokens, over a bucket of
    ten tokens that nothing refills: two tokens are consumed, then a
    waiter asks for one more. *)
Definition blocked_options : RollingWindowTokenBucketOptions :=
  mkRollingOptions (mkOptions (of_Z 10) (Some (of_Z 10))) (of_Z 1000) (of_Z 2).

Definition blocked_history : list op :=
  [ OpConsume (of_Z 2);
    OpOnce (of_Z 1) ].

(** A history that exercises every kind of step. *)
Definition example_history : list op :=
  [ OpAddRestorer (Continuous example_restorer);
    OpAddRestorer (Discrete example_periodic);
    OpWait (of_Z 3);
    OpConsume (of_Z 2);
    OpOnce (of_Z 4);
    OpOnce (of_Z 8);
    OpWait (of_Z 3);
    OpTimer;
    OpTick example_periodic;
    OpConsume (of_Z 20);
    OpCancelOnce (of_Z 8) 1;
    OpRemoveRestorer (Continuous example_restorer);
    OpDisconnect ].


(** A rolling-window bucket that nothing refills: empty, two tokens spent
    at 0 ms inside a window of one second, and a waiter for five tokens. *)
Definition expiring_bucket : Bucket :=
  mkBucket (of_Z 0) (of_Z 10) [] zero zero [] [(of_Z 5, 0%nat)] None 1 [] []
    (Some (mkWindow (of_Z 1000) (of_Z 2) [(of_Z 0, of_Z 2)] None)).

(** *** Histories of a limiter queue *)

(** What changes the queue of awaiters: a request, the cancel callback of
    a request, and a watcher step that reads the head of the queue and
    serves it with no call in between. Histories in which calls come
    between the reading and the serving are those of [hop]. *)
Inductive lop : Type :=
| LSubmit (tokenCount priority : num)
| LCancel (id : nat) (priority : num)
| LServe (now : num).

Definition lstep (L : Limiter) (o : lop) : Limiter :=
  match o with
  | LSubmit tokenCount priority => snd (submit tokenCount priority L)
  | LCancel id priority => snd (cancelAwaiter id priority L)
  | LServe now =>
      match peekAwaiter L with
      | Some (priority, awaiter) => serve now priority awaiter L
      | None => L
      end
  end.

Definition lrun (ops : list lop) (L : Limiter) : Limiter :=
  fold_left lstep ops L.

(** Priorities are numbers. *)
Definition lop_ok (o : lop) : Prop :=
  match o with
  | LSubmit _ priority => isNaN priority = false
  | _ => True
  end.


(** The _awaiters in the queue, each with the priority of its group. *)
Definition pending (L : Limiter) : list (num * Awaiter) :=
  flat_map (fun e => map (pair (fst e)) (snd e)) (_awaiters L).


(** The invariant of the queue: priorities strictly ascending and numbers,
    no empty group, and in every group the _awaiters in request order, all
    of them requests already made. *)
Definition group_ok (next : nat) (e : num * list Awaiter) : Prop :=
  isNaN (fst e) = false
  /\ snd e <> []
  /\ StronglySorted Peano.lt (map a_id (snd e))
  /\ Forall (fun a => (a_id a < next)%nat) (snd e).

Definition key_lt (x y : num * list Awaiter) : Prop :=
  (fst x <? fst y)%num = true.

Definition tree_ok (next : nat) (t : Tree.tree (list Awaiter)) : Prop :=
  StronglySorted key_lt t /\ Forall (group_ok next) t.

Definition queue_ok (L : Limiter) : Prop :=
  tree_ok (nextAwaiter L) (_awaiters L).

(** One waiter for five tokens over an empty bucket that nothing refills. *)
Definition one_waiter : Bucket :=
  mkBucket (of_Z 0) (of_Z 10) [] zero zero []
    [(of_Z 5, 0%nat)] None 1 [] [] None.

(** A rolling window of one second allowing two tokens, with one token
    spent at 0 ms and one at 100 ms, over a bucket holding three of five. *)
Definition example_window : Window :=
  mkWindow (of_Z 1000) (of_Z 2) [(of_Z 0, of_Z 1); (of_Z 100, of_Z 1)] None.

Definition example_rolling : Bucket :=
  mkBucket (of_Z 3) (of_Z 5) [] zero zero [] [] None 0 [] [] (Some example_window).

(** Requests at priorities 1 and 10, one of them cancelled, one served. *)
Definition example_requests : list lop :=
  [ LSubmit (of_Z 1) (of_Z 1);
    LSubmit (of_Z 2) (of_Z 10);
    LSubmit (of_Z 1) (of_Z 1);
    LCancel 0 (of_Z 1);
    LSubmit (of_Z 3) (of_Z 10);
    LServe (of_Z 0);
    LSubmit (of_Z 1) (of_Z 5) ].

(** The example bucket with the example restorer attached at time 0. *)
Definition accruing_bucket : Bucket :=
  mkBucket (of_Z 0) (of_Z 10) [example_restorer] (of_Z 1) zero [] [] None
    0 [] [] None.

(** Waiters for two and for five tokens register on the empty example
    bucket while one token accrues per millisecond; two milliseconds
    pass. *)
Definition two_waiters_history : list op :=
  [ OpAddRestorer (Continuous example_restorer);
    OpOnce (of_Z 5);
    OpOnce (of_Z 2);
    OpWait (of_Z 2) ].


(* ================================================================== *)
(** ** One watcher step racing consumption against cancellation

    The part of [_recreateWatcher] from the call of
    [this._tokenBucket.consumeTokensAsync(awaiter.tokenCount)] to the end of
    the step, together with the coroutine of [consumeTokensAsync] it
    starts. Promises and [await] follow the ECMAScript job model: settling a
    promise appends one reaction job per registered reaction to the
    microtask queue, in registration order; registering on a settled
    promise appends the job at once; [await p] registers the continuation on
    [p]; an async function settles its promise when its body ends; the
    queue is drained, first in first out, when the running job ends. *)

Inductive promise : Type :=
| Pending
| Fulfilled
| Failed (e : error).

Inductive job : Type :=
| ResumeConsume (p : promise)       (* consumeTokensAsync, after [await promise] *)
| RaceConsume (p : promise)         (* Promise.race reacting to [consumePromise] *)
| RaceCancel (p : promise)          (* Promise.race reacting to [cancelPromise] *)
| ResumeWatcherRace (p : promise)   (* the watcher, after [await Promise.race] *)
| ResumeWatcherCatch (p : promise). (* the watcher, after [await consumePromise] *)

Inductive watcher_pc : Type :=
| Calling                           (* inside the call of consumeTokensAsync *)
| AwaitingRace
| AwaitingConsume (error : error)   (* in the catch block, holding [error] *)
| Finished (p : promise).           (* [watcherPromise] settled with [p] *)

Definition is_CanceledError (e : error) : bool :=
  match e with CanceledError => true | _ => false end.

Definition is_Pending (p : promise) : bool :=
  match p with Pending => true | _ => false end.

Record Step : Type := mkStep {
  st_limiter : Limiter;                (* the limiter, with its bucket and queue *)
  st_priority : num;                   (* priority of the group the watcher read *)
  st_awaiter : Awaiter;                (* the awaiter the watcher is serving *)
  shouldCancel : bool;                 (* [shouldCancel] of consumeTokensAsync *)
  cancelWait : option (num * nat);     (* [cancelWait]: count and resolve of the pending wait *)
  waiting : option nat;                (* resolve callback of the wait promise being awaited *)
  consumePromise : promise;            (* promise of consumeTokensAsync *)
  catchRegistered : bool;              (* the catch block awaits [consumePromise] *)
  isCanceled : bool;                   (* [isCanceled] of the watcher *)
  cancelPromise : promise;             (* [cancelPromise] of the watcher *)
  racePromise : promise;               (* promise of [Promise.race] *)
  watcher : watcher_pc;                (* where the watcher step stands *)
  superseded : bool;                   (* [this._watcher !== currentWatcher] *)
  microtasks : list job                (* the microtask queue, next job first *)
}.

Definition set_st_limiter (v : Limiter) (st : Step) : Step :=
  mkStep v (st_priority st) (st_awaiter st) (shouldCancel st)
    (cancelWait st) (waiting st) (consumePromise st) (catchRegistered st)
    (isCanceled st) (cancelPromise st) (racePromise st) (watcher st)
    (superseded st) (microtasks st).

Definition set_shouldCancel (v : bool) (st : Step) : Step :=
  mkStep (st_limiter st) (st_priority st) (st_awaiter st) v (cancelWait st)
    (waiting st) (consumePromise st) (catchRegistered st) (isCanceled st)
    (cancelPromise st) (racePromise st) (watcher st) (superseded st)
    (microtasks st).

Definition set_cancelWait (v : option (num * nat)) (st : Step) : Step :=
  mkStep (st_limiter st) (st_priority st) (st_awaiter st) (shouldCancel st)
    v (waiting st) (consumePromise st) (catchRegistered st) (isCanceled st)
    (cancelPromise st) (racePromise st) (watcher st) (superseded st)
    (microtasks st).

Definition set_waiting (v : option nat) (st : Step) : Step :=
  mkStep (st_limiter st) (st_priority st) (st_awaiter st) (shouldCancel st)
    (cancelWait st) v (consumePromise st) (catchRegistered st)
    (isCanceled st) (cancelPromise st) (racePromise st) (watcher st)
    (superseded st) (microtasks st).

Definition set_consumePromise (v : promise) (st : Step) : Step :=
  mkStep (st_limiter st) (st_priority st) (st_awaiter st) (shouldCancel st)
    (cancelWait st) (waiting st) v (catchRegistered st) (isCanceled st)
    (cancelPromise st) (racePromise st) (watcher st) (superseded st)
    (microtasks st).

Definition set_catchRegistered (v : bool) (st : Step) : Step :=
  mkStep (st_limiter st) (st_priority st) (st_awaiter st) (shouldCancel st)
    (cancelWait st) (waiting st) (consumePromise st) v (isCanceled st)
    (cancelPromise st) (racePromise st) (watcher st) (superseded st)
    (microtasks st).

Definition set_isCanceled (v : bool) (st : Step) : Step :=
  mkStep (st_limiter st) (st_priority st) (st_awaiter st) (shouldCancel st)
    (cancelWait st) (waiting st) (consumePromise st) (catchRegistered st) v
    (cancelPromise st) (racePromise st) (watcher st) (superseded st)
    (microtasks st).

Definition set_cancelPromise (v : promise) (st : Step) : Step :=
  mkStep (st_limiter st) (st_priority st) (st_awaiter st) (shouldCancel st)
    (cancelWait st) (waiting st) (consumePromise st) (catchRegistered st)
    (isCanceled st) v (racePromise st) (watcher st) (superseded st)
    (microtasks st).

Definition set_racePromise (v : promise) (st : Step) : Step :=
  mkStep (st_limiter st) (st_priority st) (st_awaiter st) (shouldCancel st)
    (cancelWait st) (waiting st) (consumePromise st) (catchRegistered st)
    (isCanceled st) (cancelPromise st) v (watcher st) (superseded st)
    (microtasks st).

Definition set_watcher (v : watcher_pc) (st : Step) : Step :=
  mkStep (st_limiter st) (st_priority st) (st_awaiter st) (shouldCancel st)
    (cancelWait st) (waiting st) (consumePromise st) (catchRegistered st)
    (isCanceled st) (cancelPromise st) (racePromise st) v (superseded st)
    (microtasks st).

Definition set_superseded (v : bool) (st : Step) : Step :=
  mkStep (st_limiter st) (st_priority st) (st_awaiter st) (shouldCancel st)
    (cancelWait st) (waiting st) (consumePromise st) (catchRegistered st)
    (isCanceled st) (cancelPromise st) (racePromise st) (watcher st) v
    (microtasks st).

Definition set_microtasks (v : list job) (st : Step) : Step :=
  mkStep (st_limiter st) (st_priority st) (st_awaiter st) (shouldCancel st)
    (cancelWait st) (waiting st) (consumePromise st) (catchRegistered st)
    (isCanceled st) (cancelPromise st) (racePromise st) (watcher st)
    (superseded st) v.

Definition st_bucket (st : Step) : Bucket := _tokenBucket (st_limiter st).

Definition set_st_bucket (b : Bucket) (st : Step) : Step :=
  set_st_limiter (set_tokenBucket b (st_limiter st)) st.

Definition enqueue (j : job) (st : Step) : Step :=
  set_microtasks (microtasks st ++ [j]) st.

(** The wait promise of [onceTokensAvailable] settles when the bucket calls
    its [resolve], or its [reject] from the cancel callback; the coroutine
    awaiting it is then queued. *)
Definition deliver (st : Step) : Step :=
  match waiting st with
  | Some resolve =>
      if existsb (Nat.eqb resolve) (resolved (st_bucket st))
      then enqueue (ResumeConsume Fulfilled) (set_waiting None st)
      else if existsb (Nat.eqb resolve) (rejected (st_bucket st))
      then enqueue (ResumeConsume (Failed CanceledError)) (set_waiting None st)
      else st
  | None => st
  end.

(** The async function of [consumeTokensAsync] ends: [consumePromise]
    settles and its reactions are queued, the one of [Promise.race] first,
    then the one of the catch block if it is already waiting. *)
Definition settle_consume (p : promise) (st : Step) : Step :=
  let st1 := set_consumePromise p st in
  let st2 :=
    match watcher st1 with
    | AwaitingRace | AwaitingConsume _ => enqueue (RaceConsume p) st1
    | Calling | Finished _ => st1
    end in
  if catchRegistered st2 then enqueue (ResumeWatcherCatch p) st2 else st2.

(** The loop of [consumeTokensAsync], from its condition to the next
    [await] or to the end of the function. *)
Definition consume_loop (fuel : nat) (now : num) (st : Step) : option Step :=
  let count := tokenCount (st_awaiter st) in
  match consumeTokens fuel now count (st_bucket st) with
  | Ok (true, b) => Some (settle_consume Fulfilled (set_st_bucket b st))
  | Ok (false, b) =>
      match onceTokensAvailable fuel now count b with
      | Ok (resolve, b1) =>
          Some (deliver
                  (set_waiting (Some resolve)
                     (set_cancelWait (Some (count, resolve))
                        (set_st_bucket b1 st))))
      | Throw e => Some (settle_consume (Failed e) (set_st_bucket b st))
      | OutOfFuel => None
      end
  | Throw e => Some (settle_consume (Failed e) st)
  | OutOfFuel => None
  end.

(** The watcher calls [consumeTokensAsync], hands its promise and
    [cancelPromise] to [Promise.race], and awaits the race. *)
Definition begin_step (fuel : nat) (now : num) (priority : num)
    (awaiter : Awaiter) (L : Limiter) : option Step :=
  let st0 :=
    mkStep L priority awaiter false None None Pending false false Pending
      Pending Calling false [] in
  match consume_loop fuel now st0 with
  | Some st1 =>
      let st2 := set_watcher AwaitingRace st1 in
      Some (if is_Pending (consumePromise st2) then st2
            else enqueue (RaceConsume (consumePromise st2)) st2)
  | None => None
  end.

(** [currentWatcher.cancel()], called by the watcher that replaces this
    one. *)
Definition cancel_watcher (st : Step) : Step :=
  let st1 := set_superseded true (set_isCanceled true st) in
  if is_Pending (cancelPromise st1) then
    let st2 := set_cancelPromise (Failed CanceledError) st1 in
    match watcher st2 with
    | AwaitingRace | AwaitingConsume _ =>
        enqueue (RaceCancel (Failed CanceledError)) st2
    | Calling | Finished _ => st2
    end
  else st1.

(** The [cancel] callback of [consumeTokensAsync]:
    [shouldCancel = true; cancelWait?.()] *)
Definition cancelConsume (fuel : nat) (now : num) (st : Step) : option Step :=
  let st1 := set_shouldCancel true st in
  match cancelWait st1 with
  | Some (count, resolve) =>
      match cancelOnceTokensAvailable fuel now count resolve (st_bucket st1) with
      | Some b => Some (deliver (set_st_bucket b st1))
      | None => None
      end
  | None => Some st1
  end.

(** The outer [catch] of the watcher. *)
Definition watcher_throw (e : error) (st : Step) : Step :=
  let st1 :=
    if superseded st then st
    else set_st_limiter (_rejectAllAwaiters e (st_limiter st)) st in
  set_watcher (Finished (Failed e)) st1.

(** One job of the microtask queue. *)
Definition run_job (fuel : nat) (now : num) (j : job) (st : Step) : option Step :=
  match j with
  | ResumeConsume p =>
      let st1 := set_cancelWait None st in        (* finally *)
      match p with
      | Failed e => Some (settle_consume (Failed e) st1)
      | _ =>
          if shouldCancel st1
          then Some (settle_consume (Failed CanceledError) st1)
          else consume_loop fuel now st1
      end
  | RaceConsume p | RaceCancel p =>
      if is_Pending (racePromise st)
      then Some (enqueue (ResumeWatcherRace p) (set_racePromise p st))
      else Some st
  | ResumeWatcherRace p =>
      match p with
      | Failed e =>
          if isCanceled st && is_CanceledError e then
            match cancelConsume fuel now st with
            | Some st1 =>
                let st2 := set_watcher (AwaitingConsume e) st1 in
                Some (if is_Pending (consumePromise st2)
                      then set_catchRegistered true st2
                      else enqueue (ResumeWatcherCatch (consumePromise st2)) st2)
            | None => None
            end
          else Some (watcher_throw e st)
      | _ =>
          let L := serve now (st_priority st) (st_awaiter st) (st_limiter st) in
          (* [_recreateWatcher()]: the next watcher supersedes and cancels
             this one, which then resolves [watcherPromise] *)
          Some (set_watcher (Finished Fulfilled)
                  (cancel_watcher (set_st_limiter L st)))
      end
  | ResumeWatcherCatch p =>
      match watcher st with
      | AwaitingConsume error =>
          match p with
          | Failed e => Some (watcher_throw e st)
          | _ => Some (watcher_throw error st)    (* [throw error] *)
          end
      | _ => Some st
      end
  end.

(** Drain the microtask queue. *)
Fixpoint drain (fuel : nat) (now : num) (st : Step) : option Step :=
  match microtasks st with
  | [] => Some st
  | j :: rest =>
      match fuel with
      | O => None
      | S fuel' =>
          match run_job (S fuel') now j (set_microtasks rest st) with
          | Some st1 => drain fuel' now st1
          | None => None
          end
      end
  end.

(** What synchronous code of one job can do to the limiter and its bucket
    while the watcher is suspended. *)
Inductive event : Type :=
| EvBucket (o : op)                          (* a bucket operation or callback *)
| EvSubmit (tokenCount priority : num)       (* limiter.consumeTokensAsync *)
| EvCancel (id : nat) (priority : num).      (* the cancel callback of a request *)

Definition run_event (fuel : nat) (now : num) (e : event) (st : Step)
    : option Step :=
  match e with
  | EvBucket o =>
      match step fuel o (mkWorld now (st_bucket st)) with
      | Some w => Some (deliver (set_st_bucket (bucket w) st))
      | None => None
      end
  | EvSubmit tokenCount priority =>
      let '(_, L) := submit tokenCount priority (st_limiter st) in
      Some (cancel_watcher (set_st_limiter L st))       (* _recreateWatcher() *)
  | EvCancel id priority =>
      let '(success, L) := cancelAwaiter id priority (st_limiter st) in
      if success then Some (cancel_watcher (set_st_limiter L st))
      else Some (set_st_limiter L st)
  end.

Fixpoint run_events (fuel : nat) (now : num) (es : list event) (st : Step)
    : option Step :=
  match es with
  | [] => Some st
  | e :: rest =>
      match run_event fuel now e st with
      | Some st1 => run_events fuel now rest st1
      | None => None
      end
  end.

(** One job of the event loop at the instant [now]: its synchronous code,
    then the microtasks. *)
Definition run_turn (fuel : nat) (now : num) (es : list event) (st : Step)
    : option Step :=
  match run_events fuel now es st with
  | Some st1 => drain fuel now st1
  | None => None
  end.

(** *** A concrete race *)

(** The example bucket, empty, subscribed to the periodic restorer. *)
Definition race_bucket : Bucket :=
  match addTokenRestorer 1 zero (Discrete example_periodic) example_bucket with
  | Ok (_, b) => b
  | _ => example_bucket
  end.

(** A limiter over it with one request for one token at priority 0. *)
Definition race_limiter : Limiter :=
  snd (submit (of_Z 1) (of_Z 0) (new_Limiter race_bucket None)).

(** The watcher reads that request and starts consuming for it. *)
Definition race_start : option Step :=
  match peekAwaiter race_limiter with
  | Some (priority, awaiter) => begin_step 1 zero priority awaiter race_limiter
  | None => None
  end.

(** One job in which the restorer ticks -- the callback of the bucket adds
    the tokens and checks its listeners -- and a second request is made on
    the limiter: what another subscriber of the same restorer does, or code
    that drives an injected scheduler by hand. *)
Definition tick_then_submit : list event :=
  [ EvBucket (OpTick example_periodic); EvSubmit (of_Z 1) (of_Z 0) ].

(** The same job with the two calls the other way round. *)
Definition submit_then_tick : list event :=
  [ EvSubmit (of_Z 1) (of_Z 0); EvBucket (OpTick example_periodic) ].

(** The same with the requester cancelling its own request. *)
Definition tick_then_cancel : list event :=
  [ EvBucket (OpTick example_periodic); EvCancel 0 (of_Z 0) ].

(** The watcher that supersedes a finished step: it reads the queue again
    and starts a step of its own, which runs until the queue of microtasks
    is empty. *)
Definition successor_step (fuel : nat) (now : num) (st : Step) : option Step :=
  match peekAwaiter (st_limiter st) with
  | Some (priority, awaiter) =>
      match begin_step fuel now priority awaiter (st_limiter st) with
      | Some st1 => drain fuel now st1
      | None => None
      end
  | None => None
  end.

(* ================================================================== *)
(** ** Further predicates: traces of the waiters *)

(** The resolve callbacks a bucket has handed out: those still registered,
    those it has called, and those whose promise its cancel callback has
    rejected. *)
Definition waiter_ids (s : Bucket) : list nat :=
  map snd (_tokenListeners s) ++ resolved s ++ rejected s.

(** What a check pass does to the waiters: it calls a leading part of the
    registry, in order, and rejects nobody. *)
Definition resolves (s s' : Bucket) : Prop :=
  nextListener s' = nextListener s
  /\ rejected s' = rejected s
  /\ exists pre,
       _tokenListeners s = pre ++ _tokenListeners s'
       /\ resolved s' = resolved s ++ map snd pre.

(** Every callback handed out is in one place only, and was handed out. *)
Definition settled_once (s : Bucket) : Prop :=
  NoDup (waiter_ids s)
  /\ Forall (fun i => (i < nextListener s)%nat) (waiter_ids s).

(** The waiters and their traces agree. *)
Definition same_waiters (s s' : Bucket) : Prop :=
  _tokenListeners s' = _tokenListeners s
  /\ resolved s' = resolved s
  /\ rejected s' = rejected s
  /\ nextListener s' = nextListener s.

(** The accruing example bucket with one waiter for five tokens. *)
Definition waiting_bucket : Bucket :=
  mkBucket (of_Z 0) (of_Z 10) [example_restorer] (of_Z 1) zero []
    [(of_Z 5, 0%nat)] None 1 [] [] None.

(** ** Further predicates: the installed restorers *)

(** The restorers a bucket holds, with the rate it computed from them. *)
Definition installed (s : Bucket)
    : num * list ContinuousTokenRestorer * list nat :=
  (_continuousRestoreRatePerMs s, _continuousTokenRestorers s,
   _discreteTokenRestorers s).

(** The stored rate is the aggregate of the continuous restorers held, and
    no restorer is held twice. *)
Definition restorers_ok (s : Bucket) : Prop :=
  _continuousRestoreRatePerMs s
  = computeAggregateRatePerMs (_continuousTokenRestorers s)
  /\ NoDup (map c_id (_continuousTokenRestorers s))
  /\ NoDup (_discreteTokenRestorers s).

(** ** The rolling window: the clean-up timer and the invariant of the
       ledger *)

(** The callback of the clean-up timer, [_cleanupHistoricTokens()]. *)
Definition cleanUpTimerFires (now : num) (s : Bucket) : Bucket :=
  match window s with
  | Some w => set_window (Some (_cleanupHistoricTokens now w)) s
  | None => s
  end.

(** The total of a ledger of finite amounts, as a rational. *)
Fixpoint ledger_total (h : Tree.tree num) : Qc :=
  match h with
  | [] => 0%Qc
  | (_, Fin v) :: rest => (v + ledger_total rest)%Qc
  | _ :: rest => ledger_total rest
  end.

(** A ledger in timestamp order, of finite timestamps and of finite
    amounts that are not negative. *)
Definition ledger_ok (h : Tree.tree num) : Prop :=
  sorted_keys h
  /\ Forall (fun e => isFinite (fst e) = true /\ finite_nonneg (snd e)) h.

(** The ledger of [w'] is the ledger of [w], or what purging at [now]
    leaves of it; the parameters of the window are the same. *)
Definition purges (now : num) (w w' : Window) : Prop :=
  _historyIntervalMs w' = _historyIntervalMs w
  /\ _maxHistoryTokens w' = _maxHistoryTokens w
  /\ (_history w' = _history w
      \/ _history w' = dropExpired (now - _historyIntervalMs w)%num (_history w)).

(** The same, for the window of a bucket; a plain bucket stays plain. *)
Definition window_purges (now : num) (s s' : Bucket) : Prop :=
  match window s, window s' with
  | Some w, Some w' => purges now w w'
  | None, None => True
  | _, _ => False
  end.

(** The window and the state of [new RollingWindowTokenBucket({
    initialTokens: 10, maxTokens: 10, historyIntervalMs: 1000,
    maxHistoryTokens: 3 })]. *)
Definition budget_window : Window :=
  mkWindow (of_Z 1000) (of_Z 3) [] None.

Definition budget_bucket : Bucket :=
  mkBucket (of_Z 10) (of_Z 10) [] zero zero [] [] None 0 [] [] 
    (Some budget_window).

(** The same bucket with a waiter for five tokens, which is more than the
    window allows. *)
Definition starved_bucket : Bucket :=
  mkBucket (of_Z 10) (of_Z 10) [] zero zero [] [(of_Z 5, 0%nat)] None 1 [] []
    (Some budget_window).

(** The calls of a check pass, all of them for demands of at most [M]. *)
Definition calls_within (M : num) (s s' : Bucket) : Prop :=
  exists pre,
    _tokenListeners s = pre ++ _tokenListeners s'
    /\ resolved s' = resolved s ++ map snd pre
    /\ Forall (fun e => (fst e <=? M)%num = true) pre.

(** ** The limiter: requests and how they end *)

(** The identities of the requests in the queue, and of those settled. *)
Definition ids_of (t : Tree.tree (list Awaiter)) : list nat :=
  flat_map (fun e => map a_id (snd e)) t.

Definition pending_ids (L : Limiter) : list nat :=
  ids_of (_awaiters L).

Definition settled_ids (L : Limiter) : list nat :=
  map fst (outcomes L).

(** What can happen to the requests of a limiter: what changes the queue,
    and a watcher that fails with nobody to replace it, which rejects every
    request in the queue. *)
Inductive qop : Type :=
| QQueue (o : lop)
| QRejectAll (e : error).

Definition qstep (L : Limiter) (o : qop) : Limiter :=
  match o with
  | QQueue o => lstep L o
  | QRejectAll e => _rejectAllAwaiters e L
  end.

Definition qrun (ops : list qop) (L : Limiter) : Limiter :=
  fold_left qstep ops L.

Definition qop_ok (o : qop) : Prop :=
  match o with
  | QQueue o => lop_ok o
  | QRejectAll _ => True
  end.

(** Every request made so far is in the queue or settled, and is so only
    once. *)
Definition accounted (L : Limiter) : Prop :=
  Permutation (pending_ids L ++ settled_ids L) (seq 0 (nextAwaiter L)).

(** *** The limiter and its watcher, request by request *)













(** Requests, cancellations, services and a failing watcher. *)
Definition example_fates : list qop :=
  [ QQueue (LSubmit (of_Z 1) (of_Z 1));
    QQueue (LSubmit (of_Z 2) (of_Z 10));
    QQueue (LSubmit (of_Z 1) (of_Z 1));
    QQueue (LCancel 0 (of_Z 1));
    QQueue (LCancel 0 (of_Z 1));
    QQueue (LServe (of_Z 0));
    QQueue (LSubmit (of_Z 1) (of_Z 5));
    QRejectAll TypeError;
    QQueue (LSubmit (of_Z 3) (of_Z 5));
    QQueue (LCancel 2 (of_Z 1)) ].


(** A limiter over the accruing bucket with one request for two tokens at
    priority 0. *)
Definition one_request : Limiter :=
  snd (submit (of_Z 2) (of_Z 0) (new_Limiter accruing_bucket None)).

(** A limiter over the accruing bucket with one request for five tokens at
    priority 0. *)
Definition large_request : Limiter :=
  snd (submit (of_Z 5) (of_Z 0) (new_Limiter accruing_bucket None)).

(** The bucket after the cancel callback of its only waiter. *)
Definition wait_cancelled (id : nat) (b : Bucket) : Bucket :=
  set_rejected (rejected b ++ [id])
    (set_checkListenersHandle None (set_tokenListeners [] b)).

(** ** PeriodicTokenRestorer: its listeners and its one timer *)

Module Periodic.

(** The state of a [PeriodicTokenRestorer] together with the intervals it
    has running in its scheduler. Callbacks and timer handles are
    identified by numbers; [setInterval] hands out fresh handles, none of
    them [null]. *)
Record PeriodicTokenRestorer : Type := mkPeriodic {
  rate : Rate;
  _listeners : list nat;            (* the [Set], in insertion order *)
  _timerHandle : option nat;
  intervals : list (nat * num);     (* running intervals: handle and period *)
  nextHandle : nat
}.

Definition new_PeriodicTokenRestorer (rate : Rate) : PeriodicTokenRestorer :=
  mkPeriodic rate [] None [] 0.

(** [Set.prototype.add] and [Set.prototype.delete] *)
Definition setAdd (x : nat) (l : list nat) : list nat :=
  if existsb (Nat.eqb x) l then l else l ++ [x].

Definition setDelete (x : nat) (l : list nat) : list nat :=
  filter (fun y => negb (Nat.eqb y x)) l.

(** [clearInterval(handle)]; clearing [undefined] does nothing. *)
Definition clearInterval (handle : option nat) (running : list (nat * num))
    : list (nat * num) :=
  match handle with
  | Some h => filter (fun e => negb (Nat.eqb (fst e) h)) running
  | None => running
  end.

(** [subscribe(onTokensRestored)] *)
Definition subscribe (onTokensRestored : nat) (r : PeriodicTokenRestorer)
    : PeriodicTokenRestorer :=
  let listeners := setAdd onTokensRestored (_listeners r) in
  match _timerHandle r with
  | None =>
      let handle := nextHandle r in
      mkPeriodic (rate r) listeners (Some handle)
        (intervals r ++ [(handle, intervalMs (rate r))]) (S handle)
  | Some _ =>
      mkPeriodic (rate r) listeners (_timerHandle r) (intervals r) (nextHandle r)
  end.

(** The teardown callback that [subscribe(onTokensRestored)] returns. *)
Definition teardown (onTokensRestored : nat) (r : PeriodicTokenRestorer)
    : PeriodicTokenRestorer :=
  let listeners := setDelete onTokensRestored (_listeners r) in
  if (List.length listeners <=? 0)%nat then
    mkPeriodic (rate r) listeners None
      (clearInterval (_timerHandle r) (intervals r)) (nextHandle r)
  else
    mkPeriodic (rate r) listeners (_timerHandle r) (intervals r) (nextHandle r).

(** The callback of the interval [handle], when it is still running:
    every listener is called with [rate.amount], in insertion order. *)
Definition intervalFires (handle : nat) (r : PeriodicTokenRestorer)
    : list (nat * num) :=
  if existsb (fun e => Nat.eqb (fst e) handle) (intervals r)
  then map (fun restoreTokens => (restoreTokens, amount (rate r))) (_listeners r)
  else [].

(** Buckets subscribing and unsubscribing, in any order. *)
Inductive call : Type :=
| Subscribe (onTokensRestored : nat)
| Teardown (onTokensRestored : nat).

Definition apply (r : PeriodicTokenRestorer) (c : call) : PeriodicTokenRestorer :=
  match c with
  | Subscribe cb => subscribe cb r
  | Teardown cb => teardown cb r
  end.

Definition run (calls : list call) (r : PeriodicTokenRestorer)
    : PeriodicTokenRestorer :=
  fold_left apply calls r.

(** No timer and no listener, or one timer of the restorer's period and
    some listener. *)
Definition timer_ok (r : PeriodicTokenRestorer) : Prop :=
  NoDup (_listeners r)
  /\ ((_timerHandle r = None /\ intervals r = [] /\ _listeners r = [])
      \/ (exists h, _timerHandle r = Some h
                    /\ intervals r = [(h, intervalMs (rate r))]
                    /\ _listeners r <> [])).

(** Two buckets subscribe, the first leaves, a third subscribes, the
    other two leave, and the second comes back. *)
Definition example_calls : list call :=
  [ Subscribe 0; Subscribe 1; Teardown 0; Subscribe 2; Teardown 1;
    Teardown 2; Subscribe 1 ].

End Periodic.

(* ================================================================== *)
(** ** The token accounting of TokenBucket in binary64 arithmetic

    The definitions above compute with exact rationals. This module
    repeats the methods of [TokenBucket] with every [+], [-], [*] and [/]
    rounded as IEEE 754 binary64 rounds it (to nearest, ties to even, with
    gradual underflow and with overflow to an infinity); comparisons,
    [Math.min] and [Math.max] are exact in binary64 and are the ones
    above. The rounded operations are written [F64.add], [F64.sub],
    [F64.mul] and [F64.div]. The methods are those of the base class, as
    they run on an object that is not a [RollingWindowTokenBucket]. *)

Module F64.

Local Open Scope Q_scope.

(** [2^e] *)
Definition pow2 (e : Z) : Q := 2 ^ e.

(** The binade of a positive rational: the [e] with [2^e <= q < 2^(e+1)].
    The lengths of numerator and denominator give it up to one. *)
Definition binade (q : Q) : Z :=
  let e := (Z.log2 (Qnum q) - Z.log2 (Zpos (Qden q)))%Z in
  if Qle_bool (pow2 e) q then e else (e - 1)%Z.

(** The nearest integer, the even one of two that are equally near. *)
Definition nearest_even (q : Q) : Z :=
  let f := Qfloor q in
  match Qcompare (q - inject_Z f) (1 # 2) with
  | Lt => f
  | Gt => (f + 1)%Z
  | Eq => if Z.even f then f else (f + 1)%Z
  end.

(** The exponent of the unit in the last place: 53 significant bits in
    the binade of [q], and the spacing of the subnormal numbers,
    [2^-1074], below [2^-1022]. *)
Definition ulp_exponent (q : Q) : Z := (Z.max (binade q) (-1022) - 52)%Z.

(** The nearest multiple of the unit in the last place. *)
Definition nearest (q : Q) : Q :=
  let u := pow2 (ulp_exponent q) in
  inject_Z (nearest_even (q / u)) * u.

(** Rounding a positive rational: what reaches [2^1024] overflows. *)
Definition round_pos (q : Q) : num :=
  let v := nearest q in
  if Qle_bool (pow2 1024) v then PInf else Fin (Q2Qc v).

(** Rounding a rational to binary64. *)
Definition round (q : Qc) : num :=
  match Qcompare 0 q with
  | Eq => Fin q
  | Lt => round_pos q
  | Gt => Num.neg (round_pos (- q))
  end.

(** The exact result of an operation, rounded when it is finite. *)
Definition rounded (x : num) : num :=
  match x with
  | Fin q => round q
  | _ => x
  end.

Definition add (a b : num) : num := rounded (Num.add a b).
Definition sub (a b : num) : num := rounded (Num.sub a b).
Definition mul (a b : num) : num := rounded (Num.mul a b).
Definition div (a b : num) : num := rounded (Num.div a b).

(** A number that binary64 holds. *)
Definition is_binary64 (x : num) : Prop := rounded x = x.

End F64.

Module Bucket64.

(** [ContinuousTokenRestorer.computeAggregateRatePerMs] *)
Definition computeAggregateRatePerMs (restorers : list ContinuousTokenRestorer) : num :=
  fold_left
    (fun amountPerMs r =>
       F64.add amountPerMs (F64.div (amount (c_rate r)) (intervalMs (c_rate r))))
    restorers zero.

(** [_addTokensToBucket(tokenCount)] *)
Definition _addTokensToBucket (tokenCount : num) (s : Bucket) : Bucket :=
  let s1 := set_tokenContent (F64.add (_tokenContent s) tokenCount) s in
  if (_tokenContent s1 >? _maxTokens s1)%num
  then set_tokenContent (_maxTokens s1) s1
  else s1.

(** [_restoreContinuousTokens()] *)
Definition _restoreContinuousTokens (now : num) (s : Bucket) : Bucket :=
  let tokenCount :=
    F64.mul (_continuousRestoreRatePerMs s)
      (F64.sub now (_continuousRestoreLastTimestamp s)) in
  set_continuousRestoreLastTimestamp now (_addTokensToBucket tokenCount s).

(** [_getConsumableTokens()] *)
Definition _getConsumableTokens (now : num) (s : Bucket) : num * Bucket :=
  let s1 := _restoreContinuousTokens now s in
  (_tokenContent s1, s1).

(** [_getWaitTimeForRecheck()] *)
Definition _getWaitTimeForRecheck (now : num) (s : Bucket) : num * Bucket :=
  let minTokenCount :=
    match Tree.begin_key (_tokenListeners s) with Some k => k | None => PInf end in
  let s1 := _restoreContinuousTokens now s in
  let missingTokenCount :=
    Num.max zero (F64.sub minTokenCount (_tokenContent s1)) in
  (F64.div missingTokenCount (_continuousRestoreRatePerMs s1), s1).

(** The body of [_scheduleCheckListeners()], given what the nested call of
    [_checkListeners] does. *)
Definition _scheduleCheckListeners_with
    (check : num -> Bucket -> option Bucket) (now : num) (s : Bucket)
    : option Bucket :=
  let s1 := set_checkListenersHandle None s in
  if (0 <? Tree.length (_tokenListeners s1))%nat then
    let '(waitTime, s2) := _getWaitTimeForRecheck now s1 in
    if isFinite waitTime then
      if (waitTime <=? zero)%num then check now s2
      else Some (set_checkListenersHandle (Some waitTime) s2)
    else Some s2
  else Some s1.

(** [_checkListeners()] *)
Fixpoint _checkListeners (fuel : nat) (now : num) (s : Bucket) : option Bucket :=
  match fuel with
  | O => None
  | S fuel' =>
      let s2 :=
        if (0 <? Tree.length (_tokenListeners s))%nat then
          let '(consumableTokens, s1) := _getConsumableTokens now s in
          let '(called, remaining) := resolveListeners consumableTokens (_tokenListeners s1) in
          set_tokenListeners remaining (set_resolved (resolved s1 ++ called) s1)
        else s in
      _scheduleCheckListeners_with (_checkListeners fuel') now s2
  end.

(** [_scheduleCheckListeners()] *)
Definition _scheduleCheckListeners (fuel : nat) (now : num) (s : Bucket)
    : option Bucket :=
  _scheduleCheckListeners_with (_checkListeners fuel) now s.

(** [_onTokensConsumed(count)] *)
Definition _onTokensConsumed (fuel : nat) (now : num) (count : num) (s : Bucket)
    : option Bucket :=
  _scheduleCheckListeners fuel now s.

(** [consumeTokens(count)] *)
Definition consumeTokens (fuel : nat) (now : num) (count : num) (s : Bucket)
    : result (bool * Bucket) :=
  if (count <? zero)%num then Throw InvalidArgument
  else
    let '(consumable, s1) := _getConsumableTokens now s in
    if (count <=? consumable)%num then
      let s2 := set_tokenContent (F64.sub (_tokenContent s1) count) s1 in
      s3 <- of_option (_onTokensConsumed fuel now count s2) ;;
      Ok (true, s3)
    else Ok (false, s1).

(** [onceTokensAvailable(count)] *)
Definition onceTokensAvailable (fuel : nat) (now : num) (count : num) (s : Bucket)
    : result (nat * Bucket) :=
  if (count >? _maxTokens s)%num then Throw InvalidArgument
  else
    let resolve := nextListener s in
    let s1 := set_nextListener (S resolve) s in
    let s2 := set_tokenListeners (Tree.insert count resolve (_tokenListeners s1)) s1 in
    s3 <- of_option (_checkListeners fuel now s2) ;;
    Ok (resolve, s3).

(** The [cancel] callback returned by [onceTokensAvailable(count)] *)
Definition cancelOnceTokensAvailable (fuel : nat) (now : num) (count : num)
    (resolve : nat) (s : Bucket) : option Bucket :=
  match removeListener count resolve (_tokenListeners s) with
  | Some t =>
      match _scheduleCheckListeners fuel now (set_tokenListeners t s) with
      | Some s1 => Some (set_rejected (rejected s1 ++ [resolve]) s1)
      | None => None
      end
  | None => Some s
  end.

(** [_addOrRemoveContinuousRestorer(restorer, add)] *)
Definition _addOrRemoveContinuousRestorer (fuel : nat) (now : num)
    (restorer : ContinuousTokenRestorer) (add : bool) (s : Bucket)
    : option Bucket :=
  let s1 := _restoreContinuousTokens now s in
  let s2 :=
    if add
    then set_continuousTokenRestorers (_continuousTokenRestorers s1 ++ [restorer]) s1
    else set_continuousTokenRestorers
           (filter (fun r' => negb (Nat.eqb (c_id r') (c_id restorer)))
              (_continuousTokenRestorers s1)) s1 in
  let s3 :=
    set_continuousRestoreRatePerMs
      (computeAggregateRatePerMs (_continuousTokenRestorers s2)) s2 in
  _scheduleCheckListeners fuel now s3.

(** [addTokenRestorer(restorer)] *)
Definition addTokenRestorer (fuel : nat) (now : num) (restorer : TokenRestorer)
    (s : Bucket) : result (bool * Bucket) :=
  match restorer with
  | Continuous r =>
      if negb (hasContinuous r s) then
        s1 <- of_option (_addOrRemoveContinuousRestorer fuel now r true s) ;;
        Ok (true, s1)
      else Ok (false, s)
  | Discrete r =>
      if negb (hasDiscrete r s) then
        Ok (true, set_discreteTokenRestorers (_discreteTokenRestorers s ++ [d_id r]) s)
      else Ok (false, s)
  | NotARestorer => Throw InvalidArgument
  end.

(** [removeTokenRestorer(restorer)] *)
Definition removeTokenRestorer (fuel : nat) (now : num) (restorer : TokenRestorer)
    (s : Bucket) : result (bool * Bucket) :=
  match restorer with
  | Continuous r =>
      if hasContinuous r s then
        s1 <- of_option (_addOrRemoveContinuousRestorer fuel now r false s) ;;
        Ok (true, s1)
      else Ok (false, s)
  | Discrete r =>
      if hasDiscrete r s then
        Ok (true,
            set_discreteTokenRestorers
              (filter (fun i => negb (Nat.eqb i (d_id r))) (_discreteTokenRestorers s)) s)
      else Ok (false, s)
  | NotARestorer => Throw InvalidArgument
  end.

(** [disconnectRestorers()] *)
Definition disconnectRestorers (fuel : nat) (now : num) (s : Bucket)
    : option Bucket :=
  let s1 := _restoreContinuousTokens now s in
  let s2 := set_continuousTokenRestorers [] s1 in
  let s3 := set_continuousRestoreRatePerMs zero s2 in
  match _scheduleCheckListeners fuel now s3 with
  | Some s4 => Some (set_discreteTokenRestorers [] s4)
  | None => None
  end.

(** The callback a bucket subscribes to a discrete restorer. *)
Definition onRestore (fuel : nat) (now : num) (count : num) (s : Bucket)
    : option Bucket :=
  _checkListeners fuel now (_addTokensToBucket count s).

(** A tick of the discrete restorer [r]. *)
Definition discreteTick (fuel : nat) (now : num) (r : DiscreteTokenRestorer)
    (s : Bucket) : option Bucket :=
  if hasDiscrete r s then onRestore fuel now (amount (d_rate r)) s
  else Some s.

(** The recheck timer firing. *)
Definition recheckTimerFires (fuel : nat) (now : num) (s : Bucket)
    : option Bucket :=
  _checkListeners fuel now s.

(** Histories of a bucket, as above. The clock is the environment's: time
    passes by any amount. *)
Definition step (fuel : nat) (o : op) (w : World) : option World :=
  let now := clock w in
  let s := bucket w in
  match o with
  | OpWait dt => Some (mkWorld (Num.add now dt) s)
  | _ =>
      option_map (mkWorld now)
        match o with
        | OpConsume count => after s (consumeTokens fuel now count s)
        | OpOnce count => after s (onceTokensAvailable fuel now count s)
        | OpCancelOnce count resolve =>
            cancelOnceTokensAvailable fuel now count resolve s
        | OpAddRestorer r => after s (addTokenRestorer fuel now r s)
        | OpRemoveRestorer r => after s (removeTokenRestorer fuel now r s)
        | OpDisconnect => disconnectRestorers fuel now s
        | OpTick r => discreteTick fuel now r s
        | OpTimer => recheckTimerFires fuel now s
        | OpWait _ => Some s
        end
  end.

Fixpoint run (fuel : nat) (ops : list op) (w : World) : option World :=
  match ops with
  | [] => Some w
  | o :: rest =>
      match step fuel o w with
      | Some w' => run fuel rest w'
      | None => None
      end
  end.

(** The inputs of a history: those of the data model, and no consumption
    of [+Infinity] tokens. *)
Definition input_ok (o : op) : Prop :=
  match o with
  | OpConsume count => count <> PInf
  | _ => op_ok o
  end.

(** The clock reading and the aggregate rate are within the range of
    binary64: neither has overflowed. *)
Definition in_range (w : World) : bool :=
  isFinite (F64.rounded (clock w))
  && isFinite (_continuousRestoreRatePerMs (bucket w)).

(** They are so in every state of the history. *)
Fixpoint stays_in_range (fuel : nat) (ops : list op) (w : World) : bool :=
  in_range w
  && match ops with
     | [] => true
     | o :: rest =>
         match step fuel o w with
         | Some w' => stays_in_range fuel rest w'
         | None => true
         end
     end.

(** The fields of token accounting agree. *)
Definition same_accounts (s s' : Bucket) : Prop :=
  _tokenContent s' = _tokenContent s
  /\ _maxTokens s' = _maxTokens s
  /\ _continuousRestoreRatePerMs s' = _continuousRestoreRatePerMs s
  /\ _continuousRestoreLastTimestamp s' = _continuousRestoreLastTimestamp s
  /\ _continuousTokenRestorers s' = _continuousTokenRestorers s.

(** The invariant of a history at the clock reading [now]. *)
Record bounded (now : num) (s : Bucket) : Prop := mk_bounded {
  b_low : (zero <=? _tokenContent s)%num = true;
  b_high : (_tokenContent s <=? _maxTokens s)%num = true;
  b_max : F64.is_binary64 (_maxTokens s);
  b_rate : (zero <=? _continuousRestoreRatePerMs s)%num = true;
  b_last : finite_nonneg (_continuousRestoreLastTimestamp s);
  b_clock : clock_ok now s;
  b_restorers : Forall (fun r => rate_ok (c_rate r)) (_continuousTokenRestorers s)
}.

End Bucket64.

(** A restorer that takes five tokens away every second. *)
Definition draining_periodic : DiscreteTokenRestorer :=
  mkDiscrete 7 (mkRate (of_Z (-5)) (of_Z 1000)).

Definition draining_history : list op :=
  [ OpAddRestorer (Discrete draining_periodic);
    OpWait (of_Z 1000);
    OpTick draining_periodic ].

(** [new TokenBucket({ initialTokens: 2 ** 1023 })], a restorer that adds
    [2 ** 1023] tokens a second, and a consumption of [Infinity]
    tokens. *)
Definition huge_options : TokenBucketOptions :=
  mkOptions (of_Z (2 ^ 1023)) None.

Definition huge_periodic : DiscreteTokenRestorer :=
  mkDiscrete 8 (mkRate (of_Z (2 ^ 1023)) (of_Z 1000)).

Definition overflowing_history : list op :=
  [ OpAddRestorer (Discrete huge_periodic);
    OpWait (of_Z 1000);
    OpTick huge_periodic;
    OpConsume PInf ].

(* ================================================================== *)
(** * Properties *)

(** ** Arithmetic of the number model *)

Section NumFacts.

Open Scope Qc_scope.

Lemma this_plus (a b : Qc) : (this (a + b) == this a + this b)%Q.
Proof. exact (Qred_correct _). Qed.

Lemma this_opp (a : Qc) : (this (- a) == - this a)%Q.
Proof. exact (Qred_correct _). Qed.

Lemma this_minus (a b : Qc) : (this (a - b) == this a - this b)%Q.
Proof. unfold Qcminus. rewrite this_plus, this_opp. reflexivity. Qed.

Lemma this_mult (a b : Qc) : (this (a * b) == this a * this b)%Q.
Proof. exact (Qred_correct _). Qed.

Lemma Qcleb_true (a b : Qc) : Qcleb a b = true <-> a <= b.
Proof. unfold Qcleb, Qcle. apply Qle_bool_iff. Qed.

Lemma Qcleb_false (a b : Qc) : Qcleb a b = false <-> b < a.
Proof.
  unfold Qcleb, Qclt. split; intro H.
  - apply Qnot_le_lt. intro L. apply Qle_bool_iff in L. congruence.
  - destruct (Qle_bool a b) eqn:E; [|reflexivity].
    apply Qle_bool_iff in E. exfalso. exact (Qlt_not_le _ _ H E).
Qed.

Lemma Qcltb_true (a b : Qc) : Qcltb a b = true <-> a < b.
Proof.
  unfold Qcltb. rewrite negb_true_iff. apply (Qcleb_false b a).
Qed.

Lemma Qcltb_false (a b : Qc) : Qcltb a b = false <-> b <= a.
Proof.
  unfold Qcltb. rewrite negb_false_iff. apply (Qcleb_true b a).
Qed.

Lemma Qceqb_true (a b : Qc) : Qceqb a b = true <-> a = b.
Proof.
  unfold Qceqb, Qc_eq_bool. destruct (Qc_eq_dec a b); split; congruence.
Qed.

Lemma Qceqb_false (a b : Qc) : Qceqb a b = false <-> a <> b.
Proof.
  unfold Qceqb, Qc_eq_bool. destruct (Qc_eq_dec a b); split; congruence.
Qed.

End NumFacts.

(** Turn boolean comparisons of rationals into propositions. *)
Ltac qc_props :=
  repeat match goal with
  | H : Qcleb _ _ = true |- _ => apply Qcleb_true in H
  | H : Qcleb _ _ = false |- _ => apply Qcleb_false in H
  | H : Qcltb _ _ = true |- _ => apply Qcltb_true in H
  | H : Qcltb _ _ = false |- _ => apply Qcltb_false in H
  | H : Qceqb _ _ = true |- _ => apply Qceqb_true in H
  | H : Qceqb _ _ = false |- _ => apply Qceqb_false in H
  | |- Qcleb _ _ = true => apply Qcleb_true
  | |- Qcleb _ _ = false => apply Qcleb_false
  | |- Qcltb _ _ = true => apply Qcltb_true
  | |- Qcltb _ _ = false => apply Qcltb_false
  | |- Qceqb _ _ = true => apply Qceqb_true
  | |- Qceqb _ _ = false => apply Qceqb_false
  end.

(** Linear arithmetic on canonical rationals, through [lra] on [Q]. *)
Ltac qc_lra :=
  qc_props;
  try match goal with |- ~ _ => intro end;
  repeat match goal with
  | H : @eq Qc ?a ?b |- _ =>
      let E := fresh in
      assert (E : (this a == this b)%Q) by (rewrite H; reflexivity); clear H
  | H : ~ @eq Qc ?a ?b |- _ =>
      let N := fresh in
      assert (N : ~ (this a == this b)%Q)
        by (intro N; apply H; apply Qc_is_canon; exact N);
      clear H
  | |- @eq Qc _ _ => apply Qc_is_canon
  end;
  unfold Qcle, Qclt in *;
  repeat match goal with
  | H : context [this (_ + _)%Qc] |- _ => rewrite this_plus in H
  | H : context [this (_ - _)%Qc] |- _ => rewrite this_minus in H
  | H : context [this (- _)%Qc] |- _ => rewrite this_opp in H
  | |- context [this (_ + _)%Qc] => rewrite this_plus
  | |- context [this (_ - _)%Qc] => rewrite this_minus
  | |- context [this (- _)%Qc] => rewrite this_opp
  end;
  change (this (Q2Qc 0)) with 0%Q in *;
  lra.

Section NumOrder.

Open Scope Qc_scope.

Lemma le_trans (a b c : num) :
  (a <=? b)%num = true -> (b <=? c)%num = true -> (a <=? c)%num = true.
Proof.
  destruct a, b, c; simpl; intros; try discriminate; try reflexivity.
  qc_lra.
Qed.

End NumOrder.
(** ** Token accounting of the plain bucket *)

Section BucketBasics.

Open Scope Qc_scope.

Lemma Qcmult_nonneg (a b : Qc) : 0 <= a -> 0 <= b -> 0 <= a * b.
Proof.
  intros Ha Hb.
  replace 0 with (0 * b) by ring.
  apply Qcmult_le_compat_r; assumption.
Qed.

Lemma addTokensToBucket_content (tc : num) (s : Bucket) :
  finite_nonneg (_tokenContent s) ->
  finite_nonneg tc ->
  (zero <=? _maxTokens s)%num = true ->
  finite_nonneg (_tokenContent (_addTokensToBucket tc s)) /\
  (_tokenContent (_addTokensToBucket tc s) <=? _maxTokens s)%num = true.
Proof.
  intros (c & Hc & Hc0) (q & Hq & Hq0) Hmax.
  unfold _addTokensToBucket. simpl. rewrite Hc, Hq. simpl.
  destruct (_maxTokens s) as [m| | |] eqn:Em; simpl in *; try discriminate.
  - destruct (Qcltb m (c + q)) eqn:E; simpl; rewrite ?Em.
    + split; [exists m; split; [reflexivity|qc_lra] | simpl; qc_lra].
    + split; [exists (c + q); split; [reflexivity|qc_lra] | simpl; qc_lra].
  - split; [exists (c + q); split; [reflexivity|qc_lra] | reflexivity].
Qed.

Lemma wf_max_nonneg (s : Bucket) : wf s -> (zero <=? _maxTokens s)%num = true.
Proof.
  intros [_ (c & Hc & Hc0) Hcap _ _ _]. rewrite Hc in Hcap.
  destruct (_maxTokens s); simpl in *; try discriminate; try reflexivity.
  qc_lra.
Qed.

(** Folding at an instant that is already folded changes nothing. *)
Lemma restore_folded (now : num) (s : Bucket) :
  wf s -> folded now s -> _restoreContinuousTokens now s = s.
Proof.
  intros [Hp (c & Hc & Hc0) Hcap (r & Hr & Hr0) _ _] (n & Hn & Hl).
  unfold _restoreContinuousTokens, _addTokensToBucket.
  destruct s as [tc mx crs rate lastT drs ls h nl rs rj w]; simpl in *; subst. simpl.
  assert (E : c + r * (n + - n) = c) by ring. rewrite E.
  unfold gt.
  destruct mx as [m| | |]; simpl in *; try discriminate.
  - assert (F : Qcltb m c = false) by qc_lra. rewrite F. reflexivity.
  - reflexivity.
Qed.

(** [_addTokensToBucket] writes [_tokenContent] only. *)
Lemma addTokensToBucket_frame (tc : num) (s : Bucket) :
  _addTokensToBucket tc s
  = set_tokenContent (_tokenContent (_addTokensToBucket tc s)) s.
Proof.
  unfold _addTokensToBucket.
  destruct (_tokenContent (set_tokenContent _ s) >? _maxTokens _)%num;
    reflexivity.
Qed.

Lemma restore_frame (now : num) (s : Bucket) :
  _restoreContinuousTokens now s
  = set_continuousRestoreLastTimestamp now
      (set_tokenContent (_tokenContent (_restoreContinuousTokens now s)) s).
Proof.
  unfold _restoreContinuousTokens at 1.
  rewrite addTokensToBucket_frame. reflexivity.
Qed.

Lemma restore_wf (now : num) (s : Bucket) :
  wf s -> clock_ok now s ->
  wf (_restoreContinuousTokens now s) /\ folded now (_restoreContinuousTokens now s).
Proof.
  intros W (n & t & Hn & Ht & Htn).
  pose proof (wf_max_nonneg W) as Hmax.
  destruct W as [Hp Hc Hcap (r & Hr & Hr0) Hl Hrs].
  assert (Htc : finite_nonneg
            (_continuousRestoreRatePerMs s * (now - _continuousRestoreLastTimestamp s))%num).
  { rewrite Hr, Hn, Ht. simpl. eexists; split; [reflexivity|].
    apply Qcmult_nonneg; [assumption|qc_lra]. }
  destruct (addTokensToBucket_content s Hc Htc Hmax) as [A B].
  rewrite restore_frame.
  change (_tokenContent (_restoreContinuousTokens now s))
    with (_tokenContent (_addTokensToBucket
            (_continuousRestoreRatePerMs s * (now - _continuousRestoreLastTimestamp s))%num s)).
  split.
  - constructor; cbn; try assumption.
    + exists r; split; assumption.
    + exists n. split; [assumption|]. destruct Hl as (t' & Ht' & Ht0).
      rewrite Ht in Ht'. injection Ht' as Ht'. subst t'. qc_lra.
  - exists n. split; [assumption | cbn; assumption].
Qed.

End BucketBasics.

Section CheckPass.

Open Scope Qc_scope.

Lemma Qcdiv_pos (a b : Qc) : 0 < a -> 0 < b -> 0 < a / b.
Proof.
  intros Ha Hb.
  destruct (Qclt_le_dec 0 (a / b)) as [H|H]; [exact H|exfalso].
  assert (Hb' : b <> 0) by (intro E; subst; qc_lra).
  pose proof (Qcmult_le_compat_r (a / b) 0 b H) as M.
  rewrite (test_field a b Hb') in M.
  assert (Z0 : 0 * b = 0) by ring. rewrite Z0 in M.
  assert (a <= 0) by (apply M; qc_lra). qc_lra.
Qed.

Lemma same_core_refl (s : Bucket) : same_core s s.
Proof. constructor; reflexivity. Qed.

Lemma same_core_trans (s1 s2 s3 : Bucket) :
  same_core s1 s2 -> same_core s2 s3 -> same_core s1 s3.
Proof. intros [] []; constructor; congruence. Qed.

Lemma wf_same_core (s s' : Bucket) : same_core s s' -> wf s -> wf s'.
Proof.
  intros [E1 E2 E3 E4 E5 E6 _] [W1 W2 W3 W4 W5 W6].
  constructor; rewrite ?E1, ?E2, ?E3, ?E4, ?E5, ?E6; assumption.
Qed.

Lemma folded_same_core (now : num) (s s' : Bucket) :
  same_core s s' -> folded now s -> folded now s'.
Proof.
  intros [_ _ _ _ E _ _] (n & Hn & Hl). exists n. rewrite E. auto.
Qed.

Lemma clock_ok_same_core (now : num) (s s' : Bucket) :
  same_core s s' -> clock_ok now s -> clock_ok now s'.
Proof.
  intros [_ _ _ _ E _ _] (n & t & Hn & Hl & Hle). exists n, t. rewrite E. auto.
Qed.

Lemma folded_clock_ok (now : num) (s : Bucket) : folded now s -> clock_ok now s.
Proof. intros (n & Hn & Hl). exists n, n. repeat split; auto. qc_lra. Qed.

(** The loop of a check pass stops in front of a demand that is not met. *)
Lemma resolveListeners_head (c : num) (t : Tree.tree nat) :
  match Tree.begin_key (snd (resolveListeners c t)) with
  | None => True
  | Some k => (k <=? c)%num = false
  end.
Proof.
  induction t as [|[k v] t IH]; simpl; [exact I|].
  destruct (k <=? c)%num eqn:E.
  - destruct (resolveListeners c t) as [called remaining]. exact IH.
  - simpl. exact E.
Qed.

(** With a demand above the content, a wait that is finite is positive. *)
Lemma wait_positive (k : num) (c r : Qc) :
  (k <=? Fin c)%num = false -> 0 <= r ->
  let waitTime := (Num.max zero (k - Fin c) / Fin r)%num in
  isFinite waitTime = true -> (waitTime <=? zero)%num = false.
Proof.
  intros Hk Hr. destruct k as [q| | |]; simpl in *; try discriminate.
  - assert (L : Qcleb 0 (q + - c) = true) by qc_lra. rewrite L.
    cbn [Num.div]. destruct (Qceqb r 0) eqn:Er.
    + unfold sgn.
      assert (A : Qcltb (q + - c) 0 = false) by qc_lra.
      assert (B : Qceqb (q + - c) 0 = false) by qc_lra.
      rewrite A, B. discriminate.
    + intros _. cbn [Num.le zero].
      assert (0 < (q + - c) / r); [|qc_lra].
      apply Qcdiv_pos; qc_lra.
  - destruct (Qcltb r 0); discriminate.
Qed.

Lemma recheckNow_settled (s : Bucket) (c r : Qc) :
  _tokenContent s = Fin c -> _continuousRestoreRatePerMs s = Fin r -> 0 <= r ->
  match Tree.begin_key (_tokenListeners s) with
  | None => True
  | Some k => (k <=? Fin c)%num = false
  end ->
  recheckNow s = false.
Proof.
  intros Hc Hr Hr0 Hh. unfold recheckNow.
  destruct (Tree.begin_key (_tokenListeners s)) as [k'|]; [|reflexivity].
  rewrite Hc, Hr.
  destruct (isFinite (Num.max zero (k' - Fin c) / Fin r)%num) eqn:F; [|reflexivity].
  simpl. apply wait_positive; assumption.
Qed.

Lemma same_core_set_checkListenersHandle (h : option num) (s : Bucket) :
  same_core s (set_checkListenersHandle h s).
Proof. constructor; reflexivity. Qed.

Lemma same_core_set_tokenListeners (t : Tree.tree nat) (s : Bucket) :
  same_core s (set_tokenListeners t s).
Proof. constructor; reflexivity. Qed.

Lemma same_core_set_resolved (l : list nat) (s : Bucket) :
  same_core s (set_resolved l s).
Proof. constructor; reflexivity. Qed.

Lemma same_core_set_rejected (l : list nat) (s : Bucket) :
  same_core s (set_rejected l s).
Proof. constructor; reflexivity. Qed.

Lemma same_core_set_nextListener (n : nat) (s : Bucket) :
  same_core s (set_nextListener n s).
Proof. constructor; reflexivity. Qed.

Lemma same_core_settle (s : Bucket) : same_core s (settle s).
Proof.
  unfold settle. destruct (resolveListeners _ _). constructor; reflexivity.
Qed.

(** [_scheduleCheckListeners] on a folded plain bucket. *)
Lemma schedule_with_folded (check : num -> Bucket -> option Bucket)
    (now : num) (s : Bucket) :
  wf s -> folded now s ->
  _scheduleCheckListeners_with check now s
  = if recheckNow s then check now (set_checkListenersHandle None s)
    else Some (set_checkListenersHandle (recheckDelay s) s).
Proof.
  intros W F. unfold _scheduleCheckListeners_with, recheckNow, recheckDelay.
  cbn [_tokenListeners set_checkListenersHandle].
  destruct (_tokenListeners s) as [|[k v] t] eqn:Et; [reflexivity|].
  cbn [Tree.length List.length Nat.ltb Nat.leb Tree.begin_key].
  unfold _getWaitTimeForRecheck.
  replace (window (set_checkListenersHandle None s)) with (window s) by reflexivity.
  rewrite (wf_plain W). unfold TokenBucket_getWaitTimeForRecheck.
  rewrite (@restore_folded now (set_checkListenersHandle None s)).
  2: exact (wf_same_core (same_core_set_checkListenersHandle None s) W).
  2: exact (folded_same_core (same_core_set_checkListenersHandle None s) F).
  cbn [_tokenListeners set_checkListenersHandle _tokenContent
       _continuousRestoreRatePerMs].
  rewrite Et. cbn [Tree.begin_key].
  destruct (isFinite _); [|reflexivity].
  destruct (_ <=? zero)%num; reflexivity.
Qed.

(** [_checkListeners] on a folded plain bucket is one check pass. *)
Lemma checkListeners_folded (fuel : nat) (now : num) (s : Bucket) :
  wf s -> folded now s ->
  _checkListeners (S fuel) now s = Some (settle s).
Proof.
  intros W F. cbn [_checkListeners].
  assert (E : (if (0 <? Tree.length (_tokenListeners s))%nat
               then
                 let '(consumableTokens, s1) := _getConsumableTokens now s in
                 let '(called, remaining) :=
                   resolveListeners consumableTokens (_tokenListeners s1) in
                 set_tokenListeners remaining
                   (set_resolved (resolved s1 ++ called) s1)
               else s)
              = let '(called, remaining) :=
                  resolveListeners (_tokenContent s) (_tokenListeners s) in
                set_tokenListeners remaining
                  (set_resolved (resolved s ++ called) s)).
  { destruct (_tokenListeners s) as [|e t] eqn:Et.
    - cbn. rewrite app_nil_r. destruct s; cbn in *; subst; reflexivity.
    - cbn [Tree.length List.length Nat.ltb Nat.leb].
      unfold _getConsumableTokens. rewrite (wf_plain W).
      unfold TokenBucket_getConsumableTokens. rewrite (restore_folded W F).
      rewrite Et. reflexivity. }
  rewrite E. clear E. unfold settle.
  pose proof (resolveListeners_head (_tokenContent s) (_tokenListeners s)) as Hh.
  destruct (resolveListeners (_tokenContent s) (_tokenListeners s))
    as [called remaining].
  cbn [snd] in Hh.
  set (s1 := set_tokenListeners remaining (set_resolved (resolved s ++ called) s)).
  assert (SC : same_core s s1) by (constructor; reflexivity).
  rewrite (schedule_with_folded _ (wf_same_core SC W) (folded_same_core SC F)).
  destruct (wf_content W) as (c & Hc & Hc0).
  destruct (wf_rate W) as (r & Hr & Hr0).
  rewrite (@recheckNow_settled s1 c r); try assumption.
  - reflexivity.
  - subst s1. cbn [_tokenListeners set_tokenListeners]. rewrite <- Hc. exact Hh.
Qed.

(** [_checkListeners] on a plain bucket: nothing but the timer handle is
    touched when nobody waits; otherwise the accrual is folded in and one
    check pass runs. *)
Lemma checkListeners_plain (fuel : nat) (now : num) (s : Bucket) :
  wf s -> clock_ok now s ->
  _checkListeners (S fuel) now s
  = Some (match _tokenListeners s with
          | [] => set_checkListenersHandle None s
          | _ :: _ => settle (_restoreContinuousTokens now s)
          end).
Proof.
  intros W C. destruct (_tokenListeners s) as [|e t] eqn:Et.
  - cbn [_checkListeners]. rewrite Et. cbn.
    unfold _scheduleCheckListeners_with. cbn. rewrite Et. reflexivity.
  - destruct (restore_wf W C) as [W' F'].
    rewrite <- (checkListeners_folded fuel W' F').
    assert (Hl : _tokenListeners (_restoreContinuousTokens now s) = _tokenListeners s)
      by (rewrite restore_frame; reflexivity).
    assert (Hw : window (_restoreContinuousTokens now s) = window s)
      by (rewrite restore_frame; reflexivity).
    cbn [_checkListeners]. rewrite Hl, Et.
    cbn [Tree.length List.length Nat.ltb Nat.leb].
    unfold _getConsumableTokens. rewrite Hw, (wf_plain W).
    unfold TokenBucket_getConsumableTokens.
    rewrite (restore_folded W' F'). reflexivity.
Qed.

Lemma restore_set_checkListenersHandle (now : num) (h : option num) (s : Bucket) :
  _restoreContinuousTokens now (set_checkListenersHandle h s)
  = set_checkListenersHandle h (_restoreContinuousTokens now s).
Proof.
  unfold _restoreContinuousTokens, _addTokensToBucket. cbn.
  destruct (_ >? _)%num; reflexivity.
Qed.

Lemma settle_set_checkListenersHandle (h : option num) (s : Bucket) :
  settle (set_checkListenersHandle h s) = settle s.
Proof.
  unfold settle. cbn [_tokenContent _tokenListeners set_checkListenersHandle].
  destruct (resolveListeners _ _). reflexivity.
Qed.

(** [_scheduleCheckListeners] on a plain bucket. *)
Lemma scheduleCheckListeners_plain (fuel : nat) (now : num) (s : Bucket) :
  wf s -> clock_ok now s ->
  _scheduleCheckListeners (S fuel) now s
  = Some (match _tokenListeners s with
          | [] => set_checkListenersHandle None s
          | _ :: _ =>
              let s1 := _restoreContinuousTokens now s in
              if recheckNow s1 then settle s1
              else set_checkListenersHandle (recheckDelay s1) s1
          end).
Proof.
  intros W C. unfold _scheduleCheckListeners.
  destruct (_tokenListeners s) as [|e t] eqn:Et.
  - unfold _scheduleCheckListeners_with. cbn. rewrite Et. reflexivity.
  - destruct (restore_wf W C) as [W' F'].
    assert (Hl : _tokenListeners (_restoreContinuousTokens now s) = _tokenListeners s)
      by (rewrite restore_frame; reflexivity).
    assert (Hw : window (_restoreContinuousTokens now s) = window s)
      by (rewrite restore_frame; reflexivity).
    pose proof (same_core_set_checkListenersHandle None
                  (_restoreContinuousTokens now s)) as SC.
    assert (E : _scheduleCheckListeners_with (_checkListeners (S fuel)) now s
                = _scheduleCheckListeners_with (_checkListeners (S fuel)) now
                    (_restoreContinuousTokens now s)).
    { unfold _scheduleCheckListeners_with.
      cbn [_tokenListeners set_checkListenersHandle]. rewrite Hl, Et.
      cbn [Tree.length List.length Nat.ltb Nat.leb].
      unfold _getWaitTimeForRecheck.
      cbn [window set_checkListenersHandle]. rewrite Hw, (wf_plain W).
      unfold TokenBucket_getWaitTimeForRecheck.
      rewrite !restore_set_checkListenersHandle.
      rewrite (restore_folded W' F').
      cbn [_tokenListeners set_checkListenersHandle]. rewrite Hl. reflexivity. }
    rewrite E, (schedule_with_folded _ W' F'). cbv zeta.
    destruct (recheckNow (_restoreContinuousTokens now s)); [|reflexivity].
    rewrite (checkListeners_folded fuel (wf_same_core SC W')
               (folded_same_core SC F')).
    rewrite settle_set_checkListenersHandle. reflexivity.
Qed.

End CheckPass.

(** ** The waiter registry and the check pass *)

Section Listeners.

Open Scope Qc_scope.

Lemma lt_not_le (a b : num) : (a <? b)%num = true -> (b <=? a)%num = false.
Proof.
  destruct a, b; cbn; intros; try discriminate; try reflexivity; qc_lra.
Qed.

Lemma lt_le (a b : num) : (a <? b)%num = true -> (a <=? b)%num = true.
Proof.
  destruct a, b; cbn; intros; try discriminate; try reflexivity; qc_lra.
Qed.


Lemma not_gt_le (a b : num) :
  isNaN a = false -> isNaN b = false ->
  (a >? b)%num = false -> (a <=? b)%num = true.
Proof.
  unfold gt. destruct a, b; cbn; intros; try discriminate; try reflexivity;
    qc_lra.
Qed.

Lemma In_insert {V : Type} (k : num) (v : V) (t : Tree.tree V) :
  In (k, v) (Tree.insert k v t).
Proof.
  induction t as [|[k' v'] t IH]; cbn; [auto|].
  destruct (k >? k')%num; cbn; auto.
Qed.

Lemma In_insert_old {V : Type} (k : num) (v : V) (t : Tree.tree V) (e : num * V) :
  In e t -> In e (Tree.insert k v t).
Proof.
  induction t as [|[k' v'] t IH]; cbn; [auto|].
  destruct (k >? k')%num; cbn; intuition.
Qed.

Lemma In_insert_inv {V : Type} (k : num) (v : V) (t : Tree.tree V) (e : num * V) :
  In e (Tree.insert k v t) -> e = (k, v) \/ In e t.
Proof.
  induction t as [|[k' v'] t IH]; cbn.
  - intros [H|[]]; auto.
  - destruct (k >? k')%num; cbn; intuition.
Qed.

Lemma insert_Forall {V : Type} (P : num * V -> Prop) (k : num) (v : V)
    (t : Tree.tree V) :
  Forall P t -> P (k, v) -> Forall P (Tree.insert k v t).
Proof.
  intros Ht Hk. induction Ht as [|[k' v'] t Hx Ht IH]; cbn.
  - constructor; [assumption|constructor].
  - destruct (k >? k')%num; constructor; auto.
Qed.

(** Inserting a key that is a number keeps the keys in ascending order. *)
Lemma insert_sorted {V : Type} (k : num) (v : V) (t : Tree.tree V) :
  isNaN k = false ->
  Forall (fun e => isNaN (fst e) = false) t ->
  sorted_keys t -> sorted_keys (Tree.insert k v t).
Proof.
  intros Hk Hn Hs. induction Hs as [|[k' v'] t Hs IH Hall]; cbn.
  - constructor; constructor.
  - inversion Hn as [|? ? Hk' Hn']; subst. cbn in Hk'.
    destruct (k >? k')%num eqn:E.
    + constructor; [exact (IH Hn')|].
      apply Forall_forall. intros e He.
      destruct (In_insert_inv _ _ _ _ He) as [->|Hin].
      * cbn. apply lt_le. exact E.
      * exact (proj1 (Forall_forall _ _) Hall e Hin).
    + constructor; [constructor; assumption|].
      assert (L : (k <=? k')%num = true) by (apply not_gt_le; assumption).
      constructor; [exact L|].
      apply Forall_forall. intros e He. cbn.
      apply le_trans with (b := k'); [exact L|].
      exact (proj1 (Forall_forall _ _) Hall e He).
Qed.

(** A check pass takes a prefix of the registry: the listeners it calls,
    in registry order, all with a demand that is met. *)
Lemma resolveListeners_split (c : num) (t : Tree.tree nat) :
  exists pre,
    t = pre ++ snd (resolveListeners c t)
    /\ fst (resolveListeners c t) = map snd pre
    /\ Forall (fun e => (fst e <=? c)%num = true) pre.
Proof.
  induction t as [|[k v] t (pre & E1 & E2 & F)]; cbn.
  - exists []. repeat split. constructor.
  - destruct (k <=? c)%num eqn:L.
    + destruct (resolveListeners c t) as [called remaining]. cbn in *.
      exists ((k, v) :: pre). cbn. rewrite <- E1, E2.
      repeat split. constructor; assumption.
    + exists []. repeat split. constructor.
Qed.

Lemma sorted_keys_app_r {V : Type} (l1 l2 : Tree.tree V) :
  sorted_keys (l1 ++ l2) -> sorted_keys l2.
Proof.
  induction l1 as [|x l1 IH]; cbn; [auto|].
  intro H. inversion H; auto.
Qed.


(** In a registry in ascending order, everything the pass leaves behind
    is unsatisfied. *)
Lemma resolveListeners_rest (c : num) (t : Tree.tree nat) :
  sorted_keys t ->
  Forall (fun e => (fst e <=? c)%num = false) (snd (resolveListeners c t)).
Proof.
  intro Hs. induction Hs as [|[k v] t Hs IH Hall]; cbn; [constructor|].
  destruct (k <=? c)%num eqn:L.
  - destruct (resolveListeners c t). exact IH.
  - cbn. constructor; [exact L|].
    apply Forall_forall. intros e He.
    pose proof (proj1 (Forall_forall _ _) Hall e He) as Hke. cbn in Hke.
    destruct (fst e <=? c)%num eqn:Le; [|reflexivity].
    rewrite (le_trans _ _ _ Hke Le) in L. discriminate.
Qed.


End Listeners.

(** ** The registry stays in ascending order along a history *)

Section Registry.

Lemma registry_shrinks_refl (s : Bucket) : registry_shrinks s s.
Proof. split; [reflexivity|]. exists []. reflexivity. Qed.

Lemma registry_shrinks_trans (s1 s2 s3 : Bucket) :
  registry_shrinks s1 s2 -> registry_shrinks s2 s3 -> registry_shrinks s1 s3.
Proof.
  intros [N1 (p1 & E1)] [N2 (p2 & E2)]. split; [congruence|].
  exists (p1 ++ p2). rewrite E1, E2, app_assoc. reflexivity.
Qed.

Lemma registry_shrinks_settle (s : Bucket) : registry_shrinks s (settle s).
Proof.
  unfold settle.
  destruct (resolveListeners_split (_tokenContent s) (_tokenListeners s))
    as (pre & E & _).
  destruct (resolveListeners (_tokenContent s) (_tokenListeners s))
    as [called remaining].
  split; [reflexivity|]. exists pre. exact E.
Qed.

(** What a fold, or a change of the timer handle, leaves alone. *)
Lemma registry_restore (now : num) (s : Bucket) :
  registry_shrinks s (_restoreContinuousTokens now s).
Proof.
  rewrite restore_frame. split; [reflexivity|]. exists []. reflexivity.
Qed.

Lemma check_shrinks (fuel : nat) (now : num) (s : Bucket) :
  wf s -> clock_ok now s ->
  exists s', _checkListeners (S fuel) now s = Some s' /\ registry_shrinks s s'.
Proof.
  intros W C. rewrite (checkListeners_plain fuel W C).
  eexists. split; [reflexivity|].
  destruct (_tokenListeners s) eqn:E.
  - split; [reflexivity|]. exists []. cbn. rewrite E. reflexivity.
  - apply registry_shrinks_trans with (s2 := _restoreContinuousTokens now s).
    + apply registry_restore.
    + apply registry_shrinks_settle.
Qed.

Lemma schedule_shrinks (fuel : nat) (now : num) (s : Bucket) :
  wf s -> clock_ok now s ->
  exists s', _scheduleCheckListeners (S fuel) now s = Some s'
             /\ registry_shrinks s s'.
Proof.
  intros W C. rewrite (scheduleCheckListeners_plain fuel W C).
  eexists. split; [reflexivity|].
  destruct (_tokenListeners s) eqn:E.
  - split; [reflexivity|]. exists []. cbn. rewrite E. reflexivity.
  - apply registry_shrinks_trans with (s2 := _restoreContinuousTokens now s);
      [apply registry_restore|]. cbv zeta.
    destruct (recheckNow _).
    + apply registry_shrinks_settle.
    + split; [reflexivity|]. exists []. reflexivity.
Qed.

Lemma listeners_ok_shrinks (s s' : Bucket) :
  listeners_ok s -> registry_shrinks s s' -> listeners_ok s'.
Proof.
  intros (Hs & Hf & Hn) [N (pre & E)]. unfold listeners_ok.
  rewrite E in Hs, Hf, Hn. rewrite N.
  split; [exact (sorted_keys_app_r _ _ Hs)|].
  split; [exact (proj2 (proj1 (Forall_app _ _ _) Hf))|].
  rewrite map_app in Hn. exact (NoDup_app_remove_l _ _ Hn).
Qed.

(** The registry only depends on two fields. *)
Lemma listeners_ok_ext (s s' : Bucket) :
  _tokenListeners s' = _tokenListeners s -> nextListener s' = nextListener s ->
  listeners_ok s -> listeners_ok s'.
Proof. intros E N H. unfold listeners_ok. rewrite E, N. exact H. Qed.

Lemma removeListenerFrom_split (count : num) (resolve : nat)
    (t t' : Tree.tree nat) :
  removeListenerFrom count resolve t = Some t' ->
  exists l1 x l2, t = l1 ++ x :: l2 /\ t' = l1 ++ l2.
Proof.
  revert t'. induction t as [|[k v] t IH]; cbn; intros t'; [discriminate|].
  destruct (Num.eqb k count); [|discriminate].
  destruct (Nat.eqb v resolve).
  - intro H. injection H as <-. exists [], (k, v), t. split; reflexivity.
  - destruct (removeListenerFrom count resolve t) as [t1|]; cbn; [|discriminate].
    intro H. injection H as <-.
    destruct (IH t1 eq_refl) as (l1 & x & l2 & -> & ->).
    exists ((k, v) :: l1), x, l2. split; reflexivity.
Qed.

Lemma removeListener_split (count : num) (resolve : nat) (t t' : Tree.tree nat) :
  removeListener count resolve t = Some t' ->
  exists l1 x l2, t = l1 ++ x :: l2 /\ t' = l1 ++ l2.
Proof.
  revert t'. induction t as [|[k v] t IH]; intros t'; [discriminate|].
  cbn [removeListener]. destruct (Tree.same_key count k).
  - apply removeListenerFrom_split.
  - destruct (removeListener count resolve t) as [t1|]; cbn; [|discriminate].
    intro H. injection H as <-.
    destruct (IH t1 eq_refl) as (l1 & x & l2 & -> & ->).
    exists ((k, v) :: l1), x, l2. split; reflexivity.
Qed.

Lemma sorted_keys_remove {V : Type} (l1 l2 : Tree.tree V) (x : num * V) :
  sorted_keys (l1 ++ x :: l2) -> sorted_keys (l1 ++ l2).
Proof.
  induction l1 as [|y l1 IH]; cbn; intro H.
  - inversion H; assumption.
  - inversion H as [|? ? Hs Hall]; subst. constructor; [exact (IH Hs)|].
    apply Forall_app in Hall. destruct Hall as [H1 H2].
    apply Forall_app. split; [exact H1|]. inversion H2; assumption.
Qed.

Lemma listeners_ok_remove (count : num) (resolve : nat) (s : Bucket)
    (t : Tree.tree nat) :
  listeners_ok s -> removeListener count resolve (_tokenListeners s) = Some t ->
  listeners_ok (set_tokenListeners t s).
Proof.
  intros (Hs & Hf & Hn) H.
  destruct (removeListener_split _ _ _ H) as (l1 & x & l2 & E & ->).
  unfold listeners_ok. cbn [_tokenListeners nextListener set_tokenListeners].
  rewrite E in Hs, Hf, Hn. split; [exact (sorted_keys_remove _ _ _ Hs)|].
  split.
  - apply Forall_app in Hf. destruct Hf as [H1 H2].
    apply Forall_app. split; [exact H1|]. inversion H2; assumption.
  - rewrite map_app in *. cbn [map] in Hn. exact (NoDup_remove_1 _ _ _ Hn).
Qed.

(** Registering a waiter with a number as its demand keeps the registry
    in order. *)
Lemma listeners_ok_insert (count : num) (s : Bucket) :
  isNaN count = false -> listeners_ok s ->
  listeners_ok
    (set_tokenListeners
       (Tree.insert count (nextListener s) (_tokenListeners s))
       (set_nextListener (S (nextListener s)) s)).
Proof.
  intros Hc (Hs & Hf & Hn). unfold listeners_ok.
  cbn [_tokenListeners nextListener set_tokenListeners set_nextListener].
  split; [|split].
  - apply insert_sorted; [exact Hc| |exact Hs].
    apply Forall_forall. intros e He.
    exact (proj1 (proj1 (Forall_forall _ _) Hf e He)).
  - apply insert_Forall.
    + apply Forall_forall. intros e He.
      destruct (proj1 (Forall_forall _ _) Hf e He) as [A B]. split; [exact A|lia].
    + cbn. split; [exact Hc|lia].
  - assert (G : forall t : Tree.tree nat,
              Forall (fun e => (snd e < nextListener s)%nat) t ->
              NoDup (map snd t) ->
              NoDup (map snd (Tree.insert count (nextListener s) t))).
    { induction t as [|[k v] t IH]; cbn; intros F N.
      - constructor; [intros []|constructor].
      - inversion F as [|? ? Fv Ft]; subst. inversion N as [|? ? Nv Nt]; subst.
        cbn in Fv. destruct (count >? k)%num; cbn.
        + constructor; [|exact (IH Ft Nt)].
          intro Hin. apply in_map_iff in Hin. destruct Hin as (e & Ee & He).
          destruct (In_insert_inv _ _ _ _ He) as [->|He'].
          * cbn in Ee. lia.
          * apply Nv. rewrite <- Ee. exact (in_map snd _ _ He').
        + constructor; [|constructor; assumption].
          intros [Hin|Hin]; [lia|].
          apply in_map_iff in Hin. destruct Hin as (e & Ee & He).
          pose proof (proj1 (Forall_forall _ _) Ft e He) as B. cbn in B. lia. }
    apply G; [|exact Hn].
    apply Forall_forall. intros e He.
    exact (proj2 (proj1 (Forall_forall _ _) Hf e He)).
Qed.

End Registry.

(** ** The invariant along a history *)


Section Invariant.

Open Scope Qc_scope.

Lemma Qcdiv_nonneg (a b : Qc) : 0 <= a -> 0 < b -> 0 <= a / b.
Proof.
  intros Ha Hb.
  destruct (Qclt_le_dec (a / b) 0) as [H|H]; [exfalso|exact H].
  assert (Hb' : b <> 0) by (intro E; subst; qc_lra).
  pose proof (Qcmult_lt_compat_r (a / b) 0 b Hb H) as M.
  rewrite (test_field a b Hb') in M.
  assert (Z0 : 0 * b = 0) by ring. rewrite Z0 in M. qc_lra.
Qed.

Lemma wf_set_tokenContent (v : num) (s : Bucket) :
  wf s -> finite_nonneg v -> (v <=? _maxTokens s)%num = true ->
  wf (set_tokenContent v s).
Proof. intros [] Hv Hm. constructor; cbn; assumption. Qed.

Lemma wf_set_discreteTokenRestorers (l : list nat) (s : Bucket) :
  wf s -> wf (set_discreteTokenRestorers l s).
Proof. intros []. constructor; cbn; assumption. Qed.

Lemma clock_ok_set_discreteTokenRestorers (now : num) (l : list nat) (s : Bucket) :
  clock_ok now s -> clock_ok now (set_discreteTokenRestorers l s).
Proof. intro H. exact H. Qed.

(** The aggregate of well-formed rates is finite and not negative. *)
Lemma aggregate_nonneg (rs : list ContinuousTokenRestorer) :
  Forall (fun r => rate_ok (c_rate r)) rs ->
  finite_nonneg (computeAggregateRatePerMs rs).
Proof.
  unfold computeAggregateRatePerMs.
  assert (G : forall acc, finite_nonneg acc ->
            Forall (fun r => rate_ok (c_rate r)) rs ->
            finite_nonneg
              (fold_left
                 (fun amountPerMs r =>
                    (amountPerMs + amount (c_rate r) / intervalMs (c_rate r))%num)
                 rs acc)).
  { induction rs as [|r rs IH]; intros acc Hacc Hrs; [exact Hacc|].
    inversion Hrs as [|? ? [(a & Ha & Ha0) (i & Hi & Hi0)] Hrest]; subst.
    cbn [fold_left]. apply IH; [|assumption].
    destruct Hacc as (q & Hq & Hq0). rewrite Hq, Ha, Hi. cbn [Num.div].
    assert (E : Qceqb i 0 = false) by qc_lra. rewrite E. cbn [Num.add].
    eexists; split; [reflexivity|].
    pose proof (Qcdiv_nonneg Ha0 Hi0). qc_lra. }
  intro H. apply G; [|exact H]. exists 0. split; [reflexivity|qc_lra].
Qed.

Lemma check_inv (fuel : nat) (now : num) (s : Bucket) :
  wf s -> clock_ok now s ->
  exists s', _checkListeners (S fuel) now s = Some s'
             /\ wf s' /\ clock_ok now s'.
Proof.
  intros W C. rewrite (checkListeners_plain fuel W C).
  eexists; split; [reflexivity|].
  destruct (_tokenListeners s).
  - pose proof (same_core_set_checkListenersHandle None s) as SC.
    split; [exact (wf_same_core SC W)|exact (clock_ok_same_core SC C)].
  - destruct (restore_wf W C) as [W' F'].
    pose proof (same_core_settle (_restoreContinuousTokens now s)) as SC.
    split; [exact (wf_same_core SC W')|].
    exact (clock_ok_same_core SC (folded_clock_ok F')).
Qed.

Lemma schedule_inv (fuel : nat) (now : num) (s : Bucket) :
  wf s -> clock_ok now s ->
  exists s', _scheduleCheckListeners (S fuel) now s = Some s'
             /\ wf s' /\ clock_ok now s'.
Proof.
  intros W C. rewrite (scheduleCheckListeners_plain fuel W C).
  eexists; split; [reflexivity|].
  destruct (_tokenListeners s).
  - pose proof (same_core_set_checkListenersHandle None s) as SC.
    split; [exact (wf_same_core SC W)|exact (clock_ok_same_core SC C)].
  - destruct (restore_wf W C) as [W' F']. cbv zeta.
    destruct (recheckNow _).
    + pose proof (same_core_settle (_restoreContinuousTokens now s)) as SC.
      split; [exact (wf_same_core SC W')|].
      exact (clock_ok_same_core SC (folded_clock_ok F')).
    + pose proof (same_core_set_checkListenersHandle
                    (recheckDelay (_restoreContinuousTokens now s))
                    (_restoreContinuousTokens now s)) as SC.
      split; [exact (wf_same_core SC W')|].
      exact (clock_ok_same_core SC (folded_clock_ok F')).
Qed.

(** A count that is not negative and at most a finite amount is finite. *)
Lemma count_in_range (count : num) (c : Qc) :
  (count <? zero)%num = false -> (count <=? Fin c)%num = true ->
  exists q : Qc, count = Fin q /\ 0 <= q /\ q <= c.
Proof.
  destruct count as [q| | |]; simpl; intros H1 H2; try discriminate.
  exists q. repeat split; qc_lra.
Qed.

Lemma schedule_folded_core (fuel : nat) (now : num) (s : Bucket) :
  wf s -> folded now s ->
  exists s', _scheduleCheckListeners (S fuel) now s = Some s' /\ same_core s s'.
Proof.
  intros W F.
  rewrite (scheduleCheckListeners_plain fuel W (folded_clock_ok F)).
  rewrite (restore_folded W F).
  eexists; split; [reflexivity|].
  destruct (_tokenListeners s); cbv zeta.
  - apply same_core_set_checkListenersHandle.
  - destruct (recheckNow s).
    + apply same_core_settle.
    + apply same_core_set_checkListenersHandle.
Qed.

(** [consumeTokens] on a plain bucket, step by step. *)
Lemma consumeTokens_plain (fuel : nat) (now count : num) (s : Bucket) :
  window s = None ->
  consumeTokens fuel now count s
  = if (count <? zero)%num then Throw InvalidArgument
    else
      let s1 := _restoreContinuousTokens now s in
      if (count <=? _tokenContent s1)%num then
        match _scheduleCheckListeners fuel now
                (set_tokenContent (_tokenContent s1 - count)%num s1) with
        | Some s3 => Ok (true, s3)
        | None => OutOfFuel
        end
      else Ok (false, s1).
Proof.
  intro Hw. unfold consumeTokens, _getConsumableTokens. rewrite Hw.
  unfold TokenBucket_getConsumableTokens. cbv zeta.
  destruct (count <? zero)%num; [reflexivity|].
  destruct (count <=? _)%num; [|reflexivity].
  unfold _onTokensConsumed.
  replace (window (set_tokenContent _ (_restoreContinuousTokens now s)))
    with (window s) by (rewrite restore_frame; reflexivity).
  rewrite Hw.
  destruct (_scheduleCheckListeners _ _ _); reflexivity.
Qed.

(** The bucket after a successful subtraction is well formed. *)
Lemma wf_after_subtract (now count : num) (s : Bucket) :
  wf s -> folded now s ->
  (count <? zero)%num = false -> (count <=? _tokenContent s)%num = true ->
  wf (set_tokenContent (_tokenContent s - count)%num s)
  /\ folded now (set_tokenContent (_tokenContent s - count)%num s).
Proof.
  intros W F Hn Hle. split; [|exact F].
  destruct (wf_content W) as (c & Hc & Hc0).
  pose proof (wf_cap W) as Hcap. rewrite Hc in *.
  destruct (count_in_range _ _ Hn Hle) as (q & -> & Hq0 & Hqc).
  apply wf_set_tokenContent; [assumption| |].
  - cbn. eexists; split; [reflexivity|]. qc_lra.
  - apply le_trans with (b := Fin c); [|assumption]. cbn. qc_lra.
Qed.

Lemma check_all (fuel : nat) (now : num) (s : Bucket) :
  wf s -> clock_ok now s ->
  exists s', _checkListeners (S fuel) now s = Some s'
             /\ wf s' /\ clock_ok now s' /\ registry_shrinks s s'.
Proof.
  intros W C.
  destruct (check_inv fuel W C) as (s1 & E1 & W1 & C1).
  destruct (check_shrinks fuel W C) as (s2 & E2 & R).
  rewrite E1 in E2. injection E2 as <-. exists s1. auto.
Qed.

Lemma schedule_all (fuel : nat) (now : num) (s : Bucket) :
  wf s -> clock_ok now s ->
  exists s', _scheduleCheckListeners (S fuel) now s = Some s'
             /\ wf s' /\ clock_ok now s' /\ registry_shrinks s s'.
Proof.
  intros W C.
  destruct (schedule_inv fuel W C) as (s1 & E1 & W1 & C1).
  destruct (schedule_shrinks fuel W C) as (s2 & E2 & R).
  rewrite E1 in E2. injection E2 as <-. exists s1. auto.
Qed.

Lemma consume_inv (fuel : nat) (now count : num) (s : Bucket) :
  wf s -> clock_ok now s ->
  exists s', after s (consumeTokens (S fuel) now count s) = Some s'
             /\ wf s' /\ clock_ok now s'
             /\ (listeners_ok s -> listeners_ok s').
Proof.
  intros W C. rewrite (consumeTokens_plain _ _ _ _ (wf_plain W)).
  destruct (count <? zero)%num eqn:Hn; [exists s; auto|]. cbv zeta.
  destruct (restore_wf W C) as [W1 F1].
  assert (X1 : listeners_ok s -> listeners_ok (_restoreContinuousTokens now s)).
  { apply listeners_ok_ext; rewrite restore_frame; reflexivity. }
  destruct (count <=? _)%num eqn:Hle.
  - destruct (@wf_after_subtract now count _ W1 F1 Hn Hle) as [W2 F2].
    destruct (schedule_all fuel W2 (folded_clock_ok F2)) as (s3 & E & W3 & C3 & R).
    rewrite E. exists s3. split; [reflexivity|].
    repeat (split; [assumption|]).
    intro H. apply (listeners_ok_shrinks (X1 H) R).
  - exists (_restoreContinuousTokens now s). cbn.
    auto using folded_clock_ok.
Qed.

Lemma once_inv (fuel : nat) (now count : num) (s : Bucket) :
  wf s -> clock_ok now s ->
  exists s', after s (onceTokensAvailable (S fuel) now count s) = Some s'
             /\ wf s' /\ clock_ok now s'
             /\ (isNaN count = false -> listeners_ok s -> listeners_ok s').
Proof.
  intros W C. unfold onceTokensAvailable.
  destruct (count >? _maxTokens s)%num; [exists s; auto|]. cbv zeta.
  set (s2 := set_tokenListeners _ _).
  assert (SC : same_core s s2) by (constructor; reflexivity).
  destruct (check_all fuel (wf_same_core SC W) (clock_ok_same_core SC C))
    as (s3 & E & W3 & C3 & R).
  rewrite E. exists s3. split; [reflexivity|].
  repeat (split; [assumption|]).
  intros Hc H.
  exact (listeners_ok_shrinks (@listeners_ok_insert count s Hc H) R).
Qed.

Lemma cancel_inv (fuel : nat) (now count : num) (resolve : nat) (s : Bucket) :
  wf s -> clock_ok now s ->
  exists s', cancelOnceTokensAvailable (S fuel) now count resolve s = Some s'
             /\ wf s' /\ clock_ok now s'
             /\ (listeners_ok s -> listeners_ok s').
Proof.
  intros W C. unfold cancelOnceTokensAvailable.
  destruct (removeListener count resolve (_tokenListeners s)) as [t|] eqn:Er;
    [|exists s; auto].
  pose proof (same_core_set_tokenListeners t s) as SC.
  destruct (schedule_all fuel (wf_same_core SC W) (clock_ok_same_core SC C))
    as (s1 & E & W1 & C1 & R).
  rewrite E. eexists; split; [reflexivity|].
  pose proof (same_core_set_rejected (rejected s1 ++ [resolve]) s1) as SC1.
  split; [exact (wf_same_core SC1 W1)|].
  split; [exact (clock_ok_same_core SC1 C1)|].
  intro H.
  apply (@listeners_ok_ext s1); [reflexivity|reflexivity|].
  exact (listeners_ok_shrinks (@listeners_ok_remove count resolve s t H Er) R).
Qed.

Lemma addOrRemove_inv (fuel : nat) (now : num) (r : ContinuousTokenRestorer)
    (add : bool) (s : Bucket) :
  wf s -> clock_ok now s -> (add = true -> rate_ok (c_rate r)) ->
  exists s', _addOrRemoveContinuousRestorer (S fuel) now r add s = Some s'
             /\ wf s' /\ clock_ok now s'
             /\ (listeners_ok s -> listeners_ok s').
Proof.
  intros W C Hr. unfold _addOrRemoveContinuousRestorer. cbv zeta.
  destruct (restore_wf W C) as [W1 F1].
  assert (X1 : listeners_ok s -> listeners_ok (_restoreContinuousTokens now s)).
  { apply listeners_ok_ext; rewrite restore_frame; reflexivity. }
  set (s1 := _restoreContinuousTokens now s) in *.
  set (s2 := if add then _ else _).
  assert (E2 : s2 = set_continuousTokenRestorers
                      (if add then _continuousTokenRestorers s1 ++ [r]
                       else filter (fun r' => negb (Nat.eqb (c_id r') (c_id r)))
                              (_continuousTokenRestorers s1)) s1)
    by (subst s2; destruct add; reflexivity).
  assert (Hrs : Forall (fun r => rate_ok (c_rate r)) (_continuousTokenRestorers s2)).
  { rewrite E2. cbn. destruct add.
    - apply Forall_app. split; [exact (wf_restorers W1)|].
      constructor; [auto|constructor].
    - apply Forall_forall. intros x Hx. apply filter_In in Hx.
      destruct Hx as [Hx _].
      exact (proj1 (Forall_forall _ _) (wf_restorers W1) x Hx). }
  set (s3 := set_continuousRestoreRatePerMs _ s2).
  assert (W3 : wf s3).
  { destruct W1 as [A1 A2 A3 A4 A5 A6].
    subst s3. rewrite E2 in *. constructor; cbn; try assumption.
    apply aggregate_nonneg. exact Hrs. }
  assert (F3 : folded now s3).
  { destruct F1 as (n & Hn & Hl). exists n. split; [assumption|].
    subst s3. rewrite E2. cbn. assumption. }
  assert (X3 : listeners_ok s1 -> listeners_ok s3).
  { apply listeners_ok_ext; subst s3; rewrite E2; reflexivity. }
  destruct (schedule_all fuel W3 (folded_clock_ok F3)) as (s4 & E & W4 & C4 & R).
  exists s4. repeat (split; [assumption|]).
  intro H. exact (listeners_ok_shrinks (X3 (X1 H)) R).
Qed.

Lemma addRestorer_inv (fuel : nat) (now : num) (r : TokenRestorer) (s : Bucket) :
  wf s -> clock_ok now s -> op_ok (OpAddRestorer r) ->
  exists s', after s (addTokenRestorer (S fuel) now r s) = Some s'
             /\ wf s' /\ clock_ok now s'
             /\ (listeners_ok s -> listeners_ok s').
Proof.
  intros W C Hr. destruct r as [r|r|]; cbn [addTokenRestorer].
  - destruct (negb (hasContinuous r s)); [|exists s; auto].
    destruct (@addOrRemove_inv fuel now r true s W C (fun _ => Hr))
      as (s1 & E & W1 & C1 & R).
    rewrite E. exists s1. auto.
  - destruct (negb (hasDiscrete r s)); [|exists s; auto].
    eexists; split; [reflexivity|].
    split; [apply wf_set_discreteTokenRestorers; assumption|].
    split; [exact C|]. intro H. exact H.
  - exists s; auto.
Qed.

Lemma removeRestorer_inv (fuel : nat) (now : num) (r : TokenRestorer) (s : Bucket) :
  wf s -> clock_ok now s ->
  exists s', after s (removeTokenRestorer (S fuel) now r s) = Some s'
             /\ wf s' /\ clock_ok now s'
             /\ (listeners_ok s -> listeners_ok s').
Proof.
  intros W C. destruct r as [r|r|]; cbn [removeTokenRestorer].
  - destruct (hasContinuous r s); [|exists s; auto].
    destruct (@addOrRemove_inv fuel now r false s W C) as (s1 & E & W1 & C1 & R);
      [discriminate|].
    rewrite E. exists s1. auto.
  - destruct (hasDiscrete r s); [|exists s; auto].
    eexists; split; [reflexivity|].
    split; [apply wf_set_discreteTokenRestorers; assumption|].
    split; [exact C|]. intro H. exact H.
  - exists s; auto.
Qed.

Lemma disconnect_inv (fuel : nat) (now : num) (s : Bucket) :
  wf s -> clock_ok now s ->
  exists s', disconnectRestorers (S fuel) now s = Some s'
             /\ wf s' /\ clock_ok now s'
             /\ (listeners_ok s -> listeners_ok s').
Proof.
  intros W C. unfold disconnectRestorers. cbv zeta.
  destruct (restore_wf W C) as [W1 F1].
  assert (X1 : listeners_ok s -> listeners_ok (_restoreContinuousTokens now s)).
  { apply listeners_ok_ext; rewrite restore_frame; reflexivity. }
  set (s3 := set_continuousRestoreRatePerMs zero _).
  assert (W3 : wf s3).
  { destruct W1 as [A1 A2 A3 A4 A5 A6]. subst s3.
    constructor; cbn; try assumption.
    - exists 0. split; [reflexivity|qc_lra].
    - constructor. }
  assert (F3 : folded now s3) by exact F1.
  destruct (schedule_all fuel W3 (folded_clock_ok F3)) as (s4 & E & W4 & C4 & R).
  rewrite E. eexists; split; [reflexivity|].
  split; [apply wf_set_discreteTokenRestorers; assumption|].
  split; [exact C4|]. intro H.
  apply (@listeners_ok_ext s4); [reflexivity|reflexivity|].
  apply (@listeners_ok_shrinks s3); [|exact R].
  exact (X1 H).
Qed.

Lemma tick_inv (fuel : nat) (now : num) (r : DiscreteTokenRestorer) (s : Bucket) :
  wf s -> clock_ok now s -> rate_ok (d_rate r) ->
  exists s', discreteTick (S fuel) now r s = Some s'
             /\ wf s' /\ clock_ok now s'
             /\ (listeners_ok s -> listeners_ok s').
Proof.
  intros W C [Ha _]. unfold discreteTick, onRestore.
  destruct (hasDiscrete r s); [|exists s; auto].
  destruct (addTokensToBucket_content s (wf_content W) Ha (wf_max_nonneg W))
    as [A B].
  assert (W1 : wf (_addTokensToBucket (amount (d_rate r)) s)).
  { rewrite addTokensToBucket_frame. apply wf_set_tokenContent; assumption. }
  assert (C1 : clock_ok now (_addTokensToBucket (amount (d_rate r)) s))
    by (rewrite addTokensToBucket_frame; exact C).
  destruct (check_all fuel W1 C1) as (s1 & E & W2 & C2 & R).
  exists s1. repeat (split; [assumption|]). intro H.
  apply (listeners_ok_shrinks (s := _addTokensToBucket (amount (d_rate r)) s));
    [|exact R].
  revert H. apply listeners_ok_ext; rewrite addTokensToBucket_frame; reflexivity.
Qed.

(** Every step keeps the invariant, with one unit of fuel; and it keeps
    the registry in order when the demands are numbers. *)
Lemma step_inv (fuel : nat) (o : op) (w : World) :
  Inv w -> op_ok o ->
  exists w', step (S fuel) o w = Some w' /\ Inv w'
             /\ (op_numeric o -> listeners_ok (bucket w) -> listeners_ok (bucket w')).
Proof.
  intros [W C] Ho. destruct w as [now s]. cbn [clock bucket] in *.
  destruct o; cbn [step clock bucket op_ok op_numeric] in *.
  - destruct (@consume_inv fuel now count s W C) as (s' & E & W' & C' & R).
    rewrite E. eexists; split; [reflexivity|]. split; [split; assumption|auto].
  - destruct (@once_inv fuel now count s W C) as (s' & E & W' & C' & R).
    rewrite E. eexists; split; [reflexivity|]. split; [split; assumption|auto].
  - destruct (@cancel_inv fuel now count resolve s W C) as (s' & E & W' & C' & R).
    rewrite E. eexists; split; [reflexivity|]. split; [split; assumption|auto].
  - destruct (@addRestorer_inv fuel now r s W C Ho) as (s' & E & W' & C' & R).
    rewrite E. eexists; split; [reflexivity|]. split; [split; assumption|auto].
  - destruct (@removeRestorer_inv fuel now r s W C) as (s' & E & W' & C' & R).
    rewrite E. eexists; split; [reflexivity|]. split; [split; assumption|auto].
  - destruct (@disconnect_inv fuel now s W C) as (s' & E & W' & C' & R).
    rewrite E. eexists; split; [reflexivity|]. split; [split; assumption|auto].
  - destruct (@tick_inv fuel now r s W C Ho) as (s' & E & W' & C' & R).
    rewrite E. eexists; split; [reflexivity|]. split; [split; assumption|auto].
  - destruct (@check_all fuel now s W C) as (s' & E & W' & C' & R).
    unfold recheckTimerFires.
    rewrite E. eexists; split; [reflexivity|]. split; [split; assumption|].
    intros _ H. exact (listeners_ok_shrinks H R).
  - eexists; split; [reflexivity|]. split; [|auto]. split; [exact W|].
    destruct C as (n & t & Hn & Ht & Hle). destruct Ho as (d & Hd & Hd0).
    cbn [clock bucket]. exists (n + d), t. rewrite Hn, Hd.
    repeat split; try assumption. qc_lra.
Qed.

Lemma run_inv (fuel : nat) (ops : list op) (w : World) :
  Inv w -> Forall op_ok ops ->
  exists w', run (S fuel) ops w = Some w' /\ Inv w'
             /\ (Forall op_numeric ops -> listeners_ok (bucket w) ->
                 listeners_ok (bucket w')).
Proof.
  revert w. induction ops as [|o ops IH]; intros w I H.
  - exists w. split; [reflexivity|]. split; [exact I|auto].
  - inversion H as [|? ? Ho Hrest]; subst.
    destruct (@step_inv fuel o w I Ho) as (w1 & E & I1 & R1).
    cbn [run]. rewrite E.
    destruct (IH w1 I1 Hrest) as (w2 & E2 & I2 & R2).
    exists w2. split; [exact E2|]. split; [exact I2|].
    intros Hn Hl. inversion Hn as [|? ? Hn1 Hn2]; subst. auto.
Qed.

(** A freshly constructed plain bucket satisfies the invariant. *)
Lemma new_TokenBucket_wf (options : TokenBucketOptions) (s : Bucket) :
  new_TokenBucket options = Ok s -> wf s /\ folded zero s.
Proof.
  unfold new_TokenBucket.
  destruct (initialTokens options) as [i| | |] eqn:Ei; cbn; try discriminate.
  destruct (Qcltb i 0) eqn:Hi; [discriminate|].
  destruct (maxTokens options) as [[m| | |]|] eqn:Em; cbn;
    try discriminate.
  - destruct (Qcltb m 0) eqn:Hm; [discriminate|].
    intro H. injection H as <-. split; [|exists 0; split; reflexivity].
    constructor; cbn; try (exists 0; split; [reflexivity|qc_lra]);
      try constructor.
    + destruct (Qcleb i m) eqn:L; eexists; split; try reflexivity; qc_lra.
    + destruct (Qcleb i m) eqn:L; cbn; qc_lra.
  - intro H. injection H as <-. split; [|exists 0; split; reflexivity].
    constructor; cbn; try (exists 0; split; [reflexivity|qc_lra]);
      try constructor.
    exists i. split; [reflexivity|qc_lra].
  - intro H. injection H as <-. split; [|exists 0; split; reflexivity].
    constructor; cbn; try (exists 0; split; [reflexivity|qc_lra]);
      try constructor.
    exists i. split; [reflexivity|qc_lra].
Qed.

End Invariant.

(* ================================================================== *)
(** ** The token bucket: bounds, construction and synchronous consumption *)

Section BucketClaims.

Open Scope Qc_scope.

Lemma Forall_firstn {A : Type} (P : A -> Prop) (k : nat) (l : list A) :
  Forall P l -> Forall P (firstn k l).
Proof.
  revert l. induction k as [|k IH]; intros l H; [constructor|].
  destruct H; cbn; constructor; auto.
Qed.

(** C10. With [0 <= _maxTokens < initialTokens] and [initialTokens] finite
    the constructor does not throw, and the bucket starts with
    [_tokenContent = min(initialTokens, _maxTokens) = _maxTokens]. *)
Theorem C10_constructor_clamps_initialTokens
    (options : TokenBucketOptions) (m : num) :
  maxTokens options = Some m ->
  isFinite (initialTokens options) = true ->
  (zero <=? m)%num = true ->
  (m <? initialTokens options)%num = true ->
  exists s,
    new_TokenBucket options = Ok s
    /\ _tokenContent s = Num.min (initialTokens options) m
    /\ _tokenContent s = m
    /\ _maxTokens s = m.
Proof.
  intros Hm Hfin H0 Hlt. unfold new_TokenBucket. rewrite Hm.
  destruct (initialTokens options) as [i| | |]; try discriminate.
  destruct m as [q| | |]; try discriminate. cbn in *.
  assert (E1 : Qcltb i 0 = false) by qc_lra.
  assert (E2 : Qcltb q 0 = false) by qc_lra.
  assert (E3 : Qcleb i q = false) by qc_lra.
  rewrite E1, E2. cbn. rewrite E3.
  eexists. repeat split; reflexivity.
Qed.

Lemma le_zero_not_lt (count : num) :
  (zero <=? count)%num = true -> (count <? zero)%num = false.
Proof. destruct count; cbn; intros; try discriminate; try reflexivity. qc_lra. Qed.

(** C6. On a plain bucket [consumeTokens(count)] first folds the pending
    continuous accrual into [_tokenContent]. For [count < 0] it throws. For
    [count >= 0]: when [count] is at most the consumable tokens it returns
    [true] and the content is the folded content less [count]; otherwise
    it returns [false] and the bucket is the folded one, untouched. *)
Theorem C6_consumeTokens
    (fuel : nat) (now count : num) (s : Bucket) :
  wf s -> clock_ok now s ->
  let consumable := fst (_getConsumableTokens now s) in
  let s1 := _restoreContinuousTokens now s in
  ((count <? zero)%num = true ->
     consumeTokens (S fuel) now count s = Throw InvalidArgument)
  /\ ((zero <=? count)%num = true ->
        ((count <=? consumable)%num = true ->
           exists s',
             consumeTokens (S fuel) now count s = Ok (true, s')
             /\ _tokenContent s' = (_tokenContent s1 - count)%num
             /\ same_core (set_tokenContent (_tokenContent s1 - count)%num s1) s')
        /\ ((count <=? consumable)%num = false ->
              consumeTokens (S fuel) now count s = Ok (false, s1))).
Proof.
  intros W C consumable s1.
  assert (Ec : consumable = _tokenContent s1).
  { unfold consumable, _getConsumableTokens. rewrite (wf_plain W). reflexivity. }
  rewrite (consumeTokens_plain _ _ _ _ (wf_plain W)). fold s1. rewrite Ec.
  split.
  - intros ->. reflexivity.
  - intro H0. rewrite (le_zero_not_lt _ H0). cbv zeta. split.
    + intros Hle. rewrite Hle.
      destruct (restore_wf W C) as [W1 F1].
      destruct (@wf_after_subtract now count _ W1 F1 (le_zero_not_lt _ H0) Hle)
        as [W2 F2].
      destruct (@schedule_folded_core fuel now _ W2 F2) as (s3 & E & SC).
      fold s1 in E. rewrite E. exists s3. split; [reflexivity|].
      split; [exact (sc_content SC)|exact SC].
    + intros ->. reflexivity.
Qed.

End BucketClaims.

(** ** The recheck timer when nothing accrues *)

Section ZeroRate.

Open Scope Qc_scope.

Lemma example_bucket_new : new_TokenBucket example_options = Ok example_bucket.
Proof. reflexivity. Qed.

Lemma example_bucket_wf : wf example_bucket.
Proof. exact (proj1 (new_TokenBucket_wf _ example_bucket_new)). Qed.

Lemma example_bucket_Inv : Inv (mkWorld zero example_bucket).
Proof.
  split; [exact example_bucket_wf|].
  exists 0, 0. repeat split. qc_lra.
Qed.

Lemma example_restorer_ok : rate_ok (c_rate example_restorer).
Proof.
  split.
  - eexists. split; [reflexivity|]. apply Qcleb_true. reflexivity.
  - eexists. split; [reflexivity|]. apply Qcltb_true. reflexivity.
Qed.

Lemma example_periodic_ok : rate_ok (d_rate example_periodic).
Proof.
  split.
  - eexists. split; [reflexivity|]. apply Qcleb_true. reflexivity.
  - eexists. split; [reflexivity|]. apply Qcltb_true. reflexivity.
Qed.

Lemma of_Z_nonneg (z : Z) : (0 <= z)%Z -> finite_nonneg (of_Z z).
Proof.
  intro H. eexists. split; [reflexivity|].
  unfold Qcle. cbn [this Q2Qc]. rewrite !Qred_correct.
  unfold Qle. cbn. lia.
Qed.

Lemma stuck_history_ok : Forall op_ok stuck_history.
Proof.
  unfold stuck_history.
  repeat (apply Forall_cons || apply Forall_nil); cbn [op_ok];
    try exact I; try exact example_restorer_ok.
  apply of_Z_nonneg. lia.
Qed.

(** With a zero rate the fold adds nothing. *)
Lemma restore_zero_rate (now : num) (s : Bucket) :
  wf s -> clock_ok now s -> _continuousRestoreRatePerMs s = zero ->
  _restoreContinuousTokens now s = set_continuousRestoreLastTimestamp now s.
Proof.
  intros W (n & t & Hn & Ht & Hle) Hr.
  destruct (wf_content W) as (c & Hc & Hc0). pose proof (wf_cap W) as Hcap.
  unfold _restoreContinuousTokens, _addTokensToBucket.
  destruct s as [tc mx crs rate lastT drs ls h nl rs rj w]; cbn in *; subst. cbn.
  assert (E : c + 0 * (n + - t) = c) by ring. rewrite E.
  unfold gt. destruct mx as [m| | |]; cbn in *; try discriminate.
  - assert (F : Qcltb m c = false) by qc_lra. rewrite F. reflexivity.
  - reflexivity.
Qed.

(** The wait for a demand above the content, with nothing accruing. *)
Lemma wait_infinite (k : num) (c : Qc) :
  (k >? Fin c)%num = true ->
  (Num.max zero (k - Fin c) / zero)%num = PInf.
Proof.
  destruct k as [q| | |]; cbn; intro H; try discriminate.
  - assert (L : Qcleb 0 (q + - c) = true) by qc_lra. rewrite L. cbn.
    unfold sgn.
    assert (A : Qcltb (q + - c) 0 = false) by qc_lra.
    assert (B : Qceqb (q + - c) 0 = false) by qc_lra.
    rewrite A, B. reflexivity.
  - reflexivity.
Qed.

(** C7, as the code has it. On a plain bucket with a waiter pending whose
    smallest demand exceeds [_tokenContent], with a zero aggregate
    continuous rate, the recheck wait time is [+Infinity]; scheduling the
    recheck returns, arms no timer and wakes nobody. *)
Theorem C7_zero_rate_waits_forever
    (fuel : nat) (now : num) (s : Bucket) (k : num) :
  wf s -> clock_ok now s ->
  Tree.begin_key (_tokenListeners s) = Some k ->
  (k >? _tokenContent s)%num = true ->
  _continuousRestoreRatePerMs s = zero ->
  fst (_getWaitTimeForRecheck now s) = PInf
  /\ exists s',
       _scheduleCheckListeners (S fuel) now s = Some s'
       /\ _checkListenersHandle s' = None
       /\ _tokenListeners s' = _tokenListeners s
       /\ resolved s' = resolved s.
Proof.
  intros W C Hk Hgt Hr.
  destruct (wf_content W) as (c & Hc & Hc0).
  pose proof (restore_zero_rate W C Hr) as ER.
  assert (Ew : (Num.max zero (k - _tokenContent s)
                / _continuousRestoreRatePerMs s)%num = PInf).
  { rewrite Hr, Hc. apply wait_infinite. rewrite <- Hc. exact Hgt. }
  split.
  - unfold _getWaitTimeForRecheck. rewrite (wf_plain W).
    unfold TokenBucket_getWaitTimeForRecheck. rewrite Hk, ER. exact Ew.
  - rewrite (scheduleCheckListeners_plain fuel W C).
    destruct (_tokenListeners s) as [|e t] eqn:Et; [discriminate|].
    cbv zeta. rewrite ER.
    unfold recheckNow, recheckDelay.
    cbn [_tokenListeners _tokenContent _continuousRestoreRatePerMs
         set_continuousRestoreLastTimestamp].
    rewrite Et, Hk, Ew. cbn.
    eexists. split; [reflexivity|]. cbn. auto.
Qed.

(** What the claim as stated misses: a waiter can be pending with its
    demand already covered. The example history leaves a waiter for five
    tokens pending over a content of five with a zero rate; the wait time
    computed there is [0/0 = NaN], not [+Infinity]. *)
Lemma C7_counterexample :
  exists w,
    run 1 stuck_history (mkWorld zero example_bucket) = Some w
    /\ wf (bucket w) /\ clock_ok (clock w) (bucket w)
    /\ Tree.begin_key (_tokenListeners (bucket w)) = Some (of_Z 5)
    /\ Num.eqb (_tokenContent (bucket w)) (of_Z 5) = true
    /\ _continuousRestoreRatePerMs (bucket w) = zero
    /\ _discreteTokenRestorers (bucket w) = []
    /\ _checkListenersHandle (bucket w) = None
    /\ fst (_getWaitTimeForRecheck (clock w) (bucket w)) = NaN
    /\ fst (_getWaitTimeForRecheck (clock w) (bucket w)) <> PInf.
Proof.
  destruct (@run_inv 0 stuck_history _ example_bucket_Inv stuck_history_ok)
    as (w & E & [W C] & _).
  exists w. split; [exact E|]. split; [exact W|]. split; [exact C|].
  vm_compute in E. injection E as <-.
  repeat match goal with
         | |- _ /\ _ => split
         | |- _ = _ => vm_compute; reflexivity
         | |- _ <> _ => vm_compute; discriminate
         end.
Qed.

(** The same on a rolling-window bucket, with no timing involved: the
    waiter is held back by the history budget alone, its demand of one is
    covered by the content of eight, and with no restorer at all the wait
    time of the base bucket and of the rolling window are both [NaN]. *)
Lemma blocked_by_budget_wait_not_infinite :
  exists s0 w,
    new_RollingWindowTokenBucket blocked_options = Ok s0
    /\ run 2 blocked_history (mkWorld zero s0) = Some w
    /\ _tokenListeners (bucket w) = [(of_Z 1, 0%nat)]
    /\ Num.eqb (_tokenContent (bucket w)) (of_Z 8) = true
    /\ _continuousRestoreRatePerMs (bucket w) = zero
    /\ _discreteTokenRestorers (bucket w) = []
    /\ _checkListenersHandle (bucket w) = None
    /\ fst (TokenBucket_getWaitTimeForRecheck (clock w) (bucket w)) = NaN
    /\ fst (_getWaitTimeForRecheck (clock w) (bucket w)) = NaN.
Proof.
  eexists. eexists.
  split; [vm_compute; reflexivity|].
  split; [vm_compute; reflexivity|].
  repeat match goal with
         | |- _ /\ _ => split
         | |- _ = _ => vm_compute; reflexivity
         end.
Qed.

(** The override of the rolling window is outside the statement: with a
    zero rate and an uncovered demand the base wait time is [+Infinity],
    but the override returns the time until the oldest ledger entry
    expires, which is finite, and the timer is armed with it. *)
Lemma rolling_window_zero_rate_arms_timer :
  _continuousRestoreRatePerMs expiring_bucket = zero
  /\ Tree.begin_key (_tokenListeners expiring_bucket) = Some (of_Z 5)
  /\ (of_Z 5 >? _tokenContent expiring_bucket)%num = true
  /\ fst (TokenBucket_getWaitTimeForRecheck (of_Z 100) expiring_bucket) = PInf
  /\ Num.eqb (fst (_getWaitTimeForRecheck (of_Z 100) expiring_bucket))
       (of_Z 900) = true
  /\ exists s',
       _scheduleCheckListeners 1 (of_Z 100) expiring_bucket = Some s'
       /\ match _checkListenersHandle s' with
          | Some delay => Num.eqb delay (of_Z 900) = true
          | None => False
          end.
Proof.
  repeat match goal with
         | |- _ /\ _ => split
         | |- _ = _ => vm_compute; reflexivity
         end.
  eexists. split; [vm_compute; reflexivity|]. vm_compute. reflexivity.
Qed.

End ZeroRate.

(** ** Waiters: registration and ascending resolution *)

Section WaiterClaims.

Open Scope Qc_scope.

(** One call of [_checkListeners] on a plain bucket, as a split of the
    registry into the listeners called and the listeners kept. *)
Lemma check_pass (fuel : nat) (now : num) (s : Bucket) :
  wf s -> clock_ok now s ->
  let consumable := fst (_getConsumableTokens now s) in
  exists s' pre,
    _checkListeners (S fuel) now s = Some s'
    /\ _tokenListeners s = pre ++ _tokenListeners s'
    /\ resolved s' = resolved s ++ map snd pre
    /\ Forall (fun e => (fst e <=? consumable)%num = true) pre
    /\ (sorted_keys (_tokenListeners s) ->
        Forall (fun e => (fst e <=? consumable)%num = false) (_tokenListeners s')).
Proof.
  intros W C consumable.
  rewrite (checkListeners_plain fuel W C).
  destruct (_tokenListeners s) as [|e t] eqn:Et.
  - exists (set_checkListenersHandle None s), [].
    cbn. rewrite Et, app_nil_r. repeat split; constructor.
  - assert (Ec : consumable = _tokenContent (_restoreContinuousTokens now s)).
    { unfold consumable, _getConsumableTokens. rewrite (wf_plain W). reflexivity. }
    assert (Hl : _tokenListeners (_restoreContinuousTokens now s) = e :: t)
      by (rewrite restore_frame; exact Et).
    assert (Hr : resolved (_restoreContinuousTokens now s) = resolved s)
      by (rewrite restore_frame; reflexivity).
    unfold settle. rewrite Hl, Hr, <- Ec.
    destruct (resolveListeners_split consumable (e :: t)) as (pre & E1 & E2 & F).
    pose proof (resolveListeners_rest consumable (t := e :: t)) as R.
    destruct (resolveListeners consumable (e :: t)) as [called remaining].
    cbn [fst snd] in *.
    eexists. exists pre. split; [reflexivity|].
    cbn [_tokenListeners resolved set_checkListenersHandle set_tokenListeners
         set_resolved].
    rewrite <- E2. repeat split; assumption.
Qed.





(** The two waiters of the example history: when two tokens have accrued
    the recheck timer wakes the waiter for two and keeps the waiter for
    five; three milliseconds later it wakes that one too. Had the timer
    only run then, it would have woken both, the smaller demand first. *)
Lemma two_waiters_resolve_in_order :
  exists w1 w2 w3,
    run 1 (two_waiters_history ++ [OpTimer]) (mkWorld zero example_bucket)
    = Some w1
    /\ resolved (bucket w1) = [1%nat]
    /\ map snd (_tokenListeners (bucket w1)) = [0%nat]
    /\ run 1 [OpWait (of_Z 3); OpTimer] w1 = Some w2
    /\ resolved (bucket w2) = [1%nat; 0%nat]
    /\ run 1 (two_waiters_history ++ [OpWait (of_Z 3); OpTimer])
         (mkWorld zero example_bucket) = Some w3
    /\ resolved (bucket w3) = [1%nat; 0%nat].
Proof.
  do 3 eexists.
  repeat match goal with
         | |- _ /\ _ => split
         | |- _ = _ => vm_compute; reflexivity
         end.
Qed.

(** C9, as the code has it. [onceTokensAvailable(count)] throws exactly
    when [count > _maxTokens]. For every other [count] -- also a negative
    one, [NaN], or [+Infinity] on an unbounded bucket -- it returns: the
    waiter has been registered under a fresh resolve callback, and after
    the immediate check it is either still pending or already called. *)
Theorem C9_onceTokensAvailable_throws_iff_over_capacity
    (fuel : nat) (now count : num) (s : Bucket) :
  wf s -> clock_ok now s ->
  if (count >? _maxTokens s)%num
  then onceTokensAvailable (S fuel) now count s = Throw InvalidArgument
  else
    exists s',
      onceTokensAvailable (S fuel) now count s = Ok (nextListener s, s')
      /\ (In (count, nextListener s) (_tokenListeners s')
          \/ In (nextListener s) (resolved s')).
Proof.
  intros W C. unfold onceTokensAvailable.
  destruct (count >? _maxTokens s)%num; [reflexivity|]. cbv zeta.
  set (s2 := set_tokenListeners _ _).
  assert (SC : same_core s s2) by (constructor; reflexivity).
  destruct (@check_pass fuel now s2 (wf_same_core SC W) (clock_ok_same_core SC C))
    as (s3 & pre & E & Esplit & Eres & _).
  rewrite E. cbn [of_option bind]. exists s3. split; [reflexivity|].
  assert (Hin : In (count, nextListener s) (_tokenListeners s2))
    by (apply In_insert).
  rewrite Esplit in Hin. apply in_app_or in Hin. destruct Hin as [H|H].
  - right. rewrite Eres. apply in_or_app. right.
    exact (in_map snd _ _ H).
  - left. exact H.
Qed.

(** The claim as stated fails on a negative count and on [NaN]: neither
    exceeds [_maxTokens = 10], so [onceTokensAvailable] registers the
    waiter instead of throwing. *)
Lemma C9_counterexample :
  (of_Z (-1) <? zero)%num = true
  /\ isFinite NaN = false
  /\ wf example_bucket /\ clock_ok zero example_bucket
  /\ (exists s', onceTokensAvailable 1 zero (of_Z (-1)) example_bucket
                 = Ok (0%nat, s'))
  /\ (exists s', onceTokensAvailable 1 zero NaN example_bucket
                 = Ok (0%nat, s'))
  /\ onceTokensAvailable 1 zero (of_Z (-1)) example_bucket
     <> Throw InvalidArgument
  /\ onceTokensAvailable 1 zero NaN example_bucket <> Throw InvalidArgument.
Proof.
  split; [reflexivity|]. split; [reflexivity|].
  split; [exact example_bucket_wf|].
  split; [exact (proj2 example_bucket_Inv)|].
  split; [eexists; vm_compute; reflexivity|].
  split; [eexists; vm_compute; reflexivity|].
  split; vm_compute; discriminate.
Qed.

End WaiterClaims.

(** ** The rolling window *)

Section WindowClaims.

Open Scope Qc_scope.

Lemma min_comm (a b : num) : Num.min a b = Num.min b a.
Proof.
  destruct a as [x| | |], b as [y| | |]; cbn; try reflexivity.
  destruct (Qcleb x y) eqn:E1, (Qcleb y x) eqn:E2; try reflexivity.
  - f_equal. qc_lra.
  - exfalso. qc_lra.
Qed.

Lemma le_lt_false (k x e : num) :
  (k <=? x)%num = true -> (k <? e)%num = false -> (x <? e)%num = false.
Proof.
  destruct k, x, e; cbn; intros; try discriminate; try reflexivity; qc_lra.
Qed.

Lemma filter_all {A : Type} (f : A -> bool) (l : list A) :
  (forall x, In x l -> f x = true) -> filter f l = l.
Proof.
  induction l as [|x l IH]; cbn; intro H; [reflexivity|].
  rewrite (H x (or_introl eq_refl)). f_equal. apply IH. auto.
Qed.

(** On a ledger in timestamp order, the purge loop removes exactly the
    entries older than the expiry timestamp. *)
Lemma dropExpired_filter (e : num) (h : Tree.tree num) :
  sorted_keys h ->
  dropExpired e h = filter (fun x => negb (fst x <? e)%num) h.
Proof.
  intro Hs. induction Hs as [|[k v] t Hs IH Hall]; [reflexivity|].
  cbn [dropExpired filter fst].
  destruct (k <? e)%num eqn:L; cbn [negb]; [exact IH|].
  f_equal. symmetry. apply filter_all. intros x Hx.
  pose proof (proj1 (Forall_forall _ _) Hall x Hx) as Hk. cbn in Hk.
  rewrite (le_lt_false _ _ _ Hk L). reflexivity.
Qed.

Lemma dropExpired_sorted (e : num) (h : Tree.tree num) :
  sorted_keys h -> sorted_keys (dropExpired e h).
Proof.
  intro Hs. induction Hs as [|[k v] t Hs IH Hall]; [constructor|].
  cbn [dropExpired]. destruct (k <? e)%num; [exact IH|].
  constructor; assumption.
Qed.

Lemma restore_set_window (now : num) (w : option Window) (s : Bucket) :
  _restoreContinuousTokens now (set_window w s)
  = set_window w (_restoreContinuousTokens now s).
Proof.
  unfold _restoreContinuousTokens, _addTokensToBucket. cbn.
  destruct (_ >? _)%num; reflexivity.
Qed.

(** C5. On a rolling-window bucket whose ledger is in timestamp order the
    consumable token count is the minimum of the consumable tokens of the
    base bucket and [_maxHistoryTokens] less the window spend, the window
    spend being the sum of the ledger entries that are not older than
    [_historyIntervalMs]. *)
Theorem C5_rolling_window_consumable
    (now : num) (s : Bucket) (w : Window) :
  window s = Some w ->
  sorted_keys (_history w) ->
  fst (_getConsumableTokens now s) = spec_consumable now s w.
Proof.
  intros Hw Hs. unfold _getConsumableTokens, spec_consumable. rewrite Hw.
  unfold _countAndCleanupHistoricTokens, _cleanupHistoricTokens,
    TokenBucket_getConsumableTokens.
  cbv zeta. cbn [fst snd _history set_history _maxHistoryTokens].
  rewrite restore_set_window. cbn [_tokenContent set_window].
  rewrite min_comm. f_equal. f_equal.
  unfold spec_windowSpend, spec_purged, Tree.forEach.
  rewrite (dropExpired_filter _ Hs). reflexivity.
Qed.

End WindowClaims.

(* ================================================================== *)
(** ** The queue of the limiter *)

Section QueueFacts.

Open Scope Qc_scope.

Lemma lt_trans (a b c : num) :
  (a <? b)%num = true -> (b <? c)%num = true -> (a <? c)%num = true.
Proof.
  destruct a, b, c; cbn; intros; try discriminate; try reflexivity; qc_lra.
Qed.

Lemma lt_irrefl (a : num) : (a <? a)%num = false.
Proof. destruct a; cbn; try reflexivity. qc_lra. Qed.

Lemma same_key_lt (k k' : num) :
  (k <? k')%num = true -> Tree.same_key k k' = false.
Proof. intro H. unfold Tree.same_key. rewrite H. reflexivity. Qed.

Lemma same_key_gt (k k' : num) :
  (k' <? k)%num = true -> Tree.same_key k k' = false.
Proof.
  intro H. unfold Tree.same_key, gt. rewrite H. apply andb_false_r.
Qed.

Lemma same_key_refl (k : num) : Tree.same_key k k = true.
Proof. unfold Tree.same_key, gt. rewrite lt_irrefl. reflexivity. Qed.


Lemma not_same_not_gt (k k' : num) :
  isNaN k = false -> isNaN k' = false ->
  Tree.same_key k k' = false -> (k >? k')%num = false ->
  (k <? k')%num = true.
Proof.
  unfold Tree.same_key, gt.
  destruct k as [x| | |], k' as [y| | |]; cbn; intros N1 N2 H1 H2;
    try discriminate; try reflexivity.
  rewrite H2 in H1. cbn in H1. rewrite andb_true_r in H1.
  apply negb_false_iff in H1. exact H1.
Qed.

Lemma get_In (k : num) (t : Tree.tree (list Awaiter)) (q : list Awaiter) :
  Tree.get k t = Some q ->
  exists k', In (k', q) t /\ Tree.same_key k k' = true.
Proof.
  induction t as [|[k' v] t IH]; cbn; [discriminate|].
  destruct (Tree.same_key k k') eqn:E.
  - intro H. injection H as <-. exists k'. auto.
  - intro H. destruct (IH H) as (k1 & Hin & Hs). exists k1. auto.
Qed.

Lemma get_None (k : num) (t : Tree.tree (list Awaiter)) :
  Tree.get k t = None ->
  Forall (fun e => Tree.same_key k (fst e) = false) t.
Proof.
  induction t as [|[k' v] t IH]; cbn; [constructor|].
  destruct (Tree.same_key k k') eqn:E; [discriminate|].
  intro H. constructor; auto.
Qed.

(** Inserting a new priority keeps the priorities strictly ascending. *)
Lemma insert_sorted_strict (k : num) (v : list Awaiter)
    (t : Tree.tree (list Awaiter)) :
  isNaN k = false ->
  Forall (fun e => isNaN (fst e) = false) t ->
  Forall (fun e => Tree.same_key k (fst e) = false) t ->
  StronglySorted key_lt t -> StronglySorted key_lt (Tree.insert k v t).
Proof.
  intros Hk Hn Hd Hs. induction Hs as [|[k' v'] t Hs IH Hall]; cbn.
  - constructor; constructor.
  - inversion Hn as [|? ? Hk' Hn']; subst.
    inversion Hd as [|? ? Hd' Hd'']; subst. cbn in *.
    destruct (k >? k')%num eqn:E.
    + constructor; [exact (IH Hn' Hd'')|].
      apply insert_Forall; [exact Hall|exact E].
    + pose proof (not_same_not_gt _ _ Hk Hk' Hd' E) as L.
      constructor; [constructor; assumption|].
      constructor; [exact L|].
      apply Forall_forall. intros e He. unfold key_lt. cbn.
      apply lt_trans with (b := k'); [exact L|].
      exact (proj1 (Forall_forall _ _) Hall e He).
Qed.

Lemma replace_Forall (P : num * list Awaiter -> Prop) (k : num)
    (v : list Awaiter) (t : Tree.tree (list Awaiter)) :
  Forall P t ->
  (forall k' v', In (k', v') t -> Tree.same_key k k' = true -> P (k', v)) ->
  Forall P (Tree.replace k v t).
Proof.
  intros Ht. induction Ht as [|[k' v'] t Hx Ht IH]; cbn; intro H.
  - constructor.
  - destruct (Tree.same_key k k') eqn:E.
    + constructor; [|assumption]. apply (H k' v'); auto.
    + constructor; [assumption|]. apply IH. intros. apply (H k'0 v'0); auto.
Qed.

Lemma replace_keys (k : num) (v : list Awaiter) (t : Tree.tree (list Awaiter)) :
  map fst (Tree.replace k v t) = map fst t.
Proof.
  induction t as [|[k' v'] t IH]; cbn; [reflexivity|].
  destruct (Tree.same_key k k'); cbn; [reflexivity|]. f_equal. exact IH.
Qed.

(** Sortedness of the priorities only looks at the keys. *)
Lemma sorted_by_keys (t t' : Tree.tree (list Awaiter)) :
  map fst t' = map fst t ->
  StronglySorted key_lt t -> StronglySorted key_lt t'.
Proof.
  intros E Hs. revert t' E.
  induction Hs as [|x t Hs IH Hall]; intros [|y t'] E; try discriminate.
  - constructor.
  - cbn in E. injection E as E1 E2. constructor; [exact (IH _ E2)|].
    apply Forall_forall. intros z Hz. unfold key_lt. rewrite E1.
    apply (in_map fst) in Hz. rewrite E2 in Hz.
    apply in_map_iff in Hz. destruct Hz as (z' & Ez & Hz').
    rewrite <- Ez. exact (proj1 (Forall_forall _ _) Hall z' Hz').
Qed.

Lemma remove_In (k : num) (t : Tree.tree (list Awaiter)) (e : num * list Awaiter) :
  In e (Tree.remove k t) -> In e t.
Proof.
  induction t as [|[k' v'] t IH]; cbn; [auto|].
  destruct (Tree.same_key k k'); cbn; intuition.
Qed.

Lemma remove_sorted (k : num) (t : Tree.tree (list Awaiter)) :
  StronglySorted key_lt t -> StronglySorted key_lt (Tree.remove k t).
Proof.
  intro Hs. induction Hs as [|[k' v'] t Hs IH Hall]; cbn; [constructor|].
  destruct (Tree.same_key k k'); [exact Hs|].
  constructor; [exact IH|].
  apply Forall_forall. intros e He.
  exact (proj1 (Forall_forall _ _) Hall e (remove_In _ _ _ He)).
Qed.

Lemma remove_Forall (P : num * list Awaiter -> Prop) (k : num)
    (t : Tree.tree (list Awaiter)) :
  Forall P t -> Forall P (Tree.remove k t).
Proof.
  intro H. apply Forall_forall. intros e He.
  exact (proj1 (Forall_forall _ _) H e (remove_In _ _ _ He)).
Qed.

Lemma removeOne_In (predicate : Awaiter -> bool) (q q' : list Awaiter) (a : Awaiter) :
  removeOne predicate q = Some q' -> In a q' -> In a q.
Proof.
  revert q'. induction q as [|x q IH]; cbn; intros q'; [discriminate|].
  destruct (predicate x).
  - intro H. injection H as <-. auto.
  - destruct (removeOne predicate q) as [q1|]; cbn; [|discriminate].
    intro H. injection H as <-. cbn. intros [H|H]; [auto|].
    right. exact (IH q1 eq_refl H).
Qed.

Lemma removeOne_sorted (predicate : Awaiter -> bool) (q q' : list Awaiter) :
  removeOne predicate q = Some q' ->
  StronglySorted Peano.lt (map a_id q) ->
  StronglySorted Peano.lt (map a_id q').
Proof.
  revert q'. induction q as [|x q IH]; cbn; intros q'; [discriminate|].
  intros H Hs. inversion Hs as [|? ? Hs' Hall]; subst.
  destruct (predicate x).
  - injection H as <-. exact Hs'.
  - destruct (removeOne predicate q) as [q1|] eqn:E; cbn in H; [|discriminate].
    injection H as <-. cbn. constructor; [exact (IH q1 eq_refl Hs')|].
    apply Forall_forall. intros i Hi.
    apply in_map_iff in Hi. destruct Hi as (a & <- & Ha).
    apply (proj1 (Forall_forall _ _) Hall).
    apply in_map. exact (@removeOne_In predicate q q1 a E Ha).
Qed.

Lemma group_ok_mono (n m : nat) (e : num * list Awaiter) :
  (n <= m)%nat -> group_ok n e -> group_ok m e.
Proof.
  intros Hnm (H1 & H2 & H3 & H4). repeat split; try assumption.
  apply Forall_forall. intros a Ha.
  pose proof (proj1 (Forall_forall _ _) H4 a Ha) as Hlt. cbn beta in Hlt.
  unfold Peano.lt in *. lia.
Qed.

End QueueFacts.

Section QueueInvariant.

Lemma replace_get_Forall (P : num * list Awaiter -> Prop) (k : num)
    (v q : list Awaiter) (t : Tree.tree (list Awaiter)) :
  Forall P t -> Tree.get k t = Some q ->
  (forall k', In (k', q) t -> Tree.same_key k k' = true -> P (k', v)) ->
  Forall P (Tree.replace k v t).
Proof.
  intros Ht. induction Ht as [|[k' v'] t Hx Ht IH]; cbn; intros Hg H.
  - constructor.
  - destruct (Tree.same_key k k') eqn:E.
    + injection Hg as ->. constructor; [|assumption]. apply H; auto.
    + constructor; [assumption|]. apply IH; [assumption|].
      intros. apply H; auto.
Qed.

Lemma sorted_ids_snoc (l : list nat) (x : nat) :
  StronglySorted Peano.lt l -> Forall (fun i => (i < x)%nat) l ->
  StronglySorted Peano.lt (l ++ [x]).
Proof.
  intros Hs Hb. induction Hs as [|i l Hs IH Hall]; cbn.
  - constructor; constructor.
  - inversion Hb as [|? ? Hi Hb']; subst.
    constructor; [exact (IH Hb')|].
    apply Forall_app. split; [exact Hall|].
    constructor; [exact Hi|constructor].
Qed.

Lemma tree_ok_nonNaN (n : nat) (t : Tree.tree (list Awaiter)) :
  tree_ok n t -> Forall (fun e => isNaN (fst e) = false) t.
Proof.
  intros [_ H]. apply Forall_forall. intros e He.
  exact (proj1 (proj1 (Forall_forall _ _) H e He)).
Qed.

(** [_addAwaiter] keeps the invariant of the queue. *)
Lemma addAwaiter_ok (priority : num) (a : Awaiter) (L : Limiter) :
  tree_ok (a_id a) (_awaiters L) -> isNaN priority = false ->
  tree_ok (S (a_id a)) (_awaiters (_addAwaiter priority a L)).
Proof.
  intros T Hp. pose proof (tree_ok_nonNaN T) as Hn. destruct T as [Hs Hg].
  assert (Hg' : Forall (group_ok (S (a_id a))) (_awaiters L)).
  { apply Forall_forall. intros e He.
    apply group_ok_mono with (n := a_id a); [lia|].
    exact (proj1 (Forall_forall _ _) Hg e He). }
  unfold _addAwaiter.
  destruct (Tree.get priority (_awaiters L)) as [q|] eqn:G; cbn [_awaiters set_awaiters].
  - split.
    + exact (@sorted_by_keys _ _ (replace_keys _ _ _) Hs).
    + apply (@replace_get_Forall _ _ _ q _ Hg' G). intros k' Hin _.
      destruct (proj1 (Forall_forall _ _) Hg _ Hin) as (G1 & G2 & G3 & G4).
      unfold group_ok. cbn [fst snd] in *. repeat split.
      * exact G1.
      * destruct q; discriminate.
      * rewrite map_app. cbn. apply sorted_ids_snoc; [exact G3|].
        apply Forall_forall. intros i Hi. apply in_map_iff in Hi.
        destruct Hi as (x & <- & Hx).
        exact (proj1 (Forall_forall _ _) G4 x Hx).
      * apply Forall_app. split.
        -- apply Forall_forall. intros x Hx.
           pose proof (proj1 (Forall_forall _ _) G4 x Hx) as Hlt.
           cbn beta in Hlt. lia.
        -- constructor; [lia|constructor].
  - split.
    + apply insert_sorted_strict; try assumption. exact (@get_None _ _ G).
    + apply insert_Forall; [exact Hg'|].
      repeat split; cbn.
      * exact Hp.
      * discriminate.
      * constructor; constructor.
      * constructor; [lia|constructor].
Qed.

(** [_removeFirstAwaiter] keeps the invariant of the queue. *)
Lemma removeFirstAwaiter_ok (n : nat) (priority : num)
    (predicate : Awaiter -> bool) (L : Limiter) :
  tree_ok n (_awaiters L) ->
  tree_ok n (_awaiters (snd (_removeFirstAwaiter priority predicate L))).
Proof.
  intros [Hs Hg]. unfold _removeFirstAwaiter.
  destruct (Tree.get priority (_awaiters L)) as [q|] eqn:G; [|split; assumption].
  set (r := match removeOne predicate q with
            | Some q0 => (true, q0) | None => (false, q) end).
  assert (Hsub : forall a, In a (snd r) -> In a q).
  { subst r. destruct (removeOne predicate q) as [q0|] eqn:E; cbn; [|auto].
    intros a Ha. exact (@removeOne_In predicate q q0 a E Ha). }
  assert (Hsorted : StronglySorted Peano.lt (map a_id q) ->
                    StronglySorted Peano.lt (map a_id (snd r))).
  { subst r. destruct (removeOne predicate q) as [q0|] eqn:E; cbn; [|auto].
    exact (@removeOne_sorted predicate q q0 E). }
  destruct r as [success queue1]. cbn [snd] in *.
  destruct (List.length queue1 <=? 0)%nat eqn:Len; cbn [snd _awaiters set_awaiters].
  - split; [exact (@remove_sorted _ _ Hs)|exact (@remove_Forall _ _ _ Hg)].
  - split.
    + exact (@sorted_by_keys _ _ (replace_keys _ _ _) Hs).
    + apply (@replace_get_Forall _ _ _ q _ Hg G). intros k' Hin _.
      destruct (proj1 (Forall_forall _ _) Hg _ Hin) as (G1 & G2 & G3 & G4).
      unfold group_ok. cbn [fst snd] in *. repeat split.
      * exact G1.
      * destruct queue1; [discriminate Len|discriminate].
      * exact (Hsorted G3).
      * apply Forall_forall. intros x Hx.
        exact (proj1 (Forall_forall _ _) G4 x (Hsub x Hx)).
Qed.

Lemma awaiters_settle (id : nat) (o : outcome) (L : Limiter) :
  _awaiters (settle_awaiter id o L) = _awaiters L
  /\ nextAwaiter (settle_awaiter id o L) = nextAwaiter L.
Proof.
  unfold settle_awaiter. destruct (existsb _ _); split; reflexivity.
Qed.

Lemma nextAwaiter_removeFirst (priority : num) (predicate : Awaiter -> bool)
    (L : Limiter) :
  nextAwaiter (snd (_removeFirstAwaiter priority predicate L)) = nextAwaiter L.
Proof.
  unfold _removeFirstAwaiter.
  destruct (Tree.get priority (_awaiters L)); [|reflexivity].
  destruct (match removeOne predicate l with
            | Some q0 => (true, q0) | None => (false, l) end) as [s q1].
  destruct (List.length q1 <=? 0)%nat; reflexivity.
Qed.

Lemma submit_ok (tokenCount priority : num) (L : Limiter) :
  queue_ok L -> isNaN priority = false ->
  queue_ok (snd (submit tokenCount priority L)).
Proof.
  intros Q Hp. unfold submit, queue_ok. cbn [snd].
  set (a := mkAwaiter (nextAwaiter L) tokenCount).
  set (L1 := set_nextAwaiter (S (nextAwaiter L)) L).
  assert (E : nextAwaiter (_addAwaiter priority a L1) = S (a_id a)).
  { unfold _addAwaiter. destruct (Tree.get _ _); reflexivity. }
  rewrite E. apply addAwaiter_ok; [exact Q|exact Hp].
Qed.

Lemma cancelAwaiter_ok (id : nat) (priority : num) (L : Limiter) :
  queue_ok L -> queue_ok (snd (cancelAwaiter id priority L)).
Proof.
  intro Q. unfold cancelAwaiter, queue_ok.
  pose proof (@removeFirstAwaiter_ok (nextAwaiter L) priority
                (fun a => Nat.eqb (a_id a) id) L Q) as T.
  pose proof (nextAwaiter_removeFirst priority
                (fun a => Nat.eqb (a_id a) id) L) as N.
  destruct (_removeFirstAwaiter _ _ L) as [success L1]. cbn [snd] in *.
  destruct success; cbn [snd].
  - destruct (awaiters_settle id (Rejected CanceledError) L1) as [-> ->].
    rewrite N. exact T.
  - rewrite N. exact T.
Qed.

Lemma serve_ok (now priority : num) (a : Awaiter) (L : Limiter) :
  queue_ok L -> queue_ok (serve now priority a L).
Proof.
  intro Q. unfold serve, queue_ok.
  pose proof (@removeFirstAwaiter_ok (nextAwaiter L) priority
                (fun x => Nat.eqb (a_id x) (a_id a)) L Q) as T.
  pose proof (nextAwaiter_removeFirst priority
                (fun x => Nat.eqb (a_id x) (a_id a)) L) as N.
  destruct (_removeFirstAwaiter _ _ L) as [success L1]. cbn [snd] in *.
  destruct (awaiters_settle (a_id a) Resolved (set_lastConsumed now L1))
    as [-> ->].
  cbn [_awaiters nextAwaiter set_lastConsumed]. rewrite N. exact T.
Qed.

Lemma lstep_ok (L : Limiter) (o : lop) :
  queue_ok L -> lop_ok o -> queue_ok (lstep L o).
Proof.
  intros Q Ho. destruct o; cbn [lstep lop_ok] in *.
  - apply submit_ok; assumption.
  - apply cancelAwaiter_ok; assumption.
  - destruct (peekAwaiter L) as [[p a]|]; [|exact Q].
    apply serve_ok; assumption.
Qed.

Lemma lrun_ok (ops : list lop) (L : Limiter) :
  queue_ok L -> Forall lop_ok ops -> queue_ok (lrun ops L).
Proof.
  revert L. induction ops as [|o ops IH]; intros L Q H; [exact Q|].
  inversion H as [|? ? Ho Hrest]; subst. cbn.
  apply IH; [|exact Hrest]. apply lstep_ok; assumption.
Qed.

Lemma new_Limiter_ok (b : Bucket) (m : option num) : queue_ok (new_Limiter b m).
Proof. split; constructor. Qed.

End QueueInvariant.

(** ** The order of service *)

Section ServiceOrder.

Lemma end_entry_last {V : Type} (t : Tree.tree V) (e : num * V) :
  Tree.end_entry t = Some e -> exists t', t = t' ++ [e].
Proof.
  unfold Tree.end_entry. destruct (rev t) as [|x r] eqn:E; [discriminate|].
  intro H. injection H as ->. exists (rev r).
  rewrite <- (rev_involutive t), E. reflexivity.
Qed.

Lemma end_entry_app {V : Type} (t : Tree.tree V) (e : num * V) :
  Tree.end_entry (t ++ [e]) = Some e.
Proof. unfold Tree.end_entry. rewrite rev_app_distr. reflexivity. Qed.

Lemma end_entry_None {V : Type} (t : Tree.tree V) :
  Tree.end_entry t = None -> t = [].
Proof.
  unfold Tree.end_entry. destruct (rev t) eqn:E; [|discriminate].
  intros _. rewrite <- (rev_involutive t), E. reflexivity.
Qed.

Lemma sorted_app_last (t : Tree.tree (list Awaiter)) (e : num * list Awaiter) :
  StronglySorted key_lt (t ++ [e]) ->
  StronglySorted key_lt t /\ Forall (fun x => key_lt x e) t.
Proof.
  induction t as [|x t IH]; cbn; intro H; [split; constructor|].
  inversion H as [|? ? Hs Hall]; subst.
  destruct (IH Hs) as [A B]. apply Forall_app in Hall. destruct Hall as [H1 H2].
  split; constructor; try assumption.
  inversion H2; assumption.
Qed.


(** The shape of a non-empty queue: the last group holds the highest
    priority, and the watcher reads the front of it. *)
Lemma peek_shape (L : Limiter) :
  queue_ok L ->
  _awaiters L = []
  \/ exists t' p a rest,
       _awaiters L = t' ++ [(p, a :: rest)]
       /\ peekAwaiter L = Some (p, a)
       /\ Forall (fun x => key_lt x (p, a :: rest)) t'
       /\ Forall (fun x => (a_id a < a_id x)%nat) rest.
Proof.
  intros [Hs Hg]. unfold peekAwaiter.
  destruct (Tree.end_entry (_awaiters L)) as [[p q]|] eqn:E.
  - right. destruct (end_entry_last _ E) as (t' & Et).
    rewrite Et in Hs, Hg. apply Forall_app in Hg. destruct Hg as [_ Hg].
    inversion Hg as [|? ? (G1 & G2 & G3 & G4) _]; subst. cbn [fst snd] in *.
    destruct q as [|a rest]; [contradiction|].
    exists t', p, a, rest. split; [exact Et|]. split; [reflexivity|].
    split; [exact (proj2 (sorted_app_last _ _ Hs))|].
    cbn in G3. inversion G3 as [|? ? _ Hall]; subst.
    apply Forall_forall. intros x Hx.
    exact (proj1 (Forall_forall _ _) Hall _ (in_map a_id _ _ Hx)).
  - left. exact (end_entry_None _ E).
Qed.


Lemma get_app_last (p : num) (q : list Awaiter) (t : Tree.tree (list Awaiter)) :
  Forall (fun x => key_lt x (p, q)) t ->
  Tree.get p (t ++ [(p, q)]) = Some q
  /\ Tree.remove p (t ++ [(p, q)]) = t
  /\ forall v, Tree.replace p v (t ++ [(p, q)]) = t ++ [(p, v)].
Proof.
  intro H. induction H as [|[k v0] t Hk Ht (IH1 & IH2 & IH3)]; cbn.
  - rewrite same_key_refl. auto.
  - rewrite (same_key_gt p k Hk). rewrite IH1, IH2.
    repeat split. intro v. rewrite IH3. reflexivity.
Qed.

(** Serving the awaiter the watcher read takes it, and nothing else, off
    the front of the last group. *)
Lemma serve_shape (now : num) (L : Limiter) (t' : Tree.tree (list Awaiter))
    (p : num) (a : Awaiter) (rest : list Awaiter) :
  _awaiters L = t' ++ [(p, a :: rest)] ->
  Forall (fun x => key_lt x (p, a :: rest)) t' ->
  _awaiters (serve now p a L)
  = t' ++ match rest with [] => [] | _ :: _ => [(p, rest)] end.
Proof.
  intros Et Hlt. unfold serve, _removeFirstAwaiter.
  destruct (get_app_last Hlt) as (G1 & G2 & G3).
  rewrite Et, G1. cbn [removeOne]. rewrite Nat.eqb_refl.
  destruct rest as [|b rest]; cbn [List.length Nat.leb].
  - rewrite G2.
    destruct (awaiters_settle (a_id a) Resolved
                (set_lastConsumed now (set_awaiters t' L))) as [-> _].
    cbn. rewrite app_nil_r. reflexivity.
  - rewrite G3.
    destruct (awaiters_settle (a_id a) Resolved
                (set_lastConsumed now
                   (set_awaiters (t' ++ [(p, b :: rest)]) L))) as [-> _].
    reflexivity.
Qed.




(** C8, on the code. [restoreTokens(count)] of the limiter calls
    [this._tokenBucket.restoreTokens(count)], a member that neither
    bucket class has: the call throws a [TypeError] and restores nothing. *)
Theorem C8_restoreTokens_has_no_target
    (fuel : nat) (now count : num) (L : Limiter) :
  cls_restoreTokens (class_of (_tokenBucket L)) = None
  /\ restoreTokens fuel now count L = Throw TypeError.
Proof. split; reflexivity. Qed.

End ServiceOrder.

(* ================================================================== *)
(** ** Consumption racing cancellation in a watcher step *)

Section Race.

(** Evaluate each conjunct of a closed statement. *)
Ltac evaluate :=
  repeat match goal with
         | |- _ /\ _ => split
         | |- In _ _ => vm_compute; left; reflexivity
         | |- _ = _ => vm_compute; reflexivity
         end.

(** The step starts suspended: no tokens, the consumption waits for one
    token, the watcher awaits the race. *)
Lemma race_start_suspended :
  exists st0,
    race_start = Some st0
    /\ watcher st0 = AwaitingRace
    /\ consumePromise st0 = Pending
    /\ waiting st0 = Some 0%nat
    /\ Num.eqb (_tokenContent (st_bucket st0)) (of_Z 0) = true
    /\ microtasks st0 = [].
Proof. eexists. evaluate. Qed.

(** Tokens arriving with no cancellation: the token is spent and the
    awaiter is resolved. *)
Lemma race_served_without_cancellation :
  exists st0 st,
    race_start = Some st0
    /\ run_turn 8 (of_Z 1000) [EvBucket (OpTick example_periodic)] st0 = Some st
    /\ watcher st = Finished Fulfilled
    /\ Num.eqb (_tokenContent (st_bucket st)) (of_Z 9) = true
    /\ outcomes (st_limiter st) = [(0%nat, Resolved)]
    /\ pending (st_limiter st) = [].
Proof. do 2 eexists. evaluate. Qed.

(** Cancellation in a job of its own, before any token arrives: the wait
    is cancelled, [CanceledError] propagates, and the tokens that arrive
    later stay in the bucket. *)
Lemma race_cancelled_before_tokens :
  exists st0 st1 st,
    race_start = Some st0
    /\ run_turn 8 (of_Z 500) [EvSubmit (of_Z 1) (of_Z 0)] st0 = Some st1
    /\ watcher st1 = Finished (Failed CanceledError)
    /\ consumePromise st1 = Failed CanceledError
    /\ _tokenListeners (st_bucket st1) = []
    /\ run_turn 8 (of_Z 1000) [EvBucket (OpTick example_periodic)] st1 = Some st
    /\ Num.eqb (_tokenContent (st_bucket st)) (of_Z 10) = true
    /\ outcomes (st_limiter st) = [].
Proof. do 3 eexists. evaluate. Qed.

(** C4, on the code. The restorer ticks and a second request is made in
    the same job, in either order. The waiting consumption is resumed by
    the tick before the watcher has run its catch block, so it is not yet
    cancelled: it consumes the token and succeeds. The race is decided for
    the cancellation all the same, the catch block awaits the (fulfilled)
    consumption and rethrows. One token is spent, [CanceledError]
    propagates, and the awaiter is neither resolved nor taken off the
    queue. *)
Theorem C4_spent_tokens_lost_when_cancelled_in_the_same_job :
  exists st0 st st',
    race_start = Some st0
    /\ run_turn 8 (of_Z 1000) tick_then_submit st0 = Some st
    /\ consumePromise st = Fulfilled
    /\ racePromise st = Failed CanceledError
    /\ watcher st = Finished (Failed CanceledError)
    /\ Num.eqb (_tokenContent (st_bucket st)) (of_Z 9) = true
    /\ outcomes (st_limiter st) = []
    /\ In (of_Z 0, mkAwaiter 0 (of_Z 1)) (pending (st_limiter st))
    /\ run_turn 8 (of_Z 1000) submit_then_tick st0 = Some st'
    /\ consumePromise st' = Fulfilled
    /\ watcher st' = Finished (Failed CanceledError)
    /\ Num.eqb (_tokenContent (st_bucket st')) (of_Z 9) = true
    /\ outcomes (st_limiter st') = []
    /\ In (of_Z 0, mkAwaiter 0 (of_Z 1)) (pending (st_limiter st')).
Proof. do 3 eexists. evaluate. Qed.

(** The watcher that takes over reads the same awaiter and consumes for it
    a second time: the request for one token has cost two. *)
Lemma race_successor_consumes_again :
  exists st0 st st2,
    race_start = Some st0
    /\ run_turn 8 (of_Z 1000) tick_then_submit st0 = Some st
    /\ successor_step 8 (of_Z 1000) st = Some st2
    /\ watcher st2 = Finished Fulfilled
    /\ Num.eqb (_tokenContent (st_bucket st2)) (of_Z 8) = true
    /\ outcomes (st_limiter st2) = [(0%nat, Resolved)].
Proof. do 3 eexists. evaluate. Qed.

(** The same race lost to the requester's own cancellation: the token is
    spent and the request is rejected with [CanceledError]. *)
Lemma race_own_cancel_loses_tokens :
  exists st0 st,
    race_start = Some st0
    /\ run_turn 8 (of_Z 1000) tick_then_cancel st0 = Some st
    /\ consumePromise st = Fulfilled
    /\ Num.eqb (_tokenContent (st_bucket st)) (of_Z 9) = true
    /\ outcomes (st_limiter st) = [(0%nat, Rejected CanceledError)].
Proof. do 2 eexists. evaluate. Qed.

End Race.
(* ================================================================== *)
(** ** Rounding to binary64 *)

Section Rounding.

Import F64.

Local Open Scope Q_scope.

Lemma pow2_pos (e : Z) : 0 < pow2 e.
Proof. apply Qpower_0_lt. reflexivity. Qed.

Lemma pow2_le (a b : Z) : (a <= b)%Z -> pow2 a <= pow2 b.
Proof. intro H. apply Qpower_le_compat_l; [exact H|]. discriminate. Qed.

Lemma pow2_lt_inv (a b : Z) : pow2 a < pow2 b -> (a < b)%Z.
Proof. intro H. apply (Qpower_lt_compat_l_inv 2); [exact H|]. reflexivity. Qed.

Lemma pow2_add (a b : Z) : pow2 (a + b) == pow2 a * pow2 b.
Proof. apply Qpower_plus. discriminate. Qed.

Lemma pow2_Z (n : Z) : (0 <= n)%Z -> pow2 n == inject_Z (2 ^ n).
Proof. intro H. unfold pow2. rewrite Zpower_Qpower by exact H. reflexivity. Qed.

(** The lengths of numerator and denominator bracket a positive
    rational. *)
Lemma log2_bracket (q : Q) :
  0 < q ->
  let e := (Z.log2 (Qnum q) - Z.log2 (Zpos (Qden q)))%Z in
  pow2 (e - 1) < q /\ q < pow2 (e + 1).
Proof.
  destruct q as [n d]. intro Hq. cbn [Qnum Qden].
  assert (Hn : (0 < n)%Z).
  { unfold Qlt in Hq. cbn in Hq. lia. }
  set (a := Z.log2 n). set (b := Z.log2 (Zpos d)).
  assert (Ha : (2 ^ a <= n < 2 ^ (a + 1))%Z).
  { pose proof (Z.log2_spec n Hn) as X. unfold a.
    replace (Z.log2 n + 1)%Z with (Z.succ (Z.log2 n)) by lia. exact X. }
  assert (Hb : (2 ^ b <= Zpos d < 2 ^ (b + 1))%Z).
  { pose proof (Z.log2_spec (Zpos d) eq_refl) as X. unfold b.
    replace (Z.log2 (Zpos d) + 1)%Z with (Z.succ (Z.log2 (Zpos d))) by lia.
    exact X. }
  assert (Ha0 : (0 <= a)%Z) by apply Z.log2_nonneg.
  assert (Hb0 : (0 <= b)%Z) by apply Z.log2_nonneg.
  cbv zeta. split.
  - apply (Qmult_lt_r _ _ (pow2 (b + 1))); [apply pow2_pos|].
    rewrite <- pow2_add.
    replace (a - b - 1 + (b + 1))%Z with a by lia.
    rewrite (@pow2_Z a Ha0), (@pow2_Z (b + 1)) by lia.
    unfold Qlt, Qmult, inject_Z. cbn [Qnum Qden].
    assert (P : (0 < 2 ^ (b + 1))%Z) by (apply Z.pow_pos_nonneg; lia).
    nia.
  - apply (Qmult_lt_r _ _ (pow2 b)); [apply pow2_pos|].
    rewrite <- pow2_add.
    replace (a - b + 1 + b)%Z with (a + 1)%Z by lia.
    rewrite (@pow2_Z (a + 1)), (@pow2_Z b) by lia.
    unfold Qlt, Qmult, inject_Z. cbn [Qnum Qden].
    assert (P : (0 < 2 ^ b)%Z) by (apply Z.pow_pos_nonneg; lia).
    nia.
Qed.

Lemma binade_spec (q : Q) :
  0 < q -> pow2 (binade q) <= q /\ q < pow2 (binade q + 1).
Proof.
  intro Hq. destruct (@log2_bracket q Hq) as [A B]. unfold binade.
  set (e := (Z.log2 (Qnum q) - Z.log2 (Zpos (Qden q)))%Z) in *.
  destruct (Qle_bool (pow2 e) q) eqn:E.
  - apply Qle_bool_iff in E. split; [exact E|exact B].
  - split; [apply Qlt_le_weak; exact A|].
    replace (e - 1 + 1)%Z with e by lia.
    apply Qnot_le_lt. intro H. apply Qle_bool_iff in H. congruence.
Qed.

Lemma binade_mono (q1 q2 : Q) :
  0 < q1 -> q1 <= q2 -> (binade q1 <= binade q2)%Z.
Proof.
  intros H1 H12.
  assert (H2 : 0 < q2) by (eapply Qlt_le_trans; eauto).
  destruct (@binade_spec q1 H1) as [A1 _].
  destruct (@binade_spec q2 H2) as [_ B2].
  assert (X : pow2 (binade q1) < pow2 (binade q2 + 1)).
  { eapply Qle_lt_trans; [exact A1|]. eapply Qle_lt_trans; eauto. }
  apply pow2_lt_inv in X. lia.
Qed.

(** *** The nearest integer *)

Lemma nearest_even_bounds (q : Q) :
  (Qfloor q <= nearest_even q <= Qfloor q + 1)%Z.
Proof.
  unfold nearest_even. destruct (Qcompare _ _); [destruct (Z.even _)| |]; lia.
Qed.

Lemma nearest_even_Z (z : Z) : nearest_even (inject_Z z) = z.
Proof.
  unfold nearest_even. rewrite Qfloor_Z.
  assert (E : inject_Z z - inject_Z z == 0) by ring.
  rewrite E. reflexivity.
Qed.

Lemma nearest_even_mono (q1 q2 : Q) :
  q1 <= q2 -> (nearest_even q1 <= nearest_even q2)%Z.
Proof.
  intro H. pose proof (Qfloor_resp_le _ _ H) as F.
  pose proof (nearest_even_bounds q1) as B1.
  pose proof (nearest_even_bounds q2) as B2.
  destruct (Z.eq_dec (Qfloor q1) (Qfloor q2)) as [E|N]; [|lia].
  unfold nearest_even. rewrite <- E.
  destruct (Qcompare_spec (q1 - inject_Z (Qfloor q1)) (1 # 2)) as [C1|C1|C1];
    destruct (Qcompare_spec (q2 - inject_Z (Qfloor q1)) (1 # 2)) as [C2|C2|C2];
    try (destruct (Z.even (Qfloor q1))); try lia; exfalso; lra.
Qed.

Lemma nearest_even_ge (z : Z) (q : Q) :
  inject_Z z <= q -> (z <= nearest_even q)%Z.
Proof.
  intro H. rewrite <- (nearest_even_Z z). apply nearest_even_mono. exact H.
Qed.

Lemma nearest_even_le (z : Z) (q : Q) :
  q <= inject_Z z -> (nearest_even q <= z)%Z.
Proof.
  intro H. rewrite <- (nearest_even_Z z). apply nearest_even_mono. exact H.
Qed.

(** *** The nearest binary64 value *)

Lemma nearest_nonneg (q : Q) : 0 < q -> 0 <= nearest q.
Proof.
  intro Hq. unfold nearest.
  apply Qmult_le_0_compat; [|apply Qlt_le_weak, pow2_pos].
  change 0 with (inject_Z 0). rewrite <- Zle_Qle.
  apply nearest_even_ge.
  apply Qle_shift_div_l; [apply pow2_pos|].
  change (inject_Z 0) with 0. rewrite Qmult_0_l.
  apply Qlt_le_weak. exact Hq.
Qed.

(** Rounding keeps the order: within one binade by the order of the
    nearest integers, across binades because a power of two lies in
    between, and powers of two are kept. *)
Lemma nearest_mono (q1 q2 : Q) :
  0 < q1 -> q1 <= q2 -> nearest q1 <= nearest q2.
Proof.
  intros H1 H12.
  assert (H2 : 0 < q2) by (eapply Qlt_le_trans; eauto).
  pose proof (@binade_mono q1 q2 H1 H12) as Hb.
  unfold nearest, ulp_exponent.
  destruct (Z.eq_dec (Z.max (binade q1) (-1022)) (Z.max (binade q2) (-1022)))
    as [E|N].
  - rewrite E. set (u := pow2 _).
    apply Qmult_le_compat_r; [|apply Qlt_le_weak, pow2_pos].
    rewrite <- Zle_Qle. apply nearest_even_mono.
    apply Qmult_le_compat_r; [exact H12|].
    apply Qlt_le_weak, Qinv_lt_0_compat, pow2_pos.
  - set (E1 := Z.max (binade q1) (-1022)) in *.
    set (E2 := Z.max (binade q2) (-1022)) in *.
    assert (Hlt : (E1 < E2)%Z) by lia.
    assert (HE2 : E2 = binade q2) by lia.
    destruct (@binade_spec q1 H1) as [_ B1].
    destruct (@binade_spec q2 H2) as [A2 _].
    apply Qle_trans with (y := pow2 (E1 + 1)).
    + assert (X : (nearest_even (q1 / pow2 (E1 - 52)) <= 2 ^ 53)%Z).
      { apply nearest_even_le.
        apply Qle_shift_div_r; [apply pow2_pos|].
        rewrite <- (@pow2_Z 53) by lia. rewrite <- pow2_add.
        replace (53 + (E1 - 52))%Z with (E1 + 1)%Z by lia.
        apply Qlt_le_weak. eapply Qlt_le_trans; [exact B1|].
        apply pow2_le. lia. }
      apply Qle_trans with (y := inject_Z (2 ^ 53) * pow2 (E1 - 52)).
      * apply Qmult_le_compat_r; [|apply Qlt_le_weak, pow2_pos].
        rewrite <- Zle_Qle. exact X.
      * rewrite <- (@pow2_Z 53) by lia. rewrite <- pow2_add.
        replace (53 + (E1 - 52))%Z with (E1 + 1)%Z by lia. apply Qle_refl.
    + apply Qle_trans with (y := pow2 E2); [apply pow2_le; lia|].
      assert (X : (2 ^ 52 <= nearest_even (q2 / pow2 (E2 - 52)))%Z).
      { apply nearest_even_ge.
        apply Qle_shift_div_l; [apply pow2_pos|].
        rewrite <- (@pow2_Z 52) by lia. rewrite <- pow2_add.
        replace (52 + (E2 - 52))%Z with E2 by lia.
        rewrite HE2. exact A2. }
      apply Qle_trans with (y := inject_Z (2 ^ 52) * pow2 (E2 - 52)).
      * rewrite <- (@pow2_Z 52) by lia. rewrite <- pow2_add.
        replace (52 + (E2 - 52))%Z with E2 by lia. apply Qle_refl.
      * apply Qmult_le_compat_r; [|apply Qlt_le_weak, pow2_pos].
        rewrite <- Zle_Qle. exact X.
Qed.

Lemma Q2Qc_le (a b : Q) : a <= b -> Qcleb (Q2Qc a) (Q2Qc b) = true.
Proof.
  intro H. apply Qcleb_true. unfold Qcle. cbn [this Q2Qc].
  rewrite !Qred_correct. exact H.
Qed.

Lemma round_pos_nonneg (q : Q) : 0 < q -> (zero <=? round_pos q)%num = true.
Proof.
  intro Hq. unfold round_pos. cbv zeta.
  destruct (Qle_bool (pow2 1024) (nearest q)); [reflexivity|].
  cbn. change (Q2Qc 0) with (Q2Qc 0%Q).
  apply Q2Qc_le. exact (@nearest_nonneg q Hq).
Qed.

Lemma round_pos_mono (q1 q2 : Q) :
  0 < q1 -> q1 <= q2 -> (round_pos q1 <=? round_pos q2)%num = true.
Proof.
  intros H1 H12. pose proof (@nearest_mono q1 q2 H1 H12) as M.
  unfold round_pos. cbv zeta.
  destruct (Qle_bool (pow2 1024) (nearest q1)) eqn:E1.
  - apply Qle_bool_iff in E1.
    assert (E2 : Qle_bool (pow2 1024) (nearest q2) = true)
      by (apply Qle_bool_iff; eapply Qle_trans; eauto).
    rewrite E2. reflexivity.
  - destruct (Qle_bool (pow2 1024) (nearest q2)); [reflexivity|].
    cbn. apply Q2Qc_le. exact M.
Qed.

End Rounding.

Section RoundedOrder.

Import F64.

Open Scope Qc_scope.

Lemma le_neg (a b : num) :
  (a <=? b)%num = true -> (Num.neg b <=? Num.neg a)%num = true.
Proof.
  destruct a, b; cbn; intros; try discriminate; try reflexivity. qc_lra.
Qed.

Lemma neg_zero : Num.neg zero = zero.
Proof. reflexivity. Qed.

(** Rounding keeps the order, and never gives [NaN]. *)
Lemma round_mono (q1 q2 : Qc) :
  q1 <= q2 -> (round q1 <=? round q2)%num = true.
Proof.
  intro H. unfold Qcle in H. unfold round.
  destruct (Qcompare_spec 0 q1) as [C1|C1|C1];
    destruct (Qcompare_spec 0 q2) as [C2|C2|C2].
  - cbn. apply Qcleb_true. exact H.
  - apply le_trans with (b := zero); [|exact (@round_pos_nonneg q2 C2)].
    cbn. apply Qcleb_true. unfold Qcle. cbn. lra.
  - exfalso. lra.
  - exfalso. lra.
  - exact (@round_pos_mono q1 q2 C1 H).
  - exfalso. lra.
  - apply le_trans with (b := zero).
    + rewrite <- neg_zero. apply le_neg. apply round_pos_nonneg. lra.
    + cbn. apply Qcleb_true. unfold Qcle. cbn. lra.
  - apply le_trans with (b := zero).
    + rewrite <- neg_zero. apply le_neg. apply round_pos_nonneg. lra.
    + exact (@round_pos_nonneg q2 C2).
  - apply le_neg. apply round_pos_mono; lra.
Qed.

Lemma rounded_mono (a b : num) :
  (a <=? b)%num = true -> (rounded a <=? rounded b)%num = true.
Proof.
  destruct a as [x| | |], b as [y| | |]; cbn [rounded]; intro H;
    try discriminate; try reflexivity.
  - apply round_mono. cbn in H. qc_lra.
  - destruct (round x) eqn:E; try reflexivity.
    pose proof (@round_mono x x (Qcle_refl x)) as X. rewrite E in X.
    discriminate.
  - destruct (round y) eqn:E; try reflexivity.
    pose proof (@round_mono y y (Qcle_refl y)) as X. rewrite E in X.
    discriminate.
Qed.

Lemma rounded_zero : rounded zero = zero.
Proof. reflexivity. Qed.

Lemma rounded_nonneg (a : num) :
  (zero <=? a)%num = true -> (zero <=? rounded a)%num = true.
Proof. intro H. rewrite <- rounded_zero. apply rounded_mono. exact H. Qed.

(** What is at most a binary64 number rounds to at most that number. *)
Lemma rounded_below (a m : num) :
  is_binary64 m -> (a <=? m)%num = true -> (rounded a <=? m)%num = true.
Proof.
  intros Hm H. rewrite <- Hm. apply rounded_mono. exact H.
Qed.

End RoundedOrder.

(* ================================================================== *)
(** ** The bounds of the content in binary64 arithmetic *)

Section Bounds64.

Import Bucket64.

Open Scope Qc_scope.

(** *** Exact arithmetic on numbers that are not negative *)

Lemma add_nonneg (a b : num) :
  (zero <=? a)%num = true -> (zero <=? b)%num = true ->
  (zero <=? Num.add a b)%num = true.
Proof.
  destruct a, b; cbn; intros; try discriminate; try reflexivity. qc_lra.
Qed.

Lemma mul_nonneg (a b : num) :
  (zero <=? a)%num = true -> (zero <=? b)%num = true ->
  isFinite a = true -> isFinite b = true ->
  (zero <=? Num.mul a b)%num = true.
Proof.
  destruct a as [x| | |], b as [y| | |]; cbn; intros; try discriminate.
  apply Qcleb_true. apply Qcmult_nonneg; qc_lra.
Qed.

Lemma div_nonneg (a b : num) :
  finite_nonneg a -> (exists i, b = Fin i /\ 0 < i) ->
  (zero <=? Num.div a b)%num = true.
Proof.
  intros (x & -> & Hx) (i & -> & Hi). cbn.
  destruct (Qceqb i 0) eqn:E; [qc_lra|]. cbn.
  apply Qcleb_true. apply Qcdiv_nonneg; assumption.
Qed.

Lemma finite_between (a b : num) :
  (zero <=? a)%num = true -> (a <=? b)%num = true -> isFinite b = true ->
  isFinite a = true.
Proof. destruct a, b; cbn; intros; try discriminate; reflexivity. Qed.

Lemma elapsed_nonneg (n t : Qc) :
  0 <= t -> t <= n ->
  (zero <=? Num.sub (Fin n) (Fin t))%num = true
  /\ (Num.sub (Fin n) (Fin t) <=? Fin n)%num = true.
Proof. intros H0 H. cbn. split; qc_lra. Qed.

Lemma taken_nonneg (c count : num) :
  (count <? zero)%num = false -> (count <=? c)%num = true -> count <> PInf ->
  (zero <=? Num.sub c count)%num = true
  /\ (Num.sub c count <=? c)%num = true.
Proof.
  destruct c as [x| | |], count as [y| | |]; cbn; intros H0 H1 H2;
    try discriminate; try contradiction; try (split; reflexivity).
  split; qc_lra.
Qed.

Lemma clamp_bounded (x m : num) :
  (zero <=? x)%num = true -> (zero <=? m)%num = true ->
  let c := if (x >? m)%num then m else x in
  (zero <=? c)%num = true /\ (c <=? m)%num = true.
Proof.
  unfold Num.gt.
  destruct x as [a| | |], m as [b| | |]; cbn; intros H0 Hm;
    try discriminate; try (split; reflexivity);
    try (split; [assumption|reflexivity]).
  - destruct (Qcltb b a) eqn:E; cbn; split; qc_lra.
  - split; [exact Hm|qc_lra].
Qed.

(** *** The fields of token accounting *)

Lemma bounded_same (now : num) (s s' : Bucket) :
  same_accounts s s' -> bounded now s -> bounded now s'.
Proof.
  intros (A1 & A2 & A3 & A4 & A5) [B1 B2 B3 B4 B5 B6 B7].
  constructor; unfold clock_ok in *; rewrite ?A1, ?A2, ?A3, ?A4, ?A5;
    assumption.
Qed.

Lemma bounded_max_nonneg (now : num) (s : Bucket) :
  bounded now s -> (zero <=? _maxTokens s)%num = true.
Proof. intros [B1 B2 _ _ _ _ _]. exact (le_trans _ _ _ B1 B2). Qed.

(** [_addTokensToBucket] with tokens that do not count below zero. *)
Lemma addTokens_bounded (now tokenCount : num) (s : Bucket) :
  bounded now s -> (zero <=? tokenCount)%num = true ->
  bounded now (_addTokensToBucket tokenCount s)
  /\ _maxTokens (_addTokensToBucket tokenCount s) = _maxTokens s
  /\ _continuousRestoreRatePerMs (_addTokensToBucket tokenCount s)
     = _continuousRestoreRatePerMs s
  /\ _continuousRestoreLastTimestamp (_addTokensToBucket tokenCount s)
     = _continuousRestoreLastTimestamp s
  /\ _continuousTokenRestorers (_addTokensToBucket tokenCount s)
     = _continuousTokenRestorers s
  /\ _tokenListeners (_addTokensToBucket tokenCount s) = _tokenListeners s.
Proof.
  intros B Ht. pose proof (bounded_max_nonneg B) as Hm.
  destruct B as [B1 B2 B3 B4 B5 B6 B7].
  assert (Hsum : (zero <=? F64.add (_tokenContent s) tokenCount)%num = true)
    by (apply rounded_nonneg, add_nonneg; assumption).
  destruct (clamp_bounded _ _ Hsum Hm) as [C1 C2].
  unfold _addTokensToBucket.
  cbn [_tokenContent _maxTokens set_tokenContent].
  destruct (F64.add (_tokenContent s) tokenCount >? _maxTokens s)%num;
    (split; [constructor; cbn; assumption|repeat split]).
Qed.

(** [_restoreContinuousTokens] while the clock and the rate are in
    range. *)
Lemma restore_bounded (now : num) (s : Bucket) :
  bounded now s ->
  isFinite (F64.rounded now) = true ->
  isFinite (_continuousRestoreRatePerMs s) = true ->
  bounded now (_restoreContinuousTokens now s)
  /\ _maxTokens (_restoreContinuousTokens now s) = _maxTokens s
  /\ _continuousRestoreRatePerMs (_restoreContinuousTokens now s)
     = _continuousRestoreRatePerMs s
  /\ _continuousTokenRestorers (_restoreContinuousTokens now s)
     = _continuousTokenRestorers s
  /\ _tokenListeners (_restoreContinuousTokens now s) = _tokenListeners s.
Proof.
  intros B Hn Hr. pose proof B as [B1 B2 B3 B4 B5 B6 B7].
  destruct B6 as (n & t & En & Et & Htn).
  destruct B5 as (t' & Et' & Ht0). rewrite Et in Et'. injection Et' as <-.
  destruct (@elapsed_nonneg n t Ht0 Htn) as [D1 D2].
  assert (Hd0 : (zero <=? F64.sub now (_continuousRestoreLastTimestamp s))%num
                = true).
  { rewrite En, Et. apply rounded_nonneg. exact D1. }
  assert (Hdf : isFinite (F64.sub now (_continuousRestoreLastTimestamp s)) = true).
  { apply (@finite_between _ (F64.rounded now)); [exact Hd0| |exact Hn].
    rewrite En, Et. apply rounded_mono. exact D2. }
  assert (Hcount : (zero <=? F64.mul (_continuousRestoreRatePerMs s)
                      (F64.sub now (_continuousRestoreLastTimestamp s)))%num
                   = true).
  { apply rounded_nonneg. apply mul_nonneg; assumption. }
  destruct (@addTokens_bounded now _ s B Hcount)
    as (A & A1 & A2 & A3 & A4 & A5).
  unfold _restoreContinuousTokens. cbv zeta.
  set (s1 := _addTokensToBucket _ s) in *.
  cbn [_maxTokens _continuousRestoreRatePerMs _continuousTokenRestorers
       _tokenListeners set_continuousRestoreLastTimestamp].
  split; [|repeat split; assumption].
  destruct A as [C1 C2 C3 C4 C5 C6 C7].
  constructor; cbn; try assumption.
  - exists n. split; [exact En|]. qc_lra.
  - exists n, n. repeat split; [exact En|exact En|]. qc_lra.
Qed.

Lemma aggregate64_nonneg (rs : list ContinuousTokenRestorer) :
  Forall (fun r => rate_ok (c_rate r)) rs ->
  (zero <=? computeAggregateRatePerMs rs)%num = true.
Proof.
  unfold computeAggregateRatePerMs.
  assert (G : forall acc, (zero <=? acc)%num = true ->
                Forall (fun r => rate_ok (c_rate r)) rs ->
                (zero <=? fold_left
                   (fun amountPerMs r =>
                      F64.add amountPerMs
                        (F64.div (amount (c_rate r)) (intervalMs (c_rate r))))
                   rs acc)%num = true).
  { induction rs as [|r rs IH]; intros acc Ha F; [exact Ha|].
    inversion F as [|? ? [Hr1 Hr2] F']; subst. cbn [fold_left].
    apply IH; [|exact F'].
    apply rounded_nonneg, add_nonneg; [exact Ha|].
    apply rounded_nonneg. apply div_nonneg; assumption. }
  apply G. reflexivity.
Qed.

(** *** The rate is written by the restorer operations only *)

Lemma rate_addTokens (tokenCount : num) (s : Bucket) :
  _continuousRestoreRatePerMs (_addTokensToBucket tokenCount s)
  = _continuousRestoreRatePerMs s.
Proof.
  unfold _addTokensToBucket. cbv zeta. destruct (_ >? _)%num; reflexivity.
Qed.

Lemma rate_restore (now : num) (s : Bucket) :
  _continuousRestoreRatePerMs (_restoreContinuousTokens now s)
  = _continuousRestoreRatePerMs s.
Proof.
  unfold _restoreContinuousTokens.
  cbn [_continuousRestoreRatePerMs set_continuousRestoreLastTimestamp].
  apply rate_addTokens.
Qed.

Lemma rate_schedule_with (check : num -> Bucket -> option Bucket) (now : num) :
  (forall s s', check now s = Some s' ->
                _continuousRestoreRatePerMs s' = _continuousRestoreRatePerMs s) ->
  forall s s',
    _scheduleCheckListeners_with check now s = Some s' ->
    _continuousRestoreRatePerMs s' = _continuousRestoreRatePerMs s.
Proof.
  intros Hc s s'. unfold _scheduleCheckListeners_with, _getWaitTimeForRecheck.
  cbv zeta. destruct (0 <? _)%nat.
  - destruct (isFinite (F64.div _ _)).
    + destruct (_ <=? zero)%num.
      * intro H. rewrite (Hc _ _ H), rate_restore. reflexivity.
      * intro H. injection H as <-.
        cbn [_continuousRestoreRatePerMs set_checkListenersHandle].
        rewrite rate_restore. reflexivity.
    + intro H. injection H as <-. rewrite rate_restore. reflexivity.
  - intro H. injection H as <-. reflexivity.
Qed.

Lemma rate_check (fuel : nat) (now : num) :
  forall s s',
    _checkListeners fuel now s = Some s' ->
    _continuousRestoreRatePerMs s' = _continuousRestoreRatePerMs s.
Proof.
  induction fuel as [|fuel IH]; intros s s'; [discriminate|].
  cbn [_checkListeners]. intro H.
  apply (@rate_schedule_with _ _ IH) in H. rewrite H.
  destruct (0 <? _)%nat; [|reflexivity].
  unfold _getConsumableTokens. cbv zeta.
  destruct (resolveListeners _ _) as [called remaining].
  cbn [_continuousRestoreRatePerMs set_tokenListeners set_resolved].
  apply rate_restore.
Qed.

Lemma rate_schedule (fuel : nat) (now : num) (s s' : Bucket) :
  _scheduleCheckListeners fuel now s = Some s' ->
  _continuousRestoreRatePerMs s' = _continuousRestoreRatePerMs s.
Proof. apply (@rate_schedule_with _ _ (@rate_check fuel now)). Qed.

(** *** The check pass and the scheduling of the recheck *)

Section AtOneInstant.

Variable now : num.
Hypothesis now_in_range : isFinite (F64.rounded now) = true.

Lemma schedule_with_bounded (check : num -> Bucket -> option Bucket) :
  (forall s s', bounded now s ->
                isFinite (_continuousRestoreRatePerMs s) = true ->
                check now s = Some s' -> bounded now s') ->
  forall s s',
    bounded now s -> isFinite (_continuousRestoreRatePerMs s) = true ->
    _scheduleCheckListeners_with check now s = Some s' -> bounded now s'.
Proof.
  intros Hc s s' B Hr.
  unfold _scheduleCheckListeners_with, _getWaitTimeForRecheck. cbv zeta.
  set (s1 := set_checkListenersHandle None s).
  assert (B1 : bounded now s1)
    by (apply (@bounded_same now s); [repeat split|exact B]).
  assert (Hr1 : isFinite (_continuousRestoreRatePerMs s1) = true) by exact Hr.
  destruct (@restore_bounded now s1 B1 now_in_range Hr1) as (B2 & _ & E2 & _).
  destruct (0 <? _)%nat.
  - destruct (isFinite (F64.div _ _)).
    + destruct (_ <=? zero)%num.
      * intro H. apply (Hc _ _ B2); [rewrite E2; exact Hr1|exact H].
      * intro H. injection H as <-.
        apply (@bounded_same now (_restoreContinuousTokens now s1));
          [repeat split|exact B2].
    + intro H. injection H as <-. exact B2.
  - intro H. injection H as <-. exact B1.
Qed.

Lemma check_bounded (fuel : nat) :
  forall s s',
    bounded now s -> isFinite (_continuousRestoreRatePerMs s) = true ->
    _checkListeners fuel now s = Some s' -> bounded now s'.
Proof.
  induction fuel as [|fuel IH]; intros s s' B Hr; [discriminate|].
  cbn [_checkListeners].
  set (s2 := if (0 <? Tree.length (_tokenListeners s))%nat then _ else s).
  assert (X : bounded now s2
              /\ _continuousRestoreRatePerMs s2 = _continuousRestoreRatePerMs s).
  { subst s2. destruct (0 <? _)%nat; [|split; [exact B|reflexivity]].
    unfold _getConsumableTokens. cbv zeta.
    destruct (@restore_bounded now s B now_in_range Hr) as (B1 & _ & E1 & _).
    destruct (resolveListeners _ _) as [called remaining].
    split; [|exact E1].
    apply (@bounded_same now (_restoreContinuousTokens now s));
      [repeat split|exact B1]. }
  destruct X as [B2 E2]. clearbody s2.
  apply (@schedule_with_bounded _ IH); [exact B2|rewrite E2; exact Hr].
Qed.

Lemma schedule_bounded (fuel : nat) (s s' : Bucket) :
  bounded now s -> isFinite (_continuousRestoreRatePerMs s) = true ->
  _scheduleCheckListeners fuel now s = Some s' -> bounded now s'.
Proof. apply (@schedule_with_bounded _ (@check_bounded fuel)). Qed.

(** *** The operations *)

Lemma consume_bounded (fuel : nat) (count : num) (s s' : Bucket) :
  bounded now s -> isFinite (_continuousRestoreRatePerMs s) = true ->
  count <> PInf ->
  after s (consumeTokens fuel now count s) = Some s' -> bounded now s'.
Proof.
  intros B Hr Hc. unfold consumeTokens, _getConsumableTokens, _onTokensConsumed.
  cbv zeta.
  destruct (count <? zero)%num eqn:H0.
  { intro H. injection H as <-. exact B. }
  destruct (@restore_bounded now s B now_in_range Hr) as (B1 & _ & E1 & _).
  set (s1 := _restoreContinuousTokens now s) in *.
  destruct (count <=? _tokenContent s1)%num eqn:Hle.
  - set (s2 := set_tokenContent _ s1).
    assert (B2 : bounded now s2).
    { destruct (@taken_nonneg (_tokenContent s1) count H0 Hle Hc) as [T1 T2].
      destruct B1 as [C1 C2 C3 C4 C5 C6 C7].
      constructor; cbn; try assumption.
      - apply rounded_nonneg. exact T1.
      - apply rounded_below; [exact C3|]. exact (le_trans _ _ _ T2 C2). }
    destruct (_scheduleCheckListeners fuel now s2) as [s3|] eqn:E;
      cbn; [|discriminate].
    intro H. injection H as <-.
    apply (@schedule_bounded fuel s2 s3 B2); [|exact E].
    subst s2. cbn [_continuousRestoreRatePerMs set_tokenContent].
    rewrite E1. exact Hr.
  - cbn. intro H. injection H as <-. exact B1.
Qed.

Lemma once_bounded (fuel : nat) (count : num) (s s' : Bucket) :
  bounded now s -> isFinite (_continuousRestoreRatePerMs s) = true ->
  after s (onceTokensAvailable fuel now count s) = Some s' -> bounded now s'.
Proof.
  intros B Hr. unfold onceTokensAvailable. cbv zeta.
  destruct (count >? _maxTokens s)%num.
  { intro H. injection H as <-. exact B. }
  destruct (_checkListeners fuel now _) as [s3|] eqn:E; cbn; [|discriminate].
  intro H. injection H as <-.
  apply (@check_bounded fuel _ s3) in E; [exact E| |exact Hr].
  apply (@bounded_same now s); [repeat split|exact B].
Qed.

Lemma cancel_bounded (fuel : nat) (count : num) (resolve : nat)
    (s s' : Bucket) :
  bounded now s -> isFinite (_continuousRestoreRatePerMs s) = true ->
  cancelOnceTokensAvailable fuel now count resolve s = Some s' ->
  bounded now s'.
Proof.
  intros B Hr. unfold cancelOnceTokensAvailable.
  destruct (removeListener count resolve (_tokenListeners s)) as [t|].
  - destruct (_scheduleCheckListeners fuel now _) as [s1|] eqn:E;
      [|discriminate].
    intro H. injection H as <-.
    apply (@schedule_bounded fuel _ s1) in E; [| |exact Hr].
    + apply (@bounded_same now s1); [repeat split|exact E].
    + apply (@bounded_same now s); [repeat split|exact B].
  - intro H. injection H as <-. exact B.
Qed.

Lemma addOrRemove_bounded (fuel : nat) (restorer : ContinuousTokenRestorer)
    (add : bool) (s s' : Bucket) :
  bounded now s -> isFinite (_continuousRestoreRatePerMs s) = true ->
  (add = true -> rate_ok (c_rate restorer)) ->
  _addOrRemoveContinuousRestorer fuel now restorer add s = Some s' ->
  isFinite (_continuousRestoreRatePerMs s') = true ->
  bounded now s'.
Proof.
  intros B Hr Hok. unfold _addOrRemoveContinuousRestorer. cbv zeta.
  destruct (@restore_bounded now s B now_in_range Hr) as (B1 & _ & _ & E1 & _).
  set (s1 := _restoreContinuousTokens now s) in *.
  set (rs := if add then _ else _).
  assert (Hrs : Forall (fun r => rate_ok (c_rate r))
                  (_continuousTokenRestorers rs)).
  { subst rs. destruct add; cbn [_continuousTokenRestorers
                                  set_continuousTokenRestorers].
    - apply Forall_app. split; [exact (b_restorers B1)|].
      constructor; [exact (Hok eq_refl)|constructor].
    - apply Forall_forall. intros r Hin. apply filter_In in Hin.
      exact (proj1 (Forall_forall _ _) (b_restorers B1) r (proj1 Hin)). }
  set (s3 := set_continuousRestoreRatePerMs _ rs).
  assert (B3 : bounded now s3).
  { destruct B1 as [C1 C2 C3 C4 C5 C6 C7].
    subst s3 rs. destruct add; constructor; cbn; try assumption;
      apply aggregate64_nonneg; exact Hrs. }
  intros E Hr'. pose proof (@rate_schedule _ _ _ _ E) as Er.
  apply (@schedule_bounded fuel s3 s' B3); [|exact E].
  rewrite <- Er. exact Hr'.
Qed.

Lemma disconnect_bounded (fuel : nat) (s s' : Bucket) :
  bounded now s -> isFinite (_continuousRestoreRatePerMs s) = true ->
  disconnectRestorers fuel now s = Some s' -> bounded now s'.
Proof.
  intros B Hr. unfold disconnectRestorers. cbv zeta.
  destruct (@restore_bounded now s B now_in_range Hr) as (B1 & _).
  set (s1 := _restoreContinuousTokens now s) in *.
  set (s3 := set_continuousRestoreRatePerMs zero _).
  assert (B3 : bounded now s3).
  { destruct B1 as [C1 C2 C3 C4 C5 C6 C7].
    constructor; cbn; try assumption; [reflexivity|constructor]. }
  destruct (_scheduleCheckListeners fuel now s3) as [s4|] eqn:E; [|discriminate].
  intro H. injection H as <-.
  apply (@schedule_bounded fuel s3 s4 B3) in E; [|reflexivity].
  apply (@bounded_same now s4); [repeat split|exact E].
Qed.

Lemma tick_bounded (fuel : nat) (r : DiscreteTokenRestorer) (s s' : Bucket) :
  bounded now s -> isFinite (_continuousRestoreRatePerMs s) = true ->
  rate_ok (d_rate r) ->
  discreteTick fuel now r s = Some s' -> bounded now s'.
Proof.
  intros B Hr [(a & Ea & Ha) _]. unfold discreteTick, onRestore.
  destruct (hasDiscrete r s); [|intro H; injection H as <-; exact B].
  assert (H0 : (zero <=? amount (d_rate r))%num = true).
  { rewrite Ea. cbn. apply Qcleb_true. exact Ha. }
  destruct (@addTokens_bounded now _ s B H0) as (B1 & _ & E1 & _).
  intro E. apply (@check_bounded fuel _ s' B1); [|exact E].
  rewrite E1. exact Hr.
Qed.

End AtOneInstant.

(** *** Histories *)

Lemma step_bounded (fuel : nat) (o : op) (w w' : World) :
  Bucket64.input_ok o ->
  in_range w = true -> in_range w' = true ->
  bounded (clock w) (bucket w) ->
  Bucket64.step fuel o w = Some w' ->
  bounded (clock w') (bucket w').
Proof.
  intros Ho Hw Hw' B. destruct w as [now s].
  unfold in_range in Hw. cbn [clock bucket] in *.
  apply andb_true_iff in Hw. destruct Hw as [Hn Hr].
  assert (K : forall r : option Bucket,
            (forall s', r = Some s' -> bounded now s') ->
            option_map (mkWorld now) r = Some w' ->
            bounded (clock w') (bucket w')).
  { intros r Hb E. destruct r as [s1|]; [|discriminate].
    injection E as <-. cbn. exact (Hb _ eq_refl). }
  destruct o; cbn [Bucket64.step clock bucket Bucket64.input_ok op_ok] in *.
  - apply K. intros s' E. exact (@consume_bounded now Hn fuel count s s' B Hr Ho E).
  - apply K. intros s' E. exact (@once_bounded now Hn fuel count s s' B Hr E).
  - apply K. intros s' E.
    exact (@cancel_bounded now Hn fuel count resolve s s' B Hr E).
  - intro E. destruct r as [r|r|]; cbn [addTokenRestorer after] in E.
    + destruct (negb (hasContinuous r s)); cbn in E.
      * destruct (_addOrRemoveContinuousRestorer fuel now r true s) as [s1|] eqn:E1;
          cbn in E; [|discriminate].
        injection E as <-. cbn [clock bucket] in *.
        unfold in_range in Hw'. cbn [clock bucket] in Hw'.
        apply andb_true_iff in Hw'.
        exact (@addOrRemove_bounded now Hn fuel r true s s1 B Hr
                 (fun _ => Ho) E1 (proj2 Hw')).
      * injection E as <-. exact B.
    + destruct (negb (hasDiscrete r s)); cbn in E; injection E as <-; cbn;
        [apply (@bounded_same now s); [repeat split|exact B]|exact B].
    + injection E as <-. exact B.
  - intro E. destruct r as [r|r|]; cbn [removeTokenRestorer after] in E.
    + destruct (hasContinuous r s) eqn:Hh; cbn in E.
      * destruct (_addOrRemoveContinuousRestorer fuel now r false s) as [s1|] eqn:E1;
          cbn in E; [|discriminate].
        injection E as <-. cbn [clock bucket] in *.
        unfold in_range in Hw'. cbn [clock bucket] in Hw'.
        apply andb_true_iff in Hw'.
        assert (Hok : false = true -> rate_ok (c_rate r)) by discriminate.
        exact (@addOrRemove_bounded now Hn fuel r false s s1 B Hr Hok E1
                 (proj2 Hw')).
      * injection E as <-. exact B.
    + destruct (hasDiscrete r s); cbn in E; injection E as <-; cbn;
        [apply (@bounded_same now s); [repeat split|exact B]|exact B].
    + injection E as <-. exact B.
  - apply K. intros s' E. exact (@disconnect_bounded now Hn fuel s s' B Hr E).
  - apply K. intros s' E. exact (@tick_bounded now Hn fuel r s s' B Hr Ho E).
  - apply K. intros s' E. exact (@check_bounded now Hn fuel s s' B Hr E).
  - intro E. injection E as <-. cbn [clock bucket].
    destruct Ho as (d & -> & Hd).
    destruct B as [C1 C2 C3 C4 C5 C6 C7].
    constructor; try assumption.
    destruct C6 as (n & t & -> & Et & Htn). cbn.
    exists (n + d), t. repeat split; [exact Et|]. qc_lra.
Qed.

Lemma run_bounded (fuel : nat) (ops : list op) :
  forall w w',
    Forall Bucket64.input_ok ops ->
    stays_in_range fuel ops w = true ->
    bounded (clock w) (bucket w) ->
    Bucket64.run fuel ops w = Some w' ->
    bounded (clock w') (bucket w').
Proof.
  induction ops as [|o ops IH]; intros w w' F S B; cbn [Bucket64.run].
  - intro H. injection H as <-. exact B.
  - inversion F as [|? ? Ho F']; subst.
    cbn [stays_in_range] in S. apply andb_true_iff in S. destruct S as [Hw S].
    destruct (Bucket64.step fuel o w) as [w1|] eqn:E; [|discriminate].
    assert (Hw1 : in_range w1 = true).
    { destruct ops; cbn [stays_in_range] in S;
        apply andb_true_iff in S; exact (proj1 S). }
    apply (IH w1 w' F' S).
    exact (@step_bounded fuel o w w1 Ho Hw Hw1 B E).
Qed.

(** A bucket that is well formed in exact arithmetic is within the
    bounds. *)
Lemma wf_bounded (now : num) (s : Bucket) :
  wf s -> clock_ok now s -> F64.is_binary64 (_maxTokens s) -> bounded now s.
Proof.
  intros [_ (c & Ec & Hc) Hcap (r & Er & Hr) Hl Hrs] C Hm.
  constructor; try assumption.
  - rewrite Ec. cbn. apply Qcleb_true. exact Hc.
  - rewrite Er. cbn. apply Qcleb_true. exact Hr.
Qed.

Lemma new_TokenBucket_bounded (options : TokenBucketOptions) (s : Bucket)
    (t0 : num) :
  new_TokenBucket options = Ok s ->
  F64.is_binary64 (_maxTokens s) -> finite_nonneg t0 ->
  bounded t0 s.
Proof.
  intros Hnew Hm (t & Et & Ht).
  destruct (new_TokenBucket_wf _ Hnew) as [W (z & Hz & Hl)].
  apply wf_bounded; [exact W| |exact Hm].
  exists t, 0. injection Hz as Hz. rewrite Hl, <- Hz. auto.
Qed.

End Bounds64.

Section BoundsClaim.

Open Scope Qc_scope.

(** C1. In binary64 arithmetic, along every history of a plain bucket
    whose [_maxTokens] is a binary64 number -- consumeTokens,
    onceTokensAvailable and its cancellation, restorers added and removed,
    discrete ticks, the recheck timer and time passing (which is what
    accrues tokens continuously) -- in which the rates of the restorers
    have a finite amount that is not negative over a finite interval that
    is positive, the clock does not run backwards, nobody consumes
    [+Infinity] tokens, and the clock reading and the aggregate rate do
    not overflow: whenever the operations have returned, [_tokenContent]
    is a number, not [NaN], that is at least 0 and at most
    [_maxTokens]. *)
Theorem C1_tokenContent_within_bounds
    (options : TokenBucketOptions) (s0 : Bucket) (t0 : num)
    (fuel : nat) (ops : list op) (w : World) :
  new_TokenBucket options = Ok s0 ->
  F64.is_binary64 (_maxTokens s0) ->
  finite_nonneg t0 ->
  Forall Bucket64.input_ok ops ->
  Bucket64.stays_in_range fuel ops (mkWorld t0 s0) = true ->
  Bucket64.run fuel ops (mkWorld t0 s0) = Some w ->
  (zero <=? _tokenContent (bucket w))%num = true
  /\ (_tokenContent (bucket w) <=? _maxTokens (bucket w))%num = true.
Proof.
  intros Hnew Hm Ht Hops Hrange Hrun.
  pose proof (@new_TokenBucket_bounded options s0 t0 Hnew Hm Ht) as B.
  pose proof (@run_bounded fuel ops (mkWorld t0 s0) w Hops Hrange B Hrun)
    as [B1 B2 _ _ _ _ _].
  split; assumption.
Qed.

(** The test of a binary64 number by the comparison of the code. *)
Lemma is_binary64_test (x : num) :
  Num.eqb (F64.rounded x) x = true -> F64.is_binary64 x.
Proof.
  unfold F64.is_binary64. destruct x as [q| | |]; try reflexivity.
  cbn [F64.rounded]. destruct (F64.round q) as [v| | |]; cbn;
    try discriminate.
  intro H. apply Qceqb_true in H. rewrite H. reflexivity.
Qed.

Lemma example_history_ok64 : Forall Bucket64.input_ok example_history.
Proof.
  unfold example_history.
  repeat (apply Forall_cons || apply Forall_nil);
    cbn [Bucket64.input_ok op_ok];
    try exact I; try discriminate; try exact example_restorer_ok;
    try exact example_periodic_ok;
    apply of_Z_nonneg; lia.
Qed.

Lemma huge_periodic_ok : rate_ok (d_rate huge_periodic).
Proof.
  split.
  - apply of_Z_nonneg. apply Z.pow_nonneg. lia.
  - eexists. split; [reflexivity|]. apply Qcltb_true. reflexivity.
Qed.

Lemma C1_witness :
  exists w,
    new_TokenBucket example_options = Ok example_bucket
    /\ F64.is_binary64 (_maxTokens example_bucket)
    /\ finite_nonneg zero
    /\ Forall Bucket64.input_ok example_history
    /\ Bucket64.stays_in_range 2 example_history (mkWorld zero example_bucket) = true
    /\ Bucket64.run 2 example_history (mkWorld zero example_bucket) = Some w
    /\ (zero <=? _tokenContent (bucket w))%num = true
    /\ (_tokenContent (bucket w) <=? _maxTokens (bucket w))%num = true.
Proof.
  assert (E : exists w,
            Bucket64.run 2 example_history (mkWorld zero example_bucket) = Some w)
    by (eexists; vm_compute; reflexivity).
  destruct E as (w & E). exists w.
  assert (Hm : F64.is_binary64 (_maxTokens example_bucket))
    by (apply is_binary64_test; vm_compute; reflexivity).
  assert (Ht : finite_nonneg zero)
    by (exists 0; split; [reflexivity|apply Qcleb_true; reflexivity]).
  assert (Hr : Bucket64.stays_in_range 2 example_history (mkWorld zero example_bucket)
               = true) by (vm_compute; reflexivity).
  split; [reflexivity|]. split; [exact Hm|]. split; [exact Ht|].
  split; [exact example_history_ok64|]. split; [exact Hr|]. split; [exact E|].
  exact (@C1_tokenContent_within_bounds example_options example_bucket zero 2
           example_history w eq_refl Hm Ht example_history_ok64 Hr E).
Defined.

(** What the claim as stated misses. The code validates no rate: after a
    tick of a restorer whose amount is [-5] the content of the empty
    example bucket is [-5], in binary64 as in exact arithmetic. And in
    binary64 a content of [2 ** 1023] overflows to [+Infinity] when a tick
    adds [2 ** 1023] to a bucket without a finite [maxTokens]; consuming
    [+Infinity] tokens then leaves the content [NaN], with the clock and
    the rate within range all along. *)
Lemma C1_counterexample :
  (exists w w',
     new_TokenBucket example_options = Ok example_bucket
     /\ Bucket64.run 1 draining_history (mkWorld zero example_bucket) = Some w
     /\ Bucket64.stays_in_range 1 draining_history (mkWorld zero example_bucket) = true
     /\ (_tokenContent (bucket w) <? zero)%num = true
     /\ run 1 draining_history (mkWorld zero example_bucket) = Some w'
     /\ (_tokenContent (bucket w') <? zero)%num = true)
  /\ exists s0 w,
       new_TokenBucket huge_options = Ok s0
       /\ F64.is_binary64 (_maxTokens s0)
       /\ Forall op_ok overflowing_history
       /\ Bucket64.stays_in_range 1 overflowing_history (mkWorld zero s0) = true
       /\ Bucket64.run 1 (firstn 3 overflowing_history) (mkWorld zero s0)
          = Some (mkWorld (of_Z 1000)
                    (set_discreteTokenRestorers [d_id huge_periodic]
                       (set_tokenContent PInf s0)))
       /\ Bucket64.run 1 overflowing_history (mkWorld zero s0) = Some w
       /\ _tokenContent (bucket w) = NaN.
Proof.
  split.
  - do 2 eexists.
    repeat match goal with
           | |- _ /\ _ => split
           | |- _ = _ => vm_compute; reflexivity
           end.
  - do 2 eexists.
    split; [vm_compute; reflexivity|].
    split; [apply is_binary64_test; vm_compute; reflexivity|].
    split.
    { unfold overflowing_history.
      repeat (apply Forall_cons || apply Forall_nil); cbn [op_ok];
        try exact I; try exact huge_periodic_ok; apply of_Z_nonneg; lia. }
    repeat match goal with
           | |- _ /\ _ => split
           | |- _ = _ => vm_compute; reflexivity
           end.
Qed.

End BoundsClaim.

(* ================================================================== *)
(** ** The theorems at concrete inputs *)

Section Witnesses.

Open Scope Qc_scope.

Lemma example_history_ok : Forall op_ok example_history.
Proof.
  unfold example_history.
  repeat (apply Forall_cons || apply Forall_nil); cbn [op_ok];
    try exact I; try exact example_restorer_ok;
    try exact example_periodic_ok;
    apply of_Z_nonneg; lia.
Qed.

Lemma zero_nonneg : finite_nonneg zero.
Proof. exists 0. split; [reflexivity|]. apply Qcleb_true. reflexivity. Qed.

Lemma C10_witness :
  maxTokens (mkOptions (of_Z 5) (Some (of_Z 3))) = Some (of_Z 3)
  /\ isFinite (initialTokens (mkOptions (of_Z 5) (Some (of_Z 3)))) = true
  /\ (zero <=? of_Z 3)%num = true
  /\ (of_Z 3 <? initialTokens (mkOptions (of_Z 5) (Some (of_Z 3))))%num = true
  /\ exists s,
       new_TokenBucket (mkOptions (of_Z 5) (Some (of_Z 3))) = Ok s
       /\ _tokenContent s = Num.min (initialTokens (mkOptions (of_Z 5) (Some (of_Z 3)))) (of_Z 3)
       /\ _tokenContent s = of_Z 3
       /\ _maxTokens s = of_Z 3.
Proof.
  split; [reflexivity|]. split; [reflexivity|]. split; [reflexivity|].
  split; [reflexivity|].
  exact (@C10_constructor_clamps_initialTokens
           (mkOptions (of_Z 5) (Some (of_Z 3))) (of_Z 3)
           eq_refl eq_refl eq_refl eq_refl).
Defined.

Ltac concrete_nonneg :=
  eexists; split; [reflexivity | apply Qcleb_true; reflexivity].

Ltac concrete_wf :=
  constructor; cbn;
  [ reflexivity | concrete_nonneg | reflexivity | concrete_nonneg
  | concrete_nonneg | repeat (apply Forall_cons || apply Forall_nil) ].

Lemma accruing_bucket_wf : wf accruing_bucket.
Proof. concrete_wf. exact example_restorer_ok. Qed.

Lemma one_waiter_wf : wf one_waiter.
Proof. concrete_wf. Qed.

Lemma clock_ok_at (z : Z) (s : Bucket) :
  _continuousRestoreLastTimestamp s = zero -> (0 <= z)%Z -> clock_ok (of_Z z) s.
Proof.
  intros Hl Hz. destruct (of_Z_nonneg Hz) as (q & Hq & Hq0).
  exists q, 0. repeat split; assumption.
Qed.

Lemma C6_witness :
  wf accruing_bucket /\ clock_ok (of_Z 7) accruing_bucket
  /\ (zero <=? of_Z 2)%num = true
  /\ (of_Z 2 <=? fst (_getConsumableTokens (of_Z 7) accruing_bucket))%num = true
  /\ exists s',
       consumeTokens 1 (of_Z 7) (of_Z 2) accruing_bucket = Ok (true, s')
       /\ _tokenContent s'
          = (_tokenContent (_restoreContinuousTokens (of_Z 7) accruing_bucket)
             - of_Z 2)%num
       /\ same_core
            (set_tokenContent
               (_tokenContent (_restoreContinuousTokens (of_Z 7) accruing_bucket)
                - of_Z 2)%num
               (_restoreContinuousTokens (of_Z 7) accruing_bucket)) s'.
Proof.
  assert (C : clock_ok (of_Z 7) accruing_bucket)
    by (apply clock_ok_at; [reflexivity|lia]).
  assert (H0 : (zero <=? of_Z 2)%num = true) by (vm_compute; reflexivity).
  assert (H1 : (of_Z 2 <=? fst (_getConsumableTokens (of_Z 7) accruing_bucket))%num
               = true) by (vm_compute; reflexivity).
  split; [exact accruing_bucket_wf|]. split; [exact C|].
  split; [exact H0|]. split; [exact H1|].
  exact (proj1 (proj2 (@C6_consumeTokens 0 (of_Z 7) (of_Z 2) accruing_bucket
                         accruing_bucket_wf C) H0) H1).
Defined.

Lemma C7_witness :
  wf one_waiter /\ clock_ok (of_Z 50) one_waiter
  /\ Tree.begin_key (_tokenListeners one_waiter) = Some (of_Z 5)
  /\ (of_Z 5 >? _tokenContent one_waiter)%num = true
  /\ _continuousRestoreRatePerMs one_waiter = zero
  /\ fst (_getWaitTimeForRecheck (of_Z 50) one_waiter) = PInf
  /\ exists s',
       _scheduleCheckListeners 1 (of_Z 50) one_waiter = Some s'
       /\ _checkListenersHandle s' = None
       /\ _tokenListeners s' = _tokenListeners one_waiter
       /\ resolved s' = resolved one_waiter.
Proof.
  assert (C : clock_ok (of_Z 50) one_waiter)
    by (apply clock_ok_at; [reflexivity|lia]).
  split; [exact one_waiter_wf|]. split; [exact C|].
  split; [reflexivity|]. split; [reflexivity|]. split; [reflexivity|].
  exact (@C7_zero_rate_waits_forever 0 (of_Z 50) one_waiter (of_Z 5)
           one_waiter_wf C eq_refl eq_refl eq_refl).
Defined.

Lemma C9_witness :
  wf example_bucket /\ clock_ok zero example_bucket
  /\ if (of_Z 3 >? _maxTokens example_bucket)%num
     then onceTokensAvailable 1 zero (of_Z 3) example_bucket
          = Throw InvalidArgument
     else
       exists s',
         onceTokensAvailable 1 zero (of_Z 3) example_bucket
         = Ok (nextListener example_bucket, s')
         /\ (In (of_Z 3, nextListener example_bucket) (_tokenListeners s')
             \/ In (nextListener example_bucket) (resolved s')).
Proof.
  split; [exact example_bucket_wf|]. split; [exact (proj2 example_bucket_Inv)|].
  exact (@C9_onceTokensAvailable_throws_iff_over_capacity 0 zero (of_Z 3)
           example_bucket example_bucket_wf (proj2 example_bucket_Inv)).
Defined.





Lemma example_window_sorted : sorted_keys (_history example_window).
Proof.
  unfold sorted_keys. cbn.
  repeat (apply SSorted_cons || apply SSorted_nil
          || apply Forall_cons || apply Forall_nil); reflexivity.
Qed.

Lemma C5_witness :
  window example_rolling = Some example_window
  /\ sorted_keys (_history example_window)
  /\ fst (_getConsumableTokens (of_Z 1050) example_rolling)
     = spec_consumable (of_Z 1050) example_rolling example_window.
Proof.
  split; [reflexivity|]. split; [exact example_window_sorted|].
  exact (@C5_rolling_window_consumable (of_Z 1050) example_rolling
           example_window eq_refl example_window_sorted).
Defined.

Lemma example_requests_ok : Forall lop_ok example_requests.
Proof.
  unfold example_requests.
  repeat (apply Forall_cons || apply Forall_nil); cbn [lop_ok];
    try exact I; reflexivity.
Qed.

End Witnesses.

(* ================================================================== *)
(** * Further properties of the code *)



(** ** Waiters of a plain bucket: who is called, and how often *)

Section WaiterTraces.

Open Scope Qc_scope.

Lemma resolves_refl (s : Bucket) : resolves s s.
Proof.
  split; [reflexivity|]. split; [reflexivity|].
  exists []. split; [reflexivity|]. cbn. rewrite app_nil_r. reflexivity.
Qed.

Lemma resolves_trans (s1 s2 s3 : Bucket) :
  resolves s1 s2 -> resolves s2 s3 -> resolves s1 s3.
Proof.
  intros (N1 & J1 & p1 & E1 & R1) (N2 & J2 & p2 & E2 & R2).
  split; [congruence|]. split; [congruence|].
  exists (p1 ++ p2). split.
  - rewrite E1, E2, app_assoc. reflexivity.
  - rewrite R2, R1, map_app, app_assoc. reflexivity.
Qed.

(** Writes to the fields of token accounting and of the timer leave the
    waiters alone. *)
Lemma resolves_frame (s s' : Bucket) :
  _tokenListeners s' = _tokenListeners s -> resolved s' = resolved s ->
  rejected s' = rejected s -> nextListener s' = nextListener s ->
  resolves s s'.
Proof.
  intros E1 E2 E3 E4. split; [exact E4|]. split; [exact E3|].
  exists []. rewrite E1, E2. cbn. rewrite app_nil_r. split; reflexivity.
Qed.

Lemma resolves_restore (now : num) (s : Bucket) :
  resolves s (_restoreContinuousTokens now s).
Proof. apply resolves_frame; rewrite restore_frame; reflexivity. Qed.

Lemma resolves_settle (s : Bucket) : resolves s (settle s).
Proof.
  unfold settle.
  destruct (resolveListeners_split (_tokenContent s) (_tokenListeners s))
    as (pre & E & Ec & _).
  destruct (resolveListeners (_tokenContent s) (_tokenListeners s))
    as [called remaining].
  cbn [fst snd] in *.
  split; [reflexivity|]. split; [reflexivity|].
  exists pre. split; [exact E|]. cbn. rewrite Ec. reflexivity.
Qed.

Lemma check_resolves (fuel : nat) (now : num) (s s' : Bucket) :
  wf s -> clock_ok now s ->
  _checkListeners (S fuel) now s = Some s' -> resolves s s'.
Proof.
  intros W C. rewrite (checkListeners_plain fuel W C).
  intro H. injection H as <-.
  destruct (_tokenListeners s) eqn:E.
  - apply resolves_frame; reflexivity.
  - apply resolves_trans with (s2 := _restoreContinuousTokens now s);
      [apply resolves_restore|apply resolves_settle].
Qed.

Lemma schedule_resolves (fuel : nat) (now : num) (s s' : Bucket) :
  wf s -> clock_ok now s ->
  _scheduleCheckListeners (S fuel) now s = Some s' -> resolves s s'.
Proof.
  intros W C. rewrite (scheduleCheckListeners_plain fuel W C).
  intro H. injection H as <-.
  destruct (_tokenListeners s) eqn:E.
  - apply resolves_frame; reflexivity.
  - apply resolves_trans with (s2 := _restoreContinuousTokens now s);
      [apply resolves_restore|]. cbv zeta.
    destruct (recheckNow _).
    + apply resolves_settle.
    + apply resolves_frame; reflexivity.
Qed.

(** *** The same for every bucket, plain or rolling, in whatever state *)

Lemma same_waiters_refl (s : Bucket) : same_waiters s s.
Proof. repeat split. Qed.

Lemma same_waiters_trans (s1 s2 s3 : Bucket) :
  same_waiters s1 s2 -> same_waiters s2 s3 -> same_waiters s1 s3.
Proof.
  intros (A1 & A2 & A3 & A4) (B1 & B2 & B3 & B4).
  repeat split; congruence.
Qed.

Lemma same_waiters_resolves (s s' : Bucket) : same_waiters s s' -> resolves s s'.
Proof. intros (A1 & A2 & A3 & A4). apply resolves_frame; assumption. Qed.

Lemma same_waiters_restore (now : num) (s : Bucket) :
  same_waiters s (_restoreContinuousTokens now s).
Proof. rewrite restore_frame. repeat split. Qed.

Lemma same_waiters_consumable (now : num) (s : Bucket) :
  same_waiters s (snd (_getConsumableTokens now s)).
Proof.
  unfold _getConsumableTokens. destruct (window s) as [w|].
  - destruct (_countAndCleanupHistoricTokens now w) as [spent w1].
    unfold TokenBucket_getConsumableTokens. cbn [snd].
    apply same_waiters_trans with (s2 := set_window (Some w1) s);
      [repeat split|apply same_waiters_restore].
  - apply same_waiters_restore.
Qed.

Lemma same_waiters_waitTime (now : num) (s : Bucket) :
  same_waiters s (snd (_getWaitTimeForRecheck now s)).
Proof.
  unfold _getWaitTimeForRecheck, TokenBucket_getWaitTimeForRecheck.
  destruct (window s) as [w|]; [|apply same_waiters_restore].
  destruct (_countAndCleanupHistoricTokens now w) as [spent w1].
  assert (X : same_waiters s (set_window (Some w1) (_restoreContinuousTokens now s))).
  { apply same_waiters_trans with (s2 := _restoreContinuousTokens now s);
      [apply same_waiters_restore|repeat split]. }
  destruct (Num.eqb _ zero); [|exact X].
  destruct (_ <=? _)%num; exact X.
Qed.

Lemma resolves_pass (consumable : num) (s : Bucket) :
  resolves s
    (let '(called, remaining) := resolveListeners consumable (_tokenListeners s) in
     set_tokenListeners remaining (set_resolved (resolved s ++ called) s)).
Proof.
  destruct (resolveListeners_split consumable (_tokenListeners s))
    as (pre & E & Ec & _).
  destruct (resolveListeners consumable (_tokenListeners s))
    as [called remaining].
  cbn [fst snd] in *.
  split; [reflexivity|]. split; [reflexivity|].
  exists pre. split; [exact E|]. cbn. rewrite Ec. reflexivity.
Qed.

(** Whatever the state of the bucket, a check pass that returns has called
    a leading part of the registry and nothing else. *)
Lemma check_resolves_any (fuel : nat) (now : num) :
  forall s s', _checkListeners fuel now s = Some s' -> resolves s s'.
Proof.
  induction fuel as [|fuel IH]; intros s s'; [discriminate|].
  cbn [_checkListeners].
  set (s2 := if (0 <? Tree.length (_tokenListeners s))%nat then _ else s).
  assert (R2 : resolves s s2).
  { subst s2. destruct (0 <? _)%nat; [|apply resolves_refl].
    pose proof (same_waiters_consumable now s) as X.
    destruct (_getConsumableTokens now s) as [c s1]. cbn [snd] in X.
    apply resolves_trans with (s2 := s1);
      [exact (same_waiters_resolves X)|apply resolves_pass]. }
  clearbody s2. unfold _scheduleCheckListeners_with.
  set (s3 := set_checkListenersHandle None s2).
  assert (R3 : resolves s s3).
  { apply resolves_trans with (s2 := s2); [exact R2|].
    apply resolves_frame; reflexivity. }
  clearbody s3. destruct (0 <? _)%nat.
  - pose proof (same_waiters_waitTime now s3) as X.
    destruct (_getWaitTimeForRecheck now s3) as [waitTime s4]. cbn [snd] in X.
    assert (R4 : resolves s s4)
      by (exact (resolves_trans R3 (same_waiters_resolves X))).
    destruct (isFinite waitTime).
    + destruct (waitTime <=? zero)%num.
      * intro H. exact (resolves_trans R4 (IH _ _ H)).
      * intro H. injection H as <-.
        apply (resolves_trans R4). apply resolves_frame; reflexivity.
    + intro H. injection H as <-. exact R4.
  - intro H. injection H as <-. exact R3.
Qed.

Lemma schedule_resolves_any (fuel : nat) (now : num) (s s' : Bucket) :
  _scheduleCheckListeners fuel now s = Some s' -> resolves s s'.
Proof.
  unfold _scheduleCheckListeners, _scheduleCheckListeners_with.
  set (s3 := set_checkListenersHandle None s).
  assert (R3 : resolves s s3) by (apply resolves_frame; reflexivity).
  clearbody s3. destruct (0 <? _)%nat.
  - pose proof (same_waiters_waitTime now s3) as X.
    destruct (_getWaitTimeForRecheck now s3) as [waitTime s4]. cbn [snd] in X.
    assert (R4 : resolves s s4)
      by (exact (resolves_trans R3 (same_waiters_resolves X))).
    destruct (isFinite waitTime).
    + destruct (waitTime <=? zero)%num.
      * intro H. exact (resolves_trans R4 (check_resolves_any _ _ _ H)).
      * intro H. injection H as <-.
        apply (resolves_trans R4). apply resolves_frame; reflexivity.
    + intro H. injection H as <-. exact R4.
  - intro H. injection H as <-. exact R3.
Qed.

(** *** Every callback is settled at most once *)

Lemma resolves_perm (s s' : Bucket) :
  resolves s s' -> Permutation (waiter_ids s) (waiter_ids s').
Proof.
  intros (_ & J & pre & E & R). unfold waiter_ids.
  rewrite E, R, J, map_app, <- !app_assoc.
  rewrite (app_assoc (map snd (_tokenListeners s')) (resolved s)
             (map snd pre ++ rejected s)).
  rewrite (app_assoc (map snd (_tokenListeners s')) (resolved s) (rejected s)).
  apply Permutation_app_swap_app.
Qed.

Lemma settled_once_perm (s s' : Bucket) :
  Permutation (waiter_ids s) (waiter_ids s') ->
  (nextListener s <= nextListener s')%nat ->
  settled_once s -> settled_once s'.
Proof.
  intros P N [D F]. split.
  - exact (Permutation_NoDup P D).
  - apply (Permutation_Forall P). revert F. apply Forall_impl. intros; lia.
Qed.

Lemma settled_once_resolves (s s' : Bucket) :
  resolves s s' -> settled_once s -> settled_once s'.
Proof.
  intros R. apply settled_once_perm; [exact (resolves_perm R)|].
  destruct R as (N & _). rewrite N. lia.
Qed.

Lemma insert_perm {V : Type} (k : num) (v : V) (t : Tree.tree V) :
  Permutation ((k, v) :: t) (Tree.insert k v t).
Proof.
  induction t as [|[k' v'] t IH]; cbn; [reflexivity|].
  destruct (k >? k')%num; [|reflexivity].
  rewrite perm_swap. constructor. exact IH.
Qed.

Lemma settled_once_insert (count : num) (s : Bucket) :
  settled_once s ->
  settled_once
    (set_tokenListeners
       (Tree.insert count (nextListener s) (_tokenListeners s))
       (set_nextListener (S (nextListener s)) s)).
Proof.
  intros [D F]. unfold settled_once, waiter_ids in *.
  cbn [_tokenListeners resolved rejected nextListener set_tokenListeners
       set_nextListener].
  pose proof (Permutation_map snd (insert_perm count (nextListener s)
                                     (_tokenListeners s))) as P.
  cbn [map snd] in P.
  assert (Q : Permutation
                (nextListener s
                 :: map snd (_tokenListeners s) ++ resolved s ++ rejected s)
                (map snd (Tree.insert count (nextListener s) (_tokenListeners s))
                 ++ resolved s ++ rejected s)).
  { change (nextListener s :: map snd (_tokenListeners s) ++ resolved s ++ rejected s)
      with ((nextListener s :: map snd (_tokenListeners s))
            ++ resolved s ++ rejected s).
    apply Permutation_app_tail. exact P. }
  split.
  - apply (Permutation_NoDup Q). constructor; [|exact D].
    intro Hin. pose proof (proj1 (Forall_forall _ _) F _ Hin) as X.
    cbn beta in X. lia.
  - apply (Permutation_Forall Q). constructor; [lia|].
    revert F. apply Forall_impl. intros; lia.
Qed.

Lemma removeListenerFrom_found (count : num) (resolve : nat)
    (t t' : Tree.tree nat) :
  removeListenerFrom count resolve t = Some t' ->
  exists l1 k l2, t = l1 ++ (k, resolve) :: l2 /\ t' = l1 ++ l2
                  /\ Num.eqb k count = true.
Proof.
  revert t'. induction t as [|[k v] t IH]; cbn; intros t'; [discriminate|].
  destruct (Num.eqb k count) eqn:Ek; [|discriminate].
  destruct (Nat.eqb v resolve) eqn:Ev.
  - intro H. injection H as <-. apply Nat.eqb_eq in Ev. subst v.
    exists [], k, t. repeat split. exact Ek.
  - destruct (removeListenerFrom count resolve t) as [t1|]; cbn; [|discriminate].
    intro H. injection H as <-.
    destruct (IH t1 eq_refl) as (l1 & k1 & l2 & -> & -> & E).
    exists ((k, v) :: l1), k1, l2. repeat split. exact E.
Qed.

Lemma removeListener_found (count : num) (resolve : nat) (t t' : Tree.tree nat) :
  removeListener count resolve t = Some t' ->
  exists l1 k l2, t = l1 ++ (k, resolve) :: l2 /\ t' = l1 ++ l2
                  /\ Num.eqb k count = true.
Proof.
  revert t'. induction t as [|[k v] t IH]; intros t'; [discriminate|].
  cbn [removeListener]. destruct (Tree.same_key count k).
  - apply removeListenerFrom_found.
  - destruct (removeListener count resolve t) as [t1|]; cbn; [|discriminate].
    intro H. injection H as <-.
    destruct (IH t1 eq_refl) as (l1 & k1 & l2 & -> & -> & E).
    exists ((k, v) :: l1), k1, l2. repeat split. exact E.
Qed.

(** *** What each operation does to the waiters *)

Lemma consume_resolves (fuel : nat) (now count : num) (s s' : Bucket) :
  after s (consumeTokens fuel now count s) = Some s' -> resolves s s'.
Proof.
  unfold consumeTokens. destruct (count <? zero)%num.
  { intro H. injection H as <-. apply resolves_refl. }
  pose proof (same_waiters_consumable now s) as X.
  destruct (_getConsumableTokens now s) as [consumable s1]. cbn [snd] in X.
  destruct (count <=? consumable)%num.
  - set (s2 := set_tokenContent _ s1).
    assert (R2 : resolves s s2).
    { apply resolves_trans with (s2 := s1); [exact (same_waiters_resolves X)|].
      apply resolves_frame; reflexivity. }
    clearbody s2. unfold _onTokensConsumed.
    destruct (window s2) as [w|].
    + destruct (_scheduleCheckListeners fuel now _) as [s3|] eqn:E;
        cbn; [|discriminate].
      intro H. injection H as <-.
      apply (resolves_trans R2).
      apply resolves_trans with (s2 := set_window
        (Some (_scheduleCleanUpCall
                 (set_history (Tree.insert now count (_history w)) w))) s2);
        [apply resolves_frame; reflexivity|].
      exact (schedule_resolves_any _ _ _ E).
    + destruct (_scheduleCheckListeners fuel now s2) as [s3|] eqn:E;
        cbn; [|discriminate].
      intro H. injection H as <-.
      exact (resolves_trans R2 (schedule_resolves_any _ _ _ E)).
  - cbn. intro H. injection H as <-. exact (same_waiters_resolves X).
Qed.

Lemma once_resolves (fuel : nat) (now count : num) (s s' : Bucket) (r : nat) :
  onceTokensAvailable fuel now count s = Ok (r, s') ->
  r = nextListener s
  /\ resolves
       (set_tokenListeners
          (Tree.insert count (nextListener s) (_tokenListeners s))
          (set_nextListener (S (nextListener s)) s)) s'.
Proof.
  unfold onceTokensAvailable. destruct (count >? _maxTokens s)%num; [discriminate|].
  cbv zeta. cbn [_tokenListeners set_nextListener].
  destruct (_checkListeners fuel now _) as [s3|] eqn:E; cbn; [|discriminate].
  intro H. injection H as <- <-. split; [reflexivity|].
  exact (check_resolves_any _ _ _ E).
Qed.

Lemma addOrRemove_resolves (fuel : nat) (now : num)
    (r : ContinuousTokenRestorer) (add : bool) (s s' : Bucket) :
  _addOrRemoveContinuousRestorer fuel now r add s = Some s' -> resolves s s'.
Proof.
  unfold _addOrRemoveContinuousRestorer. cbv zeta. intro H.
  apply schedule_resolves_any in H. refine (resolves_trans _ H).
  apply resolves_trans with (s2 := _restoreContinuousTokens now s);
    [apply resolves_restore|].
  destruct add; apply resolves_frame; reflexivity.
Qed.

(** A step of a history that returns keeps every callback in one place. *)
Lemma step_settled (fuel : nat) (o : op) (w w' : World) :
  step fuel o w = Some w' ->
  settled_once (bucket w) -> settled_once (bucket w').
Proof.
  destruct w as [now s]. destruct o; cbn [step clock bucket].
  - destruct (after s _) as [s1|] eqn:E; cbn; [|discriminate].
    intro H. injection H as <-. cbn [bucket].
    exact (settled_once_resolves (consume_resolves _ _ _ _ E)).
  - destruct (onceTokensAvailable fuel now count s) as [[r s1]|e|] eqn:E;
      cbn; try discriminate.
    + intro H. injection H as <-. cbn [bucket].
      destruct (once_resolves _ _ _ _ E) as [_ R]. intro S0.
      exact (settled_once_resolves R (settled_once_insert count S0)).
    + intro H. injection H as <-. exact (fun x => x).
  - unfold cancelOnceTokensAvailable.
    destruct (removeListener count resolve (_tokenListeners s)) as [t|] eqn:Er.
    + destruct (_scheduleCheckListeners fuel now _) as [s1|] eqn:E;
        cbn; [|discriminate].
      intro H. injection H as <-. cbn [bucket].
      apply schedule_resolves_any in E.
      destruct (removeListener_found _ _ _ Er) as (l1 & k & l2 & E1 & -> & _).
      pose proof (resolves_perm E) as P. destruct E as (N & _).
      apply settled_once_perm.
      * unfold waiter_ids in *.
        cbn [_tokenListeners resolved rejected set_tokenListeners set_rejected] in *.
        rewrite E1, map_app. cbn [map snd].
        rewrite map_app in P.
        rewrite !app_assoc. rewrite <- !app_assoc.
        apply Permutation_trans
          with (l' := resolve :: (map snd l1 ++ map snd l2) ++ resolved s ++ rejected s).
        { rewrite <- !app_assoc. symmetry. apply Permutation_middle. }
        apply Permutation_trans
          with (l' := resolve :: map snd (_tokenListeners s1) ++ resolved s1
                                 ++ rejected s1).
        { constructor. exact P. }
        rewrite !app_assoc. apply Permutation_cons_append.
      * cbn. rewrite N. cbn. lia.
    + intro H. injection H as <-. exact (fun x => x).
  - destruct r as [r|r|]; cbn [addTokenRestorer].
    + destruct (negb (hasContinuous r s)); cbn.
      * destruct (_addOrRemoveContinuousRestorer fuel now r true s) as [s1|] eqn:E;
          cbn; [|discriminate].
        intro H. injection H as <-.
        exact (settled_once_resolves (addOrRemove_resolves _ _ _ _ _ E)).
      * intro H. injection H as <-. exact (fun x => x).
    + destruct (negb (hasDiscrete r s)); cbn; intro H; injection H as <-;
        exact (fun x => x).
    + cbn. intro H. injection H as <-. exact (fun x => x).
  - destruct r as [r|r|]; cbn [removeTokenRestorer].
    + destruct (hasContinuous r s); cbn.
      * destruct (_addOrRemoveContinuousRestorer fuel now r false s) as [s1|] eqn:E;
          cbn; [|discriminate].
        intro H. injection H as <-.
        exact (settled_once_resolves (addOrRemove_resolves _ _ _ _ _ E)).
      * intro H. injection H as <-. exact (fun x => x).
    + destruct (hasDiscrete r s); cbn; intro H; injection H as <-;
        exact (fun x => x).
    + cbn. intro H. injection H as <-. exact (fun x => x).
  - unfold disconnectRestorers. cbv zeta.
    destruct (_scheduleCheckListeners fuel now _) as [s1|] eqn:E;
      cbn; [|discriminate].
    intro H. injection H as <-. cbn [bucket].
    apply schedule_resolves_any in E.
    apply settled_once_resolves.
    apply resolves_trans with (s2 := s1); [|apply resolves_frame; reflexivity].
    refine (resolves_trans _ E).
    apply resolves_trans with (s2 := _restoreContinuousTokens now s);
      [apply resolves_restore|apply resolves_frame; reflexivity].
  - unfold discreteTick, onRestore. destruct (hasDiscrete r s).
    + destruct (_checkListeners fuel now _) as [s1|] eqn:E; cbn; [|discriminate].
      intro H. injection H as <-. cbn [bucket].
      apply check_resolves_any in E. apply settled_once_resolves.
      refine (resolves_trans _ E).
      apply resolves_frame; rewrite addTokensToBucket_frame; reflexivity.
    + cbn. intro H. injection H as <-. exact (fun x => x).
  - unfold recheckTimerFires.
    destruct (_checkListeners fuel now s) as [s1|] eqn:E; cbn; [|discriminate].
    intro H. injection H as <-.
    exact (settled_once_resolves (check_resolves_any _ _ _ E)).
  - intro H. injection H as <-. exact (fun x => x).
Qed.

Lemma run_settled (fuel : nat) (ops : list op) (w w' : World) :
  run fuel ops w = Some w' ->
  settled_once (bucket w) -> settled_once (bucket w').
Proof.
  revert w. induction ops as [|o ops IH]; intros w; cbn [run].
  - intro H. injection H as <-. exact (fun x => x).
  - destruct (step fuel o w) as [w1|] eqn:E; [|discriminate].
    intros H S0. exact (IH _ H (@step_settled _ _ _ _ E S0)).
Qed.

(** A step of a history that returns moves callbacks between the three
    places, and [onceTokensAvailable] adds the one it hands out. *)
Lemma step_waiters (fuel : nat) (o : op) (w w' : World) :
  step fuel o w = Some w' ->
  (Permutation (waiter_ids (bucket w)) (waiter_ids (bucket w'))
   /\ nextListener (bucket w') = nextListener (bucket w))
  \/ (Permutation (nextListener (bucket w) :: waiter_ids (bucket w))
        (waiter_ids (bucket w'))
      /\ nextListener (bucket w') = S (nextListener (bucket w))).
Proof.
  assert (R : forall s s', resolves s s' ->
                Permutation (waiter_ids s) (waiter_ids s')
                /\ nextListener s' = nextListener s).
  { intros s s' X. split; [exact (resolves_perm X)|exact (proj1 X)]. }
  assert (Same : forall s : Bucket,
                   Permutation (waiter_ids s) (waiter_ids s)
                   /\ nextListener s = nextListener s)
    by (intro s; split; reflexivity).
  destruct w as [now s]. destruct o; cbn [step clock bucket].
  - destruct (after s _) as [s1|] eqn:E; cbn; [|discriminate].
    intro H. injection H as <-. cbn [bucket]. left.
    exact (R _ _ (consume_resolves _ _ _ _ E)).
  - destruct (onceTokensAvailable fuel now count s) as [[r s1]|e|] eqn:E;
      cbn; try discriminate.
    + intro H. injection H as <-. cbn [bucket].
      destruct (once_resolves _ _ _ _ E) as [_ X].
      destruct (R _ _ X) as [P N]. right. split; [|exact N].
      refine (Permutation_trans _ P). unfold waiter_ids.
      cbn [_tokenListeners resolved rejected set_tokenListeners
           set_nextListener].
      change (nextListener s
              :: map snd (_tokenListeners s) ++ resolved s ++ rejected s)
        with (map snd ((count, nextListener s) :: _tokenListeners s)
              ++ resolved s ++ rejected s).
      apply Permutation_app_tail. apply Permutation_map. apply insert_perm.
    + intro H. injection H as <-. left. (apply Same || (cbn [bucket]; apply R, resolves_frame; reflexivity)).
  - unfold cancelOnceTokensAvailable.
    destruct (removeListener count resolve (_tokenListeners s)) as [t|] eqn:Er.
    + destruct (_scheduleCheckListeners fuel now _) as [s1|] eqn:E;
        cbn; [|discriminate].
      intro H. injection H as <-. cbn [bucket]. left.
      apply schedule_resolves_any in E.
      destruct (removeListener_found _ _ _ Er) as (l1 & k & l2 & E1 & -> & _).
      pose proof (resolves_perm E) as P. destruct E as (N & _).
      split; [|cbn; rewrite N; reflexivity].
      unfold waiter_ids in *.
      cbn [_tokenListeners resolved rejected set_tokenListeners set_rejected] in *.
      rewrite E1, map_app. cbn [map snd].
      rewrite map_app in P.
      rewrite !app_assoc. rewrite <- !app_assoc.
      apply Permutation_trans
        with (l' := resolve :: (map snd l1 ++ map snd l2) ++ resolved s ++ rejected s).
      { rewrite <- !app_assoc. symmetry. apply Permutation_middle. }
      apply Permutation_trans
        with (l' := resolve :: map snd (_tokenListeners s1) ++ resolved s1
                               ++ rejected s1).
      { constructor. exact P. }
      rewrite !app_assoc. apply Permutation_cons_append.
    + intro H. injection H as <-. left. (apply Same || (cbn [bucket]; apply R, resolves_frame; reflexivity)).
  - intro H0; left; revert H0. destruct r as [r|r|]; cbn [addTokenRestorer].
    + destruct (negb (hasContinuous r s)); cbn.
      * destruct (_addOrRemoveContinuousRestorer fuel now r true s) as [s1|] eqn:E;
          cbn; [|discriminate].
        intro H. injection H as <-.
        exact (R _ _ (addOrRemove_resolves _ _ _ _ _ E)).
      * intro H. injection H as <-. (apply Same || (cbn [bucket]; apply R, resolves_frame; reflexivity)).
    + destruct (negb (hasDiscrete r s)); cbn; intro H; injection H as <-;
        (apply Same || (cbn [bucket]; apply R, resolves_frame; reflexivity)).
    + cbn. intro H. injection H as <-. (apply Same || (cbn [bucket]; apply R, resolves_frame; reflexivity)).
  - intro H0; left; revert H0. destruct r as [r|r|]; cbn [removeTokenRestorer].
    + destruct (hasContinuous r s); cbn.
      * destruct (_addOrRemoveContinuousRestorer fuel now r false s) as [s1|] eqn:E;
          cbn; [|discriminate].
        intro H. injection H as <-.
        exact (R _ _ (addOrRemove_resolves _ _ _ _ _ E)).
      * intro H. injection H as <-. (apply Same || (cbn [bucket]; apply R, resolves_frame; reflexivity)).
    + destruct (hasDiscrete r s); cbn; intro H; injection H as <-;
        (apply Same || (cbn [bucket]; apply R, resolves_frame; reflexivity)).
    + cbn. intro H. injection H as <-. (apply Same || (cbn [bucket]; apply R, resolves_frame; reflexivity)).
  - intro H0; left; revert H0. unfold disconnectRestorers. cbv zeta.
    destruct (_scheduleCheckListeners fuel now _) as [s1|] eqn:E;
      cbn; [|discriminate].
    intro H. injection H as <-. cbn [bucket].
    apply schedule_resolves_any in E.
    apply R.
    apply resolves_trans with (s2 := s1); [|apply resolves_frame; reflexivity].
    refine (resolves_trans _ E).
    apply resolves_trans with (s2 := _restoreContinuousTokens now s);
      [apply resolves_restore|apply resolves_frame; reflexivity].
  - intro H0; left; revert H0. unfold discreteTick, onRestore. destruct (hasDiscrete r s).
    + destruct (_checkListeners fuel now _) as [s1|] eqn:E; cbn; [|discriminate].
      intro H. injection H as <-. cbn [bucket].
      apply check_resolves_any in E. apply R.
      refine (resolves_trans _ E).
      apply resolves_frame; rewrite addTokensToBucket_frame; reflexivity.
    + cbn. intro H. injection H as <-. (apply Same || (cbn [bucket]; apply R, resolves_frame; reflexivity)).
  - intro H0; left; revert H0. unfold recheckTimerFires.
    destruct (_checkListeners fuel now s) as [s1|] eqn:E; cbn; [|discriminate].
    intro H. injection H as <-.
    exact (R _ _ (check_resolves_any _ _ _ E)).
  - intro H. injection H as <-. left. (apply Same || (cbn [bucket]; apply R, resolves_frame; reflexivity)).
Qed.

(** Every callback handed out so far is in one of the three places. *)
Lemma run_waiters (fuel : nat) (ops : list op) (w w' : World) :
  run fuel ops w = Some w' ->
  Permutation (waiter_ids (bucket w)) (seq 0 (nextListener (bucket w))) ->
  Permutation (waiter_ids (bucket w')) (seq 0 (nextListener (bucket w'))).
Proof.
  revert w. induction ops as [|o ops IH]; intros w; cbn [run].
  - intro H. injection H as <-. exact (fun x => x).
  - destruct (step fuel o w) as [w1|] eqn:E; [|discriminate].
    intros H P. apply (IH _ H).
    destruct (step_waiters _ _ _ E) as [[Q N]|[Q N]]; rewrite N.
    + exact (Permutation_trans (Permutation_sym Q) P).
    + refine (Permutation_trans (Permutation_sym Q) _).
      rewrite seq_S. cbn [Nat.add].
      refine (Permutation_trans _ (Permutation_cons_append _ _)).
      constructor. exact P.
Qed.

Lemma new_TokenBucket_settled (options : TokenBucketOptions) (s : Bucket) :
  new_TokenBucket options = Ok s -> settled_once s /\ listeners_ok s.
Proof.
  unfold new_TokenBucket.
  destruct (negb _ || _); [discriminate|].
  destruct (match maxTokens options with Some _ => _ | None => _ end);
    [discriminate|].
  intro H. injection H as <-.
  split; split; cbn; repeat constructor.
Qed.

(** X1. Along every history of a plain bucket each resolve callback that
    [onceTokensAvailable] has handed out is in exactly one place: still
    in the registry, called (once), or rejected by its cancel callback
    (once). The callbacks in the registry, the calls made and the
    rejections made, taken together, are the callbacks handed out so far
    ([0], ..., [nextListener - 1]), each of them once: no waiter is lost,
    none is resolved twice, none is both resolved and rejected, and none
    that is still registered has been settled. *)
Theorem X1_waiter_settled_at_most_once
    (options : TokenBucketOptions) (s0 : Bucket) (t0 : num)
    (ops : list op) (k : nat) :
  new_TokenBucket options = Ok s0 ->
  finite_nonneg t0 ->
  Forall op_ok ops ->
  exists w,
    run 1 (firstn k ops) (mkWorld t0 s0) = Some w
    /\ Permutation
         (map snd (_tokenListeners (bucket w))
          ++ resolved (bucket w) ++ rejected (bucket w))
         (seq 0 (nextListener (bucket w)))
    /\ NoDup (map snd (_tokenListeners (bucket w))
              ++ resolved (bucket w) ++ rejected (bucket w))
    /\ Forall (fun i => (i < nextListener (bucket w))%nat)
         (map snd (_tokenListeners (bucket w))
          ++ resolved (bucket w) ++ rejected (bucket w)).
Proof.
  intros Hnew Ht Hops.
  destruct (new_TokenBucket_wf _ Hnew) as [W F].
  destruct (new_TokenBucket_settled _ Hnew) as [S0 _].
  assert (I : Inv (mkWorld t0 s0)).
  { split; [exact W|]. destruct F as (n & Hn & Hl).
    destruct Ht as (q & Hq & Hq0). injection Hn as <-.
    exists q, 0. repeat split; assumption. }
  destruct (@run_inv 0 (firstn k ops) _ I (Forall_firstn k Hops))
    as (w & E & _).
  exists w. split; [exact E|]. split.
  - apply (@run_waiters _ _ _ _ E).
    pose proof Hnew as Hnew'. unfold new_TokenBucket in Hnew'.
    destruct (negb _ || _); [discriminate|].
    destruct (match maxTokens options with Some _ => _ | None => _ end);
      [discriminate|].
    injection Hnew' as <-. cbn. constructor.
  - exact (@run_settled _ _ _ _ E S0).
Qed.

Lemma X1_witness :
  new_TokenBucket example_options = Ok example_bucket
  /\ finite_nonneg zero
  /\ Forall op_ok example_history
  /\ exists w,
       run 1 (firstn 13 example_history) (mkWorld zero example_bucket) = Some w
       /\ Permutation
            (map snd (_tokenListeners (bucket w))
             ++ resolved (bucket w) ++ rejected (bucket w))
            (seq 0 (nextListener (bucket w)))
       /\ NoDup (map snd (_tokenListeners (bucket w))
                 ++ resolved (bucket w) ++ rejected (bucket w))
       /\ Forall (fun i => (i < nextListener (bucket w))%nat)
            (map snd (_tokenListeners (bucket w))
             ++ resolved (bucket w) ++ rejected (bucket w)).
Proof.
  split; [reflexivity|]. split; [exact zero_nonneg|].
  split; [exact example_history_ok|].
  exact (@X1_waiter_settled_at_most_once example_options example_bucket zero
           example_history 13 eq_refl zero_nonneg example_history_ok).
Defined.

(** *** A new waiter is called at once exactly when its demand is covered *)

Lemma consumable_same_core (now : num) (s s' : Bucket) :
  same_core s s' -> window s = None ->
  fst (_getConsumableTokens now s') = fst (_getConsumableTokens now s).
Proof.
  intros [A1 A2 A3 A4 A5 A6 A7] Hw. unfold _getConsumableTokens.
  rewrite A1, Hw. unfold TokenBucket_getConsumableTokens. cbn [fst].
  unfold _restoreContinuousTokens, _addTokensToBucket.
  cbn [_tokenContent set_continuousRestoreLastTimestamp set_tokenContent _maxTokens].
  rewrite A2, A3, A4, A5.
  destruct (_ >? _)%num; reflexivity.
Qed.

Lemma NoDup_app_not_both {A : Type} (l1 l2 : list A) (x : A) :
  NoDup (l1 ++ l2) -> In x l1 -> In x l2 -> False.
Proof.
  induction l1 as [|a l1 IH]; cbn; intros N H1 H2; [exact H1|].
  inversion N as [|? ? Na Nl]; subst. destruct H1 as [->|H1].
  - apply Na. apply in_or_app. right. exact H2.
  - exact (IH Nl H1 H2).
Qed.

(** X2. On a plain bucket [onceTokensAvailable(count)], for a number
    [count] that does not exceed [_maxTokens], returns a fresh resolve
    callback. When [count] is at most the consumable tokens the callback
    has been called before the call returns and is not in the registry;
    otherwise the waiter is pending in the registry under [count] and the
    callback has not been called. *)
Theorem X2_onceTokensAvailable_resolves_at_once_iff_covered
    (fuel : nat) (now count : num) (s : Bucket) :
  wf s -> clock_ok now s -> listeners_ok s -> settled_once s ->
  isNaN count = false ->
  (count >? _maxTokens s)%num = false ->
  exists s',
    onceTokensAvailable (S fuel) now count s = Ok (nextListener s, s')
    /\ if (count <=? fst (_getConsumableTokens now s))%num
       then In (nextListener s) (resolved s')
            /\ ~ In (nextListener s) (map snd (_tokenListeners s'))
       else In (count, nextListener s) (_tokenListeners s')
            /\ ~ In (nextListener s) (resolved s').
Proof.
  intros W C LO [D F] Hnan Hmax. unfold onceTokensAvailable. rewrite Hmax.
  cbv zeta. cbn [_tokenListeners set_nextListener].
  set (s2 := set_tokenListeners _ _).
  assert (SC : same_core s s2) by (constructor; reflexivity).
  pose proof (wf_same_core SC W) as W2.
  pose proof (clock_ok_same_core SC C) as C2.
  pose proof (@listeners_ok_insert count s Hnan LO) as LO2.
  fold s2 in LO2. destruct LO2 as (Hs2 & _ & Hn2).
  destruct (check_pass fuel W2 C2) as (s' & pre & E & Esplit & Eres & Fpre & Frest).
  specialize (Frest Hs2).
  pose proof (consumable_same_core now SC (wf_plain W)) as Ec.
  rewrite Ec in Fpre, Frest. rewrite E. cbn [of_option bind].
  exists s'. split; [reflexivity|].
  assert (Hin : In (count, nextListener s) (pre ++ _tokenListeners s')).
  { rewrite <- Esplit. apply In_insert. }
  rewrite Esplit, map_app in Hn2.
  assert (Hfresh : ~ In (nextListener s) (resolved s)).
  { intro Hr. apply Forall_app in F. destruct F as [_ F].
    apply Forall_app in F. destruct F as [F _].
    pose proof (proj1 (Forall_forall _ _) F _ Hr) as X. cbn beta in X. lia. }
  destruct (count <=? fst (_getConsumableTokens now s))%num eqn:Hle.
  - assert (Hpre : In (count, nextListener s) pre).
    { apply in_app_or in Hin. destruct Hin as [H|H]; [exact H|].
      pose proof (proj1 (Forall_forall _ _) Frest _ H) as X. cbn in X. congruence. }
    apply (in_map snd) in Hpre. cbn [snd] in Hpre. split.
    + rewrite Eres. apply in_or_app. right. exact Hpre.
    + intro H. exact (NoDup_app_not_both _ _ _ Hn2 Hpre H).
  - assert (Hrest : In (count, nextListener s) (_tokenListeners s')).
    { apply in_app_or in Hin. destruct Hin as [H|H]; [|exact H].
      pose proof (proj1 (Forall_forall _ _) Fpre _ H) as X. cbn in X. congruence. }
    split; [exact Hrest|].
    rewrite Eres. intro H. apply in_app_or in H. destruct H as [H|H].
    + exact (Hfresh H).
    + apply (in_map snd) in Hrest. cbn [snd] in Hrest.
      exact (NoDup_app_not_both _ _ _ Hn2 H Hrest).
Qed.

Lemma accruing_bucket_listeners_ok : listeners_ok accruing_bucket.
Proof. split; [|split]; cbn; constructor. Qed.

Lemma accruing_bucket_settled : settled_once accruing_bucket.
Proof. split; cbn; constructor. Qed.

Lemma X2_witness :
  wf accruing_bucket /\ clock_ok (of_Z 7) accruing_bucket
  /\ listeners_ok accruing_bucket /\ settled_once accruing_bucket
  /\ isNaN (of_Z 3) = false
  /\ (of_Z 3 >? _maxTokens accruing_bucket)%num = false
  /\ exists s',
       onceTokensAvailable 1 (of_Z 7) (of_Z 3) accruing_bucket
       = Ok (nextListener accruing_bucket, s')
       /\ if (of_Z 3 <=? fst (_getConsumableTokens (of_Z 7) accruing_bucket))%num
          then In (nextListener accruing_bucket) (resolved s')
               /\ ~ In (nextListener accruing_bucket) (map snd (_tokenListeners s'))
          else In (of_Z 3, nextListener accruing_bucket) (_tokenListeners s')
               /\ ~ In (nextListener accruing_bucket) (resolved s').
Proof.
  assert (C : clock_ok (of_Z 7) accruing_bucket)
    by (apply clock_ok_at; [reflexivity|lia]).
  split; [exact accruing_bucket_wf|]. split; [exact C|].
  split; [exact accruing_bucket_listeners_ok|].
  split; [exact accruing_bucket_settled|].
  split; [reflexivity|]. split; [reflexivity|].
  exact (@X2_onceTokensAvailable_resolves_at_once_iff_covered 0 (of_Z 7) (of_Z 3)
           accruing_bucket accruing_bucket_wf C accruing_bucket_listeners_ok
           accruing_bucket_settled eq_refl eq_refl).
Defined.

(** *** The cancel callback of a waiter *)


(** X4. The cancel callback of a waiter whose resolve callback is no
    longer in the registry -- the waiter was resolved, or cancelled before
    -- does nothing at all: no rejection, no rescheduling, the bucket is
    as it was. This holds for every bucket, plain or rolling. *)
Theorem X4_cancel_of_a_settled_waiter_does_nothing
    (fuel : nat) (now count : num) (resolve : nat) (s : Bucket) :
  ~ In resolve (map snd (_tokenListeners s)) ->
  cancelOnceTokensAvailable fuel now count resolve s = Some s.
Proof.
  intro Hnot. unfold cancelOnceTokensAvailable.
  destruct (removeListener count resolve (_tokenListeners s)) as [t|] eqn:E;
    [|reflexivity].
  exfalso. apply Hnot.
  destruct (removeListener_found _ _ _ E) as (l1 & k & l2 & -> & _).
  rewrite map_app. apply in_or_app. right. left. reflexivity.
Qed.

Lemma X4_witness :
  ~ In 3%nat (map snd (_tokenListeners waiting_bucket))
  /\ cancelOnceTokensAvailable 1 zero (of_Z 5) 3 waiting_bucket
     = Some waiting_bucket.
Proof.
  assert (H : ~ In 3%nat (map snd (_tokenListeners waiting_bucket)))
    by (cbn; intros [H|[]]; discriminate).
  split; [exact H|].
  exact (@X4_cancel_of_a_settled_waiter_does_nothing 1 zero (of_Z 5) 3
           waiting_bucket H).
Defined.

Lemma same_key_neq (a b : num) :
  isNaN a = false -> isNaN b = false -> Num.eqb b a = false ->
  Tree.same_key a b = false.
Proof.
  unfold Tree.same_key, Num.gt.
  destruct a as [x| | |], b as [y| | |]; cbn; intros; try discriminate;
    try reflexivity.
  destruct (Qcltb x y) eqn:E1; [reflexivity|].
  destruct (Qcltb y x) eqn:E2; [reflexivity|]. exfalso. qc_lra.
Qed.

Lemma eqb_refl (a : num) : isNaN a = false -> Num.eqb a a = true.
Proof. destruct a; cbn; intros; try discriminate; try reflexivity. qc_lra. Qed.

Lemma removeListener_unique (count : num) (resolve : nat)
    (l1 l2 : Tree.tree nat) :
  isNaN count = false ->
  Forall (fun e => isNaN (fst e) = false /\ Num.eqb (fst e) count = false) l1 ->
  removeListener count resolve (l1 ++ (count, resolve) :: l2) = Some (l1 ++ l2).
Proof.
  intros Hc. induction l1 as [|[k v] l1 IH]; intro F.
  - cbn [app removeListener]. rewrite same_key_refl.
    cbn [removeListenerFrom]. rewrite (eqb_refl _ Hc), Nat.eqb_refl. reflexivity.
  - inversion F as [|? ? [Hk Hne] F1]; subst. cbn [fst] in *.
    cbn [app removeListener]. rewrite (same_key_neq _ _ Hc Hk Hne).
    rewrite (IH F1). reflexivity.
Qed.

(** Rescheduling leaves the consumable tokens of a plain bucket as they
    are. *)
Lemma restore_consumable (now : num) (s : Bucket) :
  wf s -> clock_ok now s ->
  fst (_getConsumableTokens now (_restoreContinuousTokens now s))
  = fst (_getConsumableTokens now s).
Proof.
  intros W C. destruct (restore_wf W C) as [W1 F1].
  unfold _getConsumableTokens. rewrite (wf_plain W1), (wf_plain W).
  unfold TokenBucket_getConsumableTokens. cbn [fst].
  rewrite (restore_folded W1 F1). reflexivity.
Qed.

Lemma schedule_consumable (fuel : nat) (now : num) (s s' : Bucket) :
  wf s -> clock_ok now s ->
  _scheduleCheckListeners (S fuel) now s = Some s' ->
  fst (_getConsumableTokens now s') = fst (_getConsumableTokens now s).
Proof.
  intros W C. rewrite (scheduleCheckListeners_plain fuel W C).
  intro H. injection H as <-.
  destruct (_tokenListeners s).
  - apply consumable_same_core; [apply same_core_set_checkListenersHandle|].
    exact (wf_plain W).
  - cbv zeta. destruct (restore_wf W C) as [W1 F1].
    rewrite <- (restore_consumable W C).
    destruct (recheckNow _).
    + apply consumable_same_core; [apply same_core_settle|exact (wf_plain W1)].
    + apply consumable_same_core;
        [apply same_core_set_checkListenersHandle|exact (wf_plain W1)].
Qed.




End WaiterTraces.

(** ** Restorers and accrual *)

(** *** What a check pass and a consumption leave alone *)

Section Frame.

Variable A : Type.
Variable f : Bucket -> A.
Hypothesis f_content : forall v s, f (set_tokenContent v s) = f s.
Hypothesis f_last : forall v s, f (set_continuousRestoreLastTimestamp v s) = f s.
Hypothesis f_window : forall v s, f (set_window v s) = f s.
Hypothesis f_listeners : forall v s, f (set_tokenListeners v s) = f s.
Hypothesis f_resolved : forall v s, f (set_resolved v s) = f s.
Hypothesis f_handle : forall v s, f (set_checkListenersHandle v s) = f s.

Lemma frame_restore (now : num) (s : Bucket) :
  f (_restoreContinuousTokens now s) = f s.
Proof. rewrite restore_frame, f_last, f_content. reflexivity. Qed.

Lemma frame_consumable (now : num) (s : Bucket) :
  f (snd (_getConsumableTokens now s)) = f s.
Proof.
  unfold _getConsumableTokens. destruct (window s) as [w|].
  - destruct (_countAndCleanupHistoricTokens now w) as [spent w1].
    unfold TokenBucket_getConsumableTokens. cbn [snd].
    rewrite frame_restore, f_window. reflexivity.
  - apply frame_restore.
Qed.

Lemma frame_waitTime (now : num) (s : Bucket) :
  f (snd (_getWaitTimeForRecheck now s)) = f s.
Proof.
  unfold _getWaitTimeForRecheck, TokenBucket_getWaitTimeForRecheck.
  destruct (window s) as [w|]; [|apply frame_restore].
  destruct (_countAndCleanupHistoricTokens now w) as [spent w1].
  assert (X : f (set_window (Some w1) (_restoreContinuousTokens now s)) = f s)
    by (rewrite f_window; apply frame_restore).
  destruct (Num.eqb _ zero); [|exact X].
  destruct (_ <=? _)%num; exact X.
Qed.

Lemma frame_check (fuel : nat) (now : num) :
  forall s s', _checkListeners fuel now s = Some s' -> f s' = f s.
Proof.
  induction fuel as [|fuel IH]; intros s s'; [discriminate|].
  cbn [_checkListeners].
  set (s2 := if (0 <? Tree.length (_tokenListeners s))%nat then _ else s).
  assert (R2 : f s2 = f s).
  { subst s2. destruct (0 <? _)%nat; [|reflexivity].
    pose proof (frame_consumable now s) as X.
    destruct (_getConsumableTokens now s) as [c s1]. cbn [snd] in X.
    destruct (resolveListeners c (_tokenListeners s1)) as [called remaining].
    rewrite f_listeners, f_resolved. exact X. }
  clearbody s2. unfold _scheduleCheckListeners_with.
  set (s3 := set_checkListenersHandle None s2).
  assert (R3 : f s3 = f s) by (subst s3; rewrite f_handle; exact R2).
  clearbody s3. destruct (0 <? _)%nat.
  - pose proof (frame_waitTime now s3) as X.
    destruct (_getWaitTimeForRecheck now s3) as [waitTime s4]. cbn [snd] in X.
    destruct (isFinite waitTime).
    + destruct (waitTime <=? zero)%num.
      * intro H. rewrite (IH _ _ H). congruence.
      * intro H. injection H as <-. rewrite f_handle. congruence.
    + intro H. injection H as <-. congruence.
  - intro H. injection H as <-. exact R3.
Qed.

Lemma frame_schedule (fuel : nat) (now : num) (s s' : Bucket) :
  _scheduleCheckListeners fuel now s = Some s' -> f s' = f s.
Proof.
  unfold _scheduleCheckListeners, _scheduleCheckListeners_with.
  set (s3 := set_checkListenersHandle None s).
  assert (R3 : f s3 = f s) by (subst s3; apply f_handle).
  clearbody s3. destruct (0 <? _)%nat.
  - pose proof (frame_waitTime now s3) as X.
    destruct (_getWaitTimeForRecheck now s3) as [waitTime s4]. cbn [snd] in X.
    destruct (isFinite waitTime).
    + destruct (waitTime <=? zero)%num.
      * intro H. rewrite (frame_check _ _ _ H). congruence.
      * intro H. injection H as <-. rewrite f_handle. congruence.
    + intro H. injection H as <-. congruence.
  - intro H. injection H as <-. exact R3.
Qed.

Lemma frame_consume (fuel : nat) (now count : num) (s s' : Bucket) :
  after s (consumeTokens fuel now count s) = Some s' -> f s' = f s.
Proof.
  unfold consumeTokens. destruct (count <? zero)%num.
  { intro H. injection H as <-. reflexivity. }
  pose proof (frame_consumable now s) as X.
  destruct (_getConsumableTokens now s) as [consumable s1]. cbn [snd] in X.
  destruct (count <=? consumable)%num.
  - unfold _onTokensConsumed.
    cbn [window set_tokenContent].
    destruct (window s1) as [w|].
    + destruct (_scheduleCheckListeners fuel now _) as [s3|] eqn:E;
        cbn; [|discriminate].
      intro H. injection H as <-.
      rewrite (frame_schedule _ _ _ E), f_window, f_content. exact X.
    + destruct (_scheduleCheckListeners fuel now _) as [s3|] eqn:E;
        cbn; [|discriminate].
      intro H. injection H as <-.
      rewrite (frame_schedule _ _ _ E), f_content. exact X.
  - cbn. intro H. injection H as <-. exact X.
Qed.

End Frame.

(** *** The stored rate is the aggregate of the installed restorers *)

Section Restorers.

Open Scope Qc_scope.

Lemma restorers_ok_installed (s s' : Bucket) :
  installed s' = installed s -> restorers_ok s -> restorers_ok s'.
Proof.
  unfold installed, restorers_ok. intro E. injection E as -> -> ->.
  exact (fun x => x).
Qed.

Lemma installed_check (fuel : nat) (now : num) (s s' : Bucket) :
  _checkListeners fuel now s = Some s' -> installed s' = installed s.
Proof. apply frame_check; reflexivity. Qed.

Lemma installed_schedule (fuel : nat) (now : num) (s s' : Bucket) :
  _scheduleCheckListeners fuel now s = Some s' -> installed s' = installed s.
Proof. apply frame_schedule; reflexivity. Qed.

Lemma installed_consume (fuel : nat) (now count : num) (s s' : Bucket) :
  after s (consumeTokens fuel now count s) = Some s' ->
  installed s' = installed s.
Proof. apply frame_consume; reflexivity. Qed.

Lemma installed_restore (now : num) (s : Bucket) :
  installed (_restoreContinuousTokens now s) = installed s.
Proof. rewrite restore_frame. reflexivity. Qed.

Lemma hasContinuous_false (r : ContinuousTokenRestorer) (s : Bucket) :
  hasContinuous r s = false ->
  ~ In (c_id r) (map c_id (_continuousTokenRestorers s)).
Proof.
  unfold hasContinuous. intros H Hin.
  apply in_map_iff in Hin. destruct Hin as (x & Ex & Hx).
  assert (X : existsb (fun r' => Nat.eqb (c_id r') (c_id r))
                (_continuousTokenRestorers s) = true).
  { apply existsb_exists. exists x. split; [exact Hx|].
    apply Nat.eqb_eq. exact Ex. }
  congruence.
Qed.

Lemma hasDiscrete_false (r : DiscreteTokenRestorer) (s : Bucket) :
  hasDiscrete r s = false -> ~ In (d_id r) (_discreteTokenRestorers s).
Proof.
  unfold hasDiscrete. intros H Hin.
  assert (X : existsb (Nat.eqb (d_id r)) (_discreteTokenRestorers s) = true).
  { apply existsb_exists. exists (d_id r). split; [exact Hin|].
    apply Nat.eqb_refl. }
  congruence.
Qed.

Lemma NoDup_snoc {A : Type} (l : list A) (x : A) :
  NoDup l -> ~ In x l -> NoDup (l ++ [x]).
Proof.
  intros N H. apply NoDup_rev in N.
  rewrite <- (rev_involutive (l ++ [x])). apply NoDup_rev.
  rewrite rev_app_distr. cbn. constructor; [|exact N].
  intro Hin. apply H. apply in_rev. exact Hin.
Qed.

Lemma NoDup_map_filter {A B : Type} (g : A -> B) (p : A -> bool) (l : list A) :
  NoDup (map g l) -> NoDup (map g (filter p l)).
Proof.
  induction l as [|a l IH]; cbn; intro N; [constructor|].
  inversion N as [|? ? Na Nl]; subst.
  destruct (p a); cbn; [|exact (IH Nl)].
  constructor; [|exact (IH Nl)].
  intro Hin. apply Na. apply in_map_iff in Hin.
  destruct Hin as (x & Ex & Hx). apply filter_In in Hx.
  apply in_map_iff. exists x. split; [exact Ex|exact (proj1 Hx)].
Qed.

Lemma addOrRemove_installed (fuel : nat) (now : num)
    (r : ContinuousTokenRestorer) (add : bool) (s s' : Bucket) :
  _addOrRemoveContinuousRestorer fuel now r add s = Some s' ->
  let restorers :=
    if add then _continuousTokenRestorers s ++ [r]
    else filter (fun r' => negb (Nat.eqb (c_id r') (c_id r)))
           (_continuousTokenRestorers s) in
  installed s'
  = (computeAggregateRatePerMs restorers, restorers, _discreteTokenRestorers s).
Proof.
  unfold _addOrRemoveContinuousRestorer. cbv zeta. intro H.
  rewrite (installed_schedule _ _ _ H). unfold installed.
  destruct add;
    cbn [_continuousRestoreRatePerMs _continuousTokenRestorers
         _discreteTokenRestorers set_continuousRestoreRatePerMs
         set_continuousTokenRestorers];
    rewrite restore_frame; reflexivity.
Qed.

Lemma step_restorers (fuel : nat) (o : op) (w w' : World) :
  step fuel o w = Some w' ->
  restorers_ok (bucket w) -> restorers_ok (bucket w').
Proof.
  destruct w as [now s]. destruct o; cbn [step clock bucket].
  - destruct (after s _) as [s1|] eqn:E; cbn; [|discriminate].
    intro H. injection H as <-. cbn [bucket].
    exact (restorers_ok_installed (installed_consume _ _ _ _ E)).
  - unfold onceTokensAvailable. destruct (count >? _maxTokens s)%num; cbn.
    { intro H. injection H as <-. exact (fun x => x). }
    destruct (_checkListeners fuel now _) as [s1|] eqn:E; cbn; [|discriminate].
    intro H. injection H as <-. cbn [bucket].
    apply restorers_ok_installed. rewrite (installed_check _ _ _ E). reflexivity.
  - unfold cancelOnceTokensAvailable.
    destruct (removeListener count resolve (_tokenListeners s)) as [t|].
    + destruct (_scheduleCheckListeners fuel now _) as [s1|] eqn:E;
        cbn; [|discriminate].
      intro H. injection H as <-. cbn [bucket].
      apply restorers_ok_installed.
      change (installed (set_rejected (rejected s1 ++ [resolve]) s1))
        with (installed s1).
      rewrite (installed_schedule _ _ _ E). reflexivity.
    + intro H. injection H as <-. exact (fun x => x).
  - destruct r as [r|r|]; cbn [addTokenRestorer].
    + destruct (hasContinuous r s) eqn:Hh; cbn.
      { intro H. injection H as <-. exact (fun x => x). }
      destruct (_addOrRemoveContinuousRestorer fuel now r true s) as [s1|] eqn:E;
        cbn; [|discriminate].
      intro H. injection H as <-. cbn [bucket].
      pose proof (addOrRemove_installed _ _ _ _ _ E) as X. cbv zeta in X.
      unfold installed in X. injection X as X1 X2 X3.
      intros (R1 & R2 & R3). unfold restorers_ok. rewrite X1, X2, X3.
      split; [reflexivity|]. split; [|exact R3].
      rewrite map_app. cbn [map]. apply NoDup_snoc; [exact R2|].
      exact (hasContinuous_false _ _ Hh).
    + destruct (hasDiscrete r s) eqn:Hh; cbn.
      { intro H. injection H as <-. exact (fun x => x). }
      intro H. injection H as <-. cbn [bucket].
      intros (R1 & R2 & R3). unfold restorers_ok.
      cbn [_continuousRestoreRatePerMs _continuousTokenRestorers
           _discreteTokenRestorers set_discreteTokenRestorers].
      split; [exact R1|]. split; [exact R2|].
      apply NoDup_snoc; [exact R3|]. exact (hasDiscrete_false _ _ Hh).
    + cbn. intro H. injection H as <-. exact (fun x => x).
  - destruct r as [r|r|]; cbn [removeTokenRestorer].
    + destruct (hasContinuous r s) eqn:Hh; cbn.
      2:{ intro H. injection H as <-. exact (fun x => x). }
      destruct (_addOrRemoveContinuousRestorer fuel now r false s) as [s1|] eqn:E;
        cbn; [|discriminate].
      intro H. injection H as <-. cbn [bucket].
      pose proof (addOrRemove_installed _ _ _ _ _ E) as X. cbv zeta in X.
      unfold installed in X. injection X as X1 X2 X3.
      intros (R1 & R2 & R3). unfold restorers_ok. rewrite X1, X2, X3.
      split; [reflexivity|]. split; [|exact R3].
      apply NoDup_map_filter. exact R2.
    + destruct (hasDiscrete r s) eqn:Hh; cbn.
      2:{ intro H. injection H as <-. exact (fun x => x). }
      intro H. injection H as <-. cbn [bucket].
      intros (R1 & R2 & R3). unfold restorers_ok.
      cbn [_continuousRestoreRatePerMs _continuousTokenRestorers
           _discreteTokenRestorers set_discreteTokenRestorers].
      split; [exact R1|]. split; [exact R2|].
      apply NoDup_filter. exact R3.
    + cbn. intro H. injection H as <-. exact (fun x => x).
  - unfold disconnectRestorers. cbv zeta.
    destruct (_scheduleCheckListeners fuel now _) as [s1|] eqn:E;
      cbn; [|discriminate].
    intro H. injection H as <-. cbn [bucket]. intros _.
    pose proof (installed_schedule _ _ _ E) as X.
    unfold installed in X.
    cbn [_continuousRestoreRatePerMs _continuousTokenRestorers
         _discreteTokenRestorers set_continuousRestoreRatePerMs
         set_continuousTokenRestorers] in X.
    injection X as X1 X2 X3. unfold restorers_ok.
    cbn [_continuousRestoreRatePerMs _continuousTokenRestorers
         _discreteTokenRestorers set_discreteTokenRestorers].
    rewrite X1, X2. split; [reflexivity|]. split; constructor.
  - unfold discreteTick, onRestore. destruct (hasDiscrete r s).
    + destruct (_checkListeners fuel now _) as [s1|] eqn:E; cbn; [|discriminate].
      intro H. injection H as <-. cbn [bucket].
      apply restorers_ok_installed. rewrite (installed_check _ _ _ E).
      rewrite addTokensToBucket_frame. reflexivity.
    + cbn. intro H. injection H as <-. exact (fun x => x).
  - unfold recheckTimerFires.
    destruct (_checkListeners fuel now s) as [s1|] eqn:E; cbn; [|discriminate].
    intro H. injection H as <-.
    exact (restorers_ok_installed (installed_check _ _ _ E)).
  - intro H. injection H as <-. exact (fun x => x).
Qed.

Lemma run_restorers (fuel : nat) (ops : list op) (w w' : World) :
  run fuel ops w = Some w' ->
  restorers_ok (bucket w) -> restorers_ok (bucket w').
Proof.
  revert w. induction ops as [|o ops IH]; intros w; cbn [run].
  - intro H. injection H as <-. exact (fun x => x).
  - destruct (step fuel o w) as [w1|] eqn:E; [|discriminate].
    intros H S0. exact (IH _ H (@step_restorers _ _ _ _ E S0)).
Qed.

Lemma new_TokenBucket_restorers (options : TokenBucketOptions) (s : Bucket) :
  new_TokenBucket options = Ok s -> restorers_ok s.
Proof.
  unfold new_TokenBucket.
  destruct (negb _ || _); [discriminate|].
  destruct (match maxTokens options with Some _ => _ | None => _ end);
    [discriminate|].
  intro H. injection H as <-.
  split; [reflexivity|]. split; constructor.
Qed.

(** X6. Along every history of a plain bucket the rate at which it
    accrues tokens is the aggregate -- the sum of [amount / intervalMs] --
    of the continuous restorers it holds at that moment, no continuous
    restorer is held twice, and no discrete restorer is subscribed
    twice. *)
Theorem X6_rate_is_the_aggregate_of_the_installed_restorers
    (options : TokenBucketOptions) (s0 : Bucket) (t0 : num)
    (ops : list op) (k : nat) :
  new_TokenBucket options = Ok s0 ->
  finite_nonneg t0 ->
  Forall op_ok ops ->
  exists w,
    run 1 (firstn k ops) (mkWorld t0 s0) = Some w
    /\ _continuousRestoreRatePerMs (bucket w)
       = computeAggregateRatePerMs (_continuousTokenRestorers (bucket w))
    /\ NoDup (map c_id (_continuousTokenRestorers (bucket w)))
    /\ NoDup (_discreteTokenRestorers (bucket w)).
Proof.
  intros Hnew Ht Hops.
  destruct (new_TokenBucket_wf _ Hnew) as [W F].
  assert (I : Inv (mkWorld t0 s0)).
  { split; [exact W|]. destruct F as (n & Hn & Hl).
    destruct Ht as (q & Hq & Hq0). injection Hn as <-.
    exists q, 0. repeat split; assumption. }
  destruct (@run_inv 0 (firstn k ops) _ I (Forall_firstn k Hops))
    as (w & E & _).
  exists w. split; [exact E|].
  exact (@run_restorers _ _ _ _ E (new_TokenBucket_restorers _ Hnew)).
Qed.

Lemma X6_witness :
  new_TokenBucket example_options = Ok example_bucket
  /\ finite_nonneg zero
  /\ Forall op_ok example_history
  /\ exists w,
       run 1 (firstn 11 example_history) (mkWorld zero example_bucket) = Some w
       /\ _continuousRestoreRatePerMs (bucket w)
          = computeAggregateRatePerMs (_continuousTokenRestorers (bucket w))
       /\ NoDup (map c_id (_continuousTokenRestorers (bucket w)))
       /\ NoDup (_discreteTokenRestorers (bucket w)).
Proof.
  split; [reflexivity|]. split; [exact zero_nonneg|].
  split; [exact example_history_ok|].
  exact (@X6_rate_is_the_aggregate_of_the_installed_restorers example_options
           example_bucket zero example_history 11 eq_refl zero_nonneg
           example_history_ok).
Defined.

(** *** Adding a restorer and removing it again *)

Lemma aggregate_snoc (rs : list ContinuousTokenRestorer)
    (r : ContinuousTokenRestorer) :
  computeAggregateRatePerMs (rs ++ [r])
  = (computeAggregateRatePerMs rs
     + amount (c_rate r) / intervalMs (c_rate r))%num.
Proof. unfold computeAggregateRatePerMs. rewrite fold_left_app. reflexivity. Qed.

Lemma filter_out_snoc (rs : list ContinuousTokenRestorer)
    (r : ContinuousTokenRestorer) :
  ~ In (c_id r) (map c_id rs) ->
  filter (fun r' => negb (Nat.eqb (c_id r') (c_id r))) (rs ++ [r]) = rs.
Proof.
  intro H. rewrite filter_app. cbn [filter]. rewrite Nat.eqb_refl. cbn [negb].
  rewrite app_nil_r. apply filter_all. intros x Hx.
  apply negb_true_iff. apply Nat.eqb_neq. intro E. apply H.
  rewrite <- E. exact (in_map c_id _ _ Hx).
Qed.

(** X7. A continuous restorer that the bucket does not hold is added, and
    removed again at any later time. Both calls return [true]; while the
    restorer is held the rate is the former rate plus its
    [amount / intervalMs]; afterwards the rate and the set of restorers
    are exactly what they were before. *)
Theorem X7_add_then_remove_restores_the_rate
    (fuel : nat) (t1 t2 : num) (r : ContinuousTokenRestorer) (s : Bucket) :
  wf s -> clock_ok t1 s -> restorers_ok s ->
  rate_ok (c_rate r) ->
  hasContinuous r s = false ->
  isFinite t2 = true -> (t1 <=? t2)%num = true ->
  exists s1 s2,
    addTokenRestorer (S fuel) t1 (Continuous r) s = Ok (true, s1)
    /\ _continuousRestoreRatePerMs s1
       = (_continuousRestoreRatePerMs s
          + amount (c_rate r) / intervalMs (c_rate r))%num
    /\ removeTokenRestorer (S fuel) t2 (Continuous r) s1 = Ok (true, s2)
    /\ _continuousRestoreRatePerMs s2 = _continuousRestoreRatePerMs s
    /\ _continuousTokenRestorers s2 = _continuousTokenRestorers s.
Proof.
  intros W C (R1 & R2 & R3) Hr Hh Hf Hle.
  cbn [addTokenRestorer]. rewrite Hh. cbn [negb].
  destruct (@addOrRemove_inv fuel t1 r true s W C (fun _ => Hr))
    as (s1 & E1 & W1 & C1 & _).
  rewrite E1. cbn [of_option bind].
  pose proof (addOrRemove_installed _ _ _ _ _ E1) as X. cbv zeta in X.
  unfold installed in X. injection X as X1 X2 X3.
  exists s1.
  assert (Hh1 : hasContinuous r s1 = true).
  { unfold hasContinuous. rewrite X2, existsb_app. cbn.
    rewrite Nat.eqb_refl. apply orb_true_iff. right. reflexivity. }
  assert (C2 : clock_ok t2 s1).
  { destruct C1 as (n & t & Hn & Ht & Hnt). rewrite Hn in Hle.
    destruct t2 as [n2| | |]; try discriminate. cbn in Hle.
    exists n2, t. repeat split; [exact Ht|]. qc_lra. }
  destruct (@addOrRemove_inv fuel t2 r false s1 W1 C2) as (s2 & E2 & _);
    [discriminate|].
  pose proof (addOrRemove_installed _ _ _ _ _ E2) as Y. cbv zeta in Y.
  unfold installed in Y. injection Y as Y1 Y2 Y3.
  rewrite X2, (filter_out_snoc _ _ (hasContinuous_false _ _ Hh)) in Y1, Y2.
  exists s2. split; [reflexivity|].
  split; [rewrite X1, aggregate_snoc, R1; reflexivity|].
  cbn [removeTokenRestorer]. rewrite Hh1, E2. cbn [of_option bind].
  split; [reflexivity|]. split; [rewrite Y1, R1; reflexivity|exact Y2].
Qed.

Lemma example_bucket_restorers : restorers_ok example_bucket.
Proof. split; [reflexivity|]. split; constructor. Qed.

Lemma X7_witness :
  wf example_bucket /\ clock_ok zero example_bucket
  /\ restorers_ok example_bucket
  /\ rate_ok (c_rate example_restorer)
  /\ hasContinuous example_restorer example_bucket = false
  /\ isFinite (of_Z 5) = true /\ (zero <=? of_Z 5)%num = true
  /\ exists s1 s2,
       addTokenRestorer 1 zero (Continuous example_restorer) example_bucket
       = Ok (true, s1)
       /\ _continuousRestoreRatePerMs s1
          = (_continuousRestoreRatePerMs example_bucket
             + amount (c_rate example_restorer)
               / intervalMs (c_rate example_restorer))%num
       /\ removeTokenRestorer 1 (of_Z 5) (Continuous example_restorer) s1
          = Ok (true, s2)
       /\ _continuousRestoreRatePerMs s2
          = _continuousRestoreRatePerMs example_bucket
       /\ _continuousTokenRestorers s2 = _continuousTokenRestorers example_bucket.
Proof.
  split; [exact example_bucket_wf|].
  split; [exact (proj2 example_bucket_Inv)|].
  split; [exact example_bucket_restorers|].
  split; [exact example_restorer_ok|].
  split; [reflexivity|]. split; [reflexivity|]. split; [reflexivity|].
  exact (@X7_add_then_remove_restores_the_rate 0 zero (of_Z 5)
           example_restorer example_bucket example_bucket_wf
           (proj2 example_bucket_Inv) example_bucket_restorers
           example_restorer_ok eq_refl eq_refl eq_refl).
Defined.

(** *** Continuous accrual *)

(** The content after a fold, for a bucket with a finite capacity and for
    one without. *)
Lemma restore_content (now : num) (s : Bucket) :
  _tokenContent (_restoreContinuousTokens now s)
  = let content :=
      (_tokenContent s
       + _continuousRestoreRatePerMs s
         * (now - _continuousRestoreLastTimestamp s))%num in
    if (content >? _maxTokens s)%num then _maxTokens s else content.
Proof.
  unfold _restoreContinuousTokens, _addTokensToBucket.
  cbn [_tokenContent set_continuousRestoreLastTimestamp set_tokenContent _maxTokens].
  cbv zeta. destruct (_ >? _)%num; reflexivity.
Qed.

(** X8. Continuous accrual on a plain bucket. The consumable tokens at a
    time [t2] are the smaller of [_maxTokens] and the content plus the
    rate times the time since the last fold. They are not below the
    consumable tokens at an earlier time [t1], and they never exceed
    [_maxTokens]. *)
Theorem X8_accrual_is_linear_and_clamped
    (t1 t2 : num) (s : Bucket) :
  wf s -> clock_ok t1 s ->
  isFinite t2 = true -> (t1 <=? t2)%num = true ->
  fst (_getConsumableTokens t2 s)
  = Num.min (_maxTokens s)
      (_tokenContent s
       + _continuousRestoreRatePerMs s
         * (t2 - _continuousRestoreLastTimestamp s))%num
  /\ (fst (_getConsumableTokens t1 s) <=? fst (_getConsumableTokens t2 s))%num
     = true
  /\ (fst (_getConsumableTokens t2 s) <=? _maxTokens s)%num = true.
Proof.
  intros W C Hf Hle.
  destruct (restore_wf W C) as [W1 F1].
  unfold _getConsumableTokens. rewrite (wf_plain W).
  unfold TokenBucket_getConsumableTokens. cbn [fst snd].
  rewrite !restore_content. cbv zeta.
  cbn [_tokenContent _maxTokens _continuousRestoreRatePerMs
       _continuousRestoreLastTimestamp set_continuousRestoreLastTimestamp
       set_tokenContent].
  destruct (wf_content W) as (c & Ec & Hc).
  destruct (wf_rate W) as (r & Er & Hr0).
  destruct C as (n1 & t0 & En1 & Et0 & Ht).
  pose proof (wf_cap W) as Hcap.
  destruct t2 as [n2| | |]; try discriminate.
  rewrite Ec, Er, Et0, En1 in *. cbn in Hle.
  cbn [Num.add Num.sub Num.neg Num.mul].
  assert (HA : 0 <= r * (n1 + - t0)) by (apply Qcmult_nonneg; qc_lra).
  assert (HB : 0 <= r * (n2 + - n1)) by (apply Qcmult_nonneg; qc_lra).
  assert (HAB : r * (n2 + - t0) = r * (n1 + - t0) + r * (n2 + - n1)) by ring.
  rewrite HAB.
  generalize dependent (r * (n1 + - t0)). intros A HA _.
  generalize dependent (r * (n2 + - n1)). intros B HB.
  destruct (_maxTokens s) as [m| | |] eqn:Em; cbn in Hcap; try discriminate.
  - unfold Num.gt, Num.min. cbn [Num.lt Num.le].
    destruct (Qcltb m (c + A)) eqn:E1; cbn [Num.lt Num.le Num.add];
      destruct (Qcltb m (c + (A + B))) eqn:E2;
      destruct (Qcleb m (c + (A + B))) eqn:E3;
      try (destruct (Qcltb m (m + B)) eqn:E4);
      try (destruct (Qcltb m (c + A + B)) eqn:E5);
      cbn [Num.lt Num.le];
      repeat split; try reflexivity; try (exfalso; qc_lra);
      try (f_equal; qc_lra); try qc_lra.
  - unfold Num.gt, Num.min. cbn [Num.lt Num.le Num.add].
    repeat split; try reflexivity; try (f_equal; qc_lra); qc_lra.
Qed.

Lemma X8_witness :
  wf accruing_bucket /\ clock_ok (of_Z 3) accruing_bucket
  /\ isFinite (of_Z 7) = true /\ (of_Z 3 <=? of_Z 7)%num = true
  /\ fst (_getConsumableTokens (of_Z 7) accruing_bucket)
     = Num.min (_maxTokens accruing_bucket)
         (_tokenContent accruing_bucket
          + _continuousRestoreRatePerMs accruing_bucket
            * (of_Z 7 - _continuousRestoreLastTimestamp accruing_bucket))%num
  /\ (fst (_getConsumableTokens (of_Z 3) accruing_bucket)
      <=? fst (_getConsumableTokens (of_Z 7) accruing_bucket))%num = true
  /\ (fst (_getConsumableTokens (of_Z 7) accruing_bucket)
      <=? _maxTokens accruing_bucket)%num = true.
Proof.
  assert (C : clock_ok (of_Z 3) accruing_bucket)
    by (apply clock_ok_at; [reflexivity|lia]).
  split; [exact accruing_bucket_wf|]. split; [exact C|].
  split; [reflexivity|]. split; [reflexivity|].
  exact (@X8_accrual_is_linear_and_clamped (of_Z 3) (of_Z 7) accruing_bucket
           accruing_bucket_wf C eq_refl eq_refl).
Defined.

(** *** Consuming *)

(** What [consumeTokens] returns on a plain bucket, by the consumable
    tokens. *)
Lemma consume_outcome (fuel : nat) (now count : num) (s : Bucket) :
  wf s -> clock_ok now s -> (zero <=? count)%num = true ->
  let consumable := fst (_getConsumableTokens now s) in
  if (count <=? consumable)%num then
    exists s',
      consumeTokens (S fuel) now count s = Ok (true, s')
      /\ wf s' /\ clock_ok now s'
      /\ fst (_getConsumableTokens now s') = (consumable - count)%num
  else consumeTokens (S fuel) now count s
       = Ok (false, _restoreContinuousTokens now s).
Proof.
  intros W C H0 consumable.
  assert (Ec : consumable = _tokenContent (_restoreContinuousTokens now s)).
  { unfold consumable, _getConsumableTokens. rewrite (wf_plain W). reflexivity. }
  rewrite (consumeTokens_plain _ _ _ _ (wf_plain W)).
  rewrite (le_zero_not_lt _ H0). cbv zeta. rewrite Ec. clear Ec consumable.
  destruct (count <=? _)%num eqn:Hle; [|reflexivity].
  destruct (restore_wf W C) as [W1 F1].
  destruct (@wf_after_subtract now count _ W1 F1 (le_zero_not_lt _ H0) Hle)
    as [W2 F2].
  destruct (schedule_all fuel W2 (folded_clock_ok F2)) as (s3 & E & W3 & C3 & _).
  rewrite E. exists s3. split; [reflexivity|].
  split; [exact W3|]. split; [exact C3|].
  rewrite (schedule_consumable fuel W2 (folded_clock_ok F2) E).
  unfold _getConsumableTokens. rewrite (wf_plain W2).
  unfold TokenBucket_getConsumableTokens. cbn [fst].
  rewrite (restore_folded W2 F2). reflexivity.
Qed.

End Restorers.

(** ** The rolling window: the ledger and the budget *)

Section WindowBudget.

Open Scope Qc_scope.

(** *** Totals of a ledger *)

Lemma fold_total (h : Tree.tree num) :
  Forall (fun e => isFinite (fst e) = true /\ finite_nonneg (snd e)) h ->
  forall a : Qc,
    fold_left (fun total e => (total + snd e)%num) h (Fin a)
    = Fin (a + ledger_total h).
Proof.
  induction 1 as [|[k v] h [_ (q & Hv & _)] _ IH]; intro a; cbn.
  - f_equal. ring.
  - cbn in Hv. subst v. cbn. rewrite IH. f_equal. ring.
Qed.

Lemma total_nonneg (h : Tree.tree num) :
  Forall (fun e => isFinite (fst e) = true /\ finite_nonneg (snd e)) h ->
  0 <= ledger_total h.
Proof.
  induction 1 as [|[k v] h [_ (q & Hv & Hq)] _ IH]; cbn; [qc_lra|].
  cbn in Hv. subst v. qc_lra.
Qed.

(** *** Purging *)

Lemma dropExpired_idem (e : num) (h : Tree.tree num) :
  dropExpired e (dropExpired e h) = dropExpired e h.
Proof.
  induction h as [|[k v] h IH]; [reflexivity|].
  cbn [dropExpired]. destruct (k <? e)%num eqn:L; [exact IH|].
  cbn [dropExpired]. rewrite L. reflexivity.
Qed.

Lemma dropExpired_suffix (e : num) (h : Tree.tree num) :
  exists pre, h = pre ++ dropExpired e h.
Proof.
  induction h as [|[k v] h (pre & IH)]; [exists []; reflexivity|].
  cbn [dropExpired]. destruct (k <? e)%num.
  - exists ((k, v) :: pre). cbn. f_equal. exact IH.
  - exists []. reflexivity.
Qed.

Lemma ledger_ok_dropExpired (e : num) (h : Tree.tree num) :
  ledger_ok h -> ledger_ok (dropExpired e h).
Proof.
  intros [Hs F]. split; [exact (dropExpired_sorted e Hs)|].
  destruct (dropExpired_suffix e h) as (pre & E). rewrite E in F.
  apply Forall_app in F. exact (proj2 F).
Qed.

Lemma purges_refl (now : num) (w : Window) : purges now w w.
Proof. repeat split. left. reflexivity. Qed.

Lemma purges_trans (now : num) (w1 w2 w3 : Window) :
  purges now w1 w2 -> purges now w2 w3 -> purges now w1 w3.
Proof.
  intros (I1 & M1 & H1) (I2 & M2 & H2).
  split; [congruence|]. split; [congruence|].
  rewrite I1 in H2.
  destruct H1 as [H1|H1], H2 as [H2|H2]; rewrite H2, H1; auto.
  right. apply dropExpired_idem.
Qed.

Lemma purges_cleanup (now : num) (w : Window) :
  purges now w (_cleanupHistoricTokens now w).
Proof. repeat split. right. reflexivity. Qed.

Lemma window_purges_refl (now : num) (s : Bucket) : window_purges now s s.
Proof. unfold window_purges. destruct (window s); [apply purges_refl|exact I]. Qed.

Lemma window_purges_trans (now : num) (s1 s2 s3 : Bucket) :
  window_purges now s1 s2 -> window_purges now s2 s3 -> window_purges now s1 s3.
Proof.
  unfold window_purges.
  destruct (window s1), (window s2), (window s3); try tauto.
  apply purges_trans.
Qed.

Lemma window_purges_frame (now : num) (s s' : Bucket) :
  window s' = window s -> window_purges now s s'.
Proof.
  intro E. unfold window_purges. rewrite E.
  destruct (window s); [apply purges_refl|exact I].
Qed.

Lemma window_purges_restore (now : num) (s : Bucket) :
  window_purges now s (_restoreContinuousTokens now s).
Proof. apply window_purges_frame. rewrite restore_frame. reflexivity. Qed.

Lemma window_purges_consumable (now : num) (s : Bucket) :
  window_purges now s (snd (_getConsumableTokens now s)).
Proof.
  unfold _getConsumableTokens. destruct (window s) as [w|] eqn:Ew.
  - destruct (_countAndCleanupHistoricTokens now w) as [spent w1] eqn:Ec.
    unfold TokenBucket_getConsumableTokens. cbn [snd].
    unfold window_purges. rewrite Ew, restore_frame. cbn [window set_window
      set_continuousRestoreLastTimestamp set_tokenContent].
    unfold _countAndCleanupHistoricTokens in Ec. injection Ec as _ <-.
    apply purges_cleanup.
  - apply window_purges_restore.
Qed.

Lemma window_purges_waitTime (now : num) (s : Bucket) :
  window_purges now s (snd (_getWaitTimeForRecheck now s)).
Proof.
  unfold _getWaitTimeForRecheck, TokenBucket_getWaitTimeForRecheck.
  destruct (window s) as [w|] eqn:Ew; [|apply window_purges_restore].
  destruct (_countAndCleanupHistoricTokens now w) as [spent w1] eqn:Ec.
  assert (X : window_purges now s
                (set_window (Some w1) (_restoreContinuousTokens now s))).
  { unfold window_purges. rewrite Ew. cbn [window set_window].
    unfold _countAndCleanupHistoricTokens in Ec. injection Ec as _ <-.
    apply purges_cleanup. }
  destruct (Num.eqb _ zero); [|exact X].
  destruct (_ <=? _)%num; exact X.
Qed.

Lemma le_min_l (x a b : num) :
  (x <=? Num.min a b)%num = true -> (x <=? a)%num = true.
Proof.
  destruct x as [x| | |], a as [a| | |], b as [b| | |]; cbn;
    try discriminate; try reflexivity; try (exact (fun H => H));
    try (destruct (Qcleb a b) eqn:E; cbn; intros; try discriminate; qc_lra).
Qed.

(** *** Scheduling when nobody waits *)

Lemma schedule_idle (fuel : nat) (now : num) (s : Bucket) :
  _tokenListeners s = [] ->
  _scheduleCheckListeners fuel now s = Some (set_checkListenersHandle None s).
Proof.
  intro E. unfold _scheduleCheckListeners, _scheduleCheckListeners_with.
  cbn [_tokenListeners set_checkListenersHandle]. rewrite E. reflexivity.
Qed.

(** *** One consumption under the rolling window *)

Lemma insert_length {V : Type} (k : num) (v : V) (t : Tree.tree V) :
  (0 <? Tree.length (Tree.insert k v t))%nat = true.
Proof.
  destruct t as [|[k' v'] t]; cbn; [reflexivity|].
  destruct (k >? k')%num; reflexivity.
Qed.

Lemma spent_total (now : num) (w : Window) :
  ledger_ok (_history w) ->
  fst (_countAndCleanupHistoricTokens now w)
  = Fin (ledger_total
           (dropExpired (now - _historyIntervalMs w)%num (_history w))).
Proof.
  intro L. unfold _countAndCleanupHistoricTokens, Tree.forEach. cbn [fst].
  unfold zero.
  cbn [_history _cleanupHistoricTokens set_history].
  rewrite (fold_total (proj2 (ledger_ok_dropExpired _ L))). f_equal. ring.
Qed.

(** X11. [consumeTokens(count)] on a rolling-window bucket nobody waits
    on, for [count >= 0]. When [count] is at most the consumable tokens
    the call returns [true]: the content is the folded content less
    [count], the ledger is the purged ledger with the new entry
    [(now, count)], and the clean-up timer is armed for
    [historyIntervalMs + 100] ms. Otherwise the call returns [false]: the
    accrual is folded, the ledger is purged, nothing is recorded. *)
Theorem X11_consumption_is_recorded_in_the_window
    (fuel : nat) (now count : num) (s : Bucket) (w : Window) :
  window s = Some w ->
  _tokenListeners s = [] ->
  (zero <=? count)%num = true ->
  let purged := dropExpired (now - _historyIntervalMs w)%num (_history w) in
  if (count <=? fst (_getConsumableTokens now s))%num then
    exists s' w',
      consumeTokens fuel now count s = Ok (true, s')
      /\ _tokenContent s'
         = (_tokenContent (_restoreContinuousTokens now s) - count)%num
      /\ window s' = Some w'
      /\ _history w' = Tree.insert now count purged
      /\ _historyIntervalMs w' = _historyIntervalMs w
      /\ _maxHistoryTokens w' = _maxHistoryTokens w
      /\ _cleanUpHandle w' = Some (_historyIntervalMs w + of_Z 100)%num
  else
    consumeTokens fuel now count s
    = Ok (false,
          _restoreContinuousTokens now (set_window (Some (set_history purged w)) s)).
Proof.
  intros Ew El H0 purged.
  pose proof (le_zero_not_lt _ H0) as H0'.
  unfold consumeTokens. rewrite H0'.
  unfold _getConsumableTokens. rewrite Ew.
  unfold _countAndCleanupHistoricTokens, TokenBucket_getConsumableTokens.
  cbn [fst snd].
  change (_cleanupHistoricTokens now w) with (set_history purged w).
  set (w1 := set_history purged w).
  set (s1 := _restoreContinuousTokens now (set_window (Some w1) s)).
  destruct (count <=? _)%num eqn:Hle; [|reflexivity].
  unfold _onTokensConsumed. cbn [window set_tokenContent].
  assert (E1 : window s1 = Some w1)
    by (subst s1; rewrite restore_frame; reflexivity).
  rewrite E1.
  assert (El1 : _tokenListeners s1 = [])
    by (subst s1; rewrite restore_frame; exact El).
  rewrite schedule_idle by exact El1. cbn [of_option bind].
  set (w2 := _scheduleCleanUpCall _) in *.
  exists (set_checkListenersHandle None
            (set_window (Some w2)
               (set_tokenContent (_tokenContent s1 - count)%num s1))), w2.
  split; [reflexivity|].
  split.
  { cbn [_tokenContent set_checkListenersHandle set_window set_tokenContent].
    f_equal. subst s1. rewrite !restore_content. reflexivity. }
  split; [reflexivity|].
  subst w2. unfold _scheduleCleanUpCall.
  cbn [_history set_history set_cleanUpHandle].
  rewrite insert_length. repeat split.
Qed.

Lemma X11_witness :
  window budget_bucket = Some budget_window
  /\ _tokenListeners budget_bucket = []
  /\ (zero <=? of_Z 2)%num = true
  /\ if (of_Z 2 <=? fst (_getConsumableTokens zero budget_bucket))%num then
       exists s' w',
         consumeTokens 0 zero (of_Z 2) budget_bucket = Ok (true, s')
         /\ _tokenContent s'
            = (_tokenContent (_restoreContinuousTokens zero budget_bucket)
               - of_Z 2)%num
         /\ window s' = Some w'
         /\ _history w'
            = Tree.insert zero (of_Z 2)
                (dropExpired (zero - _historyIntervalMs budget_window)%num
                   (_history budget_window))
         /\ _historyIntervalMs w' = _historyIntervalMs budget_window
         /\ _maxHistoryTokens w' = _maxHistoryTokens budget_window
         /\ _cleanUpHandle w'
            = Some (_historyIntervalMs budget_window + of_Z 100)%num
     else
       consumeTokens 0 zero (of_Z 2) budget_bucket
       = Ok (false,
             _restoreContinuousTokens zero
               (set_window
                  (Some (set_history
                           (dropExpired (zero - _historyIntervalMs budget_window)%num
                              (_history budget_window))
                           budget_window))
                  budget_bucket)).
Proof.
  split; [reflexivity|]. split; [reflexivity|]. split; [reflexivity|].
  exact (@X11_consumption_is_recorded_in_the_window 0 zero (of_Z 2)
           budget_bucket budget_window eq_refl eq_refl eq_refl).
Defined.

(** *** A demand above the budget of the window *)

Lemma calls_within_refl (M : num) (s : Bucket) : calls_within M s s.
Proof.
  exists []. split; [reflexivity|]. split; [|constructor].
  cbn. rewrite app_nil_r. reflexivity.
Qed.

Lemma calls_within_trans (M : num) (s1 s2 s3 : Bucket) :
  calls_within M s1 s2 -> calls_within M s2 s3 -> calls_within M s1 s3.
Proof.
  intros (p1 & E1 & R1 & F1) (p2 & E2 & R2 & F2).
  exists (p1 ++ p2). split; [|split].
  - rewrite E1, E2, app_assoc. reflexivity.
  - rewrite R2, R1, map_app, app_assoc. reflexivity.
  - apply Forall_app. split; assumption.
Qed.

Lemma calls_within_same (M : num) (s s' : Bucket) :
  same_waiters s s' -> calls_within M s s'.
Proof.
  intros (A1 & A2 & _). exists []. rewrite A1, A2. cbn. rewrite app_nil_r.
  repeat split. constructor.
Qed.

(** Under the rolling window nothing above the budget is consumable. *)
Lemma consumable_within_budget (now k : num) (s : Bucket) (w : Window) :
  window s = Some w -> ledger_ok (_history w) ->
  finite_nonneg (_maxHistoryTokens w) ->
  (k <=? fst (_getConsumableTokens now s))%num = true ->
  (k <=? _maxHistoryTokens w)%num = true.
Proof.
  intros Ew L (m & Em & Hm). unfold _getConsumableTokens. rewrite Ew.
  pose proof (@spent_total now w L) as Es.
  destruct (_countAndCleanupHistoricTokens now w) as [spent w1] eqn:Ec.
  cbn [fst] in Es. unfold TokenBucket_getConsumableTokens. cbn [fst].
  assert (EM : _maxHistoryTokens w1 = Fin m).
  { unfold _countAndCleanupHistoricTokens in Ec. injection Ec as _ <-. exact Em. }
  intro H. apply le_min_l in H. rewrite EM, Es in H. rewrite Em.
  pose proof (total_nonneg (proj2 (ledger_ok_dropExpired
                (now - _historyIntervalMs w)%num L))) as T0.
  generalize dependent (ledger_total
    (dropExpired (now - _historyIntervalMs w)%num (_history w))).
  intros T _ H T0.
  destruct k as [x| | |]; cbn in H |- *; try discriminate; try reflexivity.
  qc_lra.
Qed.

Lemma window_kept (now : num) (s s' : Bucket) (w : Window) :
  window_purges now s s' -> window s = Some w -> ledger_ok (_history w) ->
  exists w',
    window s' = Some w' /\ ledger_ok (_history w')
    /\ _maxHistoryTokens w' = _maxHistoryTokens w.
Proof.
  unfold window_purges. intros P Ew L. rewrite Ew in P.
  destruct (window s') as [w'|]; [|contradiction].
  destruct P as (_ & EM & [EH|EH]); exists w'; rewrite EH;
    (split; [reflexivity|]); (split; [|exact EM]);
    [exact L|exact (ledger_ok_dropExpired _ L)].
Qed.

Lemma check_within_budget (fuel : nat) (now : num) (M : num) :
  forall s s' w,
    window s = Some w -> ledger_ok (_history w) ->
    _maxHistoryTokens w = M -> finite_nonneg M ->
    _checkListeners fuel now s = Some s' -> calls_within M s s'.
Proof.
  induction fuel as [|fuel IH]; intros s s' w Ew L EM HM; [discriminate|].
  cbn [_checkListeners].
  set (s2 := if (0 <? Tree.length (_tokenListeners s))%nat then _ else s).
  assert (R2 : calls_within M s s2 /\ window_purges now s s2).
  { subst s2. destruct (0 <? _)%nat;
      [|split; [apply calls_within_refl|apply window_purges_refl]].
    pose proof (same_waiters_consumable now s) as X.
    pose proof (window_purges_consumable now s) as P.
    assert (B : forall k, (k <=? fst (_getConsumableTokens now s))%num = true ->
                          (k <=? M)%num = true).
    { intros k Hk. rewrite <- EM.
      apply (@consumable_within_budget now k s w Ew L); [rewrite EM; exact HM|exact Hk]. }
    destruct (_getConsumableTokens now s) as [c s1]. cbn [fst snd] in *.
    destruct (resolveListeners_split c (_tokenListeners s1)) as (pre & E & Ec & F).
    destruct (resolveListeners c (_tokenListeners s1)) as [called remaining].
    cbn [fst snd] in *. split.
    - apply (@calls_within_trans M _ s1 _); [exact (calls_within_same M X)|].
      exists pre. cbn. rewrite Ec. repeat split; [exact E|].
      revert F. apply Forall_impl. intros e He. exact (B _ He).
    - apply (@window_purges_trans now _ s1 _); [exact P|].
      apply window_purges_frame. reflexivity. }
  clearbody s2. destruct R2 as [R2 P2]. unfold _scheduleCheckListeners_with.
  set (s3 := set_checkListenersHandle None s2).
  assert (R3 : calls_within M s s3).
  { apply (@calls_within_trans M _ s2 _); [exact R2|].
    apply calls_within_same. repeat split. }
  assert (P3 : window_purges now s s3).
  { apply (@window_purges_trans now _ s2 _); [exact P2|].
    apply window_purges_frame. reflexivity. }
  clearbody s3. destruct (0 <? _)%nat.
  - pose proof (same_waiters_waitTime now s3) as X.
    pose proof (window_purges_waitTime now s3) as P.
    destruct (_getWaitTimeForRecheck now s3) as [waitTime s4]. cbn [snd] in X, P.
    pose proof (@calls_within_trans M _ _ _ R3 (calls_within_same M X)) as R4.
    pose proof (@window_purges_trans now _ _ _ P3 P) as P4.
    destruct (isFinite waitTime).
    + destruct (waitTime <=? zero)%num.
      * intro H.
        destruct (@window_kept now s s4 w P4 Ew L) as (w4 & E4 & L4 & M4).
        apply (@calls_within_trans M _ s4 _); [exact R4|].
        apply (IH s4 s' w4 E4 L4); [congruence|exact HM|exact H].
      * intro H. injection H as <-.
        apply (@calls_within_trans M _ s4 _); [exact R4|].
        apply calls_within_same. repeat split.
    + intro H. injection H as <-. exact R4.
  - intro H. injection H as <-. exact R3.
Qed.

(** X12. On a rolling-window bucket a check pass calls only waiters whose
    demand is at most [maxHistoryTokens]. A waiter registered for more --
    [onceTokensAvailable] accepts it as long as it does not exceed
    [maxTokens] -- is still pending after every check pass, however many
    tokens the bucket holds. *)
Theorem X12_waiter_above_the_window_budget_is_never_called
    (fuel : nat) (now : num) (s s' : Bucket) (w : Window) (k : num) (v : nat) :
  window s = Some w -> ledger_ok (_history w) ->
  finite_nonneg (_maxHistoryTokens w) ->
  In (k, v) (_tokenListeners s) ->
  (k >? _maxHistoryTokens w)%num = true ->
  _checkListeners fuel now s = Some s' ->
  In (k, v) (_tokenListeners s')
  /\ exists pre,
       _tokenListeners s = pre ++ _tokenListeners s'
       /\ resolved s' = resolved s ++ map snd pre
       /\ Forall (fun e => (fst e <=? _maxHistoryTokens w)%num = true) pre.
Proof.
  intros Ew L HM Hin Hk E.
  destruct (@check_within_budget fuel now _ s s' w Ew L eq_refl HM E)
    as (pre & Ep & Er & F).
  split; [|exists pre; auto].
  rewrite Ep in Hin. apply in_app_or in Hin. destruct Hin as [Hin|Hin];
    [|exact Hin].
  pose proof (proj1 (Forall_forall _ _) F _ Hin) as X. cbn in X.
  unfold Num.gt in Hk. rewrite (lt_not_le _ _ Hk) in X. discriminate.
Qed.

Lemma X12_witness :
  exists s',
    window starved_bucket = Some budget_window
    /\ ledger_ok (_history budget_window)
    /\ finite_nonneg (_maxHistoryTokens budget_window)
    /\ In (of_Z 5, 0%nat) (_tokenListeners starved_bucket)
    /\ (of_Z 5 >? _maxHistoryTokens budget_window)%num = true
    /\ _checkListeners 2 (of_Z 7) starved_bucket = Some s'
    /\ In (of_Z 5, 0%nat) (_tokenListeners s')
    /\ exists pre,
         _tokenListeners starved_bucket = pre ++ _tokenListeners s'
         /\ resolved s' = resolved starved_bucket ++ map snd pre
         /\ Forall (fun e => (fst e <=? _maxHistoryTokens budget_window)%num = true)
              pre.
Proof.
  assert (E : exists s', _checkListeners 2 (of_Z 7) starved_bucket = Some s')
    by (eexists; vm_compute; reflexivity).
  destruct E as (s' & E). exists s'.
  assert (L : ledger_ok (_history budget_window)) by (split; constructor).
  assert (HM : finite_nonneg (_maxHistoryTokens budget_window))
    by (apply of_Z_nonneg; lia).
  assert (Hin : In (of_Z 5, 0%nat) (_tokenListeners starved_bucket))
    by (left; reflexivity).
  split; [reflexivity|]. split; [exact L|]. split; [exact HM|].
  split; [exact Hin|]. split; [reflexivity|]. split; [exact E|].
  exact (@X12_waiter_above_the_window_budget_is_never_called 2 (of_Z 7)
           starved_bucket s' budget_window (of_Z 5) 0%nat eq_refl L HM Hin
           eq_refl E).
Defined.

End WindowBudget.

(** ** The queue of the limiter: no request is lost or settled twice *)

Section Requests.

(** *** The entry of a priority *)

Lemma get_split (k : num) (t : Tree.tree (list Awaiter)) (q : list Awaiter) :
  Tree.get k t = Some q ->
  exists t1 k' t2,
    t = t1 ++ (k', q) :: t2
    /\ (forall v, Tree.replace k v t = t1 ++ (k', v) :: t2)
    /\ Tree.remove k t = t1 ++ t2.
Proof.
  induction t as [|[k1 v1] t IH]; cbn; [discriminate|].
  destruct (Tree.same_key k k1) eqn:E.
  - intro H. injection H as ->. exists [], k1, t. repeat split.
  - intro H. destruct (IH H) as (t1 & k' & t2 & -> & Hr & Hd).
    exists ((k1, v1) :: t1), k', t2. split; [reflexivity|]. split.
    + intro v. cbn. rewrite Hr. reflexivity.
    + cbn. rewrite Hd. reflexivity.
Qed.

Lemma get_insert (k : num) (v : list Awaiter) (t : Tree.tree (list Awaiter)) :
  isNaN k = false ->
  Forall (fun e => isNaN (fst e) = false) t ->
  Tree.get k t = None ->
  Tree.get k (Tree.insert k v t) = Some v
  /\ Tree.remove k (Tree.insert k v t) = t.
Proof.
  intros Hk F. induction F as [|[k1 v1] t Hk1 F IH]; cbn.
  - intros _. rewrite same_key_refl. split; reflexivity.
  - destruct (Tree.same_key k k1) eqn:E; [discriminate|]. intro G.
    destruct (k >? k1)%num eqn:Hg; cbn.
    + rewrite E. destruct (IH G) as [A B]. rewrite A, B. split; reflexivity.
    + rewrite same_key_refl. split; reflexivity.
Qed.

Lemma removeOne_split (predicate : Awaiter -> bool) (q q' : list Awaiter) :
  removeOne predicate q = Some q' ->
  exists q1 a q2,
    q = q1 ++ a :: q2 /\ q' = q1 ++ q2 /\ predicate a = true
    /\ Forall (fun x => predicate x = false) q1.
Proof.
  revert q'. induction q as [|a q IH]; cbn; intros q'; [discriminate|].
  destruct (predicate a) eqn:E.
  - intro H. injection H as <-. exists [], a, q. repeat split; [exact E|constructor].
  - destruct (removeOne predicate q) as [q0|]; cbn; [|discriminate].
    intro H. injection H as <-.
    destruct (IH q0 eq_refl) as (q1 & b & q2 & -> & -> & Hb & F).
    exists (a :: q1), b, q2. repeat split; [exact Hb|].
    constructor; assumption.
Qed.

Lemma removeOne_None (predicate : Awaiter -> bool) (q : list Awaiter) :
  removeOne predicate q = None -> Forall (fun x => predicate x = false) q.
Proof.
  induction q as [|a q IH]; cbn; [constructor|].
  destruct (predicate a) eqn:E; [discriminate|].
  destruct (removeOne predicate q); cbn; [discriminate|].
  intros _. constructor; [exact E|exact (IH eq_refl)].
Qed.

(** *** The identities in the queue *)

Lemma ids_of_app (t1 t2 : Tree.tree (list Awaiter)) :
  ids_of (t1 ++ t2) = ids_of t1 ++ ids_of t2.
Proof. apply flat_map_app. Qed.

Lemma ids_of_cons (k : num) (q : list Awaiter) (t : Tree.tree (list Awaiter)) :
  ids_of ((k, q) :: t) = map a_id q ++ ids_of t.
Proof. reflexivity. Qed.

Lemma addAwaiter_ids (priority : num) (a : Awaiter) (L : Limiter) :
  Permutation (a_id a :: pending_ids L)
    (pending_ids (_addAwaiter priority a L)).
Proof.
  unfold pending_ids, _addAwaiter.
  destruct (Tree.get priority (_awaiters L)) as [q|] eqn:G.
  - destruct (get_split _ _ G) as (t1 & k' & t2 & E & Hr & _).
    cbn [_awaiters set_awaiters]. rewrite Hr, E, !ids_of_app, !ids_of_cons.
    rewrite map_app. cbn [map]. rewrite <- !app_assoc. cbn [app].
    apply Permutation_trans
      with (l' := ids_of t1 ++ a_id a :: map a_id q ++ ids_of t2);
      [apply Permutation_middle|].
    apply Permutation_app_head. apply Permutation_middle.
  - cbn [_awaiters set_awaiters].
    apply (Permutation_flat_map (fun e => map a_id (snd e))
             (insert_perm priority [a] (_awaiters L))).
Qed.

Lemma removeFirst_frame (priority : num) (predicate : Awaiter -> bool)
    (L : Limiter) :
  outcomes (snd (_removeFirstAwaiter priority predicate L)) = outcomes L
  /\ nextAwaiter (snd (_removeFirstAwaiter priority predicate L)) = nextAwaiter L
  /\ _lastConsumed (snd (_removeFirstAwaiter priority predicate L))
     = _lastConsumed L
  /\ _minStaggerTime (snd (_removeFirstAwaiter priority predicate L))
     = _minStaggerTime L
  /\ _tokenBucket (snd (_removeFirstAwaiter priority predicate L))
     = _tokenBucket L.
Proof.
  unfold _removeFirstAwaiter.
  destruct (Tree.get priority (_awaiters L)); [|repeat split].
  destruct (removeOne predicate l); destruct (_ <=? 0)%nat; repeat split.
Qed.

(** What [_removeFirstAwaiter] does to the queue: it takes out the first
    awaiter of the group that satisfies the predicate, or leaves the queue
    as it is. *)
Lemma removeFirst_ids (n : nat) (priority : num)
    (predicate : Awaiter -> bool) (L : Limiter) :
  tree_ok n (_awaiters L) ->
  if fst (_removeFirstAwaiter priority predicate L) then
    exists a,
      predicate a = true
      /\ Permutation (pending_ids L)
           (a_id a :: pending_ids (snd (_removeFirstAwaiter priority predicate L)))
  else _awaiters (snd (_removeFirstAwaiter priority predicate L)) = _awaiters L.
Proof.
  intros [Hs Hg]. unfold _removeFirstAwaiter, pending_ids.
  destruct (Tree.get priority (_awaiters L)) as [q|] eqn:G; [|reflexivity].
  destruct (get_split _ _ G) as (t1 & k' & t2 & E & Hr & Hd).
  assert (Hq : q <> []).
  { rewrite E in Hg. apply Forall_app in Hg. destruct Hg as [_ Hg].
    inversion Hg as [|? ? (_ & G2 & _) _]; subst. exact G2. }
  destruct (removeOne predicate q) as [q0|] eqn:Er.
  - destruct (removeOne_split _ _ Er) as (q1 & a & q2 & -> & -> & Ha & _).
    assert (X : forall t',
              ids_of t' = ids_of t1 ++ map a_id (q1 ++ q2) ++ ids_of t2 ->
              Permutation (ids_of (_awaiters L)) (a_id a :: ids_of t')).
    { intros t' Et. rewrite Et, E, ids_of_app, ids_of_cons, !map_app.
      cbn [map]. rewrite <- !app_assoc. cbn [app].
      apply Permutation_sym.
      apply Permutation_trans
        with (l' := ids_of t1 ++ a_id a :: map a_id q1 ++ map a_id q2 ++ ids_of t2);
        [apply Permutation_middle|].
      apply Permutation_app_head. apply Permutation_middle. }
    destruct (List.length (q1 ++ q2) <=? 0)%nat eqn:Len;
      cbn [fst snd _awaiters set_awaiters]; exists a; (split; [exact Ha|]);
      apply X.
    + rewrite Hd, ids_of_app.
      destruct (q1 ++ q2); [reflexivity|discriminate].
    + rewrite Hr, ids_of_app, ids_of_cons. reflexivity.
  - destruct (List.length q <=? 0)%nat eqn:Len; cbn [fst snd _awaiters set_awaiters].
    + destruct q; [contradiction|discriminate].
    + rewrite Hr, E. reflexivity.
Qed.

Lemma settle_fresh (id : nat) (o : outcome) (L : Limiter) :
  ~ In id (settled_ids L) ->
  settle_awaiter id o L = set_outcomes (outcomes L ++ [(id, o)]) L.
Proof.
  intro H. unfold settle_awaiter.
  destruct (existsb _ (outcomes L)) eqn:E; [|reflexivity].
  exfalso. apply H. apply existsb_exists in E. destruct E as (x & Hx & Ex).
  apply Nat.eqb_eq in Ex. subst id. exact (in_map fst _ _ Hx).
Qed.

Lemma accounted_NoDup (L : Limiter) :
  accounted L -> NoDup (pending_ids L ++ settled_ids L).
Proof.
  intro P. apply (Permutation_NoDup (Permutation_sym P)). apply seq_NoDup.
Qed.

Lemma pending_not_settled (L : Limiter) (id : nat) :
  accounted L -> In id (pending_ids L) -> ~ In id (settled_ids L).
Proof.
  intros P Hp Hs.
  exact (NoDup_app_not_both _ _ _ (accounted_NoDup P) Hp Hs).
Qed.

(** *** The invariant, operation by operation *)

Lemma addAwaiter_frame (priority : num) (a : Awaiter) (L : Limiter) :
  outcomes (_addAwaiter priority a L) = outcomes L
  /\ nextAwaiter (_addAwaiter priority a L) = nextAwaiter L.
Proof.
  unfold _addAwaiter. destruct (Tree.get priority (_awaiters L)); split; reflexivity.
Qed.

Lemma submit_accounted (tokenCount priority : num) (L : Limiter) :
  accounted L -> accounted (snd (submit tokenCount priority L)).
Proof.
  unfold accounted, submit. cbn [snd a_id]. intro P.
  set (a := mkAwaiter (nextAwaiter L) tokenCount).
  set (L1 := set_nextAwaiter (S (nextAwaiter L)) L).
  destruct (addAwaiter_frame priority a L1) as [Eo En].
  unfold settled_ids. rewrite Eo, En. cbn [outcomes nextAwaiter L1 set_nextAwaiter].
  rewrite seq_S. cbn [plus].
  apply Permutation_trans
    with (l' := (nextAwaiter L :: pending_ids L) ++ map fst (outcomes L)).
  - apply Permutation_app_tail. apply Permutation_sym.
    exact (addAwaiter_ids priority a L1).
  - cbn [app]. apply Permutation_trans
      with (l' := (pending_ids L ++ map fst (outcomes L)) ++ [nextAwaiter L]).
    + apply Permutation_cons_append.
    + apply Permutation_app_tail. exact P.
Qed.

Lemma settle_pending_accounted (id : nat) (o : outcome) (L L1 : Limiter) :
  accounted L ->
  Permutation (pending_ids L) (id :: pending_ids L1) ->
  outcomes L1 = outcomes L -> nextAwaiter L1 = nextAwaiter L ->
  accounted (settle_awaiter id o L1).
Proof.
  intros P Hp Eo En.
  assert (Hin : In id (pending_ids L)).
  { apply (Permutation_in _ (Permutation_sym Hp)). left. reflexivity. }
  pose proof (@pending_not_settled L id P Hin) as Hs.
  assert (Hs1 : ~ In id (settled_ids L1)) by (unfold settled_ids; rewrite Eo; exact Hs).
  rewrite (@settle_fresh id o L1 Hs1). unfold accounted, pending_ids, settled_ids in *.
  cbn [_awaiters outcomes nextAwaiter set_outcomes].
  rewrite Eo, En, map_app. cbn [map fst].
  apply Permutation_trans
    with (l' := (id :: ids_of (_awaiters L1)) ++ map fst (outcomes L));
    [|exact (Permutation_trans (Permutation_app_tail _ (Permutation_sym Hp)) P)].
  cbn [app]. rewrite app_assoc. apply Permutation_sym.
  apply Permutation_cons_append.
Qed.

Lemma cancel_accounted (id : nat) (priority : num) (L : Limiter) :
  queue_ok L -> accounted L ->
  accounted (snd (cancelAwaiter id priority L)).
Proof.
  intros Q P. unfold cancelAwaiter.
  pose proof (@removeFirst_ids (nextAwaiter L) priority
                (fun a => Nat.eqb (a_id a) id) L Q) as R.
  destruct (removeFirst_frame priority (fun a => Nat.eqb (a_id a) id) L)
    as (Eo & En & _).
  destruct (_removeFirstAwaiter priority _ L) as [success L1].
  cbn [fst snd] in *. destruct success; cbn [snd].
  - destruct R as (a & Ha & Hp). apply Nat.eqb_eq in Ha. subst id.
    exact (@settle_pending_accounted _ _ L L1 P Hp Eo En).
  - unfold accounted, pending_ids, settled_ids in *. rewrite R, Eo, En. exact P.
Qed.

Lemma serve_accounted (now priority : num) (a : Awaiter) (L : Limiter) :
  queue_ok L -> accounted L -> peekAwaiter L = Some (priority, a) ->
  accounted (serve now priority a L).
Proof.
  intros Q P Hpeek.
  destruct (peek_shape Q) as [E|(t' & p & x & rest & E & Hp & F & _)].
  { unfold peekAwaiter in Hpeek. rewrite E in Hpeek. discriminate. }
  rewrite Hp in Hpeek. injection Hpeek as -> ->.
  pose proof (@serve_shape now L t' priority a rest E F) as Es.
  unfold serve in *.
  destruct (removeFirst_frame priority (fun x => Nat.eqb (a_id x) (a_id a)) L)
    as (Eo & En & _).
  destruct (_removeFirstAwaiter priority _ L) as [success L1].
  cbn [snd] in *.
  assert (Ea1 : _awaiters L1
                = t' ++ match rest with [] => [] | _ :: _ => [(priority, rest)] end).
  { rewrite (proj1 (awaiters_settle _ _ _)) in Es. exact Es. }
  apply (@settle_pending_accounted (a_id a) Resolved L (set_lastConsumed now L1) P);
    [|exact Eo|exact En].
  unfold pending_ids. cbn [_awaiters set_lastConsumed].
  rewrite E, Ea1, !ids_of_app.
  destruct rest as [|b rest']; cbn [ids_of flat_map map snd app];
    rewrite ?app_nil_r; apply Permutation_sym;
    [apply Permutation_cons_append
    |apply (Permutation_middle (ids_of t') (a_id b :: map a_id rest') (a_id a))].
Qed.

(** [_rejectAllAwaiters] rejects the requests of the queue, group by group
    and in each group from the front. *)
Lemma forEach_flat (e : error) (t : Tree.tree (list Awaiter)) (L : Limiter) :
  Tree.forEach
    (fun acc _priority queue =>
       fold_left (fun acc' a => settle_awaiter (a_id a) (Rejected e) acc')
         queue acc) t L
  = fold_left (fun acc' a => settle_awaiter (a_id a) (Rejected e) acc')
      (flat_map snd t) L.
Proof.
  unfold Tree.forEach. revert L.
  induction t as [|[k q] t IH]; intro L; cbn; [reflexivity|].
  rewrite fold_left_app. apply IH.
Qed.

Lemma ids_of_flat (t : Tree.tree (list Awaiter)) :
  ids_of t = map a_id (flat_map snd t).
Proof.
  induction t as [|[k q] t IH]; cbn; [reflexivity|].
  rewrite map_app, <- IH. reflexivity.
Qed.

Lemma reject_list (e : error) (q : list Awaiter) :
  forall L,
    NoDup (map a_id q ++ settled_ids L) ->
    let L' := fold_left (fun acc' a => settle_awaiter (a_id a) (Rejected e) acc')
                q L in
    outcomes L' = outcomes L ++ map (fun a => (a_id a, Rejected e)) q
    /\ _awaiters L' = _awaiters L /\ nextAwaiter L' = nextAwaiter L.
Proof.
  induction q as [|a q IH]; intros L N; cbn.
  - rewrite app_nil_r. repeat split.
  - cbn in N. inversion N as [|? ? Na Nq]; subst.
    assert (Hs : ~ In (a_id a) (settled_ids L)).
    { intro H. apply Na. apply in_or_app. right. exact H. }
    rewrite (@settle_fresh (a_id a) (Rejected e) L Hs).
    set (L1 := set_outcomes _ L).
    assert (N1 : NoDup (map a_id q ++ settled_ids L1)).
    { unfold settled_ids, L1. cbn [outcomes set_outcomes].
      rewrite map_app. cbn [map fst]. rewrite app_assoc.
      apply NoDup_snoc; [exact Nq|exact Na]. }
    destruct (IH L1 N1) as (A & B & C). cbv zeta in A, B, C.
    rewrite A, B, C. unfold L1. cbn [outcomes _awaiters nextAwaiter set_outcomes].
    rewrite <- app_assoc. repeat split.
Qed.

Lemma rejectAll_accounted (e : error) (L : Limiter) :
  accounted L -> accounted (_rejectAllAwaiters e L).
Proof.
  intro P. pose proof (accounted_NoDup P) as N.
  unfold _rejectAllAwaiters. rewrite forEach_flat.
  unfold pending_ids in N. rewrite ids_of_flat in N.
  destruct (@reject_list e (flat_map snd (_awaiters L)) (set_awaiters [] L) N)
    as (A & B & C).
  cbv zeta in A, B, C. unfold accounted, pending_ids, settled_ids in *.
  rewrite A, B, C. cbn [_awaiters outcomes nextAwaiter set_awaiters ids_of flat_map app].
  rewrite map_app, map_map. cbn [fst]. rewrite <- ids_of_flat.
  exact (Permutation_trans (Permutation_app_comm _ _) P).
Qed.

Lemma rejectAll_ok (e : error) (L : Limiter) :
  accounted L -> queue_ok (_rejectAllAwaiters e L).
Proof.
  intro P. pose proof (accounted_NoDup P) as N.
  unfold _rejectAllAwaiters. rewrite forEach_flat.
  unfold pending_ids in N. rewrite ids_of_flat in N.
  destruct (@reject_list e (flat_map snd (_awaiters L)) (set_awaiters [] L) N)
    as (_ & B & _).
  cbv zeta in B. unfold queue_ok. rewrite B. split; constructor.
Qed.

Lemma qstep_inv (L : Limiter) (o : qop) :
  queue_ok L /\ accounted L -> qop_ok o ->
  queue_ok (qstep L o) /\ accounted (qstep L o).
Proof.
  intros [Q P] Ho. destruct o as [o|e]; cbn [qstep qop_ok] in *.
  - split; [exact (@lstep_ok L o Q Ho)|].
    destruct o as [tc p|id p|now]; cbn [lstep].
    + exact (@submit_accounted tc p L P).
    + exact (@cancel_accounted id p L Q P).
    + destruct (peekAwaiter L) as [[p a]|] eqn:Hp; [|exact P].
      exact (@serve_accounted now p a L Q P Hp).
  - split; [exact (@rejectAll_ok e L P)|exact (@rejectAll_accounted e L P)].
Qed.

Lemma qrun_inv (ops : list qop) (L : Limiter) :
  queue_ok L /\ accounted L -> Forall qop_ok ops ->
  queue_ok (qrun ops L) /\ accounted (qrun ops L).
Proof.
  revert L. induction ops as [|o ops IH]; intros L J F; [exact J|].
  inversion F as [|? ? Fo Fr]; subst. cbn.
  exact (IH _ (@qstep_inv L o J Fo) Fr).
Qed.

(** X13. Along every history of a limiter -- requests at priorities that
    are numbers, cancel callbacks, services by the watcher, and a failing
    watcher that rejects the whole queue -- every request made so far is
    either still in the queue or has been settled, and never both or
    twice: the identities in the queue together with the identities
    settled are exactly the requests made. *)
Theorem X13_no_request_is_lost_or_settled_twice
    (tokenBucket : Bucket) (minStagger : option num) (ops : list qop) :
  Forall qop_ok ops ->
  let L := qrun ops (new_Limiter tokenBucket minStagger) in
  Permutation (pending_ids L ++ settled_ids L) (seq 0 (nextAwaiter L))
  /\ NoDup (pending_ids L ++ settled_ids L).
Proof.
  intros F L.
  assert (J0 : queue_ok (new_Limiter tokenBucket minStagger)
               /\ accounted (new_Limiter tokenBucket minStagger)).
  { split; [apply new_Limiter_ok|]. unfold accounted. cbn. constructor. }
  destruct (@qrun_inv ops _ J0 F) as [_ P].
  split; [exact P|exact (accounted_NoDup P)].
Qed.

Lemma example_fates_ok : Forall qop_ok example_fates.
Proof.
  unfold example_fates.
  repeat (apply Forall_cons || apply Forall_nil); cbn [qop_ok lop_ok];
    try exact I; reflexivity.
Qed.

Lemma X13_witness :
  Forall qop_ok example_fates
  /\ Permutation
       (pending_ids (qrun example_fates (new_Limiter example_bucket None))
        ++ settled_ids (qrun example_fates (new_Limiter example_bucket None)))
       (seq 0 (nextAwaiter (qrun example_fates (new_Limiter example_bucket None))))
  /\ NoDup
       (pending_ids (qrun example_fates (new_Limiter example_bucket None))
        ++ settled_ids (qrun example_fates (new_Limiter example_bucket None))).
Proof.
  split; [exact example_fates_ok|].
  exact (@X13_no_request_is_lost_or_settled_twice example_bucket None
           example_fates example_fates_ok).
Defined.

(** *** The cancel callback of a request *)

Lemma replace_same (k : num) (q : list Awaiter) (t : Tree.tree (list Awaiter)) :
  Tree.get k t = Some q -> Tree.replace k q t = t.
Proof.
  intro G. destruct (get_split _ _ G) as (t1 & k' & t2 & E & Hr & _).
  rewrite Hr. symmetry. exact E.
Qed.

Lemma get_replace (k : num) (v q : list Awaiter) (t : Tree.tree (list Awaiter)) :
  Tree.get k t = Some q ->
  Tree.get k (Tree.replace k v t) = Some v
  /\ forall v', Tree.replace k v' (Tree.replace k v t) = Tree.replace k v' t.
Proof.
  induction t as [|[k1 v1] t IH]; cbn; [discriminate|].
  destruct (Tree.same_key k k1) eqn:E; cbn; rewrite E.
  - intros _. split; reflexivity.
  - intro G. destruct (IH G) as [A B]. split; [exact A|].
    intro v'. rewrite B. reflexivity.
Qed.

Lemma set_awaiters_same (L : Limiter) : set_awaiters (_awaiters L) L = L.
Proof. destruct L. reflexivity. Qed.

(** X14. The cancel callback of a request that is not in the queue -- it
    was served, cancelled or rejected before -- returns without doing
    anything: the queue, the outcomes and every other field of the limiter
    are what they were, nobody is rejected. *)
Theorem X14_cancel_of_a_settled_request_does_nothing
    (id : nat) (priority : num) (L : Limiter) :
  queue_ok L -> ~ In id (pending_ids L) ->
  cancelAwaiter id priority L = (false, L).
Proof.
  intros [Hs Hg] Hnot. unfold cancelAwaiter, _removeFirstAwaiter.
  destruct (Tree.get priority (_awaiters L)) as [q|] eqn:G; [|reflexivity].
  destruct (get_split _ _ G) as (t1 & k' & t2 & E & Hr & Hd).
  destruct (removeOne _ q) as [q0|] eqn:Er.
  - exfalso. destruct (removeOne_split _ _ Er) as (q1 & a & q2 & -> & _ & Ha & _).
    apply Nat.eqb_eq in Ha. apply Hnot. unfold pending_ids.
    rewrite E, ids_of_app, ids_of_cons, map_app. cbn [map].
    apply in_or_app. right. apply in_or_app. left.
    apply in_or_app. right. left. exact Ha.
  - assert (Hq : q <> []).
    { rewrite E in Hg. apply Forall_app in Hg. destruct Hg as [_ Hg].
      inversion Hg as [|? ? (_ & G2 & _) _]; subst. exact G2. }
    destruct (List.length q <=? 0)%nat eqn:Len.
    + destruct q; [contradiction|discriminate].
    + rewrite (replace_same _ _ G), set_awaiters_same. reflexivity.
Qed.

Lemma X14_witness :
  queue_ok (lrun example_requests (new_Limiter example_bucket None))
  /\ ~ In 0%nat (pending_ids (lrun example_requests (new_Limiter example_bucket None)))
  /\ cancelAwaiter 0 (of_Z 1) (lrun example_requests (new_Limiter example_bucket None))
     = (false, lrun example_requests (new_Limiter example_bucket None)).
Proof.
  assert (Q : queue_ok (lrun example_requests (new_Limiter example_bucket None)))
    by (apply lrun_ok; [apply new_Limiter_ok|exact example_requests_ok]).
  assert (H : ~ In 0%nat
                (pending_ids (lrun example_requests (new_Limiter example_bucket None)))).
  { vm_compute. intro H.
    repeat (destruct H as [H|H]; [discriminate|]). exact H. }
  split; [exact Q|]. split; [exact H|].
  exact (@X14_cancel_of_a_settled_request_does_nothing 0 (of_Z 1) _ Q H).
Defined.

Lemma removeOne_last (n : nat) (q : list Awaiter) (a : Awaiter) :
  Forall (fun x => (a_id x < n)%nat) q -> a_id a = n ->
  removeOne (fun x => Nat.eqb (a_id x) n) (q ++ [a]) = Some q.
Proof.
  intros F Ha. induction F as [|x q Hx F IH]; cbn.
  - rewrite Ha, Nat.eqb_refl. reflexivity.
  - destruct (Nat.eqb (a_id x) n) eqn:E.
    + apply Nat.eqb_eq in E. lia.
    + rewrite IH. reflexivity.
Qed.

(** X15. A request is made and its cancel callback is called before the
    watcher has served it. The callback finds the request, the queue is
    again exactly what it was before the request, and the promise of the
    request is rejected with [CanceledError]. *)
Theorem X15_request_then_cancel_restores_the_queue
    (tokenCount priority : num) (L : Limiter) :
  queue_ok L -> isNaN priority = false ->
  ~ In (nextAwaiter L) (settled_ids L) ->
  let id := fst (submit tokenCount priority L) in
  let L1 := snd (submit tokenCount priority L) in
  id = nextAwaiter L
  /\ In id (pending_ids L1)
  /\ fst (cancelAwaiter id priority L1) = true
  /\ _awaiters (snd (cancelAwaiter id priority L1)) = _awaiters L
  /\ outcomes (snd (cancelAwaiter id priority L1))
     = outcomes L ++ [(id, Rejected CanceledError)].
Proof.
  intros Q Hp Hfresh id L1.
  assert (Eid : id = nextAwaiter L) by reflexivity.
  split; [exact Eid|].
  set (a := mkAwaiter (nextAwaiter L) tokenCount).
  set (L0 := set_nextAwaiter (S (nextAwaiter L)) L).
  assert (EL1 : L1 = _addAwaiter priority a L0) by reflexivity.
  split.
  { apply (Permutation_in _ (addAwaiter_ids priority a L0)). left. exact Eid. }
  destruct Q as [Hs Hg].
  assert (X : exists t,
            _awaiters L1 = t
            /\ Tree.get priority t
               = Some (match Tree.get priority (_awaiters L) with
                       | Some q => q ++ [a] | None => [a] end)
            /\ match Tree.get priority (_awaiters L) with
               | Some q => Tree.replace priority q t
               | None => Tree.remove priority t
               end = _awaiters L).
  { rewrite EL1. unfold _addAwaiter. cbn [_awaiters L0 set_nextAwaiter].
    destruct (Tree.get priority (_awaiters L)) as [q|] eqn:G;
      cbn [_awaiters set_awaiters]; eexists; (split; [reflexivity|]).
    - destruct (@get_replace priority (q ++ [a]) q _ G) as [A B].
      split; [exact A|]. rewrite B. exact (replace_same _ _ G).
    - exact (@get_insert priority [a] (_awaiters L) Hp
               (tree_ok_nonNaN (conj Hs Hg)) G). }
  destruct X as (t & Et & Gt & Back).
  unfold cancelAwaiter, _removeFirstAwaiter. rewrite Et, Gt.
  assert (Eo : outcomes L1 = outcomes L)
    by (rewrite EL1; exact (proj1 (addAwaiter_frame priority a L0))).
  destruct (Tree.get priority (_awaiters L)) as [q|] eqn:G.
  - assert (Fq : Forall (fun x => (a_id x < nextAwaiter L)%nat) q /\ q <> []).
    { destruct (get_split _ _ G) as (t1 & k' & t2 & E & _).
      rewrite E in Hg. apply Forall_app in Hg. destruct Hg as [_ Hg].
      inversion Hg as [|? ? (_ & G2 & _ & G4) _]; subst. split; assumption. }
    destruct Fq as [Fq Hq].
    rewrite Eid, (@removeOne_last (nextAwaiter L) q a Fq eq_refl).
    destruct (List.length q <=? 0)%nat eqn:Len.
    { destruct q; [contradiction|discriminate]. }
    cbn [fst snd]. rewrite Back.
    assert (Hf : ~ In (nextAwaiter L) (settled_ids (set_awaiters (_awaiters L) L1)))
      by (unfold settled_ids; cbn [outcomes set_awaiters]; rewrite Eo; exact Hfresh).
    rewrite (@settle_fresh _ (Rejected CanceledError) _ Hf).
    cbn [fst snd _awaiters outcomes set_outcomes set_awaiters]. rewrite Eo.
    repeat split.
  - rewrite Eid. cbn [removeOne a_id a]. rewrite Nat.eqb_refl.
    cbn [List.length Nat.leb fst snd]. rewrite Back.
    assert (Hf : ~ In (nextAwaiter L) (settled_ids (set_awaiters (_awaiters L) L1)))
      by (unfold settled_ids; cbn [outcomes set_awaiters]; rewrite Eo; exact Hfresh).
    rewrite (@settle_fresh _ (Rejected CanceledError) _ Hf).
    cbn [fst snd _awaiters outcomes set_outcomes set_awaiters]. rewrite Eo.
    repeat split.
Qed.

(** *** A watcher that fails *)

(** X16. [_rejectAllAwaiters(error)] on a limiter whose queued requests
    are distinct and unsettled empties the queue and rejects every queued
    request with [error], once each: group by group in ascending
    priority, and within a group in the order of the requests. *)
Theorem X16_rejectAllAwaiters_rejects_the_whole_queue
    (e : error) (L : Limiter) :
  NoDup (pending_ids L ++ settled_ids L) ->
  _awaiters (_rejectAllAwaiters e L) = []
  /\ outcomes (_rejectAllAwaiters e L)
     = outcomes L
       ++ map (fun a => (a_id a, Rejected e)) (flat_map snd (_awaiters L))
  /\ nextAwaiter (_rejectAllAwaiters e L) = nextAwaiter L.
Proof.
  intro N. unfold _rejectAllAwaiters. rewrite forEach_flat.
  unfold pending_ids in N. rewrite ids_of_flat in N.
  destruct (@reject_list e (flat_map snd (_awaiters L)) (set_awaiters [] L) N)
    as (A & B & C).
  cbv zeta in A, B, C. rewrite A, B, C. repeat split.
Qed.

Lemma X15_witness :
  queue_ok (new_Limiter example_bucket None)
  /\ isNaN (of_Z 5) = false
  /\ ~ In (nextAwaiter (new_Limiter example_bucket None))
         (settled_ids (new_Limiter example_bucket None))
  /\ fst (submit (of_Z 1) (of_Z 5) (new_Limiter example_bucket None))
     = nextAwaiter (new_Limiter example_bucket None)
  /\ In (fst (submit (of_Z 1) (of_Z 5) (new_Limiter example_bucket None)))
       (pending_ids (snd (submit (of_Z 1) (of_Z 5) (new_Limiter example_bucket None))))
  /\ fst (cancelAwaiter
            (fst (submit (of_Z 1) (of_Z 5) (new_Limiter example_bucket None)))
            (of_Z 5)
            (snd (submit (of_Z 1) (of_Z 5) (new_Limiter example_bucket None))))
     = true
  /\ _awaiters
       (snd (cancelAwaiter
               (fst (submit (of_Z 1) (of_Z 5) (new_Limiter example_bucket None)))
               (of_Z 5)
               (snd (submit (of_Z 1) (of_Z 5) (new_Limiter example_bucket None)))))
     = _awaiters (new_Limiter example_bucket None)
  /\ outcomes
       (snd (cancelAwaiter
               (fst (submit (of_Z 1) (of_Z 5) (new_Limiter example_bucket None)))
               (of_Z 5)
               (snd (submit (of_Z 1) (of_Z 5) (new_Limiter example_bucket None)))))
     = outcomes (new_Limiter example_bucket None)
       ++ [(fst (submit (of_Z 1) (of_Z 5) (new_Limiter example_bucket None)),
            Rejected CanceledError)].
Proof.
  assert (H : ~ In (nextAwaiter (new_Limiter example_bucket None))
                (settled_ids (new_Limiter example_bucket None)))
    by (intros []).
  split; [apply new_Limiter_ok|]. split; [reflexivity|]. split; [exact H|].
  exact (@X15_request_then_cancel_restores_the_queue (of_Z 1) (of_Z 5)
           (new_Limiter example_bucket None) (new_Limiter_ok _ _) eq_refl H).
Defined.

Lemma example_fates_accounted :
  accounted (qrun (firstn 7 example_fates) (new_Limiter example_bucket None)).
Proof.
  assert (J0 : queue_ok (new_Limiter example_bucket None)
               /\ accounted (new_Limiter example_bucket None)).
  { split; [apply new_Limiter_ok|]. unfold accounted. cbn. constructor. }
  exact (proj2 (@qrun_inv (firstn 7 example_fates) _ J0
                  (Forall_firstn 7 example_fates_ok))).
Qed.

Lemma X16_witness :
  NoDup (pending_ids (qrun (firstn 7 example_fates) (new_Limiter example_bucket None))
         ++ settled_ids (qrun (firstn 7 example_fates)
                           (new_Limiter example_bucket None)))
  /\ _awaiters (_rejectAllAwaiters TypeError
                  (qrun (firstn 7 example_fates) (new_Limiter example_bucket None)))
     = []
  /\ outcomes (_rejectAllAwaiters TypeError
                 (qrun (firstn 7 example_fates) (new_Limiter example_bucket None)))
     = outcomes (qrun (firstn 7 example_fates) (new_Limiter example_bucket None))
       ++ map (fun a => (a_id a, Rejected TypeError))
            (flat_map snd
               (_awaiters (qrun (firstn 7 example_fates)
                             (new_Limiter example_bucket None))))
  /\ nextAwaiter (_rejectAllAwaiters TypeError
                    (qrun (firstn 7 example_fates) (new_Limiter example_bucket None)))
     = nextAwaiter (qrun (firstn 7 example_fates) (new_Limiter example_bucket None)).
Proof.
  split; [exact (accounted_NoDup example_fates_accounted)|].
  exact (@X16_rejectAllAwaiters_rejects_the_whole_queue TypeError _
           (accounted_NoDup example_fates_accounted)).
Defined.

End Requests.
(* ================================================================== *)
(** ** The order of service, request by request *)

Section ServiceHistory.

























End ServiceHistory.

(* ================================================================== *)
(** ** The watcher step *)

Section WatcherStep.

Lemma settled_set_tokenBucket (b : Bucket) (L : Limiter) :
  settled_ids (set_tokenBucket b L) = settled_ids L.
Proof. reflexivity. Qed.

(** What [serve] does to a limiter whose watcher read [(priority, a)]. *)
Lemma serve_effect (now priority : num) (a : Awaiter) (L : Limiter) :
  queue_ok L -> peekAwaiter L = Some (priority, a) ->
  ~ In (a_id a) (settled_ids L) ->
  exists t' rest,
    _awaiters L = t' ++ [(priority, a :: rest)]
    /\ _awaiters (serve now priority a L)
       = t' ++ match rest with [] => [] | _ :: _ => [(priority, rest)] end
    /\ outcomes (serve now priority a L) = outcomes L ++ [(a_id a, Resolved)]
    /\ _lastConsumed (serve now priority a L) = now
    /\ _tokenBucket (serve now priority a L) = _tokenBucket L
    /\ nextAwaiter (serve now priority a L) = nextAwaiter L.
Proof.
  intros Q Hpeek Hs.
  destruct (peek_shape Q) as [E|(t' & p & x & rest & E & Hp & F & _)].
  { unfold peekAwaiter in Hpeek. rewrite E in Hpeek. discriminate. }
  rewrite Hp in Hpeek. injection Hpeek as -> ->.
  exists t', rest. split; [exact E|].
  split; [exact (@serve_shape now L t' priority a rest E F)|].
  unfold serve.
  destruct (removeFirst_frame priority (fun x => Nat.eqb (a_id x) (a_id a)) L)
    as (Eo & En & El & Em & Eb).
  destruct (_removeFirstAwaiter priority _ L) as [success L1].
  cbn [snd] in *.
  assert (Hs1 : ~ In (a_id a) (settled_ids (set_lastConsumed now L1))).
  { unfold settled_ids. cbn [outcomes set_lastConsumed]. rewrite Eo. exact Hs. }
  rewrite (@settle_fresh (a_id a) Resolved _ Hs1).
  cbn [outcomes set_outcomes set_lastConsumed _lastConsumed _tokenBucket
       nextAwaiter].
  rewrite Eo. repeat split; assumption.
Qed.

(** The call of [consumeTokensAsync] when the tokens are there: its
    promise is fulfilled before the watcher awaits the race. *)
Lemma consume_loop_served (fuel : nat) (now : num) (st : Step) (b : Bucket) :
  consumeTokens fuel now (tokenCount (st_awaiter st)) (st_bucket st)
  = Ok (true, b) ->
  consume_loop fuel now st = Some (settle_consume Fulfilled (set_st_bucket b st)).
Proof. intro E. unfold consume_loop. rewrite E. reflexivity. Qed.

Lemma begin_step_served (fuel : nat) (now priority : num) (a : Awaiter)
    (L : Limiter) (b : Bucket) :
  consumeTokens fuel now (tokenCount a) (_tokenBucket L) = Ok (true, b) ->
  begin_step fuel now priority a L
  = Some (mkStep (set_tokenBucket b L) priority a false None None Fulfilled
            false false Pending Pending AwaitingRace false
            [RaceConsume Fulfilled]).
Proof.
  intro E. unfold begin_step.
  rewrite (@consume_loop_served fuel now
             (mkStep L priority a false None None Pending false false Pending
                Pending Calling false []) b E).
  reflexivity.
Qed.

(** The microtasks of a step whose consumption is fulfilled: the race is
    decided for the consumption, the watcher resumes, serves the awaiter
    and is superseded by the watcher it creates. *)
Lemma drain_served (fuel : nat) (now priority : num) (a : Awaiter)
    (L : Limiter) :
  drain (3 + fuel) now
    (mkStep L priority a false None None Fulfilled false false Pending Pending
       AwaitingRace false [RaceConsume Fulfilled])
  = Some (mkStep (serve now priority a L) priority a false None None Fulfilled
            false true (Failed CanceledError) Fulfilled (Finished Fulfilled)
            true []).
Proof. destruct fuel; reflexivity. Qed.

(** X17. A watcher step for the request at the head of the queue, over a
    plain bucket that holds the tokens the request asks for, finishes
    within the job that starts it: the tokens are consumed, the request is
    taken off the front of its group (the group leaves the queue when it
    empties), [_lastConsumed] is stamped, the request is resolved and the
    watcher promise is fulfilled, with no microtask left behind. *)
Theorem X17_watcher_serves_the_head_when_tokens_are_there
    (fuel : nat) (now priority : num) (a : Awaiter) (L : Limiter) :
  wf (_tokenBucket L) -> clock_ok now (_tokenBucket L) ->
  queue_ok L -> peekAwaiter L = Some (priority, a) ->
  ~ In (a_id a) (settled_ids L) ->
  (zero <=? tokenCount a)%num = true ->
  (tokenCount a <=? fst (_getConsumableTokens now (_tokenBucket L)))%num = true ->
  exists st0 st t' rest,
    begin_step (S fuel) now priority a L = Some st0
    /\ drain (3 + fuel) now st0 = Some st
    /\ watcher st = Finished Fulfilled
    /\ microtasks st = []
    /\ fst (_getConsumableTokens now (st_bucket st))
       = (fst (_getConsumableTokens now (_tokenBucket L)) - tokenCount a)%num
    /\ _awaiters L = t' ++ [(priority, a :: rest)]
    /\ _awaiters (st_limiter st)
       = t' ++ match rest with [] => [] | _ :: _ => [(priority, rest)] end
    /\ outcomes (st_limiter st) = outcomes L ++ [(a_id a, Resolved)]
    /\ _lastConsumed (st_limiter st) = now.
Proof.
  intros W C Q Hpeek Hs H0 Hle.
  pose proof (@consume_outcome fuel now (tokenCount a) (_tokenBucket L) W C H0)
    as O.
  cbv zeta in O. rewrite Hle in O. destruct O as (b & Ec & Wb & Cb & Eb).
  assert (Q' : queue_ok (set_tokenBucket b L)) by exact Q.
  assert (P' : peekAwaiter (set_tokenBucket b L) = Some (priority, a))
    by exact Hpeek.
  assert (S' : ~ In (a_id a) (settled_ids (set_tokenBucket b L))) by exact Hs.
  destruct (@serve_effect now priority a _ Q' P' S')
    as (t' & rest & E & Ea & Eo & El & Et & _).
  cbn [_awaiters outcomes set_tokenBucket _tokenBucket] in E, Eo, Et.
  exists (mkStep (set_tokenBucket b L) priority a false None None Fulfilled
            false false Pending Pending AwaitingRace false
            [RaceConsume Fulfilled]).
  exists (mkStep (serve now priority a (set_tokenBucket b L)) priority a false
            None None Fulfilled false true (Failed CanceledError) Fulfilled
            (Finished Fulfilled) true []).
  exists t', rest.
  split; [exact (@begin_step_served (S fuel) now priority a L b Ec)|].
  split; [exact (@drain_served fuel now priority a (set_tokenBucket b L))|].
  split; [reflexivity|]. split; [reflexivity|].
  split; [unfold st_bucket; cbn [st_limiter]; rewrite Et; exact Eb|].
  split; [exact E|]. cbn [st_limiter].
  split; [exact Ea|]. split; [exact Eo|exact El].
Qed.

Lemma X17_witness :
  wf (_tokenBucket one_request) /\ clock_ok (of_Z 7) (_tokenBucket one_request)
  /\ queue_ok one_request
  /\ peekAwaiter one_request = Some (of_Z 0, mkAwaiter 0 (of_Z 2))
  /\ ~ In (a_id (mkAwaiter 0 (of_Z 2))) (settled_ids one_request)
  /\ (zero <=? tokenCount (mkAwaiter 0 (of_Z 2)))%num = true
  /\ (tokenCount (mkAwaiter 0 (of_Z 2))
      <=? fst (_getConsumableTokens (of_Z 7) (_tokenBucket one_request)))%num
     = true
  /\ exists st0 st t' rest,
       begin_step 1 (of_Z 7) (of_Z 0) (mkAwaiter 0 (of_Z 2)) one_request
       = Some st0
       /\ drain 3 (of_Z 7) st0 = Some st
       /\ watcher st = Finished Fulfilled
       /\ microtasks st = []
       /\ fst (_getConsumableTokens (of_Z 7) (st_bucket st))
          = (fst (_getConsumableTokens (of_Z 7) (_tokenBucket one_request))
             - tokenCount (mkAwaiter 0 (of_Z 2)))%num
       /\ _awaiters one_request
          = t' ++ [(of_Z 0, mkAwaiter 0 (of_Z 2) :: rest)]
       /\ _awaiters (st_limiter st)
          = t' ++ match rest with [] => [] | _ :: _ => [(of_Z 0, rest)] end
       /\ outcomes (st_limiter st)
          = outcomes one_request ++ [(a_id (mkAwaiter 0 (of_Z 2)), Resolved)]
       /\ _lastConsumed (st_limiter st) = of_Z 7.
Proof.
  assert (W : wf (_tokenBucket one_request)) by exact accruing_bucket_wf.
  assert (C : clock_ok (of_Z 7) (_tokenBucket one_request))
    by (apply clock_ok_at; [reflexivity|lia]).
  assert (Q : queue_ok one_request)
    by (apply submit_ok; [apply new_Limiter_ok|reflexivity]).
  assert (S : ~ In (a_id (mkAwaiter 0 (of_Z 2))) (settled_ids one_request))
    by (intros []).
  split; [exact W|]. split; [exact C|]. split; [exact Q|].
  split; [reflexivity|]. split; [exact S|]. split; [reflexivity|].
  split; [vm_compute; reflexivity|].
  exact (@X17_watcher_serves_the_head_when_tokens_are_there 0 (of_Z 7) (of_Z 0)
           (mkAwaiter 0 (of_Z 2)) one_request W C Q eq_refl S eq_refl eq_refl).
Defined.


(** *** A step that waits, and is cancelled *)

Lemma existsb_eqb_false (id : nat) (l : list nat) :
  ~ In id l -> existsb (Nat.eqb id) l = false.
Proof.
  intro H. destruct (existsb (Nat.eqb id) l) eqn:E; [|reflexivity].
  apply existsb_exists in E. destruct E as (x & Hx & Hxe).
  apply Nat.eqb_eq in Hxe. subst x. contradiction.
Qed.

Lemma existsb_eqb_last (id : nat) (l : list nat) :
  existsb (Nat.eqb id) (l ++ [id]) = true.
Proof.
  apply existsb_exists. exists id. split; [|apply Nat.eqb_refl].
  apply in_or_app. right. left. reflexivity.
Qed.

Lemma restore_waiters (now : num) (s : Bucket) :
  _tokenListeners (_restoreContinuousTokens now s) = _tokenListeners s
  /\ resolved (_restoreContinuousTokens now s) = resolved s
  /\ rejected (_restoreContinuousTokens now s) = rejected s
  /\ nextListener (_restoreContinuousTokens now s) = nextListener s
  /\ _maxTokens (_restoreContinuousTokens now s) = _maxTokens s.
Proof. rewrite restore_frame. repeat split. Qed.

(** On a plain bucket with no waiter, a demand that the consumable tokens
    do not cover: [consumeTokens] fails, and [onceTokensAvailable] leaves
    the one waiter pending. *)
Lemma wait_registered (fuel : nat) (now count : num) (b : Bucket) :
  wf b -> clock_ok now b -> _tokenListeners b = [] ->
  (zero <=? count)%num = true ->
  (count >? _maxTokens b)%num = false ->
  (count <=? fst (_getConsumableTokens now b))%num = false ->
  exists b1,
    consumeTokens (S fuel) now count b
    = Ok (false, _restoreContinuousTokens now b)
    /\ onceTokensAvailable (S fuel) now count (_restoreContinuousTokens now b)
       = Ok (nextListener b, b1)
    /\ wf b1
    /\ _tokenListeners b1 = [(count, nextListener b)]
    /\ resolved b1 = resolved b
    /\ rejected b1 = rejected b.
Proof.
  intros W C HL H0 Hmax Hle.
  pose proof (@consume_outcome fuel now count b W C H0) as O.
  cbv zeta in O. rewrite Hle in O.
  destruct (restore_wf W C) as [W0 F0].
  pose proof (folded_clock_ok F0) as C0.
  destruct (restore_waiters now b) as (EL & ER & EJ & EN & EM).
  set (b0 := _restoreContinuousTokens now b) in *.
  set (s2 := set_tokenListeners
               (Tree.insert count (nextListener b0) (_tokenListeners b0))
               (set_nextListener (S (nextListener b0)) b0)).
  assert (SC : same_core b0 s2) by (constructor; reflexivity).
  pose proof (wf_same_core SC W0) as W2.
  pose proof (clock_ok_same_core SC C0) as C2.
  destruct (check_pass fuel W2 C2) as (b1 & pre & E & Esplit & Eres & Fpre & _).
  destruct (check_all fuel W2 C2) as (b1' & E' & W1 & _).
  rewrite E in E'. injection E' as <-.
  pose proof (check_resolves_any _ _ _ E) as (_ & Erej & _).
  assert (Ec : fst (_getConsumableTokens now s2)
               = fst (_getConsumableTokens now b)).
  { rewrite (consumable_same_core now SC (wf_plain W0)).
    exact (restore_consumable W C). }
  rewrite Ec in Fpre.
  assert (E2 : _tokenListeners s2 = [(count, nextListener b)]).
  { unfold s2. cbn [_tokenListeners set_tokenListeners set_nextListener].
    rewrite EL, HL, EN. reflexivity. }
  rewrite E2 in Esplit.
  assert (Hpre : pre = []).
  { destruct pre as [|e pre]; [reflexivity|]. exfalso.
    inversion Fpre as [|? ? He _]; subst.
    injection Esplit as <- _. cbn [fst] in He. congruence. }
  subst pre. cbn [app map] in Esplit, Eres. rewrite app_nil_r in Eres.
  exists b1. split; [exact O|].
  split.
  { unfold onceTokensAvailable. rewrite EM, Hmax. cbv zeta.
    cbn [_tokenListeners set_nextListener]. fold s2. rewrite E. cbn [of_option bind]. rewrite EN. reflexivity. }
  split; [exact W1|]. split; [symmetry; exact Esplit|].
  split.
  - rewrite Eres. unfold s2. cbn [resolved set_tokenListeners set_nextListener].
    exact ER.
  - rewrite Erej. unfold s2. cbn [rejected set_tokenListeners set_nextListener].
    exact EJ.
Qed.

(** The cancel callback of the only waiter. *)
Lemma cancel_only_waiter (fuel : nat) (now count : num) (id : nat) (b : Bucket) :
  (zero <=? count)%num = true ->
  _tokenListeners b = [(count, id)] ->
  cancelOnceTokensAvailable fuel now count id b
  = Some (set_rejected (rejected b ++ [id])
            (set_checkListenersHandle None (set_tokenListeners [] b))).
Proof.
  intros H0 HL. unfold cancelOnceTokensAvailable. rewrite HL.
  assert (Hn : isNaN count = false) by (destruct count; try reflexivity; discriminate).
  pose proof (@removeListener_unique count id [] [] Hn (Forall_nil _)) as R.
  cbn [app] in R. rewrite R. rewrite (@schedule_idle fuel now (set_tokenListeners [] b) eq_refl).
  reflexivity.
Qed.

Lemma submit_frame (tokenCount priority : num) (L : Limiter) :
  outcomes (snd (submit tokenCount priority L)) = outcomes L
  /\ _tokenBucket (snd (submit tokenCount priority L)) = _tokenBucket L.
Proof.
  unfold submit, _addAwaiter. cbn [snd].
  destruct (Tree.get priority _); split; reflexivity.
Qed.

Lemma submit_set_tokenBucket (tokenCount priority : num) (b : Bucket)
    (L : Limiter) :
  snd (submit tokenCount priority (set_tokenBucket b L))
  = set_tokenBucket b (snd (submit tokenCount priority L)).
Proof.
  unfold submit, _addAwaiter. cbn [snd].
  cbn [_awaiters set_tokenBucket set_nextAwaiter].
  destruct (Tree.get priority _); reflexivity.
Qed.

(** The call of [consumeTokensAsync] when the tokens are not there: it
    awaits the wait promise, and the watcher awaits the race. *)
Lemma begin_step_waits (fuel : nat) (now priority : num) (a : Awaiter)
    (L : Limiter) (b0 b1 : Bucket) (id : nat) :
  consumeTokens fuel now (tokenCount a) (_tokenBucket L) = Ok (false, b0) ->
  onceTokensAvailable fuel now (tokenCount a) b0 = Ok (id, b1) ->
  existsb (Nat.eqb id) (resolved b1) = false ->
  existsb (Nat.eqb id) (rejected b1) = false ->
  begin_step fuel now priority a L
  = Some (mkStep (set_tokenBucket b1 L) priority a false
            (Some (tokenCount a, id)) (Some id) Pending false false Pending
            Pending AwaitingRace false []).
Proof.
  intros Ec Eo Hres Hrej. unfold begin_step, consume_loop, st_bucket.
  cbn [st_awaiter st_limiter]. rewrite Ec, Eo.
  unfold deliver, st_bucket.
  cbn [waiting set_waiting set_cancelWait set_st_bucket set_st_limiter
       st_limiter _tokenBucket set_tokenBucket].
  rewrite Hres, Hrej. reflexivity.
Qed.

Lemma drain_step (fuel : nat) (now : num) (st : Step) (j : job)
    (rest : list job) (st1 : Step) (r : option Step) :
  microtasks st = j :: rest ->
  run_job (S fuel) now j (set_microtasks rest st) = Some st1 ->
  drain fuel now st1 = r ->
  drain (S fuel) now st = r.
Proof. intros E R D. cbn [drain]. rewrite E, R. exact D. Qed.

Lemma drain_done (fuel : nat) (now : num) (st : Step) :
  microtasks st = [] -> drain fuel now st = Some st.
Proof. intro E. destruct fuel; cbn [drain]; rewrite E; reflexivity. Qed.

(** [cancelConsume()] while the consumption awaits its wait promise: the
    wait is cancelled and the consumption is queued to resume with the
    rejection. *)
Lemma cancelConsume_waiting (fuel : nat) (now priority : num) (a : Awaiter)
    (L : Limiter) (id : nat) (bc : Bucket) (cp rp : promise) (w : watcher_pc)
    (sup : bool) (q : list job) :
  cancelOnceTokensAvailable fuel now (tokenCount a) id (_tokenBucket L)
  = Some bc ->
  existsb (Nat.eqb id) (resolved bc) = false ->
  existsb (Nat.eqb id) (rejected bc) = true ->
  cancelConsume fuel now
    (mkStep L priority a false (Some (tokenCount a, id)) (Some id) Pending
       false true cp rp w sup q)
  = Some (mkStep (set_tokenBucket bc L) priority a true
            (Some (tokenCount a, id)) None Pending false true cp rp w sup
            (q ++ [ResumeConsume (Failed CanceledError)])).
Proof.
  intros Ec Hres Hrej. unfold cancelConsume, st_bucket.
  cbn [cancelWait set_shouldCancel st_limiter]. rewrite Ec.
  unfold deliver, st_bucket, set_st_bucket.
  cbn [waiting set_shouldCancel set_st_limiter st_limiter _tokenBucket
       set_tokenBucket].
  rewrite Hres, Hrej. reflexivity.
Qed.

(** The microtasks of a waiting step that has been superseded: the race is
    decided for the cancellation, the catch block cancels the wait and
    awaits the consumption, which fails with [CanceledError]; the watcher
    rethrows and, being superseded, rejects nobody. *)
Lemma drain_cancelled (fuel : nat) (now priority : num) (a : Awaiter)
    (L : Limiter) (id : nat) (bc : Bucket) :
  cancelOnceTokensAvailable (4 + fuel) now (tokenCount a) id (_tokenBucket L)
  = Some bc ->
  existsb (Nat.eqb id) (resolved bc) = false ->
  existsb (Nat.eqb id) (rejected bc) = true ->
  drain (5 + fuel) now
    (mkStep L priority a false (Some (tokenCount a, id)) (Some id) Pending
       false true (Failed CanceledError) Pending AwaitingRace true
       [RaceCancel (Failed CanceledError)])
  = Some (mkStep (set_tokenBucket bc L) priority a true None None
            (Failed CanceledError) true true (Failed CanceledError)
            (Failed CanceledError) (Finished (Failed CanceledError)) true []).
Proof.
  intros Ec Hres Hrej. cbn [Nat.add] in *.
  eapply drain_step with
    (st1 := mkStep L priority a false (Some (tokenCount a, id)) (Some id)
              Pending false true (Failed CanceledError)
              (Failed CanceledError) AwaitingRace true
              [ResumeWatcherRace (Failed CanceledError)]);
    [reflexivity|reflexivity|].
  eapply drain_step with
    (st1 := mkStep (set_tokenBucket bc L) priority a true
              (Some (tokenCount a, id)) None Pending true true
              (Failed CanceledError) (Failed CanceledError)
              (AwaitingConsume CanceledError) true
              [ResumeConsume (Failed CanceledError)]);
    [reflexivity| |].
  { unfold run_job, set_microtasks.
    cbn [isCanceled is_CanceledError andb st_limiter st_priority st_awaiter
         shouldCancel cancelWait waiting consumePromise catchRegistered
         cancelPromise racePromise watcher superseded].
    rewrite (@cancelConsume_waiting (S (S (S (S fuel)))) now priority a L id bc
               (Failed CanceledError) (Failed CanceledError) AwaitingRace true
               [] Ec Hres Hrej).
    reflexivity. }
  eapply drain_step with
    (st1 := mkStep (set_tokenBucket bc L) priority a true None None
              (Failed CanceledError) true true (Failed CanceledError)
              (Failed CanceledError) (AwaitingConsume CanceledError) true
              [RaceConsume (Failed CanceledError);
               ResumeWatcherCatch (Failed CanceledError)]);
    [reflexivity|reflexivity|].
  eapply drain_step with
    (st1 := mkStep (set_tokenBucket bc L) priority a true None None
              (Failed CanceledError) true true (Failed CanceledError)
              (Failed CanceledError) (AwaitingConsume CanceledError) true
              [ResumeWatcherCatch (Failed CanceledError)]);
    [reflexivity|reflexivity|].
  eapply drain_step with
    (st1 := mkStep (set_tokenBucket bc L) priority a true None None
              (Failed CanceledError) true true (Failed CanceledError)
              (Failed CanceledError) (Finished (Failed CanceledError)) true
              []);
    [reflexivity|reflexivity|].
  apply drain_done. reflexivity.
Qed.

Lemma fresh_callback (b : Bucket) :
  settled_once b ->
  ~ In (nextListener b) (resolved b) /\ ~ In (nextListener b) (rejected b).
Proof.
  intros [_ F]. unfold waiter_ids in F.
  apply Forall_app in F. destruct F as [_ F].
  apply Forall_app in F. destruct F as [F1 F2].
  split; intro H;
    [pose proof (proj1 (Forall_forall _ _) F1 _ H) as X
    |pose proof (proj1 (Forall_forall _ _) F2 _ H) as X];
    cbn beta in X; lia.
Qed.

(** A watcher step whose tokens are not there suspends with one waiter
    registered in the bucket. *)
Lemma step_waits (fuel : nat) (now priority : num) (a : Awaiter) (L : Limiter) :
  wf (_tokenBucket L) -> clock_ok now (_tokenBucket L) ->
  _tokenListeners (_tokenBucket L) = [] -> settled_once (_tokenBucket L) ->
  (zero <=? tokenCount a)%num = true ->
  (tokenCount a >? _maxTokens (_tokenBucket L))%num = false ->
  (tokenCount a <=? fst (_getConsumableTokens now (_tokenBucket L)))%num = false ->
  exists b1,
    begin_step (S fuel) now priority a L
    = Some (mkStep (set_tokenBucket b1 L) priority a false
              (Some (tokenCount a, nextListener (_tokenBucket L)))
              (Some (nextListener (_tokenBucket L))) Pending false false
              Pending Pending AwaitingRace false [])
    /\ wf b1
    /\ _tokenListeners b1 = [(tokenCount a, nextListener (_tokenBucket L))]
    /\ resolved b1 = resolved (_tokenBucket L)
    /\ rejected b1 = rejected (_tokenBucket L).
Proof.
  intros W C HL SO H0 Hmax Hle.
  destruct (@wait_registered fuel now (tokenCount a) _ W C HL H0 Hmax Hle)
    as (b1 & Ec & Eo & W1 & EL & ER & EJ).
  destruct (fresh_callback SO) as [F1 F2].
  exists b1. split; [|auto].
  apply (@begin_step_waits (S fuel) now priority a L _ b1 _ Ec Eo).
  - rewrite ER. exact (existsb_eqb_false _ _ F1).
  - rewrite EJ. exact (existsb_eqb_false _ _ F2).
Qed.

(** A superseded watcher whose consumption waits: the wait is cancelled,
    nothing is consumed, the watcher fails with [CanceledError]. *)
Lemma waiting_step_cancelled (fuel : nat) (now priority : num) (a : Awaiter)
    (L : Limiter) (id : nat) :
  (zero <=? tokenCount a)%num = true ->
  _tokenListeners (_tokenBucket L) = [(tokenCount a, id)] ->
  ~ In id (resolved (_tokenBucket L)) ->
  drain (5 + fuel) now
    (cancel_watcher
       (mkStep L priority a false (Some (tokenCount a, id)) (Some id) Pending
          false false Pending Pending AwaitingRace false []))
  = Some (mkStep (set_tokenBucket (wait_cancelled id (_tokenBucket L)) L)
            priority a true None None (Failed CanceledError) true true
            (Failed CanceledError) (Failed CanceledError)
            (Finished (Failed CanceledError)) true []).
Proof.
  intros H0 HL Hres.
  apply (@drain_cancelled fuel now priority a L id
           (wait_cancelled id (_tokenBucket L))).
  - exact (@cancel_only_waiter (4 + fuel) now (tokenCount a) id _ H0 HL).
  - exact (existsb_eqb_false _ _ Hres).
  - exact (existsb_eqb_last id (rejected (_tokenBucket L))).
Qed.

Lemma wait_cancelled_consumable (now : num) (id : nat) (b : Bucket) :
  wf b ->
  fst (_getConsumableTokens now (wait_cancelled id b))
  = fst (_getConsumableTokens now b).
Proof.
  intro W. apply consumable_same_core; [constructor; reflexivity|].
  exact (wf_plain W).
Qed.

Lemma run_turn_submit (fuel : nat) (now tokenCount priority : num) (st : Step) :
  run_turn fuel now [EvSubmit tokenCount priority] st
  = drain fuel now
      (cancel_watcher
         (set_st_limiter (snd (submit tokenCount priority (st_limiter st))) st)).
Proof.
  unfold run_turn, run_events, run_event.
  destruct (submit tokenCount priority (st_limiter st)). reflexivity.
Qed.

Lemma run_turn_cancel (fuel : nat) (now priority : num) (id : nat) (st : Step)
    (L : Limiter) :
  cancelAwaiter id priority (st_limiter st) = (true, L) ->
  run_turn fuel now [EvCancel id priority] st
  = drain fuel now (cancel_watcher (set_st_limiter L st)).
Proof.
  intro E. unfold run_turn, run_events, run_event. rewrite E. reflexivity.
Qed.

(** The cancel callback of the request at the head of the queue. *)
Lemma cancel_head (priority : num) (a : Awaiter) (L : Limiter) :
  queue_ok L -> peekAwaiter L = Some (priority, a) ->
  ~ In (a_id a) (settled_ids L) ->
  exists t' rest,
    _awaiters L = t' ++ [(priority, a :: rest)]
    /\ cancelAwaiter (a_id a) priority L
       = (true,
          set_outcomes (outcomes L ++ [(a_id a, Rejected CanceledError)])
            (set_awaiters
               (t' ++ match rest with [] => [] | _ :: _ => [(priority, rest)] end)
               L)).
Proof.
  intros Q Hpeek Hs.
  destruct (peek_shape Q) as [E|(t' & p & x & rest & E & Hp & F & _)].
  { unfold peekAwaiter in Hpeek. rewrite E in Hpeek. discriminate. }
  rewrite Hp in Hpeek. injection Hpeek as -> ->.
  exists t', rest. split; [exact E|].
  unfold cancelAwaiter, _removeFirstAwaiter.
  destruct (get_app_last F) as (G1 & G2 & G3).
  rewrite E, G1. cbn [removeOne]. rewrite Nat.eqb_refl.
  destruct rest as [|b rest]; cbn [List.length Nat.leb].
  - rewrite G2, app_nil_r.
    rewrite (@settle_fresh (a_id a) (Rejected CanceledError)
               (set_awaiters t' L) Hs).
    reflexivity.
  - rewrite G3.
    rewrite (@settle_fresh (a_id a) (Rejected CanceledError)
               (set_awaiters (t' ++ [(priority, b :: rest)]) L) Hs).
    reflexivity.
Qed.

(** X18. A watcher step for a request that the consumable tokens of its
    plain bucket do not cover (and that nobody else waits on) suspends: the
    consumption registers one waiter and the watcher awaits the race. When
    another request is then made on the limiter, at any later instant and
    before the waiter is called, the step ends within that job: the waiter
    is taken out of the bucket, no token is consumed, the watcher fails
    with [CanceledError], nobody is rejected, and the queue holds the old
    requests and the new one. *)
Theorem X18_superseded_waiting_step_consumes_nothing
    (fuel fuel' : nat) (now now' priority tokenCount' priority' : num)
    (a : Awaiter) (L : Limiter) :
  wf (_tokenBucket L) -> clock_ok now (_tokenBucket L) ->
  _tokenListeners (_tokenBucket L) = [] -> settled_once (_tokenBucket L) ->
  (zero <=? tokenCount a)%num = true ->
  (tokenCount a >? _maxTokens (_tokenBucket L))%num = false ->
  (tokenCount a <=? fst (_getConsumableTokens now (_tokenBucket L)))%num = false ->
  exists st0 st,
    begin_step (S fuel) now priority a L = Some st0
    /\ watcher st0 = AwaitingRace /\ consumePromise st0 = Pending
    /\ microtasks st0 = []
    /\ _tokenListeners (st_bucket st0)
       = [(tokenCount a, nextListener (_tokenBucket L))]
    /\ _awaiters (st_limiter st0) = _awaiters L
    /\ outcomes (st_limiter st0) = outcomes L
    /\ run_turn (5 + fuel') now' [EvSubmit tokenCount' priority'] st0 = Some st
    /\ watcher st = Finished (Failed CanceledError)
    /\ consumePromise st = Failed CanceledError
    /\ microtasks st = []
    /\ _tokenListeners (st_bucket st) = []
    /\ rejected (st_bucket st)
       = rejected (_tokenBucket L) ++ [nextListener (_tokenBucket L)]
    /\ resolved (st_bucket st) = resolved (_tokenBucket L)
    /\ fst (_getConsumableTokens now' (st_bucket st))
       = fst (_getConsumableTokens now' (st_bucket st0))
    /\ outcomes (st_limiter st) = outcomes L
    /\ _awaiters (st_limiter st)
       = _awaiters (snd (submit tokenCount' priority' L)).
Proof.
  intros W C HL SO H0 Hmax Hle.
  destruct (@step_waits fuel now priority a L W C HL SO H0 Hmax Hle)
    as (b1 & Eb & W1 & EL & ER & EJ).
  set (id := nextListener (_tokenBucket L)) in *.
  set (L' := snd (submit tokenCount' priority' (set_tokenBucket b1 L))).
  destruct (submit_frame tokenCount' priority' (set_tokenBucket b1 L))
    as [Eo Et].
  fold L' in Eo, Et. cbn [outcomes _tokenBucket set_tokenBucket] in Eo, Et.
  destruct (fresh_callback SO) as [F1 _].
  assert (HL' : _tokenListeners (_tokenBucket L') = [(tokenCount a, id)])
    by (rewrite Et; exact EL).
  assert (HR' : ~ In id (resolved (_tokenBucket L')))
    by (rewrite Et, ER; exact F1).
  pose proof (@waiting_step_cancelled fuel' now' priority a L' id H0 HL' HR')
    as D.
  eexists. eexists.
  split; [exact Eb|].
  split; [reflexivity|]. split; [reflexivity|]. split; [reflexivity|].
  split; [exact EL|]. split; [reflexivity|]. split; [reflexivity|].
  split; [rewrite run_turn_submit; exact D|].
  split; [reflexivity|]. split; [reflexivity|]. split; [reflexivity|].
  split; [reflexivity|].
  unfold st_bucket. cbn [st_limiter _tokenBucket set_tokenBucket].
  rewrite Et.
  split; [cbn [wait_cancelled rejected set_rejected]; rewrite EJ; reflexivity|].
  split; [exact ER|].
  split; [exact (wait_cancelled_consumable now' id W1)|].
  split; [exact Eo|].
  cbn [_awaiters set_tokenBucket]. unfold L'.
  rewrite submit_set_tokenBucket. reflexivity.
Qed.

(** X19. A watcher step for the request at the head of the queue suspends
    because the consumable tokens of its plain bucket (on which nobody
    else waits) do not cover the request. When the requester then calls
    its cancel callback, before the waiter is called, the request leaves
    the front of its group and is rejected with [CanceledError], the
    waiter is taken out of the bucket, no token is consumed, and the
    watcher fails with [CanceledError]. *)
Theorem X19_request_cancelled_while_its_step_waits
    (fuel fuel' : nat) (now now' priority : num) (a : Awaiter) (L : Limiter) :
  wf (_tokenBucket L) -> clock_ok now (_tokenBucket L) ->
  _tokenListeners (_tokenBucket L) = [] -> settled_once (_tokenBucket L) ->
  queue_ok L -> peekAwaiter L = Some (priority, a) ->
  ~ In (a_id a) (settled_ids L) ->
  (zero <=? tokenCount a)%num = true ->
  (tokenCount a >? _maxTokens (_tokenBucket L))%num = false ->
  (tokenCount a <=? fst (_getConsumableTokens now (_tokenBucket L)))%num = false ->
  exists st0 st t' rest,
    begin_step (S fuel) now priority a L = Some st0
    /\ run_turn (5 + fuel') now' [EvCancel (a_id a) priority] st0 = Some st
    /\ watcher st = Finished (Failed CanceledError)
    /\ consumePromise st = Failed CanceledError
    /\ microtasks st = []
    /\ _tokenListeners (st_bucket st) = []
    /\ rejected (st_bucket st)
       = rejected (_tokenBucket L) ++ [nextListener (_tokenBucket L)]
    /\ fst (_getConsumableTokens now' (st_bucket st))
       = fst (_getConsumableTokens now' (st_bucket st0))
    /\ outcomes (st_limiter st)
       = outcomes L ++ [(a_id a, Rejected CanceledError)]
    /\ _awaiters L = t' ++ [(priority, a :: rest)]
    /\ _awaiters (st_limiter st)
       = t' ++ match rest with [] => [] | _ :: _ => [(priority, rest)] end.
Proof.
  intros W C HL SO Q Hpeek Hs H0 Hmax Hle.
  destruct (@step_waits fuel now priority a L W C HL SO H0 Hmax Hle)
    as (b1 & Eb & W1 & EL & ER & EJ).
  set (id := nextListener (_tokenBucket L)) in *.
  assert (Q' : queue_ok (set_tokenBucket b1 L)) by exact Q.
  assert (P' : peekAwaiter (set_tokenBucket b1 L) = Some (priority, a))
    by exact Hpeek.
  assert (S' : ~ In (a_id a) (settled_ids (set_tokenBucket b1 L))) by exact Hs.
  destruct (@cancel_head priority a _ Q' P' S') as (t' & rest & E & Ecan).
  cbn [_awaiters outcomes set_tokenBucket] in E, Ecan.
  set (L' := set_outcomes (outcomes L ++ [(a_id a, Rejected CanceledError)])
               (set_awaiters
                  (t' ++ match rest with
                         | [] => []
                         | _ :: _ => [(priority, rest)]
                         end) (set_tokenBucket b1 L))) in *.
  destruct (fresh_callback SO) as [F1 _].
  assert (HL' : _tokenListeners (_tokenBucket L') = [(tokenCount a, id)])
    by exact EL.
  assert (HR' : ~ In id (resolved (_tokenBucket L')))
    by (cbn [L' _tokenBucket set_outcomes set_awaiters set_tokenBucket];
        rewrite ER; exact F1).
  pose proof (@waiting_step_cancelled fuel' now' priority a L' id H0 HL' HR')
    as D.
  eexists. eexists. exists t', rest.
  split; [exact Eb|].
  split; [erewrite run_turn_cancel; [exact D|exact Ecan]|].
  split; [reflexivity|]. split; [reflexivity|]. split; [reflexivity|].
  split; [reflexivity|].
  unfold st_bucket. cbn [st_limiter _tokenBucket set_tokenBucket].
  split; [cbn [wait_cancelled rejected set_rejected L' _tokenBucket set_outcomes
               set_awaiters set_tokenBucket]; rewrite EJ; reflexivity|].
  split; [exact (wait_cancelled_consumable now' id W1)|].
  split; [reflexivity|]. split; [exact E|reflexivity].
Qed.

Lemma X18_witness :
  wf (_tokenBucket large_request)
  /\ clock_ok (of_Z 2) (_tokenBucket large_request)
  /\ _tokenListeners (_tokenBucket large_request) = []
  /\ settled_once (_tokenBucket large_request)
  /\ (zero <=? tokenCount (mkAwaiter 0 (of_Z 5)))%num = true
  /\ (tokenCount (mkAwaiter 0 (of_Z 5))
      >? _maxTokens (_tokenBucket large_request))%num = false
  /\ (tokenCount (mkAwaiter 0 (of_Z 5))
      <=? fst (_getConsumableTokens (of_Z 2) (_tokenBucket large_request)))%num
     = false
  /\ exists st0 st,
       begin_step 1 (of_Z 2) (of_Z 0) (mkAwaiter 0 (of_Z 5)) large_request
       = Some st0
       /\ watcher st0 = AwaitingRace /\ consumePromise st0 = Pending
       /\ microtasks st0 = []
       /\ _tokenListeners (st_bucket st0)
          = [(tokenCount (mkAwaiter 0 (of_Z 5)),
              nextListener (_tokenBucket large_request))]
       /\ _awaiters (st_limiter st0) = _awaiters large_request
       /\ outcomes (st_limiter st0) = outcomes large_request
       /\ run_turn 5 (of_Z 3) [EvSubmit (of_Z 1) (of_Z 7)] st0 = Some st
       /\ watcher st = Finished (Failed CanceledError)
       /\ consumePromise st = Failed CanceledError
       /\ microtasks st = []
       /\ _tokenListeners (st_bucket st) = []
       /\ rejected (st_bucket st)
          = rejected (_tokenBucket large_request)
            ++ [nextListener (_tokenBucket large_request)]
       /\ resolved (st_bucket st) = resolved (_tokenBucket large_request)
       /\ fst (_getConsumableTokens (of_Z 3) (st_bucket st))
          = fst (_getConsumableTokens (of_Z 3) (st_bucket st0))
       /\ outcomes (st_limiter st) = outcomes large_request
       /\ _awaiters (st_limiter st)
          = _awaiters (snd (submit (of_Z 1) (of_Z 7) large_request)).
Proof.
  assert (W : wf (_tokenBucket large_request)) by exact accruing_bucket_wf.
  assert (C : clock_ok (of_Z 2) (_tokenBucket large_request))
    by (apply clock_ok_at; [reflexivity|lia]).
  assert (SO : settled_once (_tokenBucket large_request))
    by exact accruing_bucket_settled.
  split; [exact W|]. split; [exact C|]. split; [reflexivity|].
  split; [exact SO|]. split; [reflexivity|]. split; [reflexivity|].
  split; [vm_compute; reflexivity|].
  exact (@X18_superseded_waiting_step_consumes_nothing 0 0 (of_Z 2) (of_Z 3)
           (of_Z 0) (of_Z 1) (of_Z 7) (mkAwaiter 0 (of_Z 5)) large_request
           W C eq_refl SO eq_refl eq_refl eq_refl).
Defined.

Lemma X19_witness :
  wf (_tokenBucket large_request)
  /\ clock_ok (of_Z 2) (_tokenBucket large_request)
  /\ _tokenListeners (_tokenBucket large_request) = []
  /\ settled_once (_tokenBucket large_request)
  /\ queue_ok large_request
  /\ peekAwaiter large_request = Some (of_Z 0, mkAwaiter 0 (of_Z 5))
  /\ ~ In (a_id (mkAwaiter 0 (of_Z 5))) (settled_ids large_request)
  /\ (zero <=? tokenCount (mkAwaiter 0 (of_Z 5)))%num = true
  /\ (tokenCount (mkAwaiter 0 (of_Z 5))
      >? _maxTokens (_tokenBucket large_request))%num = false
  /\ (tokenCount (mkAwaiter 0 (of_Z 5))
      <=? fst (_getConsumableTokens (of_Z 2) (_tokenBucket large_request)))%num
     = false
  /\ exists st0 st t' rest,
       begin_step 1 (of_Z 2) (of_Z 0) (mkAwaiter 0 (of_Z 5)) large_request
       = Some st0
       /\ run_turn 5 (of_Z 3) [EvCancel (a_id (mkAwaiter 0 (of_Z 5))) (of_Z 0)]
            st0 = Some st
       /\ watcher st = Finished (Failed CanceledError)
       /\ consumePromise st = Failed CanceledError
       /\ microtasks st = []
       /\ _tokenListeners (st_bucket st) = []
       /\ rejected (st_bucket st)
          = rejected (_tokenBucket large_request)
            ++ [nextListener (_tokenBucket large_request)]
       /\ fst (_getConsumableTokens (of_Z 3) (st_bucket st))
          = fst (_getConsumableTokens (of_Z 3) (st_bucket st0))
       /\ outcomes (st_limiter st)
          = outcomes large_request
            ++ [(a_id (mkAwaiter 0 (of_Z 5)), Rejected CanceledError)]
       /\ _awaiters large_request
          = t' ++ [(of_Z 0, mkAwaiter 0 (of_Z 5) :: rest)]
       /\ _awaiters (st_limiter st)
          = t' ++ match rest with [] => [] | _ :: _ => [(of_Z 0, rest)] end.
Proof.
  assert (W : wf (_tokenBucket large_request)) by exact accruing_bucket_wf.
  assert (C : clock_ok (of_Z 2) (_tokenBucket large_request))
    by (apply clock_ok_at; [reflexivity|lia]).
  assert (SO : settled_once (_tokenBucket large_request))
    by exact accruing_bucket_settled.
  assert (Q : queue_ok large_request)
    by (apply submit_ok; [apply new_Limiter_ok|reflexivity]).
  assert (S : ~ In (a_id (mkAwaiter 0 (of_Z 5))) (settled_ids large_request))
    by (intros []).
  split; [exact W|]. split; [exact C|]. split; [reflexivity|].
  split; [exact SO|]. split; [exact Q|]. split; [reflexivity|].
  split; [exact S|]. split; [reflexivity|]. split; [reflexivity|].
  split; [vm_compute; reflexivity|].
  exact (@X19_request_cancelled_while_its_step_waits 0 0 (of_Z 2) (of_Z 3)
           (of_Z 0) (mkAwaiter 0 (of_Z 5)) large_request
           W C eq_refl SO Q eq_refl S eq_refl eq_refl eq_refl).
Defined.

End WatcherStep.

(* ================================================================== *)
(** ** Discrete ticks, and disconnecting the restorers *)

Section Ticks.

Open Scope Qc_scope.




(** *** Disconnecting *)

Lemma consumable_set_discrete (now : num) (l : list nat) (s : Bucket) :
  window s = None ->
  fst (_getConsumableTokens now (set_discreteTokenRestorers l s))
  = fst (_getConsumableTokens now s).
Proof.
  intro Hw. unfold _getConsumableTokens.
  cbn [window set_discreteTokenRestorers]. rewrite Hw.
  unfold TokenBucket_getConsumableTokens. cbn [fst].
  rewrite !restore_content. reflexivity.
Qed.

Lemma clock_ok_later (now later : num) (s : Bucket) :
  clock_ok now s -> isFinite later = true -> (now <=? later)%num = true ->
  clock_ok later s.
Proof.
  intros (n & t & En & Et & Ht) Hf Hle.
  destruct later as [l| | |]; try discriminate.
  rewrite En in Hle. cbn in Hle.
  exists l, t. repeat split; [exact Et|qc_lra].
Qed.

(** The consumable tokens of a plain bucket that has no continuous rate
    are its content, at any time. *)
Lemma idle_consumable (now : num) (s : Bucket) :
  wf s -> clock_ok now s -> _continuousRestoreRatePerMs s = zero ->
  fst (_getConsumableTokens now s) = _tokenContent s.
Proof.
  intros W C Hr. unfold _getConsumableTokens. rewrite (wf_plain W).
  unfold TokenBucket_getConsumableTokens. cbn [fst].
  rewrite (restore_zero_rate W C Hr). reflexivity.
Qed.

(** X21. [disconnectRestorers()] on a plain bucket folds the accrual up to
    now and then leaves the bucket without any restorer and with the rate
    zero. The consumable tokens are what they were at that moment, and
    they stay that at every later time: the bucket no longer refills, and
    the tick of a discrete restorer no longer reaches it. *)
Theorem X21_disconnectRestorers_stops_the_refill
    (fuel fuel' : nat) (now later : num) (r : DiscreteTokenRestorer)
    (s : Bucket) :
  wf s -> clock_ok now s ->
  isFinite later = true -> (now <=? later)%num = true ->
  exists s',
    disconnectRestorers (S fuel) now s = Some s'
    /\ _continuousTokenRestorers s' = []
    /\ _discreteTokenRestorers s' = []
    /\ _continuousRestoreRatePerMs s' = zero
    /\ fst (_getConsumableTokens now s') = fst (_getConsumableTokens now s)
    /\ fst (_getConsumableTokens later s') = fst (_getConsumableTokens now s)
    /\ discreteTick fuel' later r s' = Some s'.
Proof.
  intros W C Hf Hle. unfold disconnectRestorers. cbv zeta.
  destruct (restore_wf W C) as [W1 F1].
  set (s3 := set_continuousRestoreRatePerMs zero _).
  assert (W3 : wf s3).
  { destruct W1 as [A1 A2 A3 A4 A5 A6]. subst s3.
    constructor; cbn; try assumption.
    - exists 0. split; [reflexivity|qc_lra].
    - constructor. }
  assert (F3 : folded now s3) by exact F1.
  pose proof (folded_clock_ok F3) as C3.
  destruct (schedule_all fuel W3 C3) as (s4 & E & W4 & C4 & _).
  rewrite E.
  pose proof (installed_schedule _ _ _ E) as EI.
  unfold installed in EI. injection EI as ER EC _.
  cbn [s3 _continuousRestoreRatePerMs _continuousTokenRestorers
       set_continuousRestoreRatePerMs set_continuousTokenRestorers] in ER, EC.
  set (s' := set_discreteTokenRestorers [] s4).
  assert (W' : wf s') by (apply wf_set_discreteTokenRestorers; exact W4).
  assert (C' : clock_ok now s') by exact C4.
  assert (R' : _continuousRestoreRatePerMs s' = zero) by exact ER.
  assert (Enow : fst (_getConsumableTokens now s')
                 = fst (_getConsumableTokens now s)).
  { unfold s'. rewrite (@consumable_set_discrete now [] s4 (wf_plain W4)).
    rewrite (@schedule_consumable fuel now s3 s4 W3 C3 E).
    rewrite (@idle_consumable now s3 W3 C3 eq_refl).
    unfold _getConsumableTokens. rewrite (wf_plain W).
    reflexivity. }
  exists s'. split; [reflexivity|].
  split; [exact EC|]. split; [reflexivity|]. split; [exact R'|].
  split; [exact Enow|].
  split.
  - rewrite (@idle_consumable later s' W' (@clock_ok_later now later s' C' Hf Hle) R').
    rewrite <- (@idle_consumable now s' W' C' R'). exact Enow.
  - reflexivity.
Qed.

Lemma X21_witness :
  wf accruing_bucket /\ clock_ok (of_Z 3) accruing_bucket
  /\ isFinite (of_Z 8) = true /\ (of_Z 3 <=? of_Z 8)%num = true
  /\ exists s',
       disconnectRestorers 1 (of_Z 3) accruing_bucket = Some s'
       /\ _continuousTokenRestorers s' = []
       /\ _discreteTokenRestorers s' = []
       /\ _continuousRestoreRatePerMs s' = zero
       /\ fst (_getConsumableTokens (of_Z 3) s')
          = fst (_getConsumableTokens (of_Z 3) accruing_bucket)
       /\ fst (_getConsumableTokens (of_Z 8) s')
          = fst (_getConsumableTokens (of_Z 3) accruing_bucket)
       /\ discreteTick 1 (of_Z 8) example_periodic s' = Some s'.
Proof.
  assert (C : clock_ok (of_Z 3) accruing_bucket)
    by (apply clock_ok_at; [reflexivity|lia]).
  split; [exact accruing_bucket_wf|]. split; [exact C|].
  split; [reflexivity|]. split; [reflexivity|].
  exact (@X21_disconnectRestorers_stops_the_refill 0 1 (of_Z 3) (of_Z 8)
           example_periodic accruing_bucket accruing_bucket_wf C
           eq_refl eq_refl).
Defined.

End Ticks.

(* ================================================================== *)
(** ** The single timer of a PeriodicTokenRestorer *)

Section PeriodicTimer.

Import Periodic.

Lemma setAdd_nonempty (x : nat) (l : list nat) : setAdd x l <> [].
Proof.
  unfold setAdd. destruct (existsb (Nat.eqb x) l) eqn:E.
  - destruct l; [discriminate|]. discriminate.
  - destruct l; discriminate.
Qed.

Lemma setAdd_NoDup (x : nat) (l : list nat) : NoDup l -> NoDup (setAdd x l).
Proof.
  intro N. unfold setAdd. destruct (existsb (Nat.eqb x) l) eqn:E; [exact N|].
  apply NoDup_snoc; [exact N|].
  intro H. assert (X : existsb (Nat.eqb x) l = true).
  { apply existsb_exists. exists x. split; [exact H|apply Nat.eqb_refl]. }
  congruence.
Qed.

Lemma rate_apply (r : PeriodicTokenRestorer) (c : call) :
  Periodic.rate (apply r c) = Periodic.rate r.
Proof.
  destruct c; cbn [apply]; unfold subscribe, teardown.
  - destruct (_timerHandle r); reflexivity.
  - destruct (_ <=? 0)%nat; reflexivity.
Qed.

Lemma apply_timer_ok (r : PeriodicTokenRestorer) (c : call) :
  timer_ok r -> timer_ok (apply r c).
Proof.
  intros [N H]. destruct c as [cb|cb]; cbn [apply].
  - unfold subscribe.
    destruct H as [(Eh & Ei & El)|(h & Eh & Ei & El)]; rewrite Eh.
    + split; cbn [_listeners _timerHandle intervals Periodic.rate].
      * apply setAdd_NoDup. exact N.
      * right. exists (nextHandle r). rewrite Ei.
        split; [reflexivity|]. split; [reflexivity|apply setAdd_nonempty].
    + split; cbn [_listeners _timerHandle intervals Periodic.rate].
      * apply setAdd_NoDup. exact N.
      * right. exists h. split; [reflexivity|].
        split; [exact Ei|apply setAdd_nonempty].
  - unfold teardown.
    destruct (setDelete cb (_listeners r)) as [|x l] eqn:Ed;
      cbn [List.length Nat.leb].
    + split; cbn [_listeners _timerHandle intervals Periodic.rate];
        [constructor|].
      left. split; [reflexivity|]. split; [|reflexivity].
      destruct H as [(Eh & Ei & El)|(h & Eh & Ei & El)]; rewrite Eh, Ei.
      * reflexivity.
      * cbn. rewrite Nat.eqb_refl. reflexivity.
    + split; cbn [_listeners _timerHandle intervals Periodic.rate].
      * rewrite <- Ed. unfold setDelete. apply NoDup_filter. exact N.
      * destruct H as [(Eh & Ei & El)|(h & Eh & Ei & El)].
        -- rewrite El in Ed. discriminate.
        -- right. exists h. split; [exact Eh|]. split; [exact Ei|discriminate].
Qed.

Lemma run_timer_ok (calls : list call) :
  forall r, timer_ok r ->
            timer_ok (run calls r)
            /\ Periodic.rate (run calls r) = Periodic.rate r.
Proof.
  induction calls as [|c calls IH]; intros r H; [split; [exact H|reflexivity]|].
  cbn [run fold_left].
  destruct (IH _ (apply_timer_ok c H)) as [H1 H2].
  split; [exact H1|]. unfold run in H2. rewrite H2. apply rate_apply.
Qed.

(** *** Who is subscribed *)

Lemma In_setAdd (x y : nat) (l : list nat) :
  In y (setAdd x l) <-> y = x \/ In y l.
Proof.
  unfold setAdd. destruct (existsb (Nat.eqb x) l) eqn:E.
  - apply existsb_exists in E. destruct E as (z & Hz & Ez).
    apply Nat.eqb_eq in Ez. subst z.
    split; [intro H; right; exact H|]. intros [->|H]; assumption.
  - rewrite in_app_iff. cbn [In]. split.
    + intros [H|[<-|[]]]; [right; exact H|left; reflexivity].
    + intros [->|H]; [right; left; reflexivity|left; exact H].
Qed.

Lemma In_setDelete (x y : nat) (l : list nat) :
  In y (setDelete x l) <-> In y l /\ y <> x.
Proof.
  unfold setDelete. rewrite filter_In.
  destruct (Nat.eqb_spec y x) as [->|N]; cbn [negb].
  - split; [intros [_ H]; discriminate|intros [_ H]; contradiction].
  - split; [intros [H _]; split; assumption|intros [H _]; split; [exact H|reflexivity]].
Qed.

Lemma listeners_apply (r : PeriodicTokenRestorer) (c : call) :
  _listeners (apply r c)
  = match c with
    | Subscribe cb => setAdd cb (_listeners r)
    | Teardown cb => setDelete cb (_listeners r)
    end.
Proof.
  destruct c; cbn [apply]; unfold subscribe, teardown.
  - destruct (_timerHandle r); reflexivity.
  - destruct (_ <=? 0)%nat; reflexivity.
Qed.

(** The last call about [cb] in a history extended by one call. *)
Lemma subscribed_snoc (cb : nat) (calls : list call) (c : call) :
  (exists pre post, calls ++ [c] = pre ++ Subscribe cb :: post
                    /\ ~ In (Teardown cb) post)
  <-> c = Subscribe cb
      \/ ((exists pre post, calls = pre ++ Subscribe cb :: post
                            /\ ~ In (Teardown cb) post)
          /\ c <> Teardown cb).
Proof.
  split.
  - intros (pre & post & E & N).
    induction post as [|z post' _] using rev_ind.
    + apply app_inj_tail in E. left. exact (proj2 E).
    + right.
      change (pre ++ Subscribe cb :: post' ++ [z])
        with (pre ++ (Subscribe cb :: post') ++ [z]) in E.
      rewrite app_assoc in E. apply app_inj_tail in E. destruct E as [-> ->].
      split.
      * exists pre, post'. split; [reflexivity|].
        intro H. apply N. apply in_or_app. left. exact H.
      * intros ->. apply N. apply in_or_app. right. left. reflexivity.
  - intros [->|[(pre & post & -> & N) Hc]].
    + exists calls, []. split; [reflexivity|]. intros [].
    + exists pre, (post ++ [c]). split.
      * rewrite <- app_assoc. reflexivity.
      * intro H. apply in_app_or in H. destruct H as [H|[H|[]]].
        -- exact (N H).
        -- exact (Hc H).
Qed.

(** The listeners of the restorer are the callbacks whose last call was a
    subscription. *)
Lemma run_listeners (rate : Rate) (calls : list call) (cb : nat) :
  In cb (_listeners (run calls (new_PeriodicTokenRestorer rate)))
  <-> exists pre post, calls = pre ++ Subscribe cb :: post
                       /\ ~ In (Teardown cb) post.
Proof.
  induction calls as [|c calls IH] using rev_ind.
  - cbn. split; [intros []|].
    intros (pre & post & E & _). destruct pre; discriminate.
  - unfold run in *. rewrite fold_left_app. cbn [fold_left].
    rewrite listeners_apply, subscribed_snoc, <- IH.
    destruct c as [x|x].
    + rewrite In_setAdd. split.
      * intros [->|H]; [left; reflexivity|right; split; [exact H|discriminate]].
      * intros [H|[H _]]; [left; congruence|right; exact H].
    + rewrite In_setDelete. split.
      * intros [H N]. right. split; [exact H|congruence].
      * intros [H|[H N]]; [discriminate|]. split; [exact H|congruence].
Qed.

(** X22. However buckets subscribe to and unsubscribe from one
    [PeriodicTokenRestorer], and in whatever order, the listeners of the
    restorer are the callbacks whose last call was a subscription, each
    of them once. The restorer has at most one interval running in its
    scheduler, of the period [rate.intervalMs], and it runs exactly while
    some callback is subscribed -- the last teardown clears it, the next
    subscription starts a new one. A tick of the running interval calls
    every subscribed callback once with [rate.amount] and calls nothing
    else; an interval that has been cleared calls nobody. *)
Theorem X22_periodic_restorer_runs_one_timer_while_subscribed
    (rate : Rate) (calls : list call) (handle : nat) :
  let r := run calls (new_PeriodicTokenRestorer rate) in
  let subscribed cb :=
    exists pre post, calls = pre ++ Subscribe cb :: post
                     /\ ~ In (Teardown cb) post in
  (forall cb, In cb (_listeners r) <-> subscribed cb)
  /\ NoDup (_listeners r)
  /\ (List.length (intervals r) <= 1)%nat
  /\ (intervals r <> [] <-> exists cb, subscribed cb)
  /\ Forall (fun e => _timerHandle r = Some (fst e)
                      /\ snd e = intervalMs rate) (intervals r)
  /\ NoDup (intervalFires handle r)
  /\ (forall cb a,
        In (cb, a) (intervalFires handle r)
        <-> In handle (map fst (intervals r))
            /\ subscribed cb /\ a = amount rate).
Proof.
  assert (H0 : timer_ok (new_PeriodicTokenRestorer rate)).
  { split; [constructor|]. left. repeat split. }
  destruct (run_timer_ok calls H0) as [[N H] ER].
  cbn [Periodic.rate new_PeriodicTokenRestorer] in ER.
  pose proof (run_listeners rate calls) as ML.
  cbv zeta. set (r := run calls (new_PeriodicTokenRestorer rate)) in *.
  split; [exact ML|]. split; [exact N|].
  assert (Fires : forall cb a,
            In (cb, a)
              (map (fun restoreTokens => (restoreTokens, amount rate))
                 (_listeners r))
            <-> In cb (_listeners r) /\ a = amount rate).
  { intros cb a. rewrite in_map_iff. split.
    - intros (x & E & Hx). injection E as -> <-. split; [exact Hx|reflexivity].
    - intros [Hx ->]. exists cb. split; [reflexivity|exact Hx]. }
  assert (ND : NoDup (map (fun restoreTokens => (restoreTokens, amount rate))
                        (_listeners r))).
  { apply Finite.Injective_map_NoDup; [|exact N].
    intros x y E. injection E as ->. reflexivity. }
  destruct H as [(Eh & Ei & El)|(h & Eh & Ei & El)]; rewrite ?Ei.
  - split; [cbn; lia|].
    split.
    { split; [intro X; contradiction|].
      intros (cb & Hcb). apply ML in Hcb. rewrite El in Hcb. destruct Hcb. }
    split; [constructor|].
    unfold intervalFires. rewrite Ei. cbn [existsb map].
    split; [constructor|].
    intros cb a. split; [intros []|intros [[] _]].
  - split; [cbn; lia|].
    split.
    { split; [|intros _; discriminate]. intros _.
      destruct (_listeners r) as [|x l] eqn:E; [contradiction|].
      exists x. apply ML. left. reflexivity. }
    split.
    { constructor; [|constructor]. cbn [fst snd]. rewrite ER.
      split; [exact Eh|reflexivity]. }
    unfold intervalFires. rewrite Ei. cbn [existsb fst map orb].
    rewrite ER. destruct (Nat.eqb_spec h handle) as [->|Nh]; cbn [orb].
    + split; [exact ND|]. intros cb a. rewrite Fires, ML.
      split; [intros [A B]; split; [left; reflexivity|split; assumption]
             |intros [_ [A B]]; split; assumption].
    + split; [constructor|]. intros cb a.
      split; [intros []|intros [[X|[]] _]; contradiction].
Qed.

Lemma X22_witness :
  let r := run example_calls (new_PeriodicTokenRestorer (d_rate example_periodic)) in
  let subscribed cb :=
    exists pre post, example_calls = pre ++ Subscribe cb :: post
                     /\ ~ In (Teardown cb) post in
  (_listeners r = [1%nat] /\ intervals r = [(1%nat, of_Z 1000)]
   /\ intervalFires 1 r = [(1%nat, of_Z 10)] /\ intervalFires 0 r = [])
  /\ (forall cb, In cb (_listeners r) <-> subscribed cb)
  /\ NoDup (_listeners r)
  /\ (List.length (intervals r) <= 1)%nat
  /\ (intervals r <> [] <-> exists cb, subscribed cb)
  /\ Forall (fun e => _timerHandle r = Some (fst e)
                      /\ snd e = intervalMs (d_rate example_periodic))
       (intervals r)
  /\ NoDup (intervalFires 1 r)
  /\ (forall cb a,
        In (cb, a) (intervalFires 1 r)
        <-> In 1%nat (map fst (intervals r))
            /\ subscribed cb /\ a = amount (d_rate example_periodic)).
Proof.
  split; [repeat split|].
  exact (@X22_periodic_restorer_runs_one_timer_while_subscribed
           (d_rate example_periodic) example_calls 1).
Defined.

End PeriodicTimer.

(* ================================================================== *)
(** ** The clean-up timer of the rolling window *)

Section CleanUp.

Open Scope Qc_scope.

Lemma dropExpired_all (expiry : num) (h : Tree.tree num) :
  Forall (fun e => (fst e <? expiry)%num = true) h ->
  dropExpired expiry h = [].
Proof.
  induction 1 as [|[k v] h Hk _ IH]; [reflexivity|].
  cbn [dropExpired]. cbn [fst] in Hk. rewrite Hk. exact IH.
Qed.

(** X23. The clean-up timer of a rolling-window bucket is armed, at each
    consumption, for [historyIntervalMs + 100] ms. When the entries of the
    ledger are all from [now] or before and the timer armed at [now] fires
    -- at [now + historyIntervalMs + 100] or later -- its callback empties
    the ledger: nothing counts against the window any more, and the
    consumable tokens are the smaller of [maxHistoryTokens] and what the
    plain bucket holds. *)
Theorem X23_clean_up_timer_empties_the_idle_ledger
    (now later : num) (s : Bucket) (w : Window) :
  window s = Some w ->
  finite_nonneg (_historyIntervalMs w) ->
  finite_nonneg (_maxHistoryTokens w) ->
  Forall (fun e => (fst e <=? now)%num = true) (_history w) ->
  isFinite now = true -> isFinite later = true ->
  (now + (_historyIntervalMs w + of_Z 100) <=? later)%num = true ->
  exists w',
    window (cleanUpTimerFires later s) = Some w'
    /\ _history w' = []
    /\ _historyIntervalMs w' = _historyIntervalMs w
    /\ _maxHistoryTokens w' = _maxHistoryTokens w
    /\ spec_windowSpend later w' = zero
    /\ fst (_getConsumableTokens later (cleanUpTimerFires later s))
       = Num.min (_maxHistoryTokens w)
           (fst (TokenBucket_getConsumableTokens later s)).
Proof.
  intros Ew (i & Ei & Hi) (m & Em & Hm) Hk Hn Hl Hle.
  destruct now as [n| | |]; try discriminate.
  destruct later as [l| | |]; try discriminate.
  assert (Hd : dropExpired (Fin l - _historyIntervalMs w)%num (_history w) = []).
  { apply dropExpired_all. revert Hk. apply Forall_impl. intros [k v].
    cbn [fst]. rewrite Ei in *. intro H.
    destruct k as [k| | |]; cbn in H, Hle |- *; try discriminate;
      try reflexivity.
    assert (H100 : 0 < Q2Qc (inject_Z 100)) by reflexivity.
    generalize dependent (Q2Qc (inject_Z 100)). intros c Hle H100.
    qc_lra. }
  unfold cleanUpTimerFires. rewrite Ew.
  unfold _cleanupHistoricTokens. cbv zeta. rewrite Hd.
  exists (set_history [] w).
  split; [reflexivity|]. split; [reflexivity|]. split; [reflexivity|].
  split; [reflexivity|]. split; [reflexivity|].
  unfold _getConsumableTokens. cbn [window set_window].
  unfold _countAndCleanupHistoricTokens, _cleanupHistoricTokens.
  cbn [_history set_history dropExpired Tree.forEach fold_left
       _maxHistoryTokens _historyIntervalMs].
  unfold TokenBucket_getConsumableTokens. cbn [fst].
  rewrite !restore_content. cbv zeta.
  cbn [_tokenContent _maxTokens _continuousRestoreRatePerMs
       _continuousRestoreLastTimestamp set_window].
  rewrite Em. cbn [Num.sub Num.neg Num.add zero].
  replace (m + - 0) with m by ring. reflexivity.
Qed.

Lemma X23_witness :
  window example_rolling = Some example_window
  /\ finite_nonneg (_historyIntervalMs example_window)
  /\ finite_nonneg (_maxHistoryTokens example_window)
  /\ Forall (fun e => (fst e <=? of_Z 100)%num = true) (_history example_window)
  /\ isFinite (of_Z 100) = true /\ isFinite (of_Z 1200) = true
  /\ (of_Z 100 + (_historyIntervalMs example_window + of_Z 100)
      <=? of_Z 1200)%num = true
  /\ exists w',
       window (cleanUpTimerFires (of_Z 1200) example_rolling) = Some w'
       /\ _history w' = []
       /\ _historyIntervalMs w' = _historyIntervalMs example_window
       /\ _maxHistoryTokens w' = _maxHistoryTokens example_window
       /\ spec_windowSpend (of_Z 1200) w' = zero
       /\ fst (_getConsumableTokens (of_Z 1200)
                 (cleanUpTimerFires (of_Z 1200) example_rolling))
          = Num.min (_maxHistoryTokens example_window)
              (fst (TokenBucket_getConsumableTokens (of_Z 1200) example_rolling)).
Proof.
  assert (I : finite_nonneg (_historyIntervalMs example_window))
    by (apply of_Z_nonneg; lia).
  assert (M : finite_nonneg (_maxHistoryTokens example_window))
    by (apply of_Z_nonneg; lia).
  assert (K : Forall (fun e => (fst e <=? of_Z 100)%num = true)
                (_history example_window))
    by (repeat constructor).
  split; [reflexivity|]. split; [exact I|]. split; [exact M|].
  split; [exact K|]. split; [reflexivity|]. split; [reflexivity|].
  split; [reflexivity|].
  exact (@X23_clean_up_timer_empties_the_idle_ledger (of_Z 100) (of_Z 1200)
           example_rolling example_window eq_refl I M K eq_refl eq_refl
           eq_refl).
Defined.

End CleanUp.
